(** * A size-ordered tree allocator (mm.c): shallow embedding and properties

    The allocator of [src/mm.c] manages one contiguous heap obtained from
    [mem_sbrk].  Blocks carry boundary tags (a header and a footer word),
    free blocks store the two links of a binary search tree keyed by block
    size in the first two words of their payload.

    The embedding follows the C text function by function.  Machine words
    are 32 bits wide (the code stores pointers in [int] and reads tags
    through [size_t *] with [WSIZE = 4]); they are modelled as [Z] with the
    wrap-around written out.  The heap is a word-addressed store with an
    explicit validity check, so that an access outside the heap, or one
    that is not word aligned, is a [Fault]. *)

From Stdlib Require Import ZArith List Lia Bool Permutation Ascii.
Import ListNotations.
Open Scope Z_scope.

(** ** Machine words *)

Definition WORD_MOD : Z := 4294967296.
Definition INT_MAX1 : Z := 2147483648.

(** Arithmetic on [size_t] and on pointers wraps modulo [2^32]. *)
Definition wrap (x : Z) : Z := x mod WORD_MOD.
Definition wadd (a b : Z) : Z := wrap (a + b).
Definition wsub (a b : Z) : Z := wrap (a - b).
Definition wmul (a b : Z) : Z := wrap (a * b).

(** The cast [(int) w] of a 32-bit word. *)
Definition to_int (w : Z) : Z := if w <? INT_MAX1 then w else w - WORD_MOD.

(** ** Constants and macros of mm.c *)

Definition WSIZE : Z := 4.
Definition DSIZE : Z := 8.
Definition CHUNKSIZE : Z := Z.shiftl 1 12.
Definition OVERHEAD : Z := 8.
Definition NULL : Z := 0.

Definition MAX (x y : Z) : Z := if x >? y then x else y.

(** [~0x7] seen as a 32-bit word. *)
Definition MASK7 : Z := wrap (Z.lnot 7).

Definition PACK (size alloc : Z) : Z := Z.lor size alloc.

(** ** The heap and the allocator's globals *)

#[projections(primitive)]
Record state : Type := mkState {
  mem : Z -> Z;          (* the word stored at each (aligned) byte address *)
  mem_start_brk : Z;     (* first byte of the sink's region *)
  mem_brk : Z;           (* current end of the heap *)
  mem_max_addr : Z;      (* the sink cannot grow past this address *)
  sbrk_fail : Z;         (* the pointer the sink returns when it fails *)
  heap_listp : Z;
  tree_root : Z
}.

Definition upd (m : Z -> Z) (a v : Z) : Z -> Z :=
  fun x => if x =? a then v else m x.

Definition set_mem (st : state) (m : Z -> Z) : state :=
  mkState m (mem_start_brk st) (mem_brk st) (mem_max_addr st) (sbrk_fail st)
          (heap_listp st) (tree_root st).

Definition set_brk (st : state) (b : Z) : state :=
  mkState (mem st) (mem_start_brk st) b (mem_max_addr st) (sbrk_fail st)
          (heap_listp st) (tree_root st).

Definition set_heap_listp (st : state) (p : Z) : state :=
  mkState (mem st) (mem_start_brk st) (mem_brk st) (mem_max_addr st) (sbrk_fail st)
          p (tree_root st).

Definition set_tree_root (st : state) (p : Z) : state :=
  mkState (mem st) (mem_start_brk st) (mem_brk st) (mem_max_addr st) (sbrk_fail st)
          (heap_listp st) p.

(** Outcomes of a run: a value, a memory fault (undefined behaviour in C),
    a recursion that never returns, or [exit(code)] with the state at the
    time of the call. *)
Inductive result (A : Type) : Type :=
| Ok (a : A)
| Fault
| Diverge
| Exit (code : Z) (st : state).
Arguments Ok {A} a.
Arguments Fault {A}.
Arguments Diverge {A}.
Arguments Exit {A} code st.

Definition M (A : Type) : Type := state -> result (A * state).

Definition ret {A} (a : A) : M A := fun st => Ok (a, st).

Definition bind {A B} (c : M A) (k : A -> M B) : M B :=
  fun st =>
    match c st with
    | Ok (a, st') => k a st'
    | Fault => Fault
    | Diverge => Diverge
    | Exit code s => Exit code s
    end.

Declare Scope mm_scope.
Delimit Scope mm_scope with mm.
Notation "x <- c ;; k" := (bind c (fun x => k))
  (at level 61, c at next level, right associativity) : mm_scope.
Notation "c ;;; k" := (bind c (fun _ => k))
  (at level 61, right associativity) : mm_scope.
Open Scope mm_scope.

Definition fault {A} : M A := fun _ => Fault.
Definition diverge {A} : M A := fun _ => Diverge.
Definition exit {A} (code : Z) : M A := fun st => Exit code st.

(** A word access is defined when it is aligned and inside the heap. *)
Definition valid (st : state) (p : Z) : bool :=
  (p mod 4 =? 0) && (mem_start_brk st <=? p) && (p + 4 <=? mem_brk st).

Definition GET (p : Z) : M Z :=
  fun st => if valid st p then Ok (mem st p, st) else Fault.

Definition PUT (p val : Z) : M unit :=
  fun st => if valid st p then Ok (tt, set_mem st (upd (mem st) p val)) else Fault.

Definition get_root : M Z := fun st => Ok (tree_root st, st).
Definition put_root (p : Z) : M unit := fun st => Ok (tt, set_tree_root st p).
Definition get_heap_listp : M Z := fun st => Ok (heap_listp st, st).
Definition put_heap_listp (p : Z) : M unit := fun st => Ok (tt, set_heap_listp st p).

Definition RIGHT (bp : Z) : M Z := GET (wadd bp WSIZE).
Definition LEFT (bp : Z) : M Z := GET bp.
Definition SETLEFT (bp bq : Z) : M unit := PUT bp bq.
Definition SETRIGHT (bp bq : Z) : M unit := PUT (wadd bp WSIZE) bq.

(** [GETSIZE] reads the header through [int *]: its value is signed. *)
Definition GETSIZE (bp : Z) : M Z :=
  v <- GET (wsub bp WSIZE) ;; ret (to_int (Z.land v MASK7)).

Definition GET_SIZE (p : Z) : M Z := v <- GET p ;; ret (Z.land v MASK7).
Definition GET_ALLOC (p : Z) : M Z := v <- GET p ;; ret (Z.land v 1).

Definition HDRP (bp : Z) : Z := wsub bp WSIZE.
Definition FTRP (bp : Z) : M Z :=
  s <- GET_SIZE (HDRP bp) ;; ret (wsub (wadd bp s) DSIZE).
Definition NEXT_BLKP (bp : Z) : M Z :=
  s <- GET_SIZE (wsub bp WSIZE) ;; ret (wadd bp s).
Definition PREV_BLKP (bp : Z) : M Z :=
  s <- GET_SIZE (wsub bp DSIZE) ;; ret (wsub bp s).

(** ** The heap sink *)

(** Modelled from the spec: [mem_sbrk] belongs to memlib, which is not part
    of the sources.  It enlarges the heap tail by [incr] bytes and returns
    the former tail, or a failure sentinel when the region is exhausted.
    The sentinel is a field of the state: [mm_init] tests the result
    against [NULL] while [extend_heap] tests it against [-1]. *)
Definition mem_sbrk (incr : Z) : M Z :=
  fun st =>
    if mem_brk st + incr <=? mem_max_addr st
    then Ok (mem_brk st, set_brk st (mem_brk st + incr))
    else Ok (sbrk_fail st, st).

(** The recursive tree functions have no bound of their own.  A descent
    that takes more steps than the heap has bytes has met some node twice
    and never returns; the model reports it as [Diverge]. *)
Definition heap_fuel (st : state) : nat :=
  S (Z.to_nat (mem_brk st - mem_start_brk st)).

(** ** The free-block index *)

Definition mm_children (root : Z) : M Z :=
  l <- LEFT root ;;
  let child_num := if negb (l =? NULL) then 1 else 0 in
  r <- RIGHT root ;;
  let child_num := if negb (r =? NULL) then child_num + 1 else child_num in
  ret child_num.

Fixpoint mm_replace_fuel (fuel : nat) (bp : Z) : M Z :=
  match fuel with
  | O => diverge
  | S f =>
      r <- RIGHT bp ;;
      if r =? NULL then ret bp
      else mm_replace_fuel f r
  end.

Definition mm_replace (bp : Z) : M Z :=
  fun st => mm_replace_fuel (heap_fuel st) bp st.

Fixpoint mm_parent_fuel (fuel : nat) (root bp : Z) : M Z :=
  match fuel with
  | O => diverge
  | S f =>
      if bp =? root then ret NULL
      else
        sb <- GETSIZE bp ;;
        sr <- GETSIZE root ;;
        if sb <=? sr then
          l <- LEFT root ;;
          if l =? bp then ret root
          else l' <- LEFT root ;; mm_parent_fuel f l' bp
        else
          r <- RIGHT root ;;
          if r =? bp then ret root
          else r' <- RIGHT root ;; mm_parent_fuel f r' bp
  end.

Definition mm_parent (root bp : Z) : M Z :=
  fun st => mm_parent_fuel (heap_fuel st) root bp st.

Fixpoint mm_insert_fuel (fuel : nat) (root bp : Z) : M Z :=
  match fuel with
  | O => diverge
  | S f =>
      if root =? NULL then
        SETLEFT bp NULL ;;;
        SETRIGHT bp NULL ;;;
        ret bp
      else
        sb <- GETSIZE bp ;;
        sr <- GETSIZE root ;;
        if sb <=? sr then
          l <- LEFT root ;;
          l' <- mm_insert_fuel f l bp ;;
          SETLEFT root l' ;;;
          ret root
        else
          r <- RIGHT root ;;
          r' <- mm_insert_fuel f r bp ;;
          SETRIGHT root r' ;;;
          ret root
  end.

Definition mm_insert (root bp : Z) : M Z :=
  fun st => mm_insert_fuel (heap_fuel st) root bp st.

(** The three branches of [mm_remove] reattach [child] (possibly [NULL])
    in the slot of [bp] below [parent_node]. *)
Definition reattach (parent_node bp child root : Z) : M Z :=
  if negb (parent_node =? NULL) then
    l <- LEFT parent_node ;;
    (if l =? bp then SETLEFT parent_node child
     else SETRIGHT parent_node child) ;;;
    ret root
  else ret child.

Fixpoint mm_remove_fuel (fuel : nat) (root bp : Z) : M Z :=
  match fuel with
  | O => diverge
  | S f =>
      c <- mm_children bp ;;
      if c =? 0 then
        parent_node <- mm_parent root bp ;;
        reattach parent_node bp NULL root
      else
        c' <- mm_children bp ;;
        if c' =? 1 then
          parent_node <- mm_parent root bp ;;
          l <- LEFT bp ;;
          child <- (if negb (l =? NULL) then LEFT bp else RIGHT bp) ;;
          reattach parent_node bp child root
        else
          parent_node <- mm_parent root bp ;;
          l <- LEFT bp ;;
          replacement <- mm_replace l ;;
          l' <- LEFT bp ;;
          new_bp <- mm_remove_fuel f l' replacement ;;
          SETLEFT replacement new_bp ;;;
          r <- RIGHT bp ;;
          SETRIGHT replacement r ;;;
          reattach parent_node bp replacement root
  end.

Definition mm_remove (root bp : Z) : M Z :=
  fun st => mm_remove_fuel (heap_fuel st) root bp st.

(** [mm_fitter] takes its size as [int]; when neither test holds the C
    function falls off its end without a value. *)
Fixpoint mm_fitter_fuel (fuel : nat) (root size : Z) : M Z :=
  match fuel with
  | O => diverge
  | S f =>
      if root =? NULL then ret NULL
      else
        s <- GETSIZE root ;;
        if s >=? size then ret root
        else
          s' <- GETSIZE root ;;
          if s' <? size then
            r <- RIGHT root ;; mm_fitter_fuel f r size
          else fault
  end.

Definition mm_fitter (root size : Z) : M Z :=
  fun st => mm_fitter_fuel (heap_fuel st) root size st.

(** ** Coalescing, placement and heap extension *)

Definition coalesce (bp : Z) : M Z :=
  pb <- PREV_BLKP bp ;;
  pf <- FTRP pb ;;
  prev_alloc <- GET_ALLOC pf ;;
  nb <- NEXT_BLKP bp ;;
  next_alloc <- GET_ALLOC (HDRP nb) ;;
  size <- GET_SIZE (HDRP bp) ;;
  if negb (prev_alloc =? 0) && negb (next_alloc =? 0) then      (* Case 1 *)
    ret bp
  else if negb (prev_alloc =? 0) && (next_alloc =? 0) then      (* Case 2 *)
    nb <- NEXT_BLKP bp ;;
    ns <- GET_SIZE (HDRP nb) ;;
    let size := wadd size ns in
    root <- get_root ;;
    nb <- NEXT_BLKP bp ;;
    root' <- mm_remove root nb ;;
    put_root root' ;;;
    PUT (HDRP bp) (PACK size 0) ;;;
    f <- FTRP bp ;;
    PUT f (PACK size 0) ;;;
    ret bp
  else if (prev_alloc =? 0) && negb (next_alloc =? 0) then      (* Case 3 *)
    pb <- PREV_BLKP bp ;;
    ps <- GET_SIZE (HDRP pb) ;;
    let size := wadd size ps in
    root <- get_root ;;
    pb <- PREV_BLKP bp ;;
    root' <- mm_remove root pb ;;
    put_root root' ;;;
    f <- FTRP bp ;;
    PUT f (PACK size 0) ;;;
    pb <- PREV_BLKP bp ;;
    PUT (HDRP pb) (PACK size 0) ;;;
    pb <- PREV_BLKP bp ;;
    ret pb
  else                                                          (* Case 4 *)
    pb <- PREV_BLKP bp ;;
    ps <- GET_SIZE (HDRP pb) ;;
    nb <- NEXT_BLKP bp ;;
    nf <- FTRP nb ;;
    ns <- GET_SIZE nf ;;
    let size := wadd size (wadd ps ns) in
    root <- get_root ;;
    nb <- NEXT_BLKP bp ;;
    root' <- mm_remove root nb ;;
    put_root root' ;;;
    root <- get_root ;;
    pb <- PREV_BLKP bp ;;
    root' <- mm_remove root pb ;;
    put_root root' ;;;
    pb <- PREV_BLKP bp ;;
    PUT (HDRP pb) (PACK size 0) ;;;
    nb <- NEXT_BLKP bp ;;
    nf <- FTRP nb ;;
    PUT nf (PACK size 0) ;;;
    pb <- PREV_BLKP bp ;;
    ret pb.

Definition extend_heap (words : Z) : M Z :=
  let size := if negb (words mod 2 =? 0) then wmul (wadd words 1) WSIZE
              else wmul words WSIZE in
  bp <- mem_sbrk size ;;
  if to_int bp =? -1 then ret NULL
  else
    PUT (HDRP bp) (PACK size 0) ;;;
    f <- FTRP bp ;;
    PUT f (PACK size 0) ;;;
    nb <- NEXT_BLKP bp ;;
    PUT (HDRP nb) (PACK 0 1) ;;;
    coalesce bp.

Definition place (bp asize : Z) : M Z :=
  csize <- GET_SIZE (HDRP bp) ;;
  if wsub csize asize >=? 6 * OVERHEAD then
    nb <- NEXT_BLKP bp ;;
    ns <- GETSIZE nb ;;
    pb <- PREV_BLKP bp ;;
    ps <- GETSIZE pb ;;
    if ns >? ps then
      PUT (HDRP bp) (PACK asize 1) ;;;
      f <- FTRP bp ;;
      PUT f (PACK asize 1) ;;;
      blah <- NEXT_BLKP bp ;;
      PUT (HDRP blah) (PACK (wsub csize asize) 0) ;;;
      f <- FTRP blah ;;
      PUT f (PACK (wsub csize asize) 0) ;;;
      root <- get_root ;;
      root' <- mm_insert root blah ;;
      put_root root' ;;;
      ret bp
    else
      PUT (HDRP bp) (PACK (wsub csize asize) 0) ;;;
      f <- FTRP bp ;;
      PUT f (PACK (wsub csize asize) 0) ;;;
      blah <- NEXT_BLKP bp ;;
      PUT (HDRP blah) (PACK asize 1) ;;;
      f <- FTRP blah ;;
      PUT f (PACK asize 1) ;;;
      root <- get_root ;;
      root' <- mm_insert root bp ;;
      put_root root' ;;;
      ret blah
  else
    PUT (HDRP bp) (PACK csize 1) ;;;
    f <- FTRP bp ;;
    PUT f (PACK csize 1) ;;;
    ret bp.

(** ** Public entry points *)

Definition mm_init : M Z :=
  put_root NULL ;;;
  p <- mem_sbrk (4 * WSIZE) ;;
  put_heap_listp p ;;;
  if p =? NULL then ret (-1)
  else
    h <- get_heap_listp ;;
    PUT h 0 ;;;
    PUT (wadd h WSIZE) (PACK OVERHEAD 1) ;;;
    PUT (wadd h DSIZE) (PACK OVERHEAD 1) ;;;
    PUT (wadd (wadd h WSIZE) DSIZE) (PACK 0 1) ;;;
    put_heap_listp (wadd h DSIZE) ;;;
    bp <- extend_heap (CHUNKSIZE / WSIZE) ;;
    if bp =? NULL then ret (-1)
    else
      root <- get_root ;;
      root' <- mm_insert root bp ;;
      put_root root' ;;;
      ret 0.

(** The adjusted block size computed by [mm_malloc] ([size_t] arithmetic). *)
Definition adjust (size : Z) : Z :=
  if size <=? DSIZE then DSIZE + OVERHEAD
  else wmul DSIZE (wadd size (OVERHEAD + (DSIZE - 1)) / DSIZE).

Definition mm_malloc (size : Z) : M Z :=
  if size <=? 0 then ret NULL
  else
    let asize := adjust size in
    root <- get_root ;;
    bp <- mm_fitter root (to_int asize) ;;
    if negb (bp =? NULL) then
      root <- get_root ;;
      root' <- mm_remove root bp ;;
      put_root root' ;;;
      place bp asize
    else
      let extendsize := MAX asize CHUNKSIZE in
      bp <- extend_heap (extendsize / WSIZE) ;;
      if bp =? NULL then ret NULL
      else place bp asize.

(** C leaves the order in which the two arguments of
    [mm_insert(tree_root, coalesce(bp))] are evaluated unspecified.  The
    model takes the order of gcc on IA-32, last argument first: the call to
    [coalesce], which may assign [tree_root], comes before the read of
    [tree_root]. *)
Definition mm_free (bp : Z) : M unit :=
  size <- GET_SIZE (HDRP bp) ;;
  PUT (HDRP bp) (PACK size 0) ;;;
  f <- FTRP bp ;;
  PUT f (PACK size 0) ;;;
  c <- coalesce bp ;;
  root <- get_root ;;
  root' <- mm_insert root c ;;
  put_root root'.

(** ** Copying bytes *)

(** Words are little-endian (IA-32): byte [i] of a word is bits [8i..8i+7]. *)
Definition byte_of (w i : Z) : Z := Z.land (Z.shiftr w (8 * i)) 255.

Definition set_byte_of (w i b : Z) : Z :=
  Z.lor (Z.ldiff w (Z.shiftl 255 (8 * i))) (Z.shiftl b (8 * i)).

Definition load_byte (a : Z) : M Z :=
  w <- GET (a - a mod 4) ;; ret (byte_of w (a mod 4)).

Definition store_byte (a b : Z) : M unit :=
  w <- GET (a - a mod 4) ;; PUT (a - a mod 4) (set_byte_of w (a mod 4) b).

(** The C library's [memcpy], one byte at a time from the low address. *)
Fixpoint memcpy_bytes (n : nat) (dst src : Z) : M unit :=
  match n with
  | O => ret tt
  | S k =>
      b <- load_byte src ;;
      store_byte dst b ;;;
      memcpy_bytes k (wadd dst 1) (wadd src 1)
  end.

Definition memcpy (dst src n : Z) : M unit := memcpy_bytes (Z.to_nat n) dst src.

Definition mm_realloc (ptr size : Z) : M Z :=
  newp <- mm_malloc size ;;
  if newp =? NULL then exit 1
  else
    copySize <- GET_SIZE (HDRP ptr) ;;
    let copySize := if size <? copySize then size else copySize in
    memcpy newp ptr copySize ;;;
    mm_free ptr ;;;
    ret newp.

(** ** The heap checker *)

(** What the checker prints: one constructor for each format string, with
    the arguments of the format.  A size printed with [%d] is read as an
    [int]; an allocation flag is printed as one of the characters ['a']
    and ['f']. *)
Inductive line : Type :=
| Heap_line (p : Z)
| Bad_prologue
| Bad_epilogue
| EOL_line (bp : Z)
| Block_line (bp hsize : Z) (halloc : ascii) (fsize : Z) (falloc : ascii)
| Not_aligned (bp : Z)
| Tag_mismatch.

Definition flag_char (alloc : Z) : ascii :=
  if negb (alloc =? 0) then "a"%char else "f"%char.

Definition printblock (bp : Z) : M (list line) :=
  hsize <- GET_SIZE (HDRP bp) ;;
  halloc <- GET_ALLOC (HDRP bp) ;;
  f <- FTRP bp ;;
  fsize <- GET_SIZE f ;;
  f <- FTRP bp ;;
  falloc <- GET_ALLOC f ;;
  if hsize =? 0 then ret [EOL_line bp]
  else ret [Block_line bp (to_int hsize) (flag_char halloc)
                       (to_int fsize) (flag_char falloc)].

Definition checkblock (bp : Z) : M (list line) :=
  let out := if negb (bp mod 8 =? 0) then [Not_aligned bp] else [] in
  h <- GET (HDRP bp) ;;
  f <- FTRP bp ;;
  v <- GET f ;;
  ret (out ++ (if negb (h =? v) then [Tag_mismatch] else [])).

(** The loop of [mm_checkheap]: it returns the block pointer at which it
    stops, with the lines printed on the way.  The loop writes nothing, so
    one that runs for more rounds than the heap has bytes has met a block
    pointer twice and never ends. *)
Fixpoint checkheap_loop (fuel : nat) (verbose bp : Z) : M (Z * list line) :=
  match fuel with
  | O => diverge
  | S f =>
      s <- GET_SIZE (HDRP bp) ;;
      if s >? 0 then
        o1 <- (if negb (verbose =? 0) then printblock bp else ret []) ;;
        o2 <- checkblock bp ;;
        nb <- NEXT_BLKP bp ;;
        r <- checkheap_loop f verbose nb ;;
        ret (fst r, o1 ++ o2 ++ snd r)
      else ret (bp, [])
  end.

Definition mm_checkheap (verbose : Z) : M (list line) :=
  h <- get_heap_listp ;;
  let o0 := if negb (verbose =? 0) then [Heap_line h] else [] in
  s <- GET_SIZE (HDRP h) ;;
  bad <- (if negb (s =? DSIZE) then ret true
          else a <- GET_ALLOC (HDRP h) ;; ret (a =? 0)) ;;
  let o1 := if (bad : bool) then [Bad_prologue] else [] in
  o2 <- checkblock h ;;
  r <- (fun st => checkheap_loop (heap_fuel st) verbose h st) ;;
  let bp := fst r in
  o3 <- (if negb (verbose =? 0) then printblock bp else ret []) ;;
  s <- GET_SIZE (HDRP bp) ;;
  bad <- (if negb (s =? 0) then ret true
          else a <- GET_ALLOC (HDRP bp) ;; ret (a =? 0)) ;;
  let o4 := if (bad : bool) then [Bad_epilogue] else [] in
  ret (o0 ++ o1 ++ o2 ++ snd r ++ o3 ++ o4).

(** * Abstract state: trees, block lists and invariants *)

(** ** Heap accesses and nodes of the index *)

Definition in_heap (st : state) (p : Z) : Prop :=
  p mod 4 = 0 /\ mem_start_brk st <= p /\ p + 4 <= mem_brk st.

Definition bounds (st : state) : Prop :=
  0 <= mem_start_brk st /\ mem_brk st <= WORD_MOD.

(** A node of the index: the block pointer of a free block, whose header
    and two link words lie in the heap. *)
Definition node_ok (st : state) (p : Z) : Prop :=
  p mod 4 = 0 /\ mem_start_brk st + 4 <= p /\ p + 8 <= mem_brk st.

Definition key (m : Z -> Z) (p : Z) : Z := to_int (Z.land (m (p - 4)) MASK7).

(** ** The index as an abstract tree *)

Inductive tree : Type :=
| E
| T (l : tree) (p k : Z) (r : tree).

Definition root_of (t : tree) : Z :=
  match t with E => NULL | T _ p _ _ => p end.

Fixpoint elems (t : tree) : list Z :=
  match t with E => [] | T l p _ r => elems l ++ p :: elems r end.

Fixpoint height (t : tree) : nat :=
  match t with E => O | T l _ _ r => S (Nat.max (height l) (height r)) end.

(** [tall P t]: every node of [t], with its key, satisfies [P]. *)
Fixpoint tall (P : Z -> Z -> Prop) (t : tree) : Prop :=
  match t with
  | E => True
  | T l p k r => P p k /\ tall P l /\ tall P r
  end.

(** The ordering of the index: sizes at most the node's on the left,
    strictly larger on the right. *)
Fixpoint bst (t : tree) : Prop :=
  match t with
  | E => True
  | T l p k r =>
      tall (fun _ k' => k' <= k) l /\ tall (fun _ k' => k < k') r /\ bst l /\ bst r
  end.

(** [trep m t]: the memory [m] holds the tree [t]: every node reads its key
    from its header and its children from its two link words. *)
Fixpoint trep (m : Z -> Z) (t : tree) : Prop :=
  match t with
  | E => True
  | T l p k r =>
      p <> NULL /\ key m p = k /\ m p = root_of l /\ m (p + 4) = root_of r /\
      trep m l /\ trep m r
  end.

Definition far (p q : Z) : Prop := p + 16 <= q \/ q + 16 <= p.

(** Nodes are pairwise at least a minimum block apart. *)
Definition sep (l : list Z) : Prop :=
  NoDup l /\ forall p q, In p l -> In q l -> p <> q -> far p q.

(** *** Searching for a fit *)

Fixpoint fit (t : tree) (size : Z) : Z :=
  match t with
  | E => NULL
  | T _ p k r => if k >=? size then p else fit r size
  end.

(** *** Insertion *)

Fixpoint ins (t : tree) (bp kb : Z) : tree :=
  match t with
  | E => T E bp kb E
  | T l p k r =>
      if kb <=? k then T (ins l bp kb) p k r else T l p k (ins r bp kb)
  end.

(** *** Removal on the abstract tree *)

(** The in-order predecessor used by [mm_remove]: the rightmost node. *)
Fixpoint rightmost (t : tree) : Z * Z :=
  match t with
  | E => (NULL, 0)
  | T _ p k r => match r with E => (p, k) | T _ _ _ _ => rightmost r end
  end.

Fixpoint del_max (t : tree) : tree :=
  match t with
  | E => E
  | T l p k r => match r with E => l | T _ _ _ _ => T l p k (del_max r) end
  end.

(** What takes the place of a removed node with subtrees [l] and [r]. *)
Definition merge (l r : tree) : tree :=
  match l, r with
  | E, _ => r
  | _, E => l
  | _, _ => T (del_max l) (fst (rightmost l)) (snd (rightmost l)) r
  end.

(** [graft t bp kb x]: descend as [mm_parent] does, comparing [kb] with the
    keys, and put [x] where [bp] is found. *)
Fixpoint graft (t : tree) (bp kb : Z) (x : tree) : tree :=
  match t with
  | E => E
  | T l p k r =>
      if bp =? p then x
      else if kb <=? k then T (graft l bp kb x) p k r
           else T l p k (graft r bp kb x)
  end.

(** The subtree found by the same descent. *)
Fixpoint sub (t : tree) (bp kb : Z) : tree :=
  match t with
  | E => E
  | T l p k r =>
      if bp =? p then t
      else if kb <=? k then sub l bp kb else sub r bp kb
  end.

Definition left_of (t : tree) : tree := match t with E => E | T l _ _ _ => l end.

Definition right_of (t : tree) : tree := match t with E => E | T _ _ _ r => r end.

Definition delete (t : tree) (bp kb : Z) : tree :=
  graft t bp kb (merge (left_of (sub t bp kb)) (right_of (sub t bp kb))).

Fixpoint parent (t : tree) (bp kb : Z) : Z :=
  match t with
  | E => NULL
  | T l p k r =>
      if bp =? p then NULL
      else if kb <=? k then (if root_of l =? bp then p else parent l bp kb)
           else (if root_of r =? bp then p else parent r bp kb)
  end.

(** [ctx m t bp kb]: [m] holds every node of [t] outside the subtree of
    [bp], along the path the descent takes. *)
Fixpoint ctx (m : Z -> Z) (t : tree) (bp kb : Z) : Prop :=
  match t with
  | E => False
  | T l p k r =>
      if bp =? p then True
      else p <> NULL /\ key m p = k /\ m p = root_of l /\ m (p + 4) = root_of r /\
           (if kb <=? k then ctx m l bp kb /\ trep m r
            else trep m l /\ ctx m r bp kb)
  end.

Definition agree3 (m m' : Z -> Z) (q : Z) : Prop :=
  m' (q - 4) = m (q - 4) /\ m' q = m q /\ m' (q + 4) = m (q + 4).

(** ** The heap as a sequence of blocks *)

(** A block: its block pointer, its size and whether it is allocated. *)
Definition blk : Type := (Z * Z * bool)%type.

Definition bp_of (b : blk) : Z := fst (fst b).

Definition sz_of (b : blk) : Z := snd (fst b).

Definition alloc_of (b : blk) : bool := snd b.

Definition tag (sz : Z) (a : bool) : Z := PACK sz (if a then 1 else 0).

Definition blk_ok (m : Z -> Z) (b : blk) : Prop :=
  m (bp_of b - 4) = tag (sz_of b) (alloc_of b) /\
  m (bp_of b + sz_of b - 8) = tag (sz_of b) (alloc_of b).

(** [chain b l e]: the blocks of [l] follow one another from [b] to [e]. *)
Fixpoint chain (b : Z) (l : list blk) (e : Z) : Prop :=
  match l with
  | [] => b = e
  | x :: l' =>
      bp_of x = b /\ 8 <= sz_of x /\ sz_of x mod 8 = 0 /\ chain (b + sz_of x) l' e
  end.

Definition free_bps (l : list blk) : list Z :=
  map bp_of (filter (fun b => negb (alloc_of b)) l).

Definition hd_alloc (l : list blk) : Prop :=
  match l with [] => True | x :: _ => alloc_of x = true end.

(** No two neighbours are both free. *)
Fixpoint no_adj (l : list blk) : Prop :=
  match l with
  | [] => True
  | x :: l' => (alloc_of x = false -> hd_alloc l') /\ no_adj l'
  end.

Definition prologue (st : state) : blk := (heap_listp st, 8, true).

(** What the sink guarantees, and the limits within which sizes fit [int]. *)
Definition sink_ok (st : state) : Prop :=
  0 < mem_start_brk st /\ mem_start_brk st mod 8 = 0 /\
  mem_start_brk st <= mem_brk st /\ mem_brk st <= mem_max_addr st /\
  mem_max_addr st < WORD_MOD /\
  mem_max_addr st - mem_start_brk st < INT_MAX1 /\
  sbrk_fail st = WORD_MOD - 1.

(** [heap_gen st l fl t]: the heap of [st] is the prologue, the blocks [l]
    and the epilogue, with matching boundary tags; the index is the
    ordered tree [t], whose nodes are the free blocks listed in [fl]. *)
Record heap_gen (st : state) (l : list blk) (fl : list Z) (t : tree) : Prop := {
  hg_sink : sink_ok st;
  hg_first : mem_start_brk st + 8 <= heap_listp st;
  hg_align : heap_listp st mod 8 = 0;
  hg_chain : chain (heap_listp st) (prologue st :: l) (mem_brk st);
  hg_tags : Forall (blk_ok (mem st)) (prologue st :: l);
  hg_epi : mem st (mem_brk st - 4) = tag 0 true;
  hg_min : Forall (fun b => 16 <= sz_of b) l;
  hg_root : tree_root st = root_of t;
  hg_trep : trep (mem st) t;
  hg_bst : bst t;
  hg_nodes : tall (fun p k => In (p, k, false) l) t;
  hg_perm : Permutation (elems t) fl;
  hg_nodup : NoDup fl
}.

(** The invariant of the allocator between two public operations. *)
Definition heap_inv (st : state) (l : list blk) (t : tree) : Prop :=
  heap_gen st l (free_bps l) t /\ no_adj l.

(** A heap in which the free block [(bp, sz)] is not in the index. *)
Definition heap_hole (st : state) (l1 : list blk) (bp sz : Z) (l2 : list blk)
           (t : tree) : Prop :=
  heap_gen st (l1 ++ (bp, sz, false) :: l2) (free_bps (l1 ++ l2)) t.

(** *** Frames of the index operations *)

(** [link_frame fl skip m m']: from [m] to [m'] only link words of the
    nodes [fl], other than [skip], may differ. *)
Definition link_frame (fl : list Z) (skip : Z) (m m' : Z -> Z) : Prop :=
  forall a, (forall q, In q fl -> q <> skip -> a <> q /\ a <> q + 4) -> m' a = m a.

(** *** The neighbours of a block *)

Definition prev_blk (st : state) (l1 : list blk) : blk := last l1 (prologue st).

Definition next_sz (l2 : list blk) : Z := match l2 with [] => 0 | x :: _ => sz_of x end.

Definition next_alloc (l2 : list blk) : bool :=
  match l2 with [] => true | x :: _ => alloc_of x end.

Definition last_alloc (l1 : list blk) : Prop :=
  match rev l1 with [] => True | x :: _ => alloc_of x = true end.

(** *** A block and its two neighbours *)

Record hole_facts (st : state) (l1 : list blk) (bp sz : Z) (l2 : list blk) : Prop := {
  hf_prev_end : bp_of (prev_blk st l1) + sz_of (prev_blk st l1) = bp;
  hf_prev_ok : blk_ok (mem st) (prev_blk st l1);
  hf_prev_sz : 8 <= sz_of (prev_blk st l1) /\ sz_of (prev_blk st l1) mod 8 = 0;
  hf_prev_lo : heap_listp st <= bp_of (prev_blk st l1);
  hf_prev_cases :
    (l1 = [] /\ prev_blk st l1 = prologue st) \/
    (exists l1', l1 = l1' ++ [prev_blk st l1] /\ 16 <= sz_of (prev_blk st l1));
  hf_sz : 16 <= sz /\ sz mod 8 = 0;
  hf_bp : bp mod 8 = 0 /\ bp + sz <= mem_brk st;
  hf_hdr : mem st (bp - 4) = tag sz false;
  hf_ftr : mem st (bp + sz - 8) = tag sz false;
  hf_next : mem st (bp + sz - 4) = tag (next_sz l2) (next_alloc l2);
  hf_next_sz : 0 <= next_sz l2 /\ next_sz l2 mod 8 = 0 /\
               bp + sz + next_sz l2 <= mem_brk st;
  hf_next_cases :
    (l2 = [] /\ bp + sz = mem_brk st) \/
    (exists l2', l2 = (bp + sz, next_sz l2, next_alloc l2) :: l2' /\
                 16 <= next_sz l2 /\
                 mem st (bp + sz + next_sz l2 - 8) = tag (next_sz l2) (next_alloc l2));
  hf_chain1 : chain (heap_listp st) (prologue st :: l1) bp;
  hf_chain2 : chain (bp + sz) l2 (mem_brk st);
  hf_notin : ~ In bp (free_bps (l1 ++ l2))
}.

(** The allocator changes nothing but the memory and the root of the index. *)
Definition same_heap (st st' : state) : Prop :=
  mem_start_brk st' = mem_start_brk st /\ mem_brk st' = mem_brk st /\
  mem_max_addr st' = mem_max_addr st /\ sbrk_fail st' = sbrk_fail st /\
  heap_listp st' = heap_listp st.

(** What [coalesce] may write: the two tags of the block it returns, and
    link words of free blocks that stay in the index; when both neighbours
    are merged, also the link words of the preceding one. *)
Definition coalesce_frame (st st' : state) (l1 l2 l1' l2' : list blk) (bp' sz' : Z)
  : Prop :=
  forall a,
    a <> bp' - 4 -> a <> bp' + sz' - 8 ->
    (forall x, In x (l1' ++ l2') -> alloc_of x = false ->
               a <> bp_of x /\ a <> bp_of x + 4) ->
    (alloc_of (prev_blk st l1) = false -> next_alloc l2 = false ->
     a <> bp' /\ a <> bp' + 4) ->
    mem st' a = mem st a.

(** The four cases of [coalesce], by the allocation flags of the two
    neighbours. *)
Definition coalesce_table (st : state) (l1 : list blk) (bp sz : Z) (l2 : list blk)
           (t : tree) (l1' : list blk) (bp' sz' : Z) (l2' : list blk) (t' : tree)
  : Prop :=
  let P := prev_blk st l1 in
  match alloc_of P, next_alloc l2 with
  | true, true =>
      bp' = bp /\ sz' = sz /\ l1' = l1 /\ l2' = l2 /\ t' = t
  | true, false =>
      bp' = bp /\ sz' = sz + next_sz l2 /\ l1' = l1 /\ l2' = tl l2 /\
      Permutation (elems t) ((bp + sz) :: elems t')
  | false, true =>
      bp' = bp_of P /\ sz' = sz_of P + sz /\ l1' = removelast l1 /\ l2' = l2 /\
      Permutation (elems t) (bp_of P :: elems t')
  | false, false =>
      bp' = bp_of P /\ sz' = sz_of P + sz + next_sz l2 /\
      l1' = removelast l1 /\ l2' = tl l2 /\
      Permutation (elems t) ((bp + sz) :: bp_of P :: elems t')
  end.

(** ** Placement *)

(** What [place] may write: tags of the blocks it makes out of the free
    block, and link words of blocks that are free afterwards. *)
Definition place_frame (st st' : state) (mid l' : list blk) : Prop :=
  forall a,
    (forall x, In x mid -> a <> bp_of x - 4 /\ a <> bp_of x + sz_of x - 8) ->
    (forall x, In x l' -> alloc_of x = false -> a <> bp_of x /\ a <> bp_of x + 4) ->
    mem st' a = mem st a.

(** The three outcomes of [place], by the remainder and by the sizes of
    the two neighbours. *)
Definition place_table (st : state) (l1 : list blk) (bp csize : Z) (l2 : list blk)
           (t : tree) (asize p : Z) (mid : list blk) (t' : tree) : Prop :=
  let rem := csize - asize in
  if rem <? 48 then
    p = bp /\ mid = [(bp, csize, true)] /\ t' = t
  else if next_sz l2 >? sz_of (prev_blk st l1) then
    p = bp /\ mid = [(bp, asize, true); (bp + asize, rem, false)] /\
    t' = ins t (bp + asize) rem
  else
    p = bp + rem /\ mid = [(bp, rem, false); (bp + rem, asize, true)] /\
    t' = ins t bp rem.

(** ** Growing the heap *)

(** The state once the sink has granted [size] bytes and [extend_heap] has
    written the three tags of the new block. *)
Definition extended (st : state) (size : Z) : state :=
  set_mem (set_brk st (mem_brk st + size))
          (upd (upd (upd (mem st) (mem_brk st - 4) (tag size false))
                    (mem_brk st + size - 8) (tag size false))
               (mem_brk st + size - 4) (tag 0 true)).

(** ** Allocated blocks and their payloads *)

Definition alloc_blks (l : list blk) : list blk := filter alloc_of l.

Definition in_payload (x : blk) (a : Z) : Prop :=
  bp_of x <= a < bp_of x + sz_of x - 8.

(** [payload_frame l' m m' ex]: no payload word of a block that is
    allocated in [l'] differs between [m] and [m'], except where [ex]. *)
Definition payload_frame (l' : list blk) (m m' : Z -> Z) (ex : Z -> Prop) : Prop :=
  forall x a, In x l' -> alloc_of x = true -> in_payload x a -> ~ ex a -> m' a = m a.

(** ** Request sizes *)

(** The largest request whose adjusted size still fits [int]. *)
Definition MAX_REQUEST : Z := INT_MAX1 - 16.

(** ** Growth of the heap *)

Definition grown (st st' : state) : Prop :=
  mem_start_brk st' = mem_start_brk st /\ mem_brk st <= mem_brk st' /\
  mem_max_addr st' = mem_max_addr st /\ sbrk_fail st' = sbrk_fail st /\
  heap_listp st' = heap_listp st.

(** ** The states of [mm_init] *)

(** A sink that has handed out nothing yet. *)
Definition fresh (st : state) : Prop :=
  sink_ok st /\ mem_brk st = mem_start_brk st.

(** The state once [mm_init] has laid out the padding word, the prologue
    and the epilogue. *)
Definition sentinels (st : state) : state :=
  let b := mem_brk st in
  mkState (upd (upd (upd (upd (mem st) b 0) (b + 4) (tag 8 true)) (b + 8) (tag 8 true))
               (b + 12) (tag 0 true))
          (mem_start_brk st) (b + 16) (mem_max_addr st) (sbrk_fail st) (b + 8) NULL.

Definition init_tail : M Z :=
  bp <- extend_heap (CHUNKSIZE / WSIZE) ;;
  if bp =? NULL then ret (-1)
  else
    root <- get_root ;;
    root' <- mm_insert root bp ;;
    put_root root' ;;;
    ret 0.

(** ** Bytes in memory *)

(** The byte of [m] at address [a]. *)
Definition byte_at (m : Z -> Z) (a : Z) : Z := byte_of (m (a - a mod 4)) (a mod 4).

(** ** Reachable states *)

(** Live allocations: the pointer and the size that was asked for. *)
Definition remove_ptr (p : Z) (live : list (Z * Z)) : list (Z * Z) :=
  filter (fun e => negb (fst e =? p)) live.

(** The states a client can bring the allocator into: [mm_init] on a fresh
    sink, then requests of sizes that satisfy [ok], frees and
    reallocations of live pointers, and the client's own stores into live
    allocations. *)
Inductive reachable_with (ok : Z -> Prop) : list (Z * Z) -> state -> Prop :=
| reach_init s0 st :
    fresh s0 -> mm_init s0 = Ok (0, st) -> reachable_with ok [] st
| reach_malloc live st size p st' :
    reachable_with ok live st -> ok size ->
    mm_malloc size st = Ok (p, st') ->
    reachable_with ok (if p =? NULL then live else (p, size) :: live) st'
| reach_free live st p n st' :
    reachable_with ok live st -> In (p, n) live ->
    mm_free p st = Ok (tt, st') ->
    reachable_with ok (remove_ptr p live) st'
| reach_realloc live st p n size q st' :
    reachable_with ok live st -> In (p, n) live -> ok size ->
    mm_realloc p size st = Ok (q, st') ->
    reachable_with ok ((q, size) :: remove_ptr p live) st'
| reach_store live st p n a v :
    reachable_with ok live st -> In (p, n) live ->
    p <= a < p + n -> a mod 4 = 0 ->
    reachable_with ok live (set_mem st (upd (mem st) a v)).

(** The request sizes whose adjusted size does not wrap and fits [int]. *)
Definition supported (size : Z) : Prop := 0 < size <= MAX_REQUEST.

(** Every non-zero value of [size_t]. *)
Definition any_size (size : Z) : Prop := 0 < size < WORD_MOD.

(** The states reached with requests of supported sizes. *)
Definition reachable : list (Z * Z) -> state -> Prop := reachable_with supported.

Definition live_ok (live : list (Z * Z)) (l : list blk) : Prop :=
  NoDup (map fst live) /\
  forall p n, In (p, n) live -> exists sz, In (p, sz, true) l /\ 0 < n /\ n + 8 <= sz.

(** ** Trees in memory, on their own *)

(** The memory of [st] holds the ordered tree [t]; its nodes are block
    pointers inside the heap, at least a minimum block apart. *)
Definition tree_ok (st : state) (t : tree) : Prop :=
  trep (mem st) t /\ tall (fun p _ => node_ok st p) t /\ bst t /\ sep (elems t).

(** ** Sequences of index operations *)





(** ** Walking the heap by its boundary tags *)

Definition hdr_size (st : state) (bp : Z) : Z := Z.land (mem st (bp - 4)) MASK7.

Definition hdr_alloc (st : state) (bp : Z) : Z := Z.land (mem st (bp - 4)) 1.

Definition prev_ftr_alloc (st : state) (bp : Z) : Z := Z.land (mem st (bp - 8)) 1.

(** The block pointers met on the way from the prologue to the epilogue,
    each found from the one before by the size in its header. *)
Inductive heap_block (st : state) : Z -> Prop :=
| hb_first : heap_block st (heap_listp st + hdr_size st (heap_listp st))
| hb_next bp :
    heap_block st bp -> hdr_size st bp <> 0 ->
    heap_block st (bp + hdr_size st bp).

(** No free block between the sentinels has a free neighbour: the footer
    before it and the header after it are marked allocated. *)
Definition no_adjacent_free (st : state) : Prop :=
  forall bp, heap_block st bp -> hdr_size st bp <> 0 -> hdr_alloc st bp = 0 ->
             prev_ftr_alloc st bp = 1 /\ hdr_alloc st (bp + hdr_size st bp) = 1.

(** ** The frame of [mm_malloc] *)

(** No byte of [[p, p + size)] differs between [st] and [st']. *)
Definition payload_untouched (st st' : state) (p size : Z) : Prop :=
  forall a, p <= a < p + size -> byte_at (mem st') a = byte_at (mem st) a.

(** ** Reallocation *)

(** The reallocation as the claim words it: the copy is bounded by the
    payload capacity of the old block, its size less the two tags, and a
    failed allocation is passed on as null. *)
Definition realloc_as_claimed (ptr size : Z) : M Z :=
  newp <- mm_malloc size ;;
  if newp =? NULL then ret NULL
  else
    bsize <- GET_SIZE (HDRP ptr) ;;
    memcpy newp ptr (Z.min size (bsize - OVERHEAD)) ;;;
    mm_free ptr ;;;
    ret newp.

(** ** The heap checker on a heap of blocks *)

(** The character printed for the allocation flag of a block. *)
Definition flag_of (a : bool) : ascii := if a then "a"%char else "f"%char.

(** What the checker prints for a block whose header is the tag of [x]:
    the line of [printblock] when [verbose] is set, then the complaints of
    [checkblock]. *)
Definition block_lines (m : Z -> Z) (verbose : Z) (x : blk) : list line :=
  let f := m (bp_of x + sz_of x - 8) in
  (if negb (verbose =? 0)
   then [Block_line (bp_of x) (to_int (sz_of x)) (flag_of (alloc_of x))
                    (to_int (Z.land f MASK7)) (flag_char (Z.land f 1))]
   else []) ++
  (if negb (bp_of x mod 8 =? 0) then [Not_aligned (bp_of x)] else []) ++
  (if negb (m (bp_of x - 4) =? f) then [Tag_mismatch] else []).

(** The line of a block whose two tags agree. *)
Definition block_line (x : blk) : line :=
  Block_line (bp_of x) (sz_of x) (flag_of (alloc_of x))
             (sz_of x) (flag_of (alloc_of x)).

(** The listing of a heap in good order. *)
Definition listing (st : state) (l : list blk) : list line :=
  Heap_line (heap_listp st) :: map block_line (prologue st :: l) ++
  [EOL_line (mem_brk st)].

(** ** What a silent run of the checker has seen *)

(** The block after [bp], as [NEXT_BLKP] computes it. *)
Definition next_blkp (st : state) (bp : Z) : Z :=
  wadd bp (Z.land (mem st (HDRP bp)) MASK7).

(** The [n]-th block pointer of the walk that starts at the prologue. *)
Definition walk (st : state) (n : nat) : Z :=
  Nat.iter n (next_blkp st) (heap_listp st).

(** A block that [checkblock] accepts. *)
Definition block_clean (st : state) (bp : Z) : Prop :=
  bp mod 8 = 0 /\ mem st (HDRP bp) = mem st (wsub (next_blkp st bp) DSIZE).

(** The lines that report a fault of the heap. *)
Definition complaint (x : line) : bool :=
  match x with
  | Bad_prologue | Bad_epilogue | Not_aligned _ | Tag_mismatch => true
  | _ => false
  end.

(** An output without a complaint. *)
Definition quiet (out : list line) : Prop := forall x, In x out -> complaint x = false.

(** What the checker has verified when it made no complaint: the prologue
    header, every block of the walk up to the first header of size 0, and
    the allocation flag of that header. *)
Definition checked_clean (st : state) : Prop :=
  Z.land (mem st (HDRP (heap_listp st))) MASK7 = DSIZE /\
  Z.land (mem st (HDRP (heap_listp st))) 1 <> 0 /\
  exists n,
    (forall k, (k < n)%nat ->
               Z.land (mem st (HDRP (walk st k))) MASK7 <> 0 /\
               block_clean st (walk st k)) /\
    Z.land (mem st (HDRP (walk st n))) MASK7 = 0 /\
    Z.land (mem st (HDRP (walk st n))) 1 <> 0.

(** ** The live allocations are the allocated blocks *)

(** The invariant of a run: the heap is in good order, the live pointers
    are exactly the block pointers of the allocated blocks, and the heap
    starts right behind the padding word. *)
Definition run_inv (live : list (Z * Z)) (st : state) (l : list blk) (t : tree)
  : Prop :=
  heap_inv st l t /\ live_ok live l /\
  Permutation (map fst live) (map bp_of (alloc_blks l)) /\
  heap_listp st = mem_start_brk st + 8 /\
  mem_start_brk st + 16 + CHUNKSIZE <= mem_brk st.

(** ** The blocks of the walk and the nodes of the index, in memory *)

(** A free block met on the walk from the prologue to the epilogue. *)
Definition free_block (st : state) (bp : Z) : Prop :=
  heap_block st bp /\ hdr_size st bp <> 0 /\ hdr_alloc st bp = 0.

(** Some free block of the heap has at least [asize] bytes. *)
Definition has_fit (st : state) (asize : Z) : Prop :=
  exists bp, free_block st bp /\ asize <= hdr_size st bp.

(** An allocated block met on the walk. *)
Definition used_block (st : state) (bp : Z) : Prop :=
  heap_block st bp /\ hdr_size st bp <> 0 /\ hdr_alloc st bp = 1.

(** The nodes reached from [root] through the link words. *)
Inductive linked (m : Z -> Z) (root : Z) : Z -> Prop :=
| linked_root : root <> NULL -> linked m root root
| linked_left p : linked m root p -> m p <> NULL -> linked m root (m p)
| linked_right p : linked m root p -> m (p + 4) <> NULL -> linked m root (m (p + 4)).

(** * Concrete runs *)

(** A fresh sink of 20000 bytes at address 65536, its memory all zero. *)
Definition sink0 : state := mkState (fun _ => 0) 65536 65536 85536 4294967295 0 0.

Definition out_state {A} (r : result (A * state)) : state :=
  match r with
  | Ok (_, st) => st
  | Exit _ st => st
  | _ => sink0
  end.

Definition out_value {A} (r : result (A * state)) (d : A) : A :=
  match r with
  | Ok (a, _) => a
  | _ => d
  end.

(** The heap right after [mm_init]: one free block of 4096 bytes. *)
Definition heap0 : state := out_state (mm_init sink0).

Definition tree0 : tree := T E 65552 4096 E.

(** *** A longer run *)

(** The calls of a client, and a run of them that keeps the list of live
    allocations; it stops at a request of an unsupported size, at a free
    of a pointer that is not live and at a call that does not return. *)
Inductive call : Type := Malloc (size : Z) | Free (p : Z).

Definition play1 (c : call) (ls : list (Z * Z) * state)
  : option (list (Z * Z) * state) :=
  match c with
  | Malloc size =>
      if (0 <? size) && (size <=? MAX_REQUEST) then
        match mm_malloc size (snd ls) with
        | Ok (p, st') =>
            Some (if p =? NULL then fst ls else (p, size) :: fst ls, st')
        | _ => None
        end
      else None
  | Free p =>
      match find (fun e => fst e =? p) (fst ls) with
      | Some _ =>
          match mm_free p (snd ls) with
          | Ok (_, st') => Some (remove_ptr p (fst ls), st')
          | _ => None
          end
      | None => None
      end
  end.

Fixpoint play (cs : list call) (ls : list (Z * Z) * state)
  : option (list (Z * Z) * state) :=
  match cs with
  | [] => Some ls
  | c :: cs' => match play1 c ls with Some ls' => play cs' ls' | None => None end
  end.

Definition played (cs : list call) : list (Z * Z) * state :=
  match play cs ([], heap0) with Some ls => ls | None => ([], heap0) end.

(** Eleven allocations, the small ones keeping the others apart, then the
    four blocks of 64, 32, 112 and 48 bytes are freed: with what is left
    of the first chunk the heap has five free blocks, no two of them
    neighbours. *)
Definition busy_calls : list call :=
  [Malloc 8; Malloc 120; Malloc 8; Malloc 56; Malloc 8; Malloc 24; Malloc 8;
   Malloc 40; Malloc 8; Malloc 100; Malloc 8;
   Free 69552; Free 69504; Free 69312; Free 69440].

Definition busy : state := snd (played busy_calls).

Definition busy_live : list (Z * Z) :=
  [(69296, 8); (69424, 8); (69488, 8); (69536, 8); (69616, 8); (65552, 120);
   (69632, 8)].

Definition busy_tree : tree :=
  T (T (T E 69504 32 (T E 69440 48 E)) 69552 64 (T E 69312 112 E)) 65680 3616 E.

(** One more allocation takes the root of [busy_tree]: its left child
    becomes the root and the remainder goes to the end of the right
    spine. *)
Definition spine : state := snd (played (busy_calls ++ [Malloc 8])).

Definition spine_live : list (Z * Z) := (69280, 8) :: busy_live.

Definition spine_tree : tree :=
  T (T E 69504 32 (T E 69440 48 E)) 69552 64 (T E 69312 112 (T E 65680 3600 E)).

(** Three allocations, all of them freed again. *)
Definition drained : state :=
  snd (played [Malloc 8; Malloc 120; Malloc 8; Free 65552; Free 69632; Free 69616]).

Definition store (st : state) (a v : Z) : state := set_mem st (upd (mem st) a v).

(** [busy] with the allocation at 69488 marked free, as [mm_free] marks it
    before it calls [coalesce]: the block lies between the free blocks at
    69440 and 69504. *)
Definition gap : state := store (store busy (69488 - 4) (PACK 16 0)) (69488 + 16 - 8) (PACK 16 0).

Definition gap_before : list blk :=
  [(65552, 128, true); (65680, 3616, false); (69296, 16, true);
   (69312, 112, false); (69424, 16, true); (69440, 48, false)].

Definition gap_after : list blk :=
  [(69504, 32, false); (69536, 16, true); (69552, 64, false); (69616, 16, true);
   (69632, 16, true)].

(** The heap of [mm_init] before its first block enters the index. *)
Definition hole0 : state := extended (sentinels sink0) 4096.

(** ** C1: a sink that is used up *)

(** A sink with room for the sentinels and one chunk, and one with room
    for the sentinels only. *)
Definition sink_one_chunk : state :=
  mkState (fun _ => 0) 65536 65536 69648 4294967295 0 0.

Definition sink_no_chunk : state :=
  mkState (fun _ => 0) 65536 65536 65636 4294967295 0 0.

Definition full0 : state := out_state (mm_init sink_one_chunk).

Definition full1 : state := out_state (mm_malloc 8 full0).

(** ** C2: the copy runs over the old block's tags *)

Definition heap1 : state := out_state (mm_malloc 8 heap0).

(** ** C7: a request that wraps around *)

(** The request of 4294967295 bytes is adjusted to 8 bytes. *)
Definition wrap2 : state := out_state (mm_malloc 4294967295 heap1).

Definition wrap3 : state := out_state (mm_malloc 4064 wrap2).

Definition wrapped : state := out_state (mm_free 65552 wrap3).

(** ** C8: a block that is handed out and stays in the index *)

(** The request of 4294967281 bytes is adjusted to 0 bytes: [place] splits
    off an allocation of size 0 in front, puts the whole free block back
    into the index and returns its pointer.  The client then stores into
    what it was given. *)
Definition zero2 : state := out_state (mm_malloc 4294967281 heap1).

Definition zero3 : state :=
  store (store (store (store zero2 65556 65564) 65560 4088) 65564 0) 65568 0.

(** ** C9: growing the heap behind a free block *)

Definition grow1 : state := out_state (mm_malloc 8 heap1).

Definition grow2 : state := out_state (mm_malloc 4000 grow1).

Definition grow3 : state := out_state (mm_free 69632 grow2).

(** ** Further runs *)

(** A sink with room for one word only. *)
Definition sink_tiny : state := mkState (fun _ => 0) 65536 65536 65540 4294967295 0 0.

(** * Proofs *)

Lemma wrap_small x : 0 <= x < WORD_MOD -> wrap x = x.
Proof. intros; unfold wrap; now apply Z.mod_small. Qed.

Lemma wadd_small a b : 0 <= a + b < WORD_MOD -> wadd a b = a + b.
Proof. intros; unfold wadd; now apply wrap_small. Qed.

Lemma wsub_small a b : 0 <= a - b < WORD_MOD -> wsub a b = a - b.
Proof. intros; unfold wsub; now apply wrap_small. Qed.

Lemma wmul_small a b : 0 <= a * b < WORD_MOD -> wmul a b = a * b.
Proof. intros; unfold wmul; now apply wrap_small. Qed.

Lemma wrap_range x : 0 <= wrap x < WORD_MOD.
Proof. unfold wrap; apply Z.mod_pos_bound; reflexivity. Qed.

Lemma wrap_mod8 x : wrap x mod 8 = x mod 8.
Proof.
  unfold wrap, WORD_MOD.
  rewrite (Z.mod_eq x 4294967296) by lia.
  replace (x - 4294967296 * (x / 4294967296))
    with (x + (-536870912 * (x / 4294967296)) * 8) by lia.
  apply Z.mod_add; lia.
Qed.

Lemma to_int_small w : 0 <= w < INT_MAX1 -> to_int w = w.
Proof. intros [_ H]; unfold to_int; apply Z.ltb_lt in H; now rewrite H. Qed.

Lemma MASK7_shape : MASK7 = Z.shiftl (Z.ones 29) 3.
Proof. reflexivity. Qed.

Lemma land_MASK7 x : Z.land x MASK7 = 8 * (wrap x / 8).
Proof.
  rewrite MASK7_shape.
  replace (8 * (wrap x / 8)) with (Z.shiftl (Z.shiftr (x mod 2 ^ 32) 3) 3).
  2:{ rewrite Z.shiftl_mul_pow2, Z.shiftr_div_pow2 by lia.
      unfold wrap, WORD_MOD. change (2 ^ 32) with 4294967296. change (2 ^ 3) with 8. lia. }
  apply Z.bits_inj'; intros n Hn.
  rewrite Z.land_spec.
  destruct (Z.ltb_spec n 3).
  - rewrite !Z.shiftl_spec_low by lia. apply andb_false_r.
  - rewrite !Z.shiftl_spec by lia.
    rewrite Z.shiftr_spec by lia.
    replace (n - 3 + 3) with n by lia.
    destruct (Z.ltb_spec n 32).
    + rewrite Z.mod_pow2_bits_low by lia.
      rewrite Z.ones_spec_low by lia. apply andb_true_r.
    + rewrite Z.mod_pow2_bits_high by lia.
      rewrite Z.ones_spec_high by lia. apply andb_false_r.
Qed.

Lemma land_MASK7_mod8 x : Z.land x MASK7 mod 8 = 0.
Proof. rewrite land_MASK7, Z.mul_comm. apply Z.mod_mul; lia. Qed.

Lemma PACK_add sz a : sz mod 8 = 0 -> 0 <= a <= 1 -> PACK sz a = sz + a.
Proof.
  intros Hs Ha. unfold PACK.
  rewrite <- (Z.add_lor_land sz a).
  assert (Z.land sz a = 0); [| lia].
  apply Z.bits_inj'; intros n Hn. rewrite Z.land_spec, Z.bits_0.
  destruct (Z.eq_dec n 0) as [->|].
  - rewrite Z.bit0_odd. 
    assert (Z.odd sz = false).
    { rewrite Zodd_mod. apply Z.eqb_neq. 
      pose proof (Z.mod_pos_bound sz 2). 
      assert (sz mod 2 = 0); [| lia].
      rewrite (Z.div_mod sz 8) by lia. rewrite Hs. 
      replace (8 * (sz / 8) + 0) with ((4 * (sz / 8)) * 2) by lia. apply Z.mod_mul; lia. }
    rewrite H. reflexivity.
  - assert (a = 0 \/ a = 1) as [->| ->] by lia.
    + rewrite Z.bits_0. apply andb_false_r.
    + replace n with (Z.succ (n - 1)) by lia. 
      change 1 with (2 * 0 + 1) at 2. 
      rewrite (Z.testbit_odd_succ 0 (n-1)) by lia. rewrite Z.bits_0. apply andb_false_r.
Qed.

Lemma size_PACK sz a :
  0 <= sz < WORD_MOD -> sz mod 8 = 0 -> 0 <= a <= 1 -> Z.land (PACK sz a) MASK7 = sz.
Proof.
  intros Hr Hs Ha. rewrite PACK_add, land_MASK7 by assumption.
  rewrite wrap_small by (unfold WORD_MOD in *; 
    pose proof (Z.div_mod sz 8); pose proof (Z.div_mod WORD_MOD 8); unfold WORD_MOD in *; 
    change (4294967296 / 8) with 536870912 in *; change (4294967296 mod 8) with 0 in *; lia).
  pose proof (Z.div_mod sz 8 ltac:(lia)). rewrite Hs in H.
  replace (sz + a) with (a + (sz / 8) * 8) by lia.
  rewrite Z.div_add by lia. rewrite (Z.div_small a 8) by lia. lia.
Qed.

Lemma alloc_PACK sz a :
  sz mod 8 = 0 -> 0 <= a <= 1 -> Z.land (PACK sz a) 1 = a.
Proof.
  intros Hs Ha. rewrite PACK_add by assumption.
  change 1 with (Z.ones 1). rewrite Z.land_ones by lia. change (2 ^ 1) with 2.
  pose proof (Z.div_mod sz 8 ltac:(lia)). rewrite Hs in H.
  replace (sz + a) with (a + (4 * (sz / 8)) * 2) by lia.
  rewrite Z.mod_add by lia. apply Z.mod_small; lia.
Qed.

(** ** Running monadic code *)

Lemma run_bind {A B} (c : M A) (k : A -> M B) st a st1 r :
  c st = Ok (a, st1) -> k a st1 = r -> bind c k st = r.
Proof. intros H <-. unfold bind. now rewrite H. Qed.

Lemma bind_inv {A B} (c : M A) (k : A -> M B) st r :
  bind c k st = Ok r -> exists a st1, c st = Ok (a, st1) /\ k a st1 = Ok r.
Proof.
  unfold bind. destruct (c st) as [[a st1]| | |]; try discriminate.
  intros H. now exists a, st1.
Qed.

Lemma valid_in_heap st p : valid st p = true <-> in_heap st p.
Proof.
  unfold valid, in_heap. rewrite !andb_true_iff, Z.eqb_eq, !Z.leb_le. tauto.
Qed.

Lemma GET_ok st p : in_heap st p -> GET p st = Ok (mem st p, st).
Proof. intros H. unfold GET. apply valid_in_heap in H. now rewrite H. Qed.

Lemma PUT_ok st p v :
  in_heap st p -> PUT p v st = Ok (tt, set_mem st (upd (mem st) p v)).
Proof. intros H. unfold PUT. apply valid_in_heap in H. now rewrite H. Qed.

Lemma upd_same m a v : upd m a v a = v.
Proof. unfold upd. now rewrite Z.eqb_refl. Qed.

Lemma upd_other m a v x : x <> a -> upd m a v x = m x.
Proof. unfold upd. intros H. apply Z.eqb_neq in H. now rewrite H. Qed.

Section NodeAccess.

Variable st : state.

Hypothesis Hb : bounds st.

Variable p : Z.

Hypothesis Hp : node_ok st p.

Lemma node_range : 4 <= p /\ p + 8 <= WORD_MOD.
Proof. destruct Hb, Hp as (? & ? & ?). lia. Qed.

Lemma node_wadd4 : wadd p WSIZE = p + 4.
Proof. pose proof node_range. apply wadd_small. unfold WSIZE. lia. Qed.

Lemma node_wsub4 : wsub p WSIZE = p - 4.
Proof. pose proof node_range. apply wsub_small. unfold WSIZE, WORD_MOD in *. lia. Qed.

Lemma node_in_heap_l : in_heap st p.
Proof. destruct Hp as (? & ? & ?). repeat split; lia. Qed.

Lemma node_in_heap_r : in_heap st (p + 4).
Proof.
  destruct Hp as (Hm & ? & ?). repeat split; try lia.
  rewrite Z.add_mod, Hm by lia. reflexivity.
Qed.

Lemma node_in_heap_h : in_heap st (p - 4).
Proof.
  destruct Hp as (Hm & ? & ?). repeat split; try lia.
  rewrite Zminus_mod, Hm by lia. reflexivity.
Qed.

Lemma LEFT_ok : LEFT p st = Ok (mem st p, st).
Proof. apply GET_ok, node_in_heap_l. Qed.

Lemma RIGHT_ok : RIGHT p st = Ok (mem st (p + 4), st).
Proof. unfold RIGHT. rewrite node_wadd4. apply GET_ok, node_in_heap_r. Qed.

Lemma GETSIZE_ok : GETSIZE p st = Ok (key (mem st) p, st).
Proof.
  unfold GETSIZE. rewrite node_wsub4.
  eapply run_bind; [apply GET_ok, node_in_heap_h | reflexivity].
Qed.

Lemma SETLEFT_ok v : SETLEFT p v st = Ok (tt, set_mem st (upd (mem st) p v)).
Proof. apply PUT_ok, node_in_heap_l. Qed.

Lemma SETRIGHT_ok v :
  SETRIGHT p v st = Ok (tt, set_mem st (upd (mem st) (p + 4) v)).
Proof. unfold SETRIGHT. rewrite node_wadd4. apply PUT_ok, node_in_heap_r. Qed.

Lemma mm_children_ok :
  mm_children p st =
  Ok ((if negb (mem st (p + 4) =? NULL)
       then (if negb (mem st p =? NULL) then 1 else 0) + 1
       else (if negb (mem st p =? NULL) then 1 else 0)), st).
Proof.
  unfold mm_children.
  eapply run_bind; [apply LEFT_ok|].
  eapply run_bind; [apply RIGHT_ok|]. reflexivity.
Qed.

End NodeAccess.

(** ** The index as an abstract tree *)

Lemma tall_impl (P Q : Z -> Z -> Prop) t :
  (forall p k, P p k -> Q p k) -> tall P t -> tall Q t.
Proof. induction t; simpl; intuition. Qed.

Lemma tall_elems (P : Z -> Prop) t :
  tall (fun p _ => P p) t <-> (forall p, In p (elems t) -> P p).
Proof.
  induction t as [|l IHl p k r IHr]; simpl.
  - split; [intros _ q []|trivial].
  - rewrite IHl, IHr. split.
    + intros (Hp & Hl & Hr) q Hq. apply in_app_or in Hq as [Hq|[<-|Hq]]; auto.
    + intros H. repeat split; intros; apply H; apply in_or_app; simpl; auto.
Qed.

Lemma trep_root_nonnull m t : trep m t -> t <> E -> root_of t <> NULL.
Proof. destruct t; simpl; [congruence|]. intros (H & _) _. exact H. Qed.

Lemma trep_frame m m' t :
  trep m t ->
  (forall p, In p (elems t) ->
             m' (p - 4) = m (p - 4) /\ m' p = m p /\ m' (p + 4) = m (p + 4)) ->
  trep m' t.
Proof.
  induction t as [|l IHl p k r IHr]; simpl; [trivial|].
  intros (Hp & Hk & Hl & Hr & Tl & Tr) F.
  destruct (F p) as (F1 & F2 & F3); [apply in_or_app; simpl; auto|].
  repeat split; auto.
  - unfold key in *. now rewrite F1.
  - congruence.
  - congruence.
  - apply IHl; auto. intros q Hq. apply F, in_or_app; auto.
  - apply IHr; auto. intros q Hq. apply F, in_or_app; simpl; auto.
Qed.

(** *** Searching for a fit *)

Lemma mm_fitter_fuel_ok st t size fuel :
  bounds st -> trep (mem st) t -> tall (fun p _ => node_ok st p) t ->
  (height t < fuel)%nat ->
  mm_fitter_fuel fuel (root_of t) size st = Ok (fit t size, st).
Proof.
  intros Hb. revert fuel.
  induction t as [|l IHl p k r IHr]; intros fuel Ht Hn Hf.
  - destruct fuel; [inversion Hf|]. reflexivity.
  - destruct fuel; [inversion Hf|].
    simpl in Ht, Hn, Hf |- *.
    destruct Ht as (Hp & Hk & Hl & Hr & Tl & Tr).
    destruct Hn as (Np & Nl & Nr).
    apply Z.eqb_neq in Hp. rewrite Hp.
    eapply run_bind; [apply GETSIZE_ok; assumption|]. cbv beta. rewrite Hk.
    destruct (k >=? size) eqn:Hge; [reflexivity|].
    eapply run_bind; [apply GETSIZE_ok; assumption|]. cbv beta. rewrite Hk.
    rewrite Z.geb_leb in Hge. apply Z.leb_gt in Hge.
    assert (Hlt : (k <? size) = true) by (apply Z.ltb_lt; lia).
    rewrite Hlt.
    eapply run_bind; [apply RIGHT_ok; assumption|]. cbv beta.
    rewrite Hr. apply IHr; auto. lia.
Qed.

(** *** Insertion *)

Lemma elems_ins t bp kb : Permutation (elems (ins t bp kb)) (bp :: elems t).
Proof.
  induction t as [|l IHl p k r IHr]; simpl; [reflexivity|].
  destruct (kb <=? k); simpl.
  - rewrite IHl. reflexivity.
  - rewrite IHr.
    etransitivity; [apply Permutation_app_head, perm_swap|].
    symmetry. apply (Permutation_middle (elems l) (p :: elems r) bp).
Qed.

Lemma tall_ins P t bp kb : tall P t -> P bp kb -> tall P (ins t bp kb).
Proof.
  induction t as [|l IHl p k r IHr]; simpl; [tauto|].
  intros (Hp & Hl & Hr) Hb. destruct (kb <=? k); simpl; auto.
Qed.

Lemma bst_ins t bp kb : bst t -> bst (ins t bp kb).
Proof.
  induction t as [|l IHl p k r IHr]; simpl; [tauto|].
  intros (Hl & Hr & Bl & Br).
  destruct (Z.leb_spec kb k); simpl; repeat split; auto.
  - apply tall_ins; auto.
  - apply tall_ins; auto.
Qed.

Lemma sep_incl l l' : sep l -> NoDup l' -> incl l' l -> sep l'.
Proof. intros [_ H] N I. split; auto. Qed.

Lemma sep_perm l l' : Permutation l l' -> sep l -> sep l'.
Proof.
  intros P [N H]. split.
  - eapply Permutation_NoDup; eauto.
  - intros p q Hp Hq.
    apply H; apply (Permutation_in _ (Permutation_sym P)); assumption.
Qed.

Lemma sep_far l p q : sep l -> In p l -> In q l -> p <> q -> far p q.
Proof. intros [_ H]. apply H. Qed.

Lemma NoDup_app_l {A} (l1 l2 : list A) : NoDup (l1 ++ l2) -> NoDup l1.
Proof.
  induction l1; simpl; intros H; [constructor|].
  inversion H; subst. constructor; auto. intro; apply H2, in_or_app; auto.
Qed.

Lemma NoDup_app_r {A} (l1 l2 : list A) : NoDup (l1 ++ l2) -> NoDup l2.
Proof. induction l1; simpl; intros H; auto. inversion H; auto. Qed.

Lemma NoDup_app_disj {A} (l1 l2 : list A) x :
  NoDup (l1 ++ l2) -> In x l1 -> In x l2 -> False.
Proof.
  induction l1; simpl; intros H H1 H2; [tauto|].
  inversion H; subst. destruct H1 as [->|H1]; auto.
  apply H4, in_or_app; auto.
Qed.

(** The shape of a separated node list around a node. *)
Lemma sep_node l p r :
  sep (l ++ p :: r) ->
  sep l /\ sep r /\ ~ In p l /\ ~ In p r /\
  (forall q, In q l -> far p q) /\ (forall q, In q r -> far p q) /\
  (forall q q', In q l -> In q' r -> far q q').
Proof.
  intros [N H].
  assert (Nl := NoDup_app_l _ _ N).
  assert (Nr := NoDup_app_r _ _ N). inversion Nr as [|? ? Hpr Nr']; subst.
  assert (Hpl : ~ In p l).
  { intro. eapply (NoDup_app_disj l (p :: r)); eauto. simpl; auto. }
  repeat split; auto.
  - intros a b Ha Hb. apply H; apply in_or_app; auto.
  - intros a b Ha Hb. apply H; apply in_or_app; simpl; auto.
  - intros q Hq. apply H; try (apply in_or_app; simpl; auto). congruence.
  - intros q Hq. apply H; try (apply in_or_app; simpl; auto). congruence.
  - intros q q' Hq Hq'. apply H; try (apply in_or_app; simpl; auto).
    intros ->. eapply (NoDup_app_disj l (p :: r)); eauto. simpl; auto.
Qed.

Lemma sep_cons p l :
  sep (p :: l) -> sep l /\ ~ In p l /\ forall q, In q l -> far p q.
Proof.
  intros [N H]. inversion N; subst. repeat split; auto.
  - intros a b Ha Hb. apply H; simpl; auto.
  - intros q Hq. apply H; simpl; auto. congruence.
Qed.

Lemma sep_cons_intro p l :
  sep l -> (forall q, In q l -> far p q) -> sep (p :: l).
Proof.
  intros [N H] F. split.
  - constructor; auto. intro Hin. specialize (F p Hin). unfold far in F. lia.
  - intros a b [<-|Ha] [<-|Hb] Hn; auto; try congruence.
    specialize (F a Ha). unfold far in *. lia.
Qed.

Lemma mm_insert_fuel_ok t : forall st bp fuel,
  bounds st -> trep (mem st) t -> tall (fun p _ => node_ok st p) t ->
  node_ok st bp -> bp <> NULL -> sep (bp :: elems t) ->
  (height t < fuel)%nat ->
  exists m',
    mm_insert_fuel fuel (root_of t) bp st
    = Ok (root_of (ins t bp (key (mem st) bp)), set_mem st m') /\
    trep m' (ins t bp (key (mem st) bp)) /\
    (forall a, (forall q, In q (bp :: elems t) -> a <> q /\ a <> q + 4) ->
               m' a = mem st a).
Proof.
  induction t as [|l IHl p k r IHr]; intros st bp fuel Hb Ht Hn Nb Hnz Hs Hf.
  - destruct fuel; [inversion Hf|]. simpl.
    exists (upd (upd (mem st) bp NULL) (bp + 4) NULL). split; [|split].
    + eapply run_bind; [apply SETLEFT_ok; assumption|]. cbv beta.
      eapply run_bind; [apply SETRIGHT_ok; assumption|]. reflexivity.
    + simpl. repeat split; auto.
      * unfold key. rewrite !upd_other by lia. reflexivity.
      * rewrite upd_other, upd_same by lia. reflexivity.
      * rewrite upd_same. reflexivity.
    + intros a Ha. destruct (Ha bp) as [? ?]; [simpl; auto|].
      rewrite !upd_other by lia. reflexivity.
  - destruct fuel; [inversion Hf|].
    simpl in Ht, Hn, Hf. destruct Ht as (Hp & Hk & Hl & Hr & Tl & Tr).
    destruct Hn as (Np & Nl & Nr).
    apply sep_cons in Hs as (Hs & Hbt & Fb).
    simpl in Hs, Hbt, Fb.
    pose proof (sep_node _ _ _ Hs) as (Sl & Sr & Hpl & Hpr & Fl & Fr & Flr).
    assert (Fbp : far bp p) by (apply Fb, in_or_app; simpl; auto).
    assert (Hp' := Hp). apply Z.eqb_neq in Hp'.
    cbn [ins].
    destruct (key (mem st) bp <=? k) eqn:Hle.
    + destruct (IHl st bp fuel) as (m1 & E1 & T1 & F1); auto.
      { apply sep_cons_intro; auto. intros q Hq. apply Fb, in_or_app; auto. }
      { lia. }
      exists (upd m1 p (root_of (ins l bp (key (mem st) bp)))).
      split; [|split].
      * cbn [mm_insert_fuel root_of]. rewrite Hp'.
        eapply run_bind; [apply GETSIZE_ok; assumption|]. cbv beta.
        eapply run_bind; [apply GETSIZE_ok; assumption|]. cbv beta.
        rewrite Hk, Hle.
        eapply run_bind; [apply LEFT_ok; assumption|]. cbv beta. rewrite Hl.
        eapply run_bind; [exact E1|]. cbv beta.
        eapply run_bind; [apply SETLEFT_ok; assumption|]. reflexivity.
      * assert (G : forall a, (a = p - 4 \/ a = p + 4) -> m1 a = mem st a).
        { intros a Ha. apply F1. intros q [<-|Hq].
          - unfold far in Fbp. lia.
          - specialize (Fl q Hq). unfold far in Fl. lia. }
        cbn [trep root_of]. repeat split; auto.
        -- unfold key in *. rewrite upd_other by lia. rewrite G by auto. exact Hk.
        -- apply upd_same.
        -- rewrite upd_other by lia. rewrite G by auto. exact Hr.
        -- eapply trep_frame; [exact T1|]. intros q Hq.
           assert (far p q).
           { apply (Permutation_in _ (elems_ins _ _ _)) in Hq. destruct Hq as [<-|Hq].
             - unfold far in *. lia.
             - apply Fl; auto. }
           unfold far in *. rewrite !upd_other by lia. auto.
        -- eapply trep_frame; [exact Tr|]. intros q Hq.
           specialize (Fr q Hq).
           assert (forall a, (a = q - 4 \/ a = q \/ a = q + 4) -> m1 a = mem st a).
           { intros a Ha. apply F1. intros q' [<-|Hq'].
             - assert (far bp q) by (apply Fb, in_or_app; simpl; auto). unfold far in *. lia.
             - specialize (Flr q' q Hq' Hq). unfold far in *. lia. }
           unfold far in *. rewrite !upd_other by lia.
           repeat split; apply H; lia.
      * intros a Ha. destruct (Ha p) as [? ?]; [simpl; right; apply in_or_app; simpl; auto|].
        rewrite upd_other by lia. apply F1.
        intros q [<-|Hq]; apply Ha; simpl; auto. right. apply in_or_app; auto.
    + destruct (IHr st bp fuel) as (m1 & E1 & T1 & F1); auto.
      { apply sep_cons_intro; auto. intros q Hq. apply Fb, in_or_app; simpl; auto. }
      { lia. }
      exists (upd m1 (p + 4) (root_of (ins r bp (key (mem st) bp)))).
      split; [|split].
      * cbn [mm_insert_fuel root_of]. rewrite Hp'.
        eapply run_bind; [apply GETSIZE_ok; assumption|]. cbv beta.
        eapply run_bind; [apply GETSIZE_ok; assumption|]. cbv beta.
        rewrite Hk, Hle.
        eapply run_bind; [apply RIGHT_ok; assumption|]. cbv beta. rewrite Hr.
        eapply run_bind; [exact E1|]. cbv beta.
        eapply run_bind; [apply SETRIGHT_ok; assumption|]. reflexivity.
      * assert (G : forall a, (a = p - 4 \/ a = p) -> m1 a = mem st a).
        { intros a Ha. apply F1. intros q [<-|Hq].
          - unfold far in Fbp. lia.
          - specialize (Fr q Hq). unfold far in Fr. lia. }
        cbn [trep root_of]. repeat split; auto.
        -- unfold key in *. rewrite upd_other by lia. rewrite G by auto. exact Hk.
        -- rewrite upd_other by lia. rewrite G by auto. exact Hl.
        -- apply upd_same.
        -- eapply trep_frame; [exact Tl|]. intros q Hq.
           specialize (Fl q Hq).
           assert (forall a, (a = q - 4 \/ a = q \/ a = q + 4) -> m1 a = mem st a).
           { intros a Ha. apply F1. intros q' [<-|Hq'].
             - assert (far bp q) by (apply Fb, in_or_app; simpl; auto). unfold far in *. lia.
             - specialize (Flr q q' Hq Hq'). unfold far in *. lia. }
           unfold far in *. rewrite !upd_other by lia.
           repeat split; apply H; lia.
        -- eapply trep_frame; [exact T1|]. intros q Hq.
           assert (far p q).
           { apply (Permutation_in _ (elems_ins _ _ _)) in Hq. destruct Hq as [<-|Hq].
             - unfold far in *. lia.
             - apply Fr; auto. }
           unfold far in *. rewrite !upd_other by lia. auto.
      * intros a Ha. destruct (Ha p) as [? ?]; [simpl; right; apply in_or_app; simpl; auto|].
        rewrite upd_other by lia. apply F1.
        intros q [<-|Hq]; apply Ha; simpl; auto. right. apply in_or_app; simpl; auto.
Qed.

Ltac splits := repeat match goal with |- _ /\ _ => split end.

(** *** Removal on the abstract tree *)

Lemma tall_in P t p : tall P t -> In p (elems t) -> exists k, P p k.
Proof.
  induction t as [|l IHl q k r IHr]; simpl; [tauto|].
  intros (Hq & Hl & Hr) Hin. apply in_app_or in Hin as [Hin|[<-|Hin]]; eauto.
Qed.

Lemma trep_key_in (P : Z -> Z -> Prop) m t p :
  trep m t -> tall P t -> In p (elems t) -> P p (key m p).
Proof.
  induction t as [|l IHl q k r IHr]; simpl; [tauto|].
  intros (Hq & Hk & _ & _ & Tl & Tr) (Pq & Pl & Pr) Hin.
  apply in_app_or in Hin as [Hin|[<-|Hin]]; auto. now rewrite Hk.
Qed.

Lemma rightmost_in t : t <> E -> In (fst (rightmost t)) (elems t).
Proof.
  induction t as [|l IHl p k r IHr]; [congruence|]. intros _. simpl.
  destruct r as [|rl rp rk rr].
  - simpl. apply in_or_app; simpl; auto.
  - apply in_or_app; right; right. apply IHr. discriminate.
Qed.

Lemma del_max_perm t :
  t <> E -> Permutation (elems t) (fst (rightmost t) :: elems (del_max t)).
Proof.
  induction t as [|l IHl p k r IHr]; [congruence|]. intros _. simpl.
  destruct r as [|rl rp rk rr].
  - simpl. rewrite <- Permutation_middle, app_nil_r. reflexivity.
  - cbn [elems] in *. rewrite IHr by discriminate.
    etransitivity; [apply Permutation_app_head, perm_swap|].
    symmetry. apply (Permutation_middle (elems l)).
Qed.

Lemma tall_del_max P t : tall P t -> tall P (del_max t).
Proof.
  induction t as [|l IHl p k r IHr]; simpl; [tauto|].
  intros (Hp & Hl & Hr). destruct r; simpl in *; tauto.
Qed.

Lemma tall_rightmost P t : tall P t -> t <> E -> P (fst (rightmost t)) (snd (rightmost t)).
Proof.
  induction t as [|l IHl p k r IHr]; [congruence|]. simpl.
  intros (Hp & Hl & Hr) _. destruct r; [exact Hp|]. apply IHr; [exact Hr|discriminate].
Qed.

Lemma bst_del_max t : bst t -> bst (del_max t).
Proof.
  induction t as [|l IHl p k r IHr]; simpl; [tauto|].
  intros (Hl & Hr & Bl & Br). destruct r as [|rl rp rk rr]; [exact Bl|].
  cbn [bst]. split; [|split; [|split]]; auto. now apply tall_del_max.
Qed.

(** The rightmost key bounds every other key of an ordered tree. *)
Lemma del_max_le t :
  bst t -> tall (fun _ k' => k' <= snd (rightmost t)) (del_max t).
Proof.
  induction t as [|l IHl p k r IHr]; simpl; [tauto|].
  intros (Hl & Hr & Bl & Br). destruct r as [|rl rp rk rr]; [exact Hl|].
  assert (Hk : k < snd (rightmost (T rl rp rk rr))).
  { apply (tall_rightmost (fun _ k' => k < k')); [exact Hr|discriminate]. }
  cbn [tall]. split; [|split].
  - lia.
  - eapply tall_impl; [|exact Hl]. cbv beta. intros; lia.
  - apply IHr, Br.
Qed.

Lemma bst_merge l r k :
  bst l -> bst r ->
  tall (fun _ k' => k' <= k) l -> tall (fun _ k' => k < k') r ->
  bst (merge l r) /\
  tall (fun _ k' => k' <= k) (merge l E) /\
  (forall P, tall P l -> tall P r -> tall P (merge l r)).
Proof.
  intros Bl Br Hl Hr. split; [|split].
  - destruct l as [|ll lp lk lr]; [exact Br|].
    destruct r as [|rl rp rk rr]; [exact Bl|].
    unfold merge. cbn [bst]. split; [|split; [|split]].
    + apply del_max_le, Bl.
    + assert (snd (rightmost (T ll lp lk lr)) <= k).
      { apply (tall_rightmost (fun _ k' => k' <= k)); [exact Hl|discriminate]. }
      eapply tall_impl; [|exact Hr]. cbv beta. intros; lia.
    + apply bst_del_max, Bl.
    + exact Br.
  - destruct l; simpl; auto.
  - intros P Pl Pr. destruct l as [|ll lp lk lr]; [exact Pr|].
    destruct r as [|rl rp rk rr]; [exact Pl|].
    unfold merge. split; [|split].
    + apply (tall_rightmost P); [exact Pl|discriminate].
    + apply tall_del_max, Pl.
    + exact Pr.
Qed.

Lemma merge_perm l r :
  Permutation (elems (merge l r)) (elems l ++ elems r).
Proof.
  destruct l as [|ll lp lk lr]; [reflexivity|].
  destruct r as [|rl rp rk rr]; [simpl; now rewrite app_nil_r|].
  unfold merge. cbn [elems].
  rewrite (del_max_perm (T ll lp lk lr)) by discriminate.
  symmetry. apply (Permutation_middle (elems (del_max (T ll lp lk lr)))).
Qed.

(** Properties of the descent in an ordered tree without repeated nodes. *)
Section Descent.

Variable m : Z -> Z.

Lemma sub_found t bp :
  trep m t -> bst t -> NoDup (elems t) -> In bp (elems t) ->
  exists l r, sub t bp (key m bp) = T l bp (key m bp) r.
Proof.
  induction t as [|l IHl p k r IHr]; simpl; [tauto|].
  intros (Hp & Hk & Hl & Hr & Tl & Tr) (Ol & Or & Bl & Br) N Hin.
  destruct (Z.eqb_spec bp p) as [->|Hne].
  - rewrite Hk. eauto.
  - apply in_app_or in Hin as [Hin|[Heq|Hin]]; [| congruence |].
    + assert (key m bp <= k) by (apply (trep_key_in (fun _ k' => k' <= k) m l); auto).
      assert ((key m bp <=? k) = true) as -> by (apply Z.leb_le; lia).
      apply IHl; auto. eapply NoDup_app_l; eauto.
    + assert (k < key m bp) by (apply (trep_key_in (fun _ k' => k < k') m r); auto).
      assert ((key m bp <=? k) = false) as -> by (apply Z.leb_gt; lia).
      apply IHr; auto. apply NoDup_app_r in N. now inversion N.
Qed.

Lemma sub_incl t bp kb : incl (elems (sub t bp kb)) (elems t).
Proof.
  induction t as [|l IHl p k r IHr]; simpl; [apply incl_refl|].
  destruct (bp =? p); [apply incl_refl|].
  destruct (kb <=? k).
  - intros q Hq. apply in_or_app. left. now apply IHl.
  - intros q Hq. apply in_or_app. right. right. now apply IHr.
Qed.

Lemma sub_trep t bp kb : trep m t -> trep m (sub t bp kb).
Proof.
  induction t as [|l IHl p k r IHr]; simpl; [tauto|].
  intros (Hp & Hk & Hl & Hr & Tl & Tr).
  destruct (bp =? p); [simpl; splits; auto|].
  destruct (kb <=? k); auto.
Qed.

Lemma sub_tall P t bp kb : tall P t -> tall P (sub t bp kb).
Proof.
  induction t as [|l IHl p k r IHr]; simpl; [tauto|].
  intros (Hp & Hl & Hr).
  destruct (bp =? p); [simpl; splits; auto|].
  destruct (kb <=? k); auto.
Qed.

Lemma sub_bst t bp kb : bst t -> bst (sub t bp kb).
Proof.
  induction t as [|l IHl p k r IHr]; simpl; [tauto|].
  intros (Ol & Or & Bl & Br).
  destruct (bp =? p); [simpl; splits; auto|].
  destruct (kb <=? k); auto.
Qed.

Lemma sub_NoDup t bp kb : NoDup (elems t) -> NoDup (elems (sub t bp kb)).
Proof.
  induction t as [|l IHl p k r IHr]; simpl; [tauto|].
  intros N. destruct (bp =? p); [exact N|].
  destruct (kb <=? k).
  - apply IHl. eapply NoDup_app_l; eauto.
  - apply IHr. apply NoDup_app_r in N. now inversion N.
Qed.

End Descent.

Lemma graft_perm t bp kb x :
  Permutation (elems (graft t bp kb x) ++ elems (sub t bp kb)) (elems t ++ elems x)
  \/ sub t bp kb = E.
Proof.
  induction t as [|l IHl p k r IHr]; simpl; [auto|].
  destruct (bp =? p).
  - left. cbn [elems]. apply Permutation_app_comm.
  - destruct (kb <=? k).
    + destruct IHl as [IH|IH]; [left|right; exact IH].
      cbn [elems]. rewrite <- !app_assoc.
      rewrite <- !app_comm_cons.
      rewrite <- (Permutation_middle (elems l) (elems r ++ elems x)).
      rewrite <- (Permutation_middle (elems (graft l bp kb x))).
      constructor.
      rewrite (Permutation_app_comm (elems r) (elems (sub l bp kb))).
      rewrite (Permutation_app_comm (elems r) (elems x)).
      rewrite !app_assoc. apply Permutation_app_tail. exact IH.
    + destruct IHr as [IH|IH]; [left|right; exact IH].
      cbn [elems]. rewrite <- !app_assoc.
      apply Permutation_app_head. rewrite <- !app_comm_cons. constructor. exact IH.
Qed.

Lemma mm_replace_fuel_ok st t : forall fuel,
  bounds st -> trep (mem st) t -> tall (fun p _ => node_ok st p) t ->
  t <> E -> (height t <= fuel)%nat ->
  mm_replace_fuel fuel (root_of t) st = Ok (fst (rightmost t), st).
Proof.
  induction t as [|l IHl p k r IHr]; intros fuel Hb Ht Hn Hne Hf; [congruence|].
  destruct fuel; [inversion Hf|].
  simpl in Ht, Hn, Hf. destruct Ht as (Hp & Hk & Hl & Hr & Tl & Tr).
  destruct Hn as (Np & Nl & Nr).
  cbn [mm_replace_fuel root_of].
  eapply run_bind; [apply RIGHT_ok; assumption|]. cbv beta. rewrite Hr.
  destruct r as [|rl rp rk rr].
  - reflexivity.
  - assert (Hrp : (root_of (T rl rp rk rr) =? NULL) = false).
    { apply Z.eqb_neq. simpl. simpl in Tr. tauto. }
    rewrite Hrp. cbn [rightmost]. apply IHr; auto; [discriminate|lia].
Qed.

Lemma mm_parent_fuel_ok st t bp : forall fuel,
  bounds st -> trep (mem st) t -> tall (fun p _ => node_ok st p) t ->
  bst t -> NoDup (elems t) -> In bp (elems t) -> (height t <= fuel)%nat ->
  mm_parent_fuel fuel (root_of t) bp st = Ok (parent t bp (key (mem st) bp), st).
Proof.
  induction t as [|l IHl p k r IHr]; intros fuel Hb Ht Hn Ho N Hin Hf; [inversion Hin|].
  destruct fuel; [inversion Hf|].
  assert (Nbp : node_ok st bp).
  { apply (proj1 (tall_elems (node_ok st) _) Hn). exact Hin. }
  simpl in Ht, Hn, Hf, Ho, Hin.
  destruct Ht as (Hp & Hk & Hl & Hr & Tl & Tr).
  destruct Hn as (Np & Nl & Nr). destruct Ho as (Ol & Or & Bl & Br).
  cbn [mm_parent_fuel root_of parent].
  destruct (Z.eqb_spec bp p) as [->|Hne]; [reflexivity|].
  eapply run_bind; [apply GETSIZE_ok; assumption|]. cbv beta.
  eapply run_bind; [apply GETSIZE_ok; assumption|]. cbv beta. rewrite Hk.
  apply in_app_or in Hin as [Hin|[Heq|Hin]]; [| congruence |].
  - assert (key (mem st) bp <= k)
      by (apply (trep_key_in (fun _ k' => k' <= k) (mem st) l); auto).
    assert ((key (mem st) bp <=? k) = true) as -> by (apply Z.leb_le; lia).
    eapply run_bind; [apply LEFT_ok; assumption|]. cbv beta. rewrite Hl.
    destruct (root_of l =? bp); [reflexivity|].
    eapply run_bind; [apply LEFT_ok; assumption|]. cbv beta. rewrite Hl.
    apply IHl; auto; [eapply NoDup_app_l; eauto|lia].
  - assert (k < key (mem st) bp)
      by (apply (trep_key_in (fun _ k' => k < k') (mem st) r); auto).
    assert ((key (mem st) bp <=? k) = false) as -> by (apply Z.leb_gt; lia).
    eapply run_bind; [apply RIGHT_ok; assumption|]. cbv beta. rewrite Hr.
    destruct (root_of r =? bp); [reflexivity|].
    eapply run_bind; [apply RIGHT_ok; assumption|]. cbv beta. rewrite Hr.
    apply IHr; auto; [apply NoDup_app_r in N; now inversion N|lia].
Qed.

Lemma trep_ctx m t bp :
  trep m t -> bst t -> NoDup (elems t) -> In bp (elems t) ->
  ctx m t bp (key m bp).
Proof.
  induction t as [|l IHl p k r IHr]; simpl; [tauto|].
  intros (Hp & Hk & Hl & Hr & Tl & Tr) (Ol & Or & Bl & Br) N Hin.
  destruct (Z.eqb_spec bp p) as [->|Hne]; [trivial|].
  splits; auto.
  apply in_app_or in Hin as [Hin|[Heq|Hin]]; [| congruence |].
  - assert (key m bp <= k) by (apply (trep_key_in (fun _ k' => k' <= k) m l); auto).
    assert ((key m bp <=? k) = true) as -> by (apply Z.leb_le; lia).
    split; auto. apply IHl; auto. eapply NoDup_app_l; eauto.
  - assert (k < key m bp) by (apply (trep_key_in (fun _ k' => k < k') m r); auto).
    assert ((key m bp <=? k) = false) as -> by (apply Z.leb_gt; lia).
    split; auto. apply IHr; auto. apply NoDup_app_r in N. now inversion N.
Qed.

Lemma trep_agree m m' t :
  trep m t -> (forall q, In q (elems t) -> agree3 m m' q) -> trep m' t.
Proof. intros H F. eapply trep_frame; eauto. Qed.

Lemma ctx_frame m m' t bp kb :
  ctx m t bp kb -> NoDup (elems t) ->
  (forall q, In q (elems t) -> ~ In q (elems (sub t bp kb)) -> agree3 m m' q) ->
  ctx m' t bp kb.
Proof.
  induction t as [|l IHl p k r IHr]; simpl; [tauto|].
  intros C N F. destruct (Z.eqb_spec bp p) as [->|Hne]; [trivial|].
  destruct C as (Hp & Hk & Hl & Hr & C).
  assert (Nl := NoDup_app_l _ _ N). assert (Nr := NoDup_app_r _ _ N).
  apply NoDup_cons_iff in Nr as [Hpr Nr'].
  assert (Hpl : ~ In p (elems l)).
  { intro. eapply (NoDup_app_disj (elems l) (p :: elems r)); eauto. simpl; auto. }
  assert (Ap : agree3 m m' p).
  { apply F; [apply in_or_app; simpl; auto|].
    destruct (kb <=? k); intro Hs; apply sub_incl in Hs; auto. }
  destruct Ap as (A1 & A2 & A3).
  splits; try congruence.
  { unfold key in *. now rewrite A1. }
  destruct (kb <=? k); destruct C as (C1 & C2); split.
  - apply IHl; auto. intros q Hq Hs. apply F; auto. apply in_or_app; auto.
  - eapply trep_agree; [exact C2|]. intros q Hq. apply F; [apply in_or_app; simpl; auto|].
    intro Hs. apply sub_incl in Hs.
    eapply (NoDup_app_disj (elems l) (p :: elems r)); eauto. simpl; auto.
  - eapply trep_agree; [exact C1|]. intros q Hq. apply F; [apply in_or_app; simpl; auto|].
    intro Hs. apply sub_incl in Hs.
    eapply (NoDup_app_disj (elems l) (p :: elems r)); eauto. simpl; auto.
  - apply IHr; auto. intros q Hq Hs. apply F; auto. apply in_or_app; simpl; auto.
Qed.

Lemma parent_nonnull m t bp kb :
  ctx m t bp kb -> root_of t <> bp -> parent t bp kb <> NULL.
Proof.
  induction t as [|l IHl p k r IHr]; simpl; [tauto|].
  intros C Hne. destruct (Z.eqb_spec bp p) as [->|_]; [congruence|].
  destruct C as (Hp & _ & _ & _ & C).
  destruct (kb <=? k); destruct C as (C1 & C2).
  - destruct (Z.eqb_spec (root_of l) bp); auto.
  - destruct (Z.eqb_spec (root_of r) bp); auto.
Qed.

Lemma ctx_sub_root m t bp kb : ctx m t bp kb -> root_of (sub t bp kb) = bp.
Proof.
  induction t as [|l IHl p k r IHr]; simpl; [tauto|].
  intros C. destruct (Z.eqb_spec bp p) as [->|_]; [reflexivity|].
  destruct C as (_ & _ & _ & _ & C).
  destruct (kb <=? k); destruct C as (C1 & C2); auto.
Qed.

Lemma reattach_ok t : forall st bp kb x,
  bounds st -> ctx (mem st) t bp kb -> tall (fun p _ => node_ok st p) t ->
  sep (elems t) -> bp <> NULL ->
  trep (mem st) x -> incl (elems x) (elems (sub t bp kb)) -> ~ In bp (elems x) ->
  exists m',
    (forall root,
        reattach (parent t bp kb) bp (root_of x) root st
        = Ok ((if parent t bp kb =? NULL then root_of x else root), set_mem st m')) /\
    trep m' (graft t bp kb x) /\
    (forall a, (forall q, In q (elems t) -> ~ In q (elems (sub t bp kb)) ->
                          a <> q /\ a <> q + 4) -> m' a = mem st a) /\
    root_of (graft t bp kb x)
    = (if parent t bp kb =? NULL then root_of x else root_of t).
Proof.
  induction t as [|l IHl p k r IHr]; intros st bp kb x Hb C Hn Hs Hnz Tx Ix Hbx;
    [destruct C|].
  cbn [ctx parent graft sub] in *.
  destruct (Z.eqb_spec bp p) as [->|Hne].
  - (* the node is the root of this subtree: nothing is written *)
    exists (mem st). splits; auto.
  - destruct C as (Hp & Hk & Hl & Hr & C).
    simpl in Hn. destruct Hn as (Np & Nl & Nr).
    pose proof (sep_node _ _ _ Hs) as (Sl & Sr & Hpl & Hpr & Fl & Fr & Flr).
    assert (Hpz : (p =? NULL) = false) by (now apply Z.eqb_neq).
    destruct (kb <=? k) eqn:Hle; destruct C as (C1 & C2).
    + (* the node is in the left subtree *)
      destruct (Z.eqb_spec (root_of l) bp) as [Hrl|Hrl].
      * (* [p] is the parent, [bp] its left child *)
        assert (Gx : graft l bp kb x = x).
        { destruct l as [|ll lp lk lr]; [simpl in C1; tauto|]. simpl in Hrl. subst lp.
          simpl. now rewrite Z.eqb_refl. }
        assert (Sx : sub l bp kb = l).
        { destruct l as [|ll lp lk lr]; [simpl in C1; tauto|]. simpl in Hrl. subst lp.
          simpl. now rewrite Z.eqb_refl. }
        rewrite Gx, Sx in *.
        exists (upd (mem st) p (root_of x)). rewrite Hpz. splits.
        -- intros root. unfold reattach. rewrite Hpz. cbn [negb].
           eapply run_bind; [apply LEFT_ok; assumption|]. cbv beta.
           rewrite Hl. assert ((root_of l =? bp) = true) as -> by (now apply Z.eqb_eq).
           eapply run_bind; [apply SETLEFT_ok; assumption|]. reflexivity.
        -- cbn [trep]. splits; auto.
           ++ unfold key in *. rewrite upd_other by lia. exact Hk.
           ++ apply upd_same.
           ++ rewrite upd_other by lia. exact Hr.
           ++ eapply trep_agree; [exact Tx|]. intros q Hq.
              specialize (Fl q (Ix q Hq)). unfold far, agree3 in *.
              rewrite !upd_other by lia. auto.
           ++ eapply trep_agree; [exact C2|]. intros q Hq.
              specialize (Fr q Hq). unfold far, agree3 in *.
              rewrite !upd_other by lia. auto.
        -- intros a Ha. destruct (Ha p) as [? ?]; [apply in_or_app; simpl; auto|auto|].
           rewrite upd_other by lia. reflexivity.
        -- reflexivity.
      * (* the parent is further down *)
        destruct (IHl st bp kb x) as (m1 & E1 & T1 & F1 & R1); auto.
        assert (Hpar : parent l bp kb <> NULL) by (eapply parent_nonnull; eauto).
        apply Z.eqb_neq in Hpar. rewrite Hpar in *.
        exists m1. splits.
        -- exact E1.
        -- assert (Ap : agree3 (mem st) m1 p).
           { unfold agree3. splits; apply F1; intros q Hq _; specialize (Fl q Hq);
               unfold far in Fl; lia. }
           destruct Ap as (A1 & A2 & A3).
           cbn [trep]. splits; auto.
           ++ unfold key in *. now rewrite A1.
           ++ congruence.
           ++ congruence.
           ++ eapply trep_agree; [exact C2|]. intros q Hq.
              unfold agree3. splits; apply F1; intros q' Hq' _;
                specialize (Flr q' q Hq' Hq); unfold far in Flr; lia.
        -- intros a Ha. apply F1. intros q Hq Hs'. apply Ha; auto.
           apply in_or_app; auto.
        -- reflexivity.
    + (* the node is in the right subtree *)
      assert (Hlb : root_of l <> bp).
      { destruct l as [|ll lp lk lr]; [simpl; congruence|]. simpl.
        intros ->. apply (sub_incl r bp kb) in Ix || idtac.
        assert (In bp (elems r)).
        { rewrite <- (ctx_sub_root _ _ _ _ C2).
          apply (sub_incl r bp kb).
          destruct (sub r bp kb) as [|sl sp sk sr] eqn:Es.
          - pose proof (ctx_sub_root _ _ _ _ C2) as Hs0. rewrite Es in Hs0. simpl in Hs0.
            congruence.
          - simpl. apply in_or_app; simpl; auto. }
        assert (far bp bp).
        { apply (Flr bp bp); auto. simpl. apply in_or_app; simpl; auto. }
        unfold far in *. lia. }
      destruct (Z.eqb_spec (root_of r) bp) as [Hrr|Hrr].
      * assert (Gx : graft r bp kb x = x).
        { destruct r as [|rl rp rk rr]; [simpl in C2; tauto|]. simpl in Hrr. subst rp.
          simpl. now rewrite Z.eqb_refl. }
        assert (Sx : sub r bp kb = r).
        { destruct r as [|rl rp rk rr]; [simpl in C2; tauto|]. simpl in Hrr. subst rp.
          simpl. now rewrite Z.eqb_refl. }
        rewrite Gx, Sx in *.
        exists (upd (mem st) (p + 4) (root_of x)). rewrite Hpz. splits.
        -- intros root. unfold reattach. rewrite Hpz. cbn [negb].
           eapply run_bind; [apply LEFT_ok; assumption|]. cbv beta.
           rewrite Hl. assert ((root_of l =? bp) = false) as -> by (now apply Z.eqb_neq).
           eapply run_bind; [apply SETRIGHT_ok; assumption|]. reflexivity.
        -- cbn [trep]. splits; auto.
           ++ unfold key in *. rewrite upd_other by lia. exact Hk.
           ++ rewrite upd_other by lia. exact Hl.
           ++ apply upd_same.
           ++ eapply trep_agree; [exact C1|]. intros q Hq.
              specialize (Fl q Hq). unfold far, agree3 in *.
              rewrite !upd_other by lia. auto.
           ++ eapply trep_agree; [exact Tx|]. intros q Hq.
              specialize (Fr q (Ix q Hq)). unfold far, agree3 in *.
              rewrite !upd_other by lia. auto.
        -- intros a Ha. destruct (Ha p) as [? ?]; [apply in_or_app; simpl; auto|auto|].
           rewrite upd_other by lia. reflexivity.
        -- reflexivity.
      * destruct (IHr st bp kb x) as (m1 & E1 & T1 & F1 & R1); auto.
        assert (Hpar : parent r bp kb <> NULL) by (eapply parent_nonnull; eauto).
        apply Z.eqb_neq in Hpar. rewrite Hpar in *.
        exists m1. splits.
        -- exact E1.
        -- assert (Ap : agree3 (mem st) m1 p).
           { unfold agree3. splits; apply F1; intros q Hq _; specialize (Fr q Hq);
               unfold far in Fr; lia. }
           destruct Ap as (A1 & A2 & A3).
           cbn [trep]. splits; auto.
           ++ unfold key in *. now rewrite A1.
           ++ congruence.
           ++ congruence.
           ++ eapply trep_agree; [exact C1|]. intros q Hq.
              unfold agree3. splits; apply F1; intros q' Hq' _;
                specialize (Flr q q' Hq Hq'); unfold far in Flr; lia.
        -- intros a Ha. apply F1. intros q Hq Hs'. apply Ha; auto.
           apply in_or_app; simpl; auto.
        -- reflexivity.
Qed.

Lemma trep_in_nonnull m t p : trep m t -> In p (elems t) -> p <> NULL.
Proof.
  intros Ht Hin.
  destruct (tall_in (fun q _ => q <> NULL) t p) as [_ H]; auto.
  clear Hin. induction t as [|l IHl q k r IHr]; simpl in *; [trivial|].
  destruct Ht as (Hq & _ & _ & _ & Tl & Tr). auto.
Qed.

Lemma merge_E_r l : merge l E = l.
Proof. destruct l; reflexivity. Qed.

(** Removing the rightmost node by the key-directed descent. *)
Lemma sub_rightmost t :
  bst t -> NoDup (elems t) -> t <> E ->
  let q := fst (rightmost t) in
  let kq := snd (rightmost t) in
  right_of (sub t q kq) = E /\ graft t q kq (left_of (sub t q kq)) = del_max t.
Proof.
  induction t as [|l IHl p k r IHr]; [congruence|].
  intros (Ol & Or & Bl & Br) N _. cbn zeta.
  destruct r as [|rl rp rk rr].
  - simpl. rewrite Z.eqb_refl. simpl. auto.
  - set (r := T rl rp rk rr) in *.
    assert (Hr : r <> E) by discriminate.
    change (rightmost (T l p k r)) with (rightmost r).
    set (q := fst (rightmost r)). set (kq := snd (rightmost r)).
    assert (Hin : In q (elems r)) by (apply rightmost_in; auto).
    assert (Hk : k < kq) by (apply (tall_rightmost (fun _ k' => k < k')); auto).
    assert (Hqp : q <> p).
    { intros ->. apply (NoDup_app_disj _ _ p) in N; simpl; auto.
      apply NoDup_app_r in N. apply NoDup_cons_iff in N. tauto. }
    assert (Nr : NoDup (elems r)).
    { apply NoDup_app_r in N. apply NoDup_cons_iff in N. tauto. }
    destruct (IHr Br Nr Hr) as (I1 & I2). fold q kq in I1, I2.
    cbn [sub graft].
    assert ((q =? p) = false) as -> by (now apply Z.eqb_neq).
    assert ((kq <=? k) = false) as -> by (apply Z.leb_gt; lia).
    split; [exact I1|]. rewrite I2. reflexivity.
Qed.

Lemma delete_rightmost t :
  bst t -> NoDup (elems t) -> t <> E ->
  delete t (fst (rightmost t)) (snd (rightmost t)) = del_max t.
Proof.
  intros B N H. destruct (sub_rightmost t B N H) as (H1 & H2).
  unfold delete. rewrite H1, merge_E_r. exact H2.
Qed.

Lemma sep_NoDup l : sep l -> NoDup l.
Proof. intros [H _]; exact H. Qed.

Section Remove.

Variable st : state.

Hypothesis Hb : bounds st.

Lemma mm_parent_ok t bp :
  trep (mem st) t -> tall (fun p _ => node_ok st p) t ->
  bst t -> NoDup (elems t) -> In bp (elems t) ->
  (height t < heap_fuel st)%nat ->
  mm_parent (root_of t) bp st = Ok (parent t bp (key (mem st) bp), st).
Proof.
  intros. unfold mm_parent. apply mm_parent_fuel_ok; auto. lia.
Qed.

Lemma mm_replace_ok t :
  trep (mem st) t -> tall (fun p _ => node_ok st p) t -> t <> E ->
  (height t < heap_fuel st)%nat ->
  mm_replace (root_of t) st = Ok (fst (rightmost t), st).
Proof.
  intros. unfold mm_replace. apply mm_replace_fuel_ok; auto. lia.
Qed.

(** A node with at most one child: one link of its parent is rewritten. *)
Lemma mm_remove_simple t bp fuel :
  trep (mem st) t -> tall (fun p _ => node_ok st p) t ->
  bst t -> sep (elems t) -> In bp (elems t) ->
  (height t < heap_fuel st)%nat ->
  left_of (sub t bp (key (mem st) bp)) = E \/
  right_of (sub t bp (key (mem st) bp)) = E ->
  exists m',
    mm_remove_fuel (S fuel) (root_of t) bp st
    = Ok (root_of (delete t bp (key (mem st) bp)), set_mem st m') /\
    trep m' (delete t bp (key (mem st) bp)) /\
    (forall a, (forall q, In q (elems t) ->
                          ~ In q (elems (sub t bp (key (mem st) bp))) ->
                          a <> q /\ a <> q + 4) -> m' a = mem st a).
Proof.
  intros Ht Hn Ho Hs Hin Hf Hc.
  set (kb := key (mem st) bp) in *.
  assert (N := sep_NoDup _ Hs).
  destruct (sub_found (mem st) t bp Ht Ho N Hin) as (lb & rb & Es). fold kb in Es.
  assert (Ts : trep (mem st) (sub t bp kb)) by (now apply sub_trep).
  assert (Ns : NoDup (elems (sub t bp kb))) by (now apply sub_NoDup).
  rewrite Es in Ts, Ns, Hc. simpl in Ts, Hc.
  destruct Ts as (Hnz & _ & Hl & Hr & Tl & Tr).
  assert (Nbp : node_ok st bp).
  { apply (proj1 (tall_elems (node_ok st) _) Hn). exact Hin. }
  assert (C : ctx (mem st) t bp kb) by (now apply trep_ctx).
  set (x := merge lb rb).
  assert (Tx : trep (mem st) x).
  { unfold x. destruct Hc as [-> | ->]; [exact Tr|]. rewrite merge_E_r. exact Tl. }
  assert (Ix : incl (elems x) (elems (sub t bp kb))).
  { rewrite Es. intros q Hq. unfold x in Hq.
    apply (Permutation_in _ (merge_perm lb rb)) in Hq.
    simpl. apply in_app_or in Hq as [Hq|Hq]; apply in_or_app; simpl; auto. }
  assert (Hbx : ~ In bp (elems x)).
  { intro Hq. unfold x in Hq. apply (Permutation_in _ (merge_perm lb rb)) in Hq.
    simpl in Ns.
    assert (Nl := NoDup_app_r _ _ Ns). apply NoDup_cons_iff in Nl.
    apply in_app_or in Hq as [Hq|Hq]; [|tauto].
    eapply (NoDup_app_disj _ _ bp Ns); simpl; auto. }
  destruct (reattach_ok t st bp kb x Hb C Hn Hs Hnz Tx Ix Hbx)
    as (m' & E' & T' & F' & R').
  exists m'.
  assert (Hrem : delete t bp kb = graft t bp kb x).
  { unfold delete. rewrite Es. reflexivity. }
  rewrite Hrem. splits; auto.
  rewrite R'.
  cbn [mm_remove_fuel].
  eapply run_bind; [apply mm_children_ok; assumption|]. cbv beta.
  rewrite Hl, Hr.
  assert (Hz : forall u, trep (mem st) u -> u <> E -> (root_of u =? NULL) = false).
  { intros u Tu Hu. apply Z.eqb_neq. eapply trep_root_nonnull; eauto. }
  change (NULL =? NULL) with true in *.
  destruct lb as [|ll lp lk lr]; destruct rb as [|rl rp rk rr];
    try (destruct Hc; discriminate);
    try (pose proof (Hz _ Tl ltac:(discriminate)) as Hlz; cbn [root_of] in Hlz);
    try (pose proof (Hz _ Tr ltac:(discriminate)) as Hrz; cbn [root_of] in Hrz);
    cbn [root_of] in Hl, Hr |- *;
    rewrite ?Hlz, ?Hrz;
    change (NULL =? NULL) with true; cbn [negb].
  - change (0 =? 0) with true. cbv iota.
    eapply run_bind; [apply mm_parent_ok; auto|]. cbv beta.
    apply (E' (root_of t)).
  - change (0 + 1 =? 0) with false. cbv iota.
    eapply run_bind; [apply mm_children_ok; assumption|]. cbv beta.
    rewrite Hl, Hr, Hrz.
    change (NULL =? NULL) with true. cbn [negb].
    change (0 + 1 =? 1) with true. cbv iota.
    eapply run_bind; [apply mm_parent_ok; auto|]. cbv beta.
    eapply run_bind; [apply LEFT_ok; assumption|]. cbv beta.
    rewrite Hl. change (NULL =? NULL) with true. cbn [negb].
    eapply run_bind; [apply RIGHT_ok; assumption|]. cbv beta.
    rewrite Hr. apply (E' (root_of t)).
  - change (1 =? 0) with false. cbv iota.
    eapply run_bind; [apply mm_children_ok; assumption|]. cbv beta.
    rewrite Hl, Hr, Hlz.
    change (NULL =? NULL) with true. cbn [negb].
    change (1 =? 1) with true. cbv iota.
    eapply run_bind; [apply mm_parent_ok; auto|]. cbv beta.
    eapply run_bind; [apply LEFT_ok; assumption|]. cbv beta.
    rewrite Hl, Hlz. cbn [negb].
    eapply run_bind; [apply LEFT_ok; assumption|]. cbv beta.
    rewrite Hl. apply (E' (root_of t)).
Qed.

End Remove.

Lemma rightmost_key m t :
  trep m t -> t <> E -> key m (fst (rightmost t)) = snd (rightmost t).
Proof.
  induction t as [|l IHl p k r IHr]; [congruence|]. simpl.
  intros (Hp & Hk & _ & _ & _ & Tr) _.
  destruct r; [exact Hk|]. apply IHr; [exact Tr|discriminate].
Qed.

Lemma height_sub t bp kb : (height (sub t bp kb) <= height t)%nat.
Proof.
  induction t as [|l IHl p k r IHr]; simpl; [lia|].
  destruct (bp =? p); [simpl; lia|]. destruct (kb <=? k); lia.
Qed.

Section RemoveFull.

Variable st : state.

Hypothesis Hb : bounds st.

Lemma mm_remove_fuel_ok t bp fuel :
  trep (mem st) t -> tall (fun p _ => node_ok st p) t ->
  bst t -> sep (elems t) -> In bp (elems t) ->
  (height t < heap_fuel st)%nat ->
  exists m',
    mm_remove_fuel (S (S fuel)) (root_of t) bp st
    = Ok (root_of (delete t bp (key (mem st) bp)), set_mem st m') /\
    trep m' (delete t bp (key (mem st) bp)) /\
    (forall a, (forall q, In q (elems t) -> q <> bp -> a <> q /\ a <> q + 4) ->
               m' a = mem st a).
Proof.
  intros Ht Hn Ho Hs Hin Hf.
  set (kb := key (mem st) bp) in *.
  assert (N := sep_NoDup _ Hs).
  destruct (sub_found (mem st) t bp Ht Ho N Hin) as (lb & rb & Es). fold kb in Es.
  assert (Hbs : In bp (elems (sub t bp kb))).
  { rewrite Es. simpl. apply in_or_app; simpl; auto. }
  destruct lb as [|ll lp lk lr].
  { destruct (mm_remove_simple st Hb t bp (S fuel)) as (m' & E' & T' & F'); auto.
    { fold kb. rewrite Es. auto. }
    exists m'. splits; auto. intros a Ha. apply F'. intros q Hq Hqs.
    apply Ha; auto. intros ->. auto. }
  destruct rb as [|rl rp rk rr].
  { destruct (mm_remove_simple st Hb t bp (S fuel)) as (m' & E' & T' & F'); auto.
    { fold kb. rewrite Es. auto. }
    exists m'. splits; auto. intros a Ha. apply F'. intros q Hq Hqs.
    apply Ha; auto. intros ->. auto. }
  set (lb := T ll lp lk lr) in *. set (rb := T rl rp rk rr) in *.
  assert (Hlb : lb <> E) by discriminate. assert (Hrb : rb <> E) by discriminate.
  assert (Ts : trep (mem st) (sub t bp kb)) by (now apply sub_trep).
  assert (Ns : NoDup (elems (sub t bp kb))) by (now apply sub_NoDup).
  assert (Bs : bst (sub t bp kb)) by (now apply sub_bst).
  assert (Vs : tall (fun p _ => node_ok st p) (sub t bp kb)) by (now apply sub_tall).
  assert (Is := sub_incl t bp kb).
  assert (Hs' := height_sub t bp kb).
  rewrite Es in Ts, Ns, Bs, Vs, Is, Hs'.
  cbn [trep bst tall elems height] in Ts, Ns, Bs, Vs, Is, Hs'.
  destruct Ts as (Hnz & _ & Hl & Hr & Tl & Tr).
  destruct Bs as (Ol & Or & Bl & Br). destruct Vs as (Nbp & Vl & Vr).
  assert (Il : incl (elems lb) (elems t)).
  { intros q Hq. apply Is, in_or_app; auto. }
  assert (Ir : incl (elems rb) (elems t)).
  { intros q Hq. apply Is, in_or_app; simpl; auto. }
  assert (Nl := NoDup_app_l _ _ Ns). assert (Nr := NoDup_app_r _ _ Ns).
  apply NoDup_cons_iff in Nr as [Hbr Nr].
  assert (Hbl : ~ In bp (elems lb)).
  { intro. eapply (NoDup_app_disj _ _ bp Ns); simpl; auto. }
  assert (Dlr : forall q, In q (elems lb) -> In q (elems rb) -> False).
  { intros q H1 H2. eapply (NoDup_app_disj _ _ q Ns); simpl; auto. }
  assert (Far : forall u v, In u (elems t) -> In v (elems t) -> u <> v -> far u v).
  { intros; eapply sep_far; eauto. }
  (* the replacement *)
  set (q := fst (rightmost lb)). set (kq := snd (rightmost lb)).
  assert (Hq : In q (elems lb)) by (apply rightmost_in; auto).
  assert (Hkq : key (mem st) q = kq) by (apply rightmost_key; auto).
  assert (Nq : node_ok st q).
  { apply (proj1 (tall_elems (node_ok st) _) Vl). exact Hq. }
  assert (Hqz : q <> NULL) by (apply (trep_in_nonnull (mem st) lb); auto).
  assert (Hqbp : q <> bp) by (intros ->; auto).
  assert (Fqb := Far q bp (Il q Hq) Hin Hqbp).
  destruct (sub_rightmost lb Bl Nl Hlb) as (R1 & R2). fold q kq in R1, R2.
  (* the recursive call removes it from the left subtree *)
  destruct (mm_remove_simple st Hb lb q fuel) as (m1 & E1 & T1 & F1); auto.
  { eapply sep_incl; eauto. }
  { lia. }
  { rewrite Hkq. auto. }
  rewrite Hkq in E1, T1, F1.
  pose proof (delete_rightmost lb Bl Nl Hlb) as Hdm. fold q kq in Hdm.
  rewrite Hdm in E1, T1.
  assert (G1 : forall a, (forall u, In u (elems lb) -> a <> u /\ a <> u + 4) ->
                         m1 a = mem st a).
  { intros a Ha. apply F1. intros u Hu _. auto. }
  set (m2 := upd m1 q (root_of (del_max lb))).
  set (m3 := upd m2 (q + 4) (root_of rb)).
  set (x := T (del_max lb) q kq rb).
  assert (Pd := del_max_perm lb Hlb). fold q in Pd.
  assert (Hqd : ~ In q (elems (del_max lb))).
  { intro Hd. apply (Permutation_NoDup Pd) in Nl. apply NoDup_cons_iff in Nl. tauto. }
  assert (Id : incl (elems (del_max lb)) (elems lb)).
  { intros u Hu. apply (Permutation_in _ (Permutation_sym Pd)). simpl; auto. }
  assert (G3 : forall a, a <> q -> a <> q + 4 ->
                         (forall u, In u (elems lb) -> a <> u /\ a <> u + 4) ->
                         m3 a = mem st a).
  { intros a H1 H2 H3. unfold m3, m2. rewrite !upd_other by lia. now apply G1. }
  assert (Tx : trep m3 x).
  { unfold x. cbn [trep root_of]. splits; auto.
    - unfold key. unfold m3, m2. rewrite !upd_other by lia.
      rewrite G1; [exact Hkq|].
      intros u Hu. destruct (Z.eq_dec u q) as [->|Hne]; [lia|].
      assert (F := Far u q (Il u Hu) (Il q Hq) Hne). unfold far in F. lia.
    - unfold m3, m2. rewrite upd_other by lia. apply upd_same.
    - unfold m3. apply upd_same.
    - eapply trep_agree; [exact T1|]. intros u Hu.
      assert (Hne : u <> q) by (intros ->; auto).
      assert (F := Far u q (Il u (Id u Hu)) (Il q Hq) Hne). unfold far in F.
      unfold agree3, m3, m2. rewrite !upd_other by lia. auto.
    - eapply trep_agree; [exact Tr|]. intros u Hu.
      assert (Hne : u <> q) by (intros ->; eauto).
      assert (F := Far u q (Ir u Hu) (Il q Hq) Hne). unfold far in F.
      unfold agree3. splits; apply G3; try lia; intros v Hv;
        (assert (Hne' : u <> v) by (intros ->; eauto));
        assert (F' := Far u v (Ir u Hu) (Il v Hv) Hne'); unfold far in F'; lia. }
  assert (C : ctx (mem st) t bp kb) by (now apply trep_ctx).
  assert (C3 : ctx m3 t bp kb).
  { eapply ctx_frame; [exact C|exact N|]. rewrite Es. cbn [elems].
    intros u Hu Hus.
    assert (Hne : u <> q).
    { intros ->. apply Hus, in_or_app; auto. }
    assert (F := Far u q Hu (Il q Hq) Hne). unfold far in F.
    unfold agree3. splits; apply G3; try lia; intros v Hv;
      (assert (Hne' : u <> v) by (intros ->; apply Hus, in_or_app; auto));
      assert (F' := Far u v Hu (Il v Hv) Hne'); unfold far in F'; lia. }
  set (st3 := set_mem st m3).
  destruct (reattach_ok t st3 bp kb x) as (m' & E' & T' & F' & R'); auto.
  { rewrite Es. unfold x. cbn [elems]. intros u Hu.
    apply in_app_or in Hu as [Hu|[<-|Hu]]; apply in_or_app; simpl; auto. }
  { unfold x. cbn [elems]. intro Hu.
    apply in_app_or in Hu as [Hu|[Hu|Hu]]; auto. }
  assert (Hdel : delete t bp kb = graft t bp kb x).
  { unfold delete. rewrite Es. reflexivity. }
  rewrite Hdel. exists m'. splits; auto.
  - rewrite R'. change (root_of x) with q in E'.
    assert (Hz : forall u, trep (mem st) u -> u <> E -> (root_of u =? NULL) = false).
    { intros u Tu Hu. apply Z.eqb_neq. eapply trep_root_nonnull; eauto. }
    pose proof (Hz _ Tl Hlb) as Hlz. pose proof (Hz _ Tr Hrb) as Hrz.
    cbn [mm_remove_fuel].
    eapply run_bind; [apply mm_children_ok; assumption|]. cbv beta.
    rewrite Hl, Hr, Hlz, Hrz. cbn [negb].
    change (1 + 1 =? 0) with false. cbv iota.
    eapply run_bind; [apply mm_children_ok; assumption|]. cbv beta.
    rewrite Hl, Hr, Hlz, Hrz. cbn [negb].
    change (1 + 1 =? 1) with false. cbv iota.
    eapply run_bind; [apply mm_parent_ok; auto|]. cbv beta.
    eapply run_bind; [apply LEFT_ok; assumption|]. cbv beta. rewrite Hl.
    eapply run_bind; [apply mm_replace_ok; auto; lia|]. cbv beta. fold q.
    eapply run_bind; [apply LEFT_ok; assumption|]. cbv beta. rewrite Hl.
    eapply run_bind; [exact E1|]. cbv beta.
    eapply run_bind; [apply SETLEFT_ok; assumption|]. cbv beta.
    eapply run_bind; [apply RIGHT_ok; assumption|]. cbv beta.
    change (mem (set_mem (set_mem st m1) (upd (mem (set_mem st m1)) q (root_of (del_max lb)))))
      with m2.
    assert (Hr2 : m2 (bp + 4) = root_of rb).
    { unfold m2. unfold far in Fqb. rewrite upd_other by lia.
      rewrite G1; [exact Hr|]. intros u Hu.
      assert (Hne : u <> bp) by (intros ->; auto).
      assert (F := Far u bp (Il u Hu) Hin Hne). unfold far in F. lia. }
    rewrite Hr2.
    eapply run_bind; [apply SETRIGHT_ok; assumption|]. cbv beta.
    fold kb. exact (E' (root_of t)).
  - intros a Ha. rewrite F'.
    + unfold st3. cbn [mem set_mem]. apply G3.
      * apply (Ha q); auto.
      * apply (Ha q); auto.
      * intros u Hu. apply Ha; auto. intros ->; auto.
    + intros u Hu Hus. apply Ha; auto. intros ->; auto.
Qed.

Lemma heap_fuel_ge2 p : node_ok st p -> exists f, heap_fuel st = S (S f).
Proof.
  intros (_ & H1 & H2). unfold heap_fuel.
  exists (Z.to_nat (mem_brk st - mem_start_brk st) - 1)%nat. lia.
Qed.

Lemma mm_remove_ok t bp :
  trep (mem st) t -> tall (fun p _ => node_ok st p) t ->
  bst t -> sep (elems t) -> In bp (elems t) ->
  (height t < heap_fuel st)%nat ->
  exists m',
    mm_remove (root_of t) bp st
    = Ok (root_of (delete t bp (key (mem st) bp)), set_mem st m') /\
    trep m' (delete t bp (key (mem st) bp)) /\
    (forall a, (forall q, In q (elems t) -> q <> bp -> a <> q /\ a <> q + 4) ->
               m' a = mem st a).
Proof.
  intros Ht Hn Ho Hs Hin Hf.
  assert (Nbp : node_ok st bp).
  { apply (proj1 (tall_elems (node_ok st) _) Hn). exact Hin. }
  destruct (heap_fuel_ge2 bp Nbp) as (f & Hfuel).
  unfold mm_remove. rewrite Hfuel. apply mm_remove_fuel_ok; auto.
Qed.

Lemma mm_insert_ok t bp :
  trep (mem st) t -> tall (fun p _ => node_ok st p) t ->
  node_ok st bp -> bp <> NULL -> sep (bp :: elems t) ->
  (height t < heap_fuel st)%nat ->
  exists m',
    mm_insert (root_of t) bp st
    = Ok (root_of (ins t bp (key (mem st) bp)), set_mem st m') /\
    trep m' (ins t bp (key (mem st) bp)) /\
    (forall a, (forall q, In q (bp :: elems t) -> a <> q /\ a <> q + 4) ->
               m' a = mem st a).
Proof. intros. unfold mm_insert. apply mm_insert_fuel_ok; auto. Qed.

Lemma mm_fitter_ok t size :
  trep (mem st) t -> tall (fun p _ => node_ok st p) t ->
  (height t < heap_fuel st)%nat ->
  mm_fitter (root_of t) size st = Ok (fit t size, st).
Proof. intros. unfold mm_fitter. apply mm_fitter_fuel_ok; auto. Qed.

End RemoveFull.

(** *** Tags *)

Lemma tag_add sz a : sz mod 8 = 0 -> tag sz a = sz + (if a then 1 else 0).
Proof. intros. unfold tag. apply PACK_add; auto. destruct a; lia. Qed.

Lemma tag_size sz a :
  0 <= sz < WORD_MOD -> sz mod 8 = 0 -> Z.land (tag sz a) MASK7 = sz.
Proof. intros. unfold tag. apply size_PACK; auto. destruct a; lia. Qed.

Lemma tag_alloc sz a :
  sz mod 8 = 0 -> Z.land (tag sz a) 1 = if a then 1 else 0.
Proof. intros. unfold tag. apply alloc_PACK; auto. destruct a; lia. Qed.

Lemma tag_key m p sz a :
  m (p - 4) = tag sz a -> 0 <= sz < INT_MAX1 -> sz mod 8 = 0 -> key m p = sz.
Proof.
  intros H R M. unfold key. rewrite H, tag_size; auto.
  - apply to_int_small; auto.
  - unfold INT_MAX1, WORD_MOD in *. lia.
Qed.

(** *** Chains *)

Lemma chain_app b l1 l2 e :
  chain b (l1 ++ l2) e <-> exists mid, chain b l1 mid /\ chain mid l2 e.
Proof.
  revert b. induction l1 as [|x l1 IH]; intros b; simpl.
  - split; [intros H; exists b; auto|intros (mid & -> & H); auto].
  - rewrite IH. split.
    + intros (H1 & H2 & H3 & mid & H4 & H5). exists mid. auto.
    + intros (mid & (H1 & H2 & H3 & H4) & H5). splits; auto. exists mid; auto.
Qed.

Lemma chain_le b l e : chain b l e -> b <= e.
Proof.
  revert b. induction l as [|x l IH]; intros b; simpl; [lia|].
  intros (_ & H & _ & C). apply IH in C. lia.
Qed.

Lemma chain_end b l e e' : chain b l e -> chain b l e' -> e = e'.
Proof.
  revert b. induction l as [|x l IH]; intros b; simpl; [congruence|].
  intros (_ & _ & _ & C) (_ & _ & _ & C'). eauto.
Qed.

Lemma chain_mod8 b l e : chain b l e -> b mod 8 = 0 -> e mod 8 = 0.
Proof.
  revert b. induction l as [|x l IH]; intros b; simpl; [congruence|].
  intros (_ & _ & M & C) Hb. apply IH in C; auto.
  rewrite Z.add_mod, Hb, M by lia. reflexivity.
Qed.

Lemma chain_in b l e x :
  chain b l e -> In x l ->
  b <= bp_of x /\ bp_of x + sz_of x <= e /\ 8 <= sz_of x /\ sz_of x mod 8 = 0 /\
  (b mod 8 = 0 -> bp_of x mod 8 = 0).
Proof.
  revert b. induction l as [|y l IH]; intros b; simpl; [tauto|].
  intros (Hy & Hs & Hm & C) [->|Hin].
  - apply chain_le in C. splits; try lia. intros; congruence.
  - destruct (IH _ C Hin) as (H1 & H2 & H3 & H4 & H5). splits; try lia.
    intros Hb. apply H5. rewrite Z.add_mod, Hb, Hm by lia. reflexivity.
Qed.

Lemma chain_mid b l1 x l2 e :
  chain b (l1 ++ x :: l2) e ->
  chain b l1 (bp_of x) /\ chain (bp_of x + sz_of x) l2 e /\
  8 <= sz_of x /\ sz_of x mod 8 = 0.
Proof.
  rewrite chain_app. intros (mid & C1 & C2). simpl in C2.
  destruct C2 as (-> & H1 & H2 & C2). auto.
Qed.

(** Blocks of a chain do not overlap. *)
Lemma chain_before b l1 x l2 e y :
  chain b (l1 ++ x :: l2) e -> In y l1 -> bp_of y + sz_of y <= bp_of x.
Proof.
  intros C Hy. apply chain_mid in C as (C1 & _). 
  destruct (chain_in _ _ _ _ C1 Hy) as (_ & H & _). exact H.
Qed.

Lemma chain_after b l1 x l2 e y :
  chain b (l1 ++ x :: l2) e -> In y l2 -> bp_of x + sz_of x <= bp_of y.
Proof.
  intros C Hy. apply chain_mid in C as (_ & C2 & _). 
  destruct (chain_in _ _ _ _ C2 Hy) as (H & _). exact H.
Qed.

Lemma chain_disjoint b l e x y :
  chain b l e -> In x l -> In y l ->
  x = y \/ bp_of x + sz_of x <= bp_of y \/ bp_of y + sz_of y <= bp_of x.
Proof.
  intros C Hx Hy. destruct (in_split _ _ Hx) as (l1 & l2 & ->).
  apply in_app_or in Hy as [Hy|[Hy|Hy]]; auto.
  - right; right. eapply chain_before; eauto.
  - right; left. eapply chain_after; eauto.
Qed.

Lemma chain_same_bp b l e x y :
  chain b l e -> In x l -> In y l -> bp_of x = bp_of y -> x = y.
Proof.
  intros C Hx Hy Hb. destruct (chain_disjoint _ _ _ _ _ C Hx Hy) as [H|[H|H]]; auto.
  - destruct (chain_in _ _ _ _ C Hx) as (_ & _ & ? & _). lia.
  - destruct (chain_in _ _ _ _ C Hy) as (_ & _ & ? & _). lia.
Qed.

Lemma chain_NoDup b l e : chain b l e -> NoDup (map bp_of l).
Proof.
  revert b. induction l as [|x l IH]; intros b; simpl; [constructor|].
  intros (Hx & Hs & Hm & C). constructor; eauto.
  intros Hin. apply in_map_iff in Hin as (y & Hy & Hin).
  destruct (chain_in _ _ _ _ C Hin) as (H & _). lia.
Qed.

Lemma free_bps_app l1 l2 : free_bps (l1 ++ l2) = free_bps l1 ++ free_bps l2.
Proof. unfold free_bps. now rewrite filter_app, map_app. Qed.

Lemma free_bps_in l p : In p (free_bps l) <-> exists sz, In (p, sz, false) l.
Proof.
  unfold free_bps. rewrite in_map_iff. split.
  - intros (x & <- & Hx). apply filter_In in Hx as (Hx & Ha).
    destruct x as ((q, sz), a). simpl in *. destruct a; [discriminate|]. eauto.
  - intros (sz & H). exists (p, sz, false). split; auto. apply filter_In. auto.
Qed.

Lemma chain_length b l e :
  chain b l e -> 8 * Z.of_nat (length l) <= e - b.
Proof.
  revert b. induction l as [|x l IH]; intros b; simpl length; [simpl; lia|].
  intros (Hx & Hs & Hm & C). apply IH in C. lia.
Qed.

Lemma height_le_length t : (height t <= length (elems t))%nat.
Proof.
  induction t as [|l IHl p k r IHr]; simpl; [lia|].
  rewrite length_app. simpl. lia.
Qed.

(** Grafting keeps the order when the graft fits where the subtree was. *)
Lemma tall_graft P t bp kb x :
  tall P t -> (tall P (sub t bp kb) -> tall P x) -> tall P (graft t bp kb x).
Proof.
  induction t as [|l IHl p k r IHr]; simpl; [tauto|].
  intros (Hp & Hl & Hr) Hx. destruct (bp =? p).
  - apply Hx. simpl. auto.
  - destruct (kb <=? k); simpl; auto.
Qed.

Lemma bst_graft t bp kb x :
  bst t -> bst x -> (forall P, tall P (sub t bp kb) -> tall P x) ->
  bst (graft t bp kb x).
Proof.
  induction t as [|l IHl p k r IHr]; simpl; [tauto|].
  intros (Ol & Or & Bl & Br) Bx Hx. destruct (bp =? p); [exact Bx|].
  destruct (kb <=? k); simpl; splits; auto.
  - apply tall_graft; auto.
  - apply tall_graft; auto.
Qed.

Section Delete.

Variables (m : Z -> Z) (t : tree) (bp : Z).

Hypothesis Ht : trep m t.

Hypothesis Ho : bst t.

Hypothesis N : NoDup (elems t).

Hypothesis Hin : In bp (elems t).

Lemma delete_bst : bst (delete t bp (key m bp)).
Proof.
  destruct (sub_found m t bp Ht Ho N Hin) as (lb & rb & Es).
  assert (Bs : bst (sub t bp (key m bp))) by (now apply sub_bst).
  unfold delete. rewrite Es in *. simpl in Bs |- *.
  destruct Bs as (Ol & Or & Bl & Br).
  destruct (bst_merge lb rb (key m bp) Bl Br Ol Or) as (B1 & _ & B3).
  apply bst_graft; auto.
  intros P. rewrite Es. simpl. intros (_ & Pl & Pr). auto.
Qed.

Lemma delete_tall P : tall P t -> tall P (delete t bp (key m bp)).
Proof.
  intros Hp.
  destruct (sub_found m t bp Ht Ho N Hin) as (lb & rb & Es).
  assert (Bs : bst (sub t bp (key m bp))) by (now apply sub_bst).
  unfold delete. apply tall_graft; auto.
  rewrite Es in *. simpl in Bs |- *.
  destruct Bs as (Ol & Or & Bl & Br).
  destruct (bst_merge lb rb (key m bp) Bl Br Ol Or) as (B1 & _ & B3).
  intros (_ & Pl & Pr). auto.
Qed.

Lemma delete_perm : Permutation (elems t) (bp :: elems (delete t bp (key m bp))).
Proof.
  destruct (sub_found m t bp Ht Ho N Hin) as (lb & rb & Es).
  unfold delete. rewrite Es. simpl.
  destruct (graft_perm t bp (key m bp) (merge lb rb)) as [P|P];
    [|rewrite Es in P; discriminate].
  rewrite Es in P. simpl in P.
  rewrite (merge_perm lb rb) in P.
  rewrite <- (Permutation_middle (elems lb) (elems rb) bp) in P.
  rewrite <- (Permutation_middle _ (elems lb ++ elems rb) bp) in P.
  rewrite app_comm_cons in P.
  apply Permutation_app_inv_r in P. now symmetry.
Qed.

End Delete.

Lemma mod8_mod4 p : p mod 8 = 0 -> p mod 4 = 0.
Proof.
  intros H. apply Z.mod_divide in H; [|lia]. destruct H as [c ->].
  replace (c * 8) with ((2 * c) * 4) by lia. apply Z.mod_mul; lia.
Qed.

(** *** Consequences of the heap invariant *)

Section HeapFacts.

Variables (st : state) (l : list blk) (fl : list Z) (t : tree).

Hypothesis H : heap_gen st l fl t.

Lemma hg_user_chain : chain (heap_listp st + 8) l (mem_brk st).
Proof. destruct (hg_chain _ _ _ _ H) as (_ & _ & _ & C). exact C. Qed.

Lemma hg_bounds : bounds st.
Proof.
  destruct (hg_sink _ _ _ _ H) as (? & ? & ? & ? & ? & ? & ?).
  unfold bounds. lia.
Qed.

Lemma hg_brk_mod8 : mem_brk st mod 8 = 0.
Proof. eapply chain_mod8; [apply (hg_chain _ _ _ _ H)|apply (hg_align _ _ _ _ H)]. Qed.

Lemma hg_block x :
  In x l ->
  heap_listp st + 8 <= bp_of x /\ bp_of x + sz_of x <= mem_brk st /\
  16 <= sz_of x /\ sz_of x mod 8 = 0 /\ bp_of x mod 8 = 0 /\ blk_ok (mem st) x.
Proof.
  intros Hx. pose proof hg_user_chain as C.
  destruct (chain_in _ _ _ _ C Hx) as (H1 & H2 & H3 & H4 & H5).
  pose proof (hg_min _ _ _ _ H) as Hm. rewrite Forall_forall in Hm.
  pose proof (hg_tags _ _ _ _ H) as Ht. rewrite Forall_forall in Ht.
  pose proof (hg_align _ _ _ _ H) as Ha.
  splits; auto.
  - apply H5. rewrite Z.add_mod, Ha by lia. reflexivity.
  - apply Ht. simpl; auto.
Qed.

Lemma hg_range : mem_start_brk st + 16 <= mem_brk st /\ mem_brk st < WORD_MOD /\
                 mem_brk st - mem_start_brk st < INT_MAX1.
Proof.
  destruct (hg_sink _ _ _ _ H) as (? & ? & ? & ? & ? & ? & ?).
  pose proof (hg_first _ _ _ _ H).
  pose proof hg_user_chain as C.
  apply chain_le in C. lia.
Qed.

Lemma hg_node p k :
  In (p, k, false) l -> node_ok st p /\ p <> NULL /\ 16 <= k < INT_MAX1 /\ k mod 8 = 0.
Proof.
  intros Hx. destruct (hg_block _ Hx) as (H1 & H2 & H3 & H4 & H5 & _).
  pose proof hg_range. pose proof (hg_first _ _ _ _ H).
  destruct (hg_sink _ _ _ _ H) as (? & ? & ? & ? & ? & ? & ?).
  unfold bp_of, sz_of in *. simpl in *. unfold node_ok, NULL. splits; try lia.
  now apply mod8_mod4.
Qed.

Lemma hg_tree_nodes : tall (fun p _ => node_ok st p) t.
Proof.
  eapply tall_impl; [|apply (hg_nodes _ _ _ _ H)].
  intros p k Hp. apply (hg_node p k Hp).
Qed.

Lemma hg_elem p : In p (elems t) -> exists k, In (p, k, false) l.
Proof. intros Hp. apply (tall_in _ _ _ (hg_nodes _ _ _ _ H) Hp). Qed.

Lemma hg_elems_NoDup : NoDup (elems t).
Proof.
  eapply Permutation_NoDup; [symmetry; apply (hg_perm _ _ _ _ H)|].
  apply (hg_nodup _ _ _ _ H).
Qed.

Lemma hg_far p q kp kq :
  In (p, kp, false) l -> In (q, kq, false) l -> p <> q -> far p q.
Proof.
  intros Hp Hq Hne.
  destruct (hg_block _ Hp) as (_ & _ & Sp & _). destruct (hg_block _ Hq) as (_ & _ & Sq & _).
  destruct (chain_disjoint _ _ _ _ _ hg_user_chain Hp Hq) as [E0|[D|D]].
  - inversion E0. congruence.
  - unfold far, bp_of, sz_of in *. simpl in *. lia.
  - unfold far, bp_of, sz_of in *. simpl in *. lia.
Qed.

Lemma hg_sep : sep (elems t).
Proof.
  split; [apply hg_elems_NoDup|].
  intros p q Hp Hq Hne.
  destruct (hg_elem p Hp) as (kp & Kp). destruct (hg_elem q Hq) as (kq & Kq).
  eapply hg_far; eauto.
Qed.

Lemma hg_fuel : (height t < heap_fuel st)%nat.
Proof.
  pose proof (height_le_length t).
  assert (length (elems t) <= length (map bp_of l))%nat.
  { apply NoDup_incl_length; [apply hg_elems_NoDup|].
    intros p Hp. destruct (hg_elem p Hp) as (k & Hk).
    apply in_map_iff. exists (p, k, false). auto. }
  rewrite length_map in *.
  pose proof (chain_length _ _ _ hg_user_chain).
  pose proof (hg_first _ _ _ _ H). unfold heap_fuel. lia.
Qed.

(** The key a node carries is the size of its block. *)
Lemma hg_key x : In x l -> key (mem st) (bp_of x) = sz_of x.
Proof.
  intros Hx. destruct (hg_block _ Hx) as (H1 & H2 & H3 & H4 & H5 & (T1 & _)).
  pose proof hg_range. pose proof (hg_first _ _ _ _ H).
  eapply tag_key; eauto. lia.
Qed.

(** A link word of a free block is no tag word of any block. *)
Lemma hg_tags_frame m' :
  (forall a, (forall x, In x l -> alloc_of x = false ->
                        a <> bp_of x /\ a <> bp_of x + 4) -> m' a = mem st a) ->
  Forall (blk_ok m') (prologue st :: l) /\ m' (mem_brk st - 4) = tag 0 true.
Proof.
  intros F. pose proof (hg_tags _ _ _ _ H) as Ht.
  pose proof hg_user_chain as C. pose proof (hg_first _ _ _ _ H).
  split.
  - rewrite Forall_forall in *. intros y Hy. specialize (Ht y Hy).
    unfold blk_ok in *. rewrite !F; auto.
    + intros x Hx Hf. destruct (hg_block _ Hx) as (X1 & X2 & X3 & _).
      destruct Hy as [<-|Hy].
      * unfold prologue, bp_of, sz_of in *. simpl in *. lia.
      * destruct (hg_block _ Hy) as (Y1 & Y2 & Y3 & _).
        destruct (chain_disjoint _ _ _ _ _ C Hx Hy) as [->|[D|D]]; lia.
    + intros x Hx Hf. destruct (hg_block _ Hx) as (X1 & X2 & X3 & _).
      destruct Hy as [<-|Hy].
      * unfold prologue, bp_of, sz_of in *. simpl in *. lia.
      * destruct (hg_block _ Hy) as (Y1 & Y2 & Y3 & _).
        destruct (chain_disjoint _ _ _ _ _ C Hx Hy) as [->|[D|D]]; lia.
  - rewrite F; [apply (hg_epi _ _ _ _ H)|].
    intros x Hx Hf. destruct (hg_block _ Hx) as (X1 & X2 & X3 & _). lia.
Qed.

End HeapFacts.

(** *** The index operations preserve the heap structure *)

Lemma link_frame_tags st l fl t fl' skip m' :
  heap_gen st l fl t ->
  (forall q, In q fl' -> q <> skip -> exists k, In (q, k, false) l) ->
  link_frame fl' skip (mem st) m' ->
  Forall (blk_ok m') (prologue st :: l) /\ m' (mem_brk st - 4) = tag 0 true.
Proof.
  intros H Hfl F. apply (hg_tags_frame _ _ _ _ H).
  intros a Ha. apply F. intros q Hq Hs. destruct (Hfl q Hq Hs) as (k & Hk).
  apply (Ha _ Hk). reflexivity.
Qed.

Lemma heap_remove st l fl t bp :
  heap_gen st l fl t -> In bp (elems t) ->
  exists m' t',
    mm_remove (tree_root st) bp st = Ok (root_of t', set_mem st m') /\
    heap_gen (set_tree_root (set_mem st m') (root_of t')) l (elems t') t' /\
    Permutation fl (bp :: elems t') /\
    link_frame fl bp (mem st) m'.
Proof.
  intros H Hin.
  pose proof (hg_bounds _ _ _ _ H) as Hb.
  pose proof (hg_elems_NoDup _ _ _ _ H) as N.
  destruct (mm_remove_ok st Hb t bp (hg_trep _ _ _ _ H) (hg_tree_nodes _ _ _ _ H)
              (hg_bst _ _ _ _ H) (hg_sep _ _ _ _ H) Hin (hg_fuel _ _ _ _ H))
    as (m' & E' & T' & F').
  set (t' := delete t bp (key (mem st) bp)) in *.
  assert (P : Permutation (elems t) (bp :: elems t')).
  { apply delete_perm; auto. apply (hg_trep _ _ _ _ H). apply (hg_bst _ _ _ _ H). }
  assert (LF : link_frame fl bp (mem st) m').
  { intros a Ha. apply F'. intros q Hq Hne. apply Ha; auto.
    eapply Permutation_in; [apply (hg_perm _ _ _ _ H)|exact Hq]. }
  exists m', t'. splits; auto.
  - rewrite (hg_root _ _ _ _ H). exact E'.
  - destruct (link_frame_tags st l fl t fl bp m' H) as (G1 & G2); auto.
    { intros q Hq _. apply (hg_elem _ _ _ _ H).
      eapply Permutation_in; [symmetry; apply (hg_perm _ _ _ _ H)|exact Hq]. }
    constructor; try solve [apply H]; auto.
    + unfold t'. apply delete_bst; auto; apply H.
    + unfold t'. apply delete_tall; auto; apply H.
    + apply (Permutation_NoDup P) in N. now apply NoDup_cons_iff in N.
  - rewrite <- (hg_perm _ _ _ _ H). exact P.
Qed.

Lemma heap_insert st l fl t bp sz :
  heap_gen st l fl t -> In (bp, sz, false) l -> ~ In bp fl ->
  exists m',
    mm_insert (tree_root st) bp st = Ok (root_of (ins t bp sz), set_mem st m') /\
    heap_gen (set_tree_root (set_mem st m') (root_of (ins t bp sz))) l (bp :: fl)
             (ins t bp sz) /\
    link_frame (bp :: fl) 0 (mem st) m'.
Proof.
  intros H Hin Hfl.
  pose proof (hg_bounds _ _ _ _ H) as Hb.
  pose proof (hg_elems_NoDup _ _ _ _ H) as N.
  destruct (hg_node _ _ _ _ H bp sz Hin) as (Nbp & Hnz & Hsz & Hm8).
  assert (Hbt : ~ In bp (elems t)).
  { intro Hq. apply Hfl. eapply Permutation_in; [apply (hg_perm _ _ _ _ H)|exact Hq]. }
  assert (Hs : sep (bp :: elems t)).
  { apply sep_cons_intro; [apply (hg_sep _ _ _ _ H)|].
    intros q Hq. destruct (hg_elem _ _ _ _ H q Hq) as (k & Hk).
    eapply (hg_far _ _ _ _ H); eauto. intros ->. auto. }
  destruct (mm_insert_ok st Hb t bp (hg_trep _ _ _ _ H) (hg_tree_nodes _ _ _ _ H)
              Nbp Hnz Hs (hg_fuel _ _ _ _ H)) as (m' & E' & T' & F').
  assert (Hk : key (mem st) bp = sz) by (apply (hg_key _ _ _ _ H _ Hin)).
  rewrite Hk in *.
  assert (LF : link_frame (bp :: fl) 0 (mem st) m').
  { intros a Ha. apply F'. intros q [<-|Hq].
    - apply Ha; simpl; auto.
    - destruct (hg_elem _ _ _ _ H q Hq) as (k & Hq').
      destruct (hg_node _ _ _ _ H q k Hq') as (_ & Hqz & _).
      apply Ha; auto. right.
      eapply Permutation_in; [apply (hg_perm _ _ _ _ H)|exact Hq]. }
  exists m'. splits; auto.
  - rewrite (hg_root _ _ _ _ H). exact E'.
  - destruct (link_frame_tags st l fl t (bp :: fl) 0 m' H) as (G1 & G2); auto.
    { intros q [<-|Hq] _; eauto. apply (hg_elem _ _ _ _ H).
      eapply Permutation_in; [symmetry; apply (hg_perm _ _ _ _ H)|exact Hq]. }
    constructor; try solve [apply H]; auto.
    + apply bst_ins. apply H.
    + apply tall_ins; auto. apply H.
    + rewrite elems_ins. constructor. apply H.
    + constructor; auto. apply H.
Qed.

Lemma heap_gen_perm st l fl fl' t :
  heap_gen st l fl t -> Permutation fl fl' -> heap_gen st l fl' t.
Proof.
  intros H P. constructor; try solve [apply H].
  - rewrite <- P. apply H.
  - eapply Permutation_NoDup; [exact P|apply H].
Qed.

Lemma free_bps_mid_free l1 p s l2 :
  Permutation (free_bps (l1 ++ (p, s, false) :: l2)) (p :: free_bps (l1 ++ l2)).
Proof.
  rewrite !free_bps_app. unfold free_bps at 2. simpl.
  symmetry. apply Permutation_middle.
Qed.

Lemma free_bps_mid_alloc l1 p s l2 :
  free_bps (l1 ++ (p, s, true) :: l2) = free_bps (l1 ++ l2).
Proof. rewrite !free_bps_app. reflexivity. Qed.

(** *** Rewriting the tags of a stretch of blocks *)

Lemma relayout st l1 mid mid' l2 fl t b e m' :
  heap_gen st (l1 ++ mid ++ l2) fl t ->
  chain (heap_listp st) (prologue st :: l1) b ->
  chain b mid e -> chain b mid' e ->
  Forall (fun x => 16 <= sz_of x) mid' ->
  Forall (blk_ok m') mid' ->
  (forall a, a < b - 4 \/ e - 4 <= a -> m' a = mem st a) ->
  (forall q, In q fl -> ~ In q (map bp_of mid)) ->
  heap_gen (set_mem st m') (l1 ++ mid' ++ l2) fl t.
Proof.
  intros H C1 Cm Cm' Hmin Htag F Hfl.
  pose proof (hg_chain _ _ _ _ H) as C.
  change (prologue st :: l1 ++ mid ++ l2) with ((prologue st :: l1) ++ mid ++ l2) in C.
  apply chain_app in C as (b' & C1' & C). rewrite (chain_end _ _ _ _ C1' C1) in *. clear b' C1'.
  apply chain_app in C as (e' & Cm0 & C2). rewrite (chain_end _ _ _ _ Cm0 Cm) in *. clear e' Cm0.
  pose proof (chain_le _ _ _ Cm) as Lbe. pose proof (chain_le _ _ _ C2) as Leb.
  pose proof (hg_tags _ _ _ _ H) as Ht.
  change (prologue st :: l1 ++ mid ++ l2) with ((prologue st :: l1) ++ mid ++ l2) in Ht.
  apply Forall_app in Ht as (Ht1 & Ht). apply Forall_app in Ht as (_ & Ht2).
  pose proof (hg_min _ _ _ _ H) as Hm.
  apply Forall_app in Hm as (Hm1 & Hm). apply Forall_app in Hm as (_ & Hm2).
  assert (In12 : forall p k, In (p, k, false) (l1 ++ mid ++ l2) -> In p fl ->
                             In (p, k, false) l1 \/ In (p, k, false) l2).
  { intros p k Hi Hp. apply in_app_or in Hi as [Hi|Hi]; auto.
    apply in_app_or in Hi as [Hi|Hi]; auto.
    exfalso. apply (Hfl p Hp). apply in_map_iff. exists (p, k, false). auto. }
  assert (Hnodes : tall (fun p k => In (p, k, false) l1 \/ In (p, k, false) l2) t).
  { assert (G : tall (fun p k => In p (elems t) -> In (p, k, false) l1 \/ In (p, k, false) l2) t).
    { eapply tall_impl; [|apply (hg_nodes _ _ _ _ H)]. cbv beta. intros p k Hi Hp.
      apply In12; auto. eapply Permutation_in; [apply (hg_perm _ _ _ _ H)|exact Hp]. }
    clear - G. 
    assert (G' : forall p, In p (elems t) -> In p (elems t)) by auto.
    revert G G'. generalize (elems t) at 1 3. intros L.
    induction t as [|tl IHl p k tr IHr]; simpl; [tauto|].
    intros (G1 & G2 & G3) G'. splits.
    - apply G1, G', in_or_app. simpl; auto.
    - apply IHl; auto. intros q Hq. apply G', in_or_app; auto.
    - apply IHr; auto. intros q Hq. apply G', in_or_app; simpl; auto. }
  constructor; try solve [apply H].
  - change (prologue (set_mem st m') :: l1 ++ mid' ++ l2)
      with ((prologue st :: l1) ++ mid' ++ l2).
    apply chain_app. exists b. split; auto. apply chain_app. exists e. auto.
  - change (prologue (set_mem st m') :: l1 ++ mid' ++ l2)
      with ((prologue st :: l1) ++ mid' ++ l2).
    apply Forall_app. split; [|apply Forall_app; split; auto].
    + rewrite Forall_forall in *. intros x Hx. specialize (Ht1 x Hx).
      destruct (chain_in _ _ _ _ C1 Hx) as (X1 & X2 & X3 & _).
      unfold blk_ok in *. cbn [mem set_mem]. rewrite !F by lia. exact Ht1.
    + rewrite Forall_forall in *. intros x Hx. specialize (Ht2 x Hx).
      destruct (chain_in _ _ _ _ C2 Hx) as (X1 & X2 & X3 & _).
      unfold blk_ok in *. cbn [mem set_mem]. rewrite !F by lia. exact Ht2.
  - cbn [mem set_mem mem_brk]. rewrite F by lia. apply H.
  - apply Forall_app. split; auto. apply Forall_app. split; auto.
  - cbn [mem set_mem]. eapply trep_agree; [apply (hg_trep _ _ _ _ H)|].
    intros q Hq. destruct (tall_in _ _ _ Hnodes Hq) as (k & [Hk|Hk]).
    + destruct (chain_in _ _ _ _ C1 (or_intror Hk)) as (X1 & X2 & X3 & _).
      rewrite Forall_forall in Hm1. specialize (Hm1 _ Hk).
      unfold bp_of, sz_of in *; simpl in *.
      unfold agree3. rewrite !F by lia. auto.
    + destruct (chain_in _ _ _ _ C2 Hk) as (X1 & X2 & X3 & _).
      unfold bp_of, sz_of in *; simpl in *.
      unfold agree3. rewrite !F by lia. auto.
  - eapply tall_impl; [|exact Hnodes]. cbv beta. intros p k [Hk|Hk].
    + apply in_or_app; auto.
    + apply in_or_app; right. apply in_or_app; auto.
Qed.

Ltac zmod := Z.to_euclidean_division_equations; lia.

(** *** Reading boundary tags *)

Section Tags.

Variable st : state.

Hypothesis Hb : bounds st.

Lemma in_heap_intro p :
  p mod 8 = 0 \/ (p + 4) mod 8 = 0 ->
  mem_start_brk st <= p -> p + 4 <= mem_brk st -> in_heap st p.
Proof. intros Hm H1 H2. unfold in_heap. splits; auto. zmod. Qed.

Lemma GET_SIZE_tag p sz a :
  in_heap st p -> mem st p = tag sz a -> 0 <= sz < WORD_MOD -> sz mod 8 = 0 ->
  GET_SIZE p st = Ok (sz, st).
Proof.
  intros Hp Hm Hr H8. unfold GET_SIZE.
  eapply run_bind; [apply GET_ok; assumption|]. cbv beta.
  rewrite Hm, tag_size; auto.
Qed.

Lemma GET_ALLOC_tag p sz a :
  in_heap st p -> mem st p = tag sz a -> sz mod 8 = 0 ->
  GET_ALLOC p st = Ok ((if a then 1 else 0), st).
Proof.
  intros Hp Hm H8. unfold GET_ALLOC.
  eapply run_bind; [apply GET_ok; assumption|]. cbv beta.
  rewrite Hm, tag_alloc; auto.
Qed.

Lemma HDRP_eq bp : 4 <= bp < WORD_MOD + 4 -> HDRP bp = bp - 4.
Proof. intros. unfold HDRP, WSIZE. apply wsub_small. lia. Qed.

Lemma FTRP_tag bp sz a :
  in_heap st (bp - 4) -> mem st (bp - 4) = tag sz a -> 0 <= sz -> sz mod 8 = 0 ->
  8 <= bp + sz -> bp + sz <= mem_brk st ->
  FTRP bp st = Ok (bp + sz - 8, st).
Proof.
  intros Hp Hm Hr H8 H1 H2. destruct Hb as (B1 & B2). pose proof Hp as (_ & P1 & P2).
  unfold FTRP. rewrite HDRP_eq by lia.
  eapply run_bind; [apply (GET_SIZE_tag (bp - 4) sz a); auto; lia|].
  cbv beta. unfold ret, DSIZE, wsub, wadd, wrap.
  rewrite Zminus_mod_idemp_l. rewrite Z.mod_small by lia. reflexivity.
Qed.

Lemma NEXT_BLKP_tag bp sz a :
  in_heap st (bp - 4) -> mem st (bp - 4) = tag sz a -> 0 <= sz -> sz mod 8 = 0 ->
  bp + sz <= mem_brk st -> mem_brk st < WORD_MOD ->
  NEXT_BLKP bp st = Ok (bp + sz, st).
Proof.
  intros Hp Hm Hr H8 H2 H3. destruct Hb as (B1 & B2). pose proof Hp as (Hp0 & P1 & P2).
  unfold NEXT_BLKP, WSIZE. rewrite wsub_small by lia.
  eapply run_bind; [apply (GET_SIZE_tag (bp - 4) sz a); auto; lia|].
  cbv beta. unfold ret. rewrite wadd_small by lia. reflexivity.
Qed.

Lemma PREV_BLKP_tag bp sz a :
  in_heap st (bp - 8) -> mem st (bp - 8) = tag sz a -> 0 <= sz < bp -> sz mod 8 = 0 ->
  bp <= mem_brk st -> mem_brk st < WORD_MOD ->
  PREV_BLKP bp st = Ok (bp - sz, st).
Proof.
  intros Hp Hm Hr H8 H2 H3. destruct Hb as (B1 & B2). pose proof Hp as (Hp0 & P1 & P2).
  unfold PREV_BLKP, DSIZE. rewrite wsub_small by lia.
  eapply run_bind; [apply (GET_SIZE_tag (bp - 8) sz a); auto; lia|].
  cbv beta. unfold ret. rewrite wsub_small by lia. reflexivity.
Qed.

Lemma GETSIZE_tag bp sz a :
  in_heap st (bp - 4) -> mem st (bp - 4) = tag sz a -> 0 <= sz < INT_MAX1 ->
  sz mod 8 = 0 -> bp <= mem_brk st ->
  GETSIZE bp st = Ok (sz, st).
Proof.
  intros Hp Hm Hr H8 H2. destruct Hb as (B1 & B2). pose proof Hp as (Hp0 & P1 & P2).
  unfold GETSIZE, WSIZE. rewrite wsub_small by lia.
  eapply run_bind; [apply GET_ok; auto|]. cbv beta.
  unfold ret. rewrite Hm, tag_size; auto.
  - rewrite to_int_small; auto.
  - unfold INT_MAX1, WORD_MOD in *. lia.
Qed.

End Tags.

(** *** The neighbours of a block *)

Lemma list_rcases {A} (l : list A) : l = [] \/ exists l' x, l = l' ++ [x].
Proof.
  destruct l as [|a l]; auto. right.
  destruct (exists_last (l := a :: l)) as (l' & x & E0); [discriminate|]. eauto.
Qed.

Lemma no_adj_app l1 l2 : no_adj (l1 ++ l2) -> no_adj l1 /\ no_adj l2.
Proof.
  induction l1 as [|x l1 IH]; simpl; [tauto|].
  intros (H1 & H2). apply IH in H2 as (H2 & H3). splits; auto.
  intros Hx. specialize (H1 Hx). destruct l1; simpl in *; auto.
Qed.

Lemma no_adj_snoc l x :
  no_adj (l ++ [x]) -> alloc_of x = false -> last_alloc l.
Proof.
  unfold last_alloc. intros H Hx.
  destruct (list_rcases l) as [->|(l' & y & ->)]; [simpl; auto|].
  rewrite rev_app_distr. simpl.
  rewrite <- app_assoc in H. apply no_adj_app in H as (_ & H). simpl in H.
  destruct (alloc_of y) eqn:Hy; auto. destruct H as (H & _). specialize (H eq_refl).
  simpl in H. congruence.
Qed.

Lemma no_adj_join l1 x l2 :
  no_adj l1 -> no_adj l2 -> (alloc_of x = false -> last_alloc l1 /\ hd_alloc l2) ->
  no_adj (l1 ++ x :: l2).
Proof.
  intros H1 H2 Hx. induction l1 as [|y l1 IH]; simpl.
  - split; auto. intros Hf. apply Hx; auto.
  - simpl in H1. destruct H1 as (Hy & H1). split.
    + intros Hf. specialize (Hy Hf). destruct l1 as [|z l1]; simpl in *; auto.
      destruct (alloc_of x) eqn:Ex; auto.
      destruct Hx as (Hx & _); auto. unfold last_alloc in Hx. simpl in Hx. congruence.
    + apply IH; auto. intros Hf. destruct (Hx Hf) as (Hl & Hh). split; auto.
      unfold last_alloc in *. simpl in Hl.
      destruct (rev l1) eqn:Er; simpl in *; auto.
Qed.

(** *** A block and its two neighbours *)

Lemma chain_last b l d e :
  chain b l e -> bp_of d + sz_of d = b ->
  bp_of (last l d) + sz_of (last l d) = e.
Proof.
  intros C Hd. destruct (list_rcases l) as [->|(l' & x & ->)].
  - simpl in *. lia.
  - rewrite last_last. apply chain_mid in C as (_ & C & _). simpl in C. exact C.
Qed.

Lemma heap_gen_facts st l1 bp sz l2 fl t :
  heap_gen st (l1 ++ (bp, sz, false) :: l2) fl t -> hole_facts st l1 bp sz l2.
Proof.
  intros H.
  pose proof (hg_chain _ _ _ _ H) as C.
  change (prologue st :: l1 ++ (bp, sz, false) :: l2)
    with ((prologue st :: l1) ++ (bp, sz, false) :: l2) in C.
  apply chain_mid in C as (C1 & C2 & S1 & S2).
  change (bp_of (bp, sz, false)) with bp in *. change (sz_of (bp, sz, false)) with sz in *.
  assert (Hin : In (bp, sz, false) (l1 ++ (bp, sz, false) :: l2)).
  { apply in_or_app; simpl; auto. }
  destruct (hg_block _ _ _ _ H _ Hin) as (B1 & B2 & B3 & B4 & B5 & (B6 & B7)).
  change (bp_of (bp, sz, false)) with bp in *. change (sz_of (bp, sz, false)) with sz in *.
  change (alloc_of (bp, sz, false)) with false in *.
  pose proof (hg_tags _ _ _ _ H) as Ht. rewrite Forall_forall in Ht.
  assert (Hprev : In (prev_blk st l1) (prologue st :: l1)).
  { unfold prev_blk. destruct (list_rcases l1) as [->|(l' & x & ->)]; [simpl; auto|].
    rewrite last_last. right. apply in_or_app; simpl; auto. }
  destruct (chain_in _ _ _ _ C1 Hprev) as (P1 & P2 & P3 & P4 & P5).
  constructor; auto.
  - unfold prev_blk. destruct C1 as (_ & _ & _ & C1).
    apply (chain_last _ _ (prologue st)) in C1; auto.
  - apply Ht. destruct Hprev as [<-|Hp]; [simpl; auto|].
    right. apply in_or_app; auto.
  - unfold prev_blk. destruct (list_rcases l1) as [->|(l' & x & ->)]; [left; auto|].
    right. rewrite last_last. exists l'. split; auto.
    pose proof (hg_min _ _ _ _ H) as Hm. rewrite Forall_forall in Hm.
    apply Hm. apply in_or_app. left. apply in_or_app. simpl; auto.
  - destruct l2 as [|x l2]; simpl in *.
    + rewrite C2. apply (hg_epi _ _ _ _ H).
    + destruct C2 as (Hx & _). 
      assert (Hxin : In x (l1 ++ (bp, sz, false) :: x :: l2)).
      { apply in_or_app; simpl; auto. }
      destruct (hg_block _ _ _ _ H _ Hxin) as (_ & _ & _ & _ & _ & (X6 & _)).
      rewrite Hx in X6. exact X6.
  - destruct l2 as [|x l2]; simpl in *; [splits; try reflexivity; lia|].
    destruct C2 as (Hx & X1 & X2 & C2). apply chain_le in C2. splits; auto; lia.
  - destruct l2 as [|x l2]; [left; simpl in *; auto|]. right.
    simpl in C2. destruct C2 as (Hx & X1 & X2 & C2). exists l2.
    assert (Hxin : In x (l1 ++ (bp, sz, false) :: x :: l2)).
    { apply in_or_app; simpl; auto. }
    destruct (hg_block _ _ _ _ H _ Hxin) as (_ & _ & X3 & _ & _ & (_ & X7)).
    simpl. destruct x as ((xp, xs), xa). unfold bp_of, sz_of, alloc_of in *. simpl in *.
    subst xp. splits; auto.
  - intros Hf. rewrite free_bps_app in Hf. apply in_app_or in Hf as [Hf|Hf];
      apply free_bps_in in Hf as (k & Hk).
    + pose proof (chain_in _ _ _ _ C1 (or_intror Hk)) as (_ & X & X' & _).
      unfold bp_of, sz_of in *; simpl in *. lia.
    + pose proof (chain_in _ _ _ _ C2 Hk) as (X & _).
      unfold bp_of, sz_of in *; simpl in *. lia.
Qed.

Lemma heap_hole_facts st l1 bp sz l2 t :
  heap_hole st l1 bp sz l2 t -> hole_facts st l1 bp sz l2.
Proof. apply heap_gen_facts. Qed.

Lemma upd_eq m a v x : x = a -> upd m a v x = v.
Proof. intros ->. apply upd_same. Qed.

Ltac rupd :=
  cbn [mem set_mem set_tree_root set_brk set_heap_listp];
  repeat first [rewrite upd_eq by lia | rewrite upd_other by lia].

Ltac step L := eapply run_bind; [L|cbv beta].

Ltac unstate :=
  cbn [mem mem_start_brk mem_brk mem_max_addr sbrk_fail heap_listp tree_root
       set_mem set_tree_root set_brk set_heap_listp].

Ltac unstate_in H :=
  cbn [mem mem_start_brk mem_brk mem_max_addr sbrk_fail heap_listp tree_root
       set_mem set_tree_root set_brk set_heap_listp] in H.

Ltac side :=
  unstate;
  first [ assumption | reflexivity | lia
        | apply in_heap_intro; unstate;
          [first [left; zmod | right; zmod] | lia | lia]
        | zmod ].

(** Where the other blocks of a heap with a hole lie. *)
Lemma hole_other st l1 bp sz l2 fl t x :
  heap_gen st (l1 ++ (bp, sz, false) :: l2) fl t -> In x (l1 ++ l2) ->
  16 <= sz_of x /\
  ((In x l1 /\ heap_listp st + 8 <= bp_of x /\ bp_of x + sz_of x <= bp) \/
   (In x l2 /\ bp + sz <= bp_of x /\ bp_of x + sz_of x <= mem_brk st)).
Proof.
  intros H Hx. pose proof (heap_gen_facts _ _ _ _ _ _ _ H) as F.
  assert (Hx' : In x (l1 ++ (bp, sz, false) :: l2)).
  { apply in_app_or in Hx as [Hx|Hx]; apply in_or_app; simpl; auto. }
  destruct (hg_block _ _ _ _ H _ Hx') as (X1 & X2 & X3 & _).
  split; auto.
  apply in_app_or in Hx as [Hx|Hx]; [left|right]; splits; auto.
  - pose proof (chain_in _ _ _ _ (hf_chain1 _ _ _ _ _ F) (or_intror Hx)). tauto.
  - pose proof (chain_in _ _ _ _ (hf_chain2 _ _ _ _ _ F) Hx). tauto.
Qed.

(** The facts every case of [coalesce] starts from. *)
Ltac hole_setup H :=
  let F := fresh "F" in
  pose proof (heap_gen_facts _ _ _ _ _ _ _ H) as F;
  pose proof (hg_bounds _ _ _ _ H) as Hb;
  pose proof (hg_range _ _ _ _ H) as (R1 & R2 & R3);
  pose proof (hg_first _ _ _ _ H) as R4;
  pose proof Hb as (Hb1 & Hb2);
  destruct F as [Pe (Ph & Pf) (Ps1 & Ps2) Plo Pcases (S1 & S2) (B1 & B2)
                   Hhdr Hftr Hnext (N1 & N2 & N3) Ncases C1 C2 Hnotin].

Ltac coalesce_reads st bp sz pp ps pa ns na Hb :=
  unfold coalesce;
  step ltac:(apply (PREV_BLKP_tag st Hb bp ps pa); side);
  replace (bp - ps) with pp by lia;
  step ltac:(apply (FTRP_tag st Hb pp ps pa); side);
  replace (pp + ps - 8) with (bp - 8) by lia;
  step ltac:(apply (GET_ALLOC_tag st (bp - 8) ps pa); side);
  step ltac:(apply (NEXT_BLKP_tag st Hb bp sz false); side);
  rewrite HDRP_eq by lia;
  step ltac:(apply (GET_ALLOC_tag st (bp + sz - 4) ns na); side);
  rewrite HDRP_eq by lia;
  step ltac:(apply (GET_SIZE_tag st (bp - 4) sz false); side).

Lemma coalesce_case1 st l1 bp sz l2 t :
  heap_hole st l1 bp sz l2 t ->
  alloc_of (prev_blk st l1) = true -> next_alloc l2 = true ->
  coalesce bp st = Ok (bp, st).
Proof.
  intros H Pa Na. hole_setup H.
  assert (Pf' : mem st (bp - 8) = tag (sz_of (prev_blk st l1)) (alloc_of (prev_blk st l1))).
  { rewrite <- Pf. f_equal. lia. }
  coalesce_reads st bp sz (bp_of (prev_blk st l1)) (sz_of (prev_blk st l1))
                 (alloc_of (prev_blk st l1)) (next_sz l2) (next_alloc l2) Hb.
  rewrite Pa, Na. reflexivity.
Qed.

Lemma coalesce_case2 st l1 bp sz l2 t :
  heap_hole st l1 bp sz l2 t ->
  alloc_of (prev_blk st l1) = true -> next_alloc l2 = false ->
  exists st' t',
    coalesce bp st = Ok (bp, st') /\
    heap_hole st' l1 bp (sz + next_sz l2) (tl l2) t' /\
    Permutation (elems t) ((bp + sz) :: elems t') /\
    same_heap st st' /\
    coalesce_frame st st' l1 l2 l1 (tl l2) bp (sz + next_sz l2).
Proof.
  intros H Pa Na. hole_setup H.
  assert (Pf' : mem st (bp - 8) = tag (sz_of (prev_blk st l1)) (alloc_of (prev_blk st l1))).
  { rewrite <- Pf. f_equal. lia. }
  destruct Ncases as [(-> & _)|(l2' & El2 & Ns16 & Nftr)]; [discriminate|].
  pose proof Hnext as Hnext0.
  set (ns := next_sz l2) in *. rewrite Na in Hnext, El2, Nftr. rewrite El2 in H. cbn [tl].
  (* the following block is in the index *)
  assert (Hnin : In (bp + sz) (elems t)).
  { eapply Permutation_in; [symmetry; apply (hg_perm _ _ _ _ H)|].
    rewrite free_bps_app. apply in_or_app. right.
    unfold free_bps. simpl. auto. }
  destruct (heap_remove _ _ _ _ (bp + sz) H Hnin) as (m' & t' & E' & G' & P' & LF').
  set (s1 := set_tree_root (set_mem st m') (root_of t')) in *.
  set (tg := tag (sz + ns) false).
  set (m3 := upd (upd m' (bp - 4) tg) (bp + sz + ns - 8) tg).
  exists (set_mem s1 m3), t'.
  assert (Pt : Permutation (elems t) ((bp + sz) :: elems t')).
  { rewrite (hg_perm _ _ _ _ H). exact P'. }
  assert (Hbt' : ~ In bp (elems t')).
  { intros Hq. apply Hnotin. rewrite El2.
    eapply Permutation_in; [symmetry; exact P'|]. simpl; auto. }
  assert (Hnt' : ~ In (bp + sz) (elems t')).
  { pose proof (hg_elems_NoDup _ _ _ _ H) as N.
    apply (Permutation_NoDup Pt) in N. now apply NoDup_cons_iff in N. }
  assert (Tags' : forall a, (a = bp - 4 \/ a = bp - 8 \/ a = bp + sz - 4) ->
                            m' a = mem st a).
  { intros a Ha. apply LF'. intros q Hq Hne.
    apply free_bps_in in Hq as (k & Hk).
    destruct (hole_other _ _ _ _ _ _ _ _ H Hk) as (X1 & [(X2 & X3 & X4)|(X2 & X3 & X4)]);
      unfold bp_of, sz_of in *; simpl in *; lia. }
  replace (tl l2) with l2' by (rewrite El2; reflexivity).
  splits.
  - coalesce_reads st bp sz (bp_of (prev_blk st l1)) (sz_of (prev_blk st l1))
                   (alloc_of (prev_blk st l1)) (next_sz l2) (next_alloc l2) Hb.
    rewrite Pa, Na. cbn [negb andb Z.eqb].
    step ltac:(apply (NEXT_BLKP_tag st Hb bp sz false); side).
    rewrite ?HDRP_eq by lia.
    step ltac:(apply (GET_SIZE_tag st (bp + sz - 4) ns false); side).
    step ltac:(reflexivity).
    step ltac:(apply (NEXT_BLKP_tag st Hb bp sz false); side).
    step ltac:(exact E').
    step ltac:(reflexivity).
    rewrite ?HDRP_eq by lia. rewrite wadd_small by lia.
    change (PACK (sz + ns) 0) with tg.
    step ltac:(apply PUT_ok; side).
    step ltac:(apply FTRP_tag with (sz := sz + ns) (a := false);
               [exact Hb|rupd; side ..]).
    replace (bp + (sz + ns) - 8) with (bp + sz + ns - 8) by lia.
    step ltac:(apply PUT_ok; side).
    reflexivity.
  - unfold heap_hole.
    apply heap_gen_perm with (fl := elems t').
    + change (l1 ++ (bp, sz + ns, false) :: l2')
        with (l1 ++ [(bp, sz + ns, false)] ++ l2').
      apply (relayout s1 l1 [(bp, sz, false); (bp + sz, ns, false)] _ l2' (elems t') t'
                      bp (bp + sz + ns)); auto.
      * simpl. unfold bp_of, sz_of. simpl. splits; auto; lia.
      * simpl. unfold bp_of, sz_of. simpl. splits; auto; try lia. zmod.
      * constructor; [|constructor]. unfold sz_of; simpl. lia.
      * constructor; [|constructor]. unfold blk_ok, bp_of, sz_of, alloc_of, m3. simpl.
        split; rupd; reflexivity.
      * intros a Ha. unfold m3. rupd. reflexivity.
      * intros q Hq [Hq'|[Hq'|[]]]; unfold bp_of in Hq'; simpl in Hq'; subst q; auto.
    + apply Permutation_cons_inv with (a := bp + sz). rewrite <- P'.
      apply free_bps_mid_free.
  - exact Pt.
  - unfold same_heap. simpl. auto.
  - intros a A1 A2 A3 _. unfold m3. rupd. apply LF'.
    intros q Hq Hne. apply free_bps_in in Hq as (k & Hk).
    apply in_app_or in Hk as [Hk|[Hk|Hk]].
    + apply (A3 _ (in_or_app _ _ _ (or_introl Hk))). reflexivity.
    + inversion Hk. congruence.
    + apply (A3 _ (in_or_app _ _ _ (or_intror Hk))). reflexivity.
Qed.

Lemma coalesce_case3 st l1 bp sz l2 t :
  heap_hole st l1 bp sz l2 t ->
  alloc_of (prev_blk st l1) = false -> next_alloc l2 = true ->
  exists st' t',
    coalesce bp st = Ok (bp_of (prev_blk st l1), st') /\
    heap_hole st' (removelast l1) (bp_of (prev_blk st l1))
              (sz_of (prev_blk st l1) + sz) l2 t' /\
    Permutation (elems t) (bp_of (prev_blk st l1) :: elems t') /\
    same_heap st st' /\
    coalesce_frame st st' l1 l2 (removelast l1) l2 (bp_of (prev_blk st l1))
                   (sz_of (prev_blk st l1) + sz).
Proof.
  intros H Pa Na. hole_setup H.
  assert (Pf' : mem st (bp - 8) = tag (sz_of (prev_blk st l1)) (alloc_of (prev_blk st l1))).
  { rewrite <- Pf. f_equal. lia. }
  destruct Pcases as [(_ & E0)|(l1' & El1 & Ps16)].
  { rewrite E0 in Pa. discriminate. }
  remember (prev_blk st l1) as P eqn:EP.
  destruct P as ((pp, ps), pa). unfold bp_of, sz_of, alloc_of in *. simpl in *.
  subst pa.
  assert (Epb : prev_blk st l1 = (pp, ps, false)) by auto.
  replace (removelast l1) with l1' by (rewrite El1, removelast_last; reflexivity).
  (* the preceding block is in the index *)
  assert (Hpfl : In pp (free_bps (l1 ++ l2))).
  { rewrite El1, free_bps_app. apply in_or_app. left.
    rewrite free_bps_app. apply in_or_app. right. unfold free_bps. simpl. auto. }
  assert (Hpin : In pp (elems t)).
  { eapply Permutation_in; [symmetry; apply (hg_perm _ _ _ _ H)|exact Hpfl]. }
  destruct (heap_remove _ _ _ _ pp H Hpin) as (m' & t' & E' & G' & P' & LF').
  set (s1 := set_tree_root (set_mem st m') (root_of t')) in *.
  pose proof (heap_gen_facts _ _ _ _ _ _ _ G') as F1.
  pose proof (hf_hdr _ _ _ _ _ F1) as Hhdr1.
  pose proof (hf_prev_ok _ _ _ _ _ F1) as (Ph1 & Pf1).
  change (prev_blk s1 l1) with (prev_blk st l1) in Ph1, Pf1.
  rewrite Epb in Ph1, Pf1. unfold bp_of, sz_of, alloc_of in Ph1, Pf1. simpl in Ph1, Pf1.
  unfold s1 in Hhdr1, Ph1, Pf1. unstate_in Hhdr1. unstate_in Ph1. unstate_in Pf1.
  replace (pp + ps - 8) with (bp - 8) in Pf1 by lia.
  set (tg := tag (sz + ps) false).
  set (m3 := upd (upd m' (bp + sz - 8) tg) (pp - 4) tg).
  exists (set_mem s1 m3), t'.
  assert (Pt : Permutation (elems t) (pp :: elems t')).
  { rewrite (hg_perm _ _ _ _ H). exact P'. }
  assert (Hbt' : ~ In bp (elems t')).
  { intros Hq. apply Hnotin.
    eapply Permutation_in; [symmetry; exact P'|]. simpl; auto. }
  assert (Hpt' : ~ In pp (elems t')).
  { pose proof (hg_elems_NoDup _ _ _ _ H) as N.
    apply (Permutation_NoDup Pt) in N. now apply NoDup_cons_iff in N. }
  assert (C1' : chain (heap_listp st) (prologue st :: l1') pp).
  { rewrite El1 in C1. destruct C1 as (X1 & X2 & X3 & C1).
    apply chain_mid in C1 as (C1 & _). simpl. splits; auto. }
  splits.
  - coalesce_reads st bp sz pp ps false (next_sz l2) (next_alloc l2) Hb.
    rewrite Na. cbn [negb andb Z.eqb].
    step ltac:(apply (PREV_BLKP_tag st Hb bp ps false); side).
    replace (bp - ps) with pp by lia.
    rewrite ?HDRP_eq by lia.
    step ltac:(apply (GET_SIZE_tag st (pp - 4) ps false); side).
    step ltac:(reflexivity).
    step ltac:(apply (PREV_BLKP_tag st Hb bp ps false); side).
    replace (bp - ps) with pp by lia.
    step ltac:(exact E').
    step ltac:(reflexivity).
    rewrite wadd_small by lia.
    change (PACK (sz + ps) 0) with tg.
    step ltac:(apply FTRP_tag with (sz := sz) (a := false); [exact Hb|side ..]).
    step ltac:(apply PUT_ok; side).
    step ltac:(apply PREV_BLKP_tag with (sz := ps) (a := false);
               [exact Hb|rupd; side ..]).
    replace (bp - ps) with pp by lia. rewrite (HDRP_eq pp) by lia.
    step ltac:(apply PUT_ok; side).
    step ltac:(apply PREV_BLKP_tag with (sz := ps) (a := false);
               [exact Hb|rupd; side ..]).
    replace (bp - ps) with pp by lia.
    reflexivity.
  - unfold heap_hole.
    apply heap_gen_perm with (fl := elems t').
    + change (l1' ++ (pp, ps + sz, false) :: l2)
        with (l1' ++ [(pp, ps + sz, false)] ++ l2).
      rewrite El1 in G'. rewrite <- app_assoc in G'.
      apply (relayout s1 l1' [(pp, ps, false); (bp, sz, false)] _ l2 (elems t') t'
                      pp (bp + sz)); auto.
      * simpl. unfold bp_of, sz_of. simpl. splits; auto; lia.
      * simpl. unfold bp_of, sz_of. simpl. splits; auto; try lia. zmod.
      * constructor; [|constructor]. unfold sz_of; simpl. lia.
      * constructor; [|constructor]. unfold blk_ok, bp_of, sz_of, alloc_of, m3. simpl.
        unfold tg. replace (ps + sz) with (sz + ps) by lia.
        split; rupd; reflexivity.
      * intros a Ha. unfold m3. rupd. reflexivity.
      * intros q Hq [Hq'|[Hq'|[]]]; unfold bp_of in Hq'; simpl in Hq'; subst q; auto.
    + apply Permutation_cons_inv with (a := pp). rewrite <- P'.
      rewrite El1. rewrite <- !app_assoc. apply free_bps_mid_free.
  - exact Pt.
  - unfold same_heap. simpl. auto.
  - intros a A1 A2 A3 _. unfold m3. rupd. apply LF'.
    intros q Hq Hne. apply free_bps_in in Hq as (k & Hk). rewrite El1 in Hk.
    rewrite <- app_assoc in Hk.
    apply in_app_or in Hk as [Hk|[Hk|Hk]].
    + apply (A3 _ (in_or_app _ _ _ (or_introl Hk))). reflexivity.
    + inversion Hk. congruence.
    + apply (A3 _ (in_or_app _ _ _ (or_intror Hk))). reflexivity.
Qed.

Lemma coalesce_case4 st l1 bp sz l2 t :
  heap_hole st l1 bp sz l2 t ->
  alloc_of (prev_blk st l1) = false -> next_alloc l2 = false ->
  exists st' t',
    coalesce bp st = Ok (bp_of (prev_blk st l1), st') /\
    heap_hole st' (removelast l1) (bp_of (prev_blk st l1))
              (sz_of (prev_blk st l1) + sz + next_sz l2) (tl l2) t' /\
    Permutation (elems t) ((bp + sz) :: bp_of (prev_blk st l1) :: elems t') /\
    same_heap st st' /\
    coalesce_frame st st' l1 l2 (removelast l1) (tl l2) (bp_of (prev_blk st l1))
                   (sz_of (prev_blk st l1) + sz + next_sz l2).
Proof.
  intros H Pa Na. hole_setup H.
  assert (Pf' : mem st (bp - 8) = tag (sz_of (prev_blk st l1)) (alloc_of (prev_blk st l1))).
  { rewrite <- Pf. f_equal. lia. }
  destruct Pcases as [(_ & E0)|(l1' & El1 & Ps16)].
  { rewrite E0 in Pa. discriminate. }
  destruct Ncases as [(-> & _)|(l2' & El2 & Ns16 & Nftr)]; [discriminate|].
  remember (prev_blk st l1) as P eqn:EP.
  destruct P as ((pp, ps), pa). unfold bp_of, sz_of, alloc_of in *. simpl in *.
  subst pa.
  assert (Epb : prev_blk st l1 = (pp, ps, false)) by auto.
  pose proof Hnext as Hnext0.
  set (ns := next_sz l2) in *. rewrite Na in Hnext, El2, Nftr.
  replace (removelast l1) with l1' by (rewrite El1, removelast_last; reflexivity).
  replace (tl l2) with l2' by (rewrite El2; reflexivity).
  (* both neighbours are in the index *)
  assert (Hnfl : In (bp + sz) (free_bps (l1 ++ l2))).
  { rewrite El2, free_bps_app. apply in_or_app. right. unfold free_bps. simpl. auto. }
  assert (Hpfl : In pp (free_bps (l1 ++ l2))).
  { rewrite El1, free_bps_app. apply in_or_app. left.
    rewrite free_bps_app. apply in_or_app. right. unfold free_bps. simpl. auto. }
  assert (Hnin : In (bp + sz) (elems t)).
  { eapply Permutation_in; [symmetry; apply (hg_perm _ _ _ _ H)|exact Hnfl]. }
  destruct (heap_remove _ _ _ _ (bp + sz) H Hnin) as (m1 & t1 & E1 & G1 & P1 & LF1).
  set (s1 := set_tree_root (set_mem st m1) (root_of t1)) in *.
  assert (Hpin : In pp (elems t1)).
  { apply (Permutation_in _ P1) in Hpfl. destruct Hpfl as [Hx|Hx]; [lia|exact Hx]. }
  destruct (heap_remove _ _ _ _ pp G1 Hpin) as (m2 & t2 & E2 & G2 & P2 & LF2).
  set (s2 := set_tree_root (set_mem s1 m2) (root_of t2)) in *.
  (* the tags after each removal *)
  pose proof (heap_gen_facts _ _ _ _ _ _ _ G1) as F1.
  pose proof (hf_hdr _ _ _ _ _ F1) as Hhdr1.
  pose proof (hf_prev_ok _ _ _ _ _ F1) as (Ph1 & Pf1).
  change (prev_blk s1 l1) with (prev_blk st l1) in Ph1, Pf1.
  rewrite Epb in Ph1, Pf1. unfold bp_of, sz_of, alloc_of in Ph1, Pf1. simpl in Ph1, Pf1.
  unfold s1 in Hhdr1, Ph1, Pf1. unstate_in Hhdr1. unstate_in Ph1. unstate_in Pf1.
  replace (pp + ps - 8) with (bp - 8) in Pf1 by lia.
  pose proof (heap_gen_facts _ _ _ _ _ _ _ G2) as F2.
  pose proof (hf_hdr _ _ _ _ _ F2) as Hhdr2.
  pose proof (hf_next _ _ _ _ _ F2) as Hnext2.
  pose proof (hf_prev_ok _ _ _ _ _ F2) as (Ph2 & Pf2).
  change (prev_blk s2 l1) with (prev_blk st l1) in Ph2, Pf2.
  rewrite Epb in Ph2, Pf2. unfold bp_of, sz_of, alloc_of in Ph2, Pf2. simpl in Ph2, Pf2.
  fold ns in Hnext2. rewrite Na in Hnext2.
  unfold s2, s1 in Hhdr2, Ph2, Pf2, Hnext2.
  unstate_in Hhdr2. unstate_in Ph2. unstate_in Pf2. unstate_in Hnext2.
  replace (pp + ps - 8) with (bp - 8) in Pf2 by lia.
  set (tg := tag (sz + (ps + ns)) false).
  set (m3 := upd (upd m2 (pp - 4) tg) (bp + sz + ns - 8) tg).
  exists (set_mem s2 m3), t2.
  assert (Pt : Permutation (elems t) ((bp + sz) :: pp :: elems t2)).
  { rewrite (hg_perm _ _ _ _ H). rewrite P1. constructor. exact P2. }
  assert (N : NoDup ((bp + sz) :: pp :: elems t2)).
  { eapply Permutation_NoDup; [exact Pt|]. apply (hg_elems_NoDup _ _ _ _ H). }
  apply NoDup_cons_iff in N as (N1' & N). apply NoDup_cons_iff in N as (N2' & N).
  assert (Hbt' : ~ In bp (elems t2)).
  { intros Hq. apply Hnotin.
    eapply Permutation_in; [symmetry; rewrite <- (hg_perm _ _ _ _ H); exact Pt|].
    simpl; auto. }
  assert (C1' : chain (heap_listp st) (prologue st :: l1') pp).
  { rewrite El1 in C1. destruct C1 as (X1 & X2 & X3 & C1).
    apply chain_mid in C1 as (C1 & _). simpl. splits; auto. }
  subst s2 s1.
  splits.
  - coalesce_reads st bp sz pp ps false ns (next_alloc l2) Hb.
    rewrite Na. cbn [negb andb Z.eqb].
    step ltac:(apply (PREV_BLKP_tag st Hb bp ps false); side).
    replace (bp - ps) with pp by lia. rewrite ?(HDRP_eq pp) by lia.
    step ltac:(apply (GET_SIZE_tag st (pp - 4) ps false); side).
    step ltac:(apply (NEXT_BLKP_tag st Hb bp sz false); side).
    step ltac:(apply (FTRP_tag st Hb (bp + sz) ns false); side).
    step ltac:(apply (GET_SIZE_tag st (bp + sz + ns - 8) ns false); side).
    step ltac:(reflexivity).
    step ltac:(apply (NEXT_BLKP_tag st Hb bp sz false); side).
    step ltac:(exact E1).
    step ltac:(reflexivity).
    step ltac:(reflexivity).
    step ltac:(apply PREV_BLKP_tag with (sz := ps) (a := false);
               [exact Hb|side ..]).
    replace (bp - ps) with pp by lia.
    step ltac:(exact E2).
    step ltac:(reflexivity).
    step ltac:(apply PREV_BLKP_tag with (sz := ps) (a := false);
               [exact Hb|side ..]).
    replace (bp - ps) with pp by lia. rewrite ?(HDRP_eq pp) by lia.
    rewrite (wadd_small ps ns) by lia. rewrite wadd_small by lia.
    change (PACK (sz + (ps + ns)) 0) with tg.
    step ltac:(apply PUT_ok; side).
    step ltac:(apply NEXT_BLKP_tag with (sz := sz) (a := false);
               [exact Hb|rupd; side ..]).
    step ltac:(apply FTRP_tag with (sz := ns) (a := false);
               [exact Hb|rupd; side ..]).
    step ltac:(apply PUT_ok; side).
    step ltac:(apply PREV_BLKP_tag with (sz := ps) (a := false);
               [exact Hb|rupd; side ..]).
    replace (bp - ps) with pp by lia.
    reflexivity.
  - unfold heap_hole.
    apply heap_gen_perm with (fl := elems t2).
    + change (l1' ++ (pp, ps + sz + ns, false) :: l2')
        with (l1' ++ [(pp, ps + sz + ns, false)] ++ l2').
      rewrite El1, El2 in G2. rewrite <- app_assoc in G2.
      apply (relayout _ l1' [(pp, ps, false); (bp, sz, false); (bp + sz, ns, false)]
                      _ l2' (elems t2) t2 pp (bp + sz + ns)); auto.
      * simpl. unfold bp_of, sz_of. simpl. splits; auto; lia.
      * simpl. unfold bp_of, sz_of. simpl. splits; auto; try lia. zmod.
      * constructor; [|constructor]. unfold sz_of; simpl. lia.
      * constructor; [|constructor]. unfold blk_ok, bp_of, sz_of, alloc_of, m3. simpl.
        unfold tg. replace (ps + sz + ns) with (sz + (ps + ns)) by lia.
        split; rupd; reflexivity.
      * intros a Ha. unfold m3. rupd. reflexivity.
      * intros q Hq [Hq'|[Hq'|[Hq'|[]]]]; unfold bp_of in Hq'; simpl in Hq'; subst q; auto.
        apply N1'. simpl; auto.
    + apply Permutation_cons_inv with (a := pp).
      apply Permutation_cons_inv with (a := bp + sz).
      rewrite <- Pt. rewrite (hg_perm _ _ _ _ H).
      rewrite El1, El2. rewrite <- !app_assoc.
      etransitivity; [apply free_bps_mid_free|]. simpl.
      etransitivity; [apply perm_skip; apply (free_bps_mid_free l1')|].
      apply perm_swap.
  - exact Pt.
  - unfold same_heap. simpl. auto.
  - intros a A1 A2 A3 A4.
    destruct (A4 ltac:(rewrite Epb; reflexivity) Na) as (A5 & A6).
    unfold m3. rupd. rewrite LF2; [apply LF1|].
    + intros q Hq Hne. apply free_bps_in in Hq as (k & Hk). rewrite El1, El2 in Hk.
      rewrite <- app_assoc in Hk.
      apply in_app_or in Hk as [Hk|[Hk|[Hk|Hk]]].
      * apply (A3 _ (in_or_app _ _ _ (or_introl Hk))). reflexivity.
      * inversion Hk. subst q. auto.
      * inversion Hk. congruence.
      * apply (A3 _ (in_or_app _ _ _ (or_intror Hk))). reflexivity.
    + intros q Hq Hne.
      assert (Hq' : In q (free_bps (l1 ++ l2))).
      { eapply Permutation_in; [symmetry; exact P1|]. simpl; auto. }
      apply free_bps_in in Hq' as (k & Hk). rewrite El1, El2 in Hk.
      rewrite <- app_assoc in Hk.
      apply in_app_or in Hk as [Hk|[Hk|[Hk|Hk]]].
      * apply (A3 _ (in_or_app _ _ _ (or_introl Hk))). reflexivity.
      * inversion Hk. congruence.
      * inversion Hk. subst q. exfalso. apply N1'.
        eapply Permutation_in; [exact P2|exact Hq].
      * apply (A3 _ (in_or_app _ _ _ (or_intror Hk))). reflexivity.
Qed.

Lemma last_alloc_prev st l1 :
  alloc_of (prev_blk st l1) = true -> last_alloc l1.
Proof.
  intros H. unfold last_alloc, prev_blk in *.
  destruct (list_rcases l1) as [->|(l' & x & ->)]; [simpl; auto|].
  rewrite last_last in H. rewrite rev_app_distr. simpl. exact H.
Qed.

Lemma coalesce_frame_refl st l1 l2 bp sz : coalesce_frame st st l1 l2 l1 l2 bp sz.
Proof. intros a _ _ _ _. reflexivity. Qed.

Lemma same_heap_refl st : same_heap st st.
Proof. unfold same_heap. auto. Qed.

(** [coalesce]: the block handed in is merged with its free neighbours,
    which leave the index; the result has allocated neighbours. *)
Lemma coalesce_ok st l1 bp sz l2 t :
  heap_hole st l1 bp sz l2 t -> no_adj l1 -> no_adj l2 ->
  exists bp' st' l1' sz' l2' t',
    coalesce bp st = Ok (bp', st') /\
    heap_hole st' l1' bp' sz' l2' t' /\
    no_adj l1' /\ no_adj l2' /\ last_alloc l1' /\ hd_alloc l2' /\
    coalesce_table st l1 bp sz l2 t l1' bp' sz' l2' t' /\
    same_heap st st' /\ coalesce_frame st st' l1 l2 l1' l2' bp' sz'.
Proof.
  intros H A1 A2.
  pose proof (heap_hole_facts _ _ _ _ _ _ H) as F.
  destruct (alloc_of (prev_blk st l1)) eqn:Pa; destruct (next_alloc l2) eqn:Na.
  - exists bp, st, l1, sz, l2, t. splits; auto.
    + eapply coalesce_case1; eauto.
    + now apply (last_alloc_prev st).
    + destruct l2; simpl in *; auto.
    + unfold coalesce_table. rewrite Pa, Na. auto.
    + apply same_heap_refl.
    + apply coalesce_frame_refl.
  - destruct (coalesce_case2 _ _ _ _ _ _ H Pa Na) as (st' & t' & E' & H' & P' & S' & F').
    exists bp, st', l1, (sz + next_sz l2), (tl l2), t'. splits; auto.
    + destruct l2 as [|x l2]; simpl in *; tauto.
    + now apply (last_alloc_prev st).
    + destruct l2 as [|x l2]; simpl in *; [discriminate|]. tauto.
    + unfold coalesce_table. rewrite Pa, Na. auto.
  - destruct (coalesce_case3 _ _ _ _ _ _ H Pa Na) as (st' & t' & E' & H' & P' & S' & F').
    destruct (hf_prev_cases _ _ _ _ _ F) as [(_ & E0)|(l1' & El1 & _)].
    { rewrite E0 in Pa. discriminate. }
    exists (bp_of (prev_blk st l1)), st', (removelast l1),
      (sz_of (prev_blk st l1) + sz), l2, t'.
    assert (Er : removelast l1 = l1') by (rewrite El1, removelast_last; reflexivity).
    splits; auto.
    + rewrite Er. rewrite El1 in A1. apply no_adj_app in A1. tauto.
    + rewrite Er. rewrite El1 in A1. eapply no_adj_snoc; eauto.
    + destruct l2; simpl in *; auto.
    + unfold coalesce_table. rewrite Pa, Na. auto.
  - destruct (coalesce_case4 _ _ _ _ _ _ H Pa Na) as (st' & t' & E' & H' & P' & S' & F').
    destruct (hf_prev_cases _ _ _ _ _ F) as [(_ & E0)|(l1' & El1 & _)].
    { rewrite E0 in Pa. discriminate. }
    exists (bp_of (prev_blk st l1)), st', (removelast l1),
      (sz_of (prev_blk st l1) + sz + next_sz l2), (tl l2), t'.
    assert (Er : removelast l1 = l1') by (rewrite El1, removelast_last; reflexivity).
    splits; auto.
    + rewrite Er. rewrite El1 in A1. apply no_adj_app in A1. tauto.
    + destruct l2 as [|x l2]; simpl in *; tauto.
    + rewrite Er. rewrite El1 in A1. eapply no_adj_snoc; eauto.
    + destruct l2 as [|x l2]; simpl in *; [discriminate|]. tauto.
    + unfold coalesce_table. rewrite Pa, Na. auto.
Qed.

(** ** Placement *)

Lemma place_ok st l1 bp csize l2 t asize :
  heap_hole st l1 bp csize l2 t -> 16 <= asize <= csize -> asize mod 8 = 0 ->
  exists p st' mid t',
    place bp asize st = Ok (p, st') /\
    heap_gen st' (l1 ++ mid ++ l2) (free_bps (l1 ++ mid ++ l2)) t' /\
    place_table st l1 bp csize l2 t asize p mid t' /\
    same_heap st st' /\ place_frame st st' mid (l1 ++ mid ++ l2).
Proof.
  intros H Has Ha8. hole_setup H.
  pose proof H as Hg. unfold heap_hole in Hg.
  remember (prev_blk st l1) as P eqn:EP.
  destruct P as ((pp, ps), pa). unfold bp_of, sz_of, alloc_of in Pe, Ph, Pf, Ps1, Ps2, Plo.
  simpl in Pe, Ph, Pf, Ps1, Ps2, Plo.
  replace (pp + ps - 8) with (bp - 8) in Pf by lia.
  set (ns := next_sz l2) in *. set (na := next_alloc l2) in *.
  set (rem := csize - asize).
  assert (Hrem8 : rem mod 8 = 0) by (unfold rem; zmod).
  unfold place_table. rewrite <- EP. unfold sz_of. simpl snd. simpl fst. fold ns rem.
  assert (Ecs : GET_SIZE (HDRP bp) st = Ok (csize, st)).
  { rewrite HDRP_eq by lia. apply (GET_SIZE_tag st (bp - 4) csize false); side. }
  destruct (rem <? 48) eqn:Hsmall.
  - (* no split *)
    apply Z.ltb_lt in Hsmall.
    set (tg := tag csize true).
    set (m3 := upd (upd (mem st) (bp - 4) tg) (bp + csize - 8) tg).
    exists bp, (set_mem st m3), [(bp, csize, true)], t. splits; auto.
    + unfold place. step ltac:(exact Ecs).
      rewrite wsub_small by lia. fold rem.
      assert ((rem >=? 6 * OVERHEAD) = false) as ->.
      { rewrite Z.geb_leb. apply Z.leb_gt. unfold OVERHEAD. lia. }
      rewrite HDRP_eq by lia. change (PACK csize 1) with tg.
      step ltac:(apply PUT_ok; side).
      step ltac:(apply FTRP_tag with (sz := csize) (a := true);
                 [exact Hb|rupd; side ..]).
      step ltac:(apply PUT_ok; side).
      reflexivity.
    + apply heap_gen_perm with (fl := free_bps (l1 ++ l2)).
      * apply (relayout st l1 [(bp, csize, false)] _ l2 _ t bp (bp + csize));
          [exact Hg|exact C1|..].
        -- simpl. unfold bp_of, sz_of. simpl. splits; auto; lia.
        -- simpl. unfold bp_of, sz_of. simpl. splits; auto; lia.
        -- constructor; [|constructor]. unfold sz_of; simpl. lia.
        -- constructor; [|constructor]. unfold blk_ok, bp_of, sz_of, alloc_of, m3. simpl.
           split; rupd; reflexivity.
        -- intros a Ha. unfold m3. rupd. reflexivity.
        -- intros q Hq [Hq'|[]]. unfold bp_of in Hq'; simpl in Hq'. subst q. auto.
      * rewrite !free_bps_app. reflexivity.
    + unfold same_heap. simpl. auto.
    + intros a A1 _. destruct (A1 (bp, csize, true)) as (X1 & X2); [simpl; auto|].
      unfold bp_of, sz_of in X1, X2. simpl in X1, X2. unfold m3. rupd. reflexivity.
  - apply Z.ltb_ge in Hsmall.
    assert (Egs : (wsub csize asize >=? 6 * OVERHEAD) = true).
    { rewrite wsub_small by lia. rewrite Z.geb_leb. apply Z.leb_le. unfold OVERHEAD.
      fold rem. lia. }
    assert (Hbfl : ~ In bp (free_bps (l1 ++ l2))) by exact Hnotin.
    destruct (ns >? ps) eqn:Hcmp.
    + (* allocate the front, the remainder follows *)
      set (ta := tag asize true). set (tr := tag rem false).
      set (m5 := upd (upd (upd (upd (mem st) (bp - 4) ta) (bp + asize - 8) ta)
                          (bp + asize - 4) tr) (bp + csize - 8) tr).
      set (mid := [(bp, asize, true); (bp + asize, rem, false)]).
      assert (G1 : heap_gen (set_mem st m5) (l1 ++ mid ++ l2) (free_bps (l1 ++ l2)) t).
      { apply (relayout st l1 [(bp, csize, false)] _ l2 _ t bp (bp + csize));
          [exact Hg|exact C1|..].
        - simpl. unfold bp_of, sz_of. simpl. splits; auto; lia.
        - simpl. unfold bp_of, sz_of. simpl. splits; auto; lia.
        - constructor; [|constructor; [|constructor]]; unfold sz_of; simpl; lia.
        - constructor; [|constructor; [|constructor]];
            unfold blk_ok, bp_of, sz_of, alloc_of, m5; simpl.
          + split; rupd; reflexivity.
          + replace (bp + asize + rem - 8) with (bp + csize - 8) by (unfold rem; lia).
            split; rupd; reflexivity.
        - intros a Ha. unfold m5. rupd. reflexivity.
        - intros q Hq [Hq'|[]]. unfold bp_of in Hq'; simpl in Hq'. subst q. auto. }
      assert (Hrfl : ~ In (bp + asize) (free_bps (l1 ++ l2))).
      { intros Hq. apply free_bps_in in Hq as (k & Hk).
        destruct (hole_other _ _ _ _ _ _ _ _ H Hk) as (X1 & [(X2 & X3 & X4)|(X2 & X3 & X4)]);
          unfold bp_of, sz_of in *; simpl in *; lia. }
      destruct (heap_insert _ _ _ _ (bp + asize) rem G1) as (m6 & E6 & G6 & LF6); auto.
      { apply in_or_app. right. simpl. auto. }
      exists bp, (set_tree_root (set_mem (set_mem st m5) m6) (root_of (ins t (bp + asize) rem))),
        mid, (ins t (bp + asize) rem).
      splits; auto.
      * unfold place. step ltac:(exact Ecs). rewrite Egs.
        step ltac:(apply (NEXT_BLKP_tag st Hb bp csize false); side).
        step ltac:(apply (GETSIZE_tag st Hb (bp + csize) ns na); side).
        step ltac:(apply (PREV_BLKP_tag st Hb bp ps pa); side).
        replace (bp - ps) with pp by lia.
        step ltac:(apply (GETSIZE_tag st Hb pp ps pa); side).
        rewrite Hcmp. rewrite HDRP_eq by lia. rewrite wsub_small by lia. fold rem.
        change (PACK asize 1) with ta. change (PACK rem 0) with tr.
        step ltac:(apply PUT_ok; side).
        step ltac:(apply FTRP_tag with (sz := asize) (a := true);
                   [exact Hb|rupd; side ..]).
        step ltac:(apply PUT_ok; side).
        step ltac:(apply NEXT_BLKP_tag with (sz := asize) (a := true);
                   [exact Hb|rupd; side ..]).
        rewrite (HDRP_eq (bp + asize)) by lia.
        replace (bp + asize - 4) with (bp + asize - 4) by lia.
        step ltac:(apply PUT_ok; side).
        step ltac:(apply FTRP_tag with (sz := rem) (a := false);
                   [exact Hb|rupd; side ..]).
        replace (bp + asize + rem - 8) with (bp + csize - 8) by (unfold rem; lia).
        step ltac:(apply PUT_ok; side).
        step ltac:(reflexivity).
        step ltac:(exact E6).
        step ltac:(reflexivity).
        reflexivity.
      * eapply heap_gen_perm; [exact G6|].
        unfold mid. rewrite !free_bps_app. unfold free_bps at 4. simpl.
        apply Permutation_middle.
      * unfold same_heap. simpl. auto.
      * intros a A1 A2. rupd. rewrite LF6.
        -- destruct (A1 (bp, asize, true)) as (X1 & X2); [simpl; auto|].
           destruct (A1 (bp + asize, rem, false)) as (X3 & X4); [simpl; auto|].
           unfold bp_of, sz_of in X1, X2, X3, X4. simpl in X1, X2, X3, X4.
           unfold m5. rupd. reflexivity.
        -- intros q Hq _. destruct Hq as [<-|Hq].
           ++ apply (A2 (bp + asize, rem, false)); auto.
              apply in_or_app; right. simpl; auto.
           ++ apply free_bps_in in Hq as (k & Hk).
              apply (A2 (q, k, false)); auto.
              apply in_app_or in Hk as [Hk|Hk]; apply in_or_app; auto.
              right. apply in_or_app. auto.
    + (* the remainder stays in front, the allocation follows *)
      set (ta := tag asize true). set (tr := tag rem false).
      set (m5 := upd (upd (upd (upd (mem st) (bp - 4) tr) (bp + rem - 8) tr)
                          (bp + rem - 4) ta) (bp + csize - 8) ta).
      set (mid := [(bp, rem, false); (bp + rem, asize, true)]).
      assert (G1 : heap_gen (set_mem st m5) (l1 ++ mid ++ l2) (free_bps (l1 ++ l2)) t).
      { apply (relayout st l1 [(bp, csize, false)] _ l2 _ t bp (bp + csize));
          [exact Hg|exact C1|..].
        - simpl. unfold bp_of, sz_of. simpl. splits; auto; lia.
        - simpl. unfold bp_of, sz_of. simpl. splits; auto; lia.
        - constructor; [|constructor; [|constructor]]; unfold sz_of; simpl; lia.
        - constructor; [|constructor; [|constructor]];
            unfold blk_ok, bp_of, sz_of, alloc_of, m5; simpl.
          + split; rupd; reflexivity.
          + replace (bp + rem + asize - 8) with (bp + csize - 8) by (unfold rem; lia).
            split; rupd; reflexivity.
        - intros a Ha. unfold m5. rupd. reflexivity.
        - intros q Hq [Hq'|[]]. unfold bp_of in Hq'; simpl in Hq'. subst q. auto. }
      destruct (heap_insert _ _ _ _ bp rem G1) as (m6 & E6 & G6 & LF6); auto.
      { apply in_or_app. right. simpl. auto. }
      exists (bp + rem),
        (set_tree_root (set_mem (set_mem st m5) m6) (root_of (ins t bp rem))),
        mid, (ins t bp rem).
      splits; auto.
      * unfold place. step ltac:(exact Ecs). rewrite Egs.
        step ltac:(apply (NEXT_BLKP_tag st Hb bp csize false); side).
        step ltac:(apply (GETSIZE_tag st Hb (bp + csize) ns na); side).
        step ltac:(apply (PREV_BLKP_tag st Hb bp ps pa); side).
        replace (bp - ps) with pp by lia.
        step ltac:(apply (GETSIZE_tag st Hb pp ps pa); side).
        rewrite Hcmp. rewrite HDRP_eq by lia. rewrite wsub_small by lia. fold rem.
        change (PACK asize 1) with ta. change (PACK rem 0) with tr.
        step ltac:(apply PUT_ok; side).
        step ltac:(apply FTRP_tag with (sz := rem) (a := false);
                   [exact Hb|rupd; side ..]).
        step ltac:(apply PUT_ok; side).
        step ltac:(apply NEXT_BLKP_tag with (sz := rem) (a := false);
                   [exact Hb|rupd; side ..]).
        rewrite (HDRP_eq (bp + rem)) by lia.
        step ltac:(apply PUT_ok; side).
        step ltac:(apply FTRP_tag with (sz := asize) (a := true);
                   [exact Hb|rupd; side ..]).
        replace (bp + rem + asize - 8) with (bp + csize - 8) by (unfold rem; lia).
        step ltac:(apply PUT_ok; side).
        step ltac:(reflexivity).
        step ltac:(exact E6).
        step ltac:(reflexivity).
        reflexivity.
      * eapply heap_gen_perm; [exact G6|].
        unfold mid. rewrite !free_bps_app. unfold free_bps at 4. simpl.
        apply Permutation_middle.
      * unfold same_heap. simpl. auto.
      * intros a A1 A2. rupd. rewrite LF6.
        -- destruct (A1 (bp, rem, false)) as (X1 & X2); [simpl; auto|].
           destruct (A1 (bp + rem, asize, true)) as (X3 & X4); [simpl; auto|].
           unfold bp_of, sz_of in X1, X2, X3, X4. simpl in X1, X2, X3, X4.
           unfold m5. rupd. reflexivity.
        -- intros q Hq _. destruct Hq as [<-|Hq].
           ++ apply (A2 (bp, rem, false)); auto.
              apply in_or_app; right. simpl; auto.
           ++ apply free_bps_in in Hq as (k & Hk).
              apply (A2 (q, k, false)); auto.
              apply in_app_or in Hk as [Hk|Hk]; apply in_or_app; auto.
              right. apply in_or_app. auto.
Qed.

(** ** Growing the heap *)

Lemma to_int_not_m1 w : 0 <= w < WORD_MOD - 1 -> (to_int w =? -1) = false.
Proof.
  intros H. apply Z.eqb_neq. unfold to_int, INT_MAX1, WORD_MOD in *.
  destruct (w <? 2147483648) eqn:E0; [apply Z.ltb_lt in E0|apply Z.ltb_ge in E0]; lia.
Qed.

Lemma to_int_m1 : to_int (WORD_MOD - 1) = -1.
Proof. reflexivity. Qed.

Lemma heap_extend st l fl t size :
  heap_gen st l fl t -> 16 <= size -> size mod 8 = 0 ->
  mem_brk st + size <= mem_max_addr st ->
  heap_gen (extended st size) (l ++ [(mem_brk st, size, false)]) fl t.
Proof.
  intros H S1 S2 S3.
  pose proof (hg_range _ _ _ _ H) as (R1 & R2 & R3).
  pose proof (hg_first _ _ _ _ H) as R4.
  pose proof (hg_user_chain _ _ _ _ H) as C.
  destruct (hg_sink _ _ _ _ H) as (K1 & K2 & K3 & K4 & K5 & K6 & K7).
  set (b := mem_brk st) in *.
  assert (Agree : forall a, a < b - 4 -> mem (extended st size) a = mem st a).
  { intros a Ha. unfold extended. rupd. reflexivity. }
  constructor; try solve [apply H].
  - unfold sink_ok, extended. unstate. fold b. splits; auto; lia.
  - change (chain (heap_listp st) ((prologue st :: l) ++ [(b, size, false)]) (b + size)).
    apply chain_app. exists b. split; [apply H|].
    simpl. unfold bp_of, sz_of. simpl. splits; auto; lia.
  - change (Forall (blk_ok (mem (extended st size)))
                   ((prologue st :: l) ++ [(b, size, false)])).
    apply Forall_app. split.
    + pose proof (hg_tags _ _ _ _ H) as Ht. rewrite Forall_forall in *.
      intros x Hx. specialize (Ht x Hx).
      destruct (chain_in _ _ _ _ (hg_chain _ _ _ _ H) Hx) as (X1 & X2 & X3 & _).
      fold b in X2. unfold blk_ok in *. rewrite !Agree by lia. exact Ht.
    + constructor; [|constructor]. unfold blk_ok, bp_of, sz_of, alloc_of, extended.
      simpl fst; simpl snd. fold b. split; rupd; reflexivity.
  - unfold extended. unstate. fold b. rupd. reflexivity.
  - apply Forall_app. split; [apply H|]. constructor; [|constructor].
    unfold sz_of; simpl; lia.
  - eapply trep_agree; [apply H|]. intros q Hq.
    destruct (hg_elem _ _ _ _ H q Hq) as (k & Hk).
    destruct (hg_block _ _ _ _ H _ Hk) as (X1 & X2 & X3 & _).
    unfold bp_of, sz_of in X1, X2, X3. simpl in X1, X2, X3. fold b in X2.
    unfold agree3. rewrite !Agree by lia. auto.
  - eapply tall_impl; [|apply H]. cbv beta. intros p k Hp. apply in_or_app. auto.
Qed.

Lemma extend_heap_fail st words :
  sbrk_fail st = WORD_MOD - 1 ->
  words mod 2 = 0 ->
  mem_max_addr st < mem_brk st + wmul words WSIZE ->
  extend_heap words st = Ok (NULL, st).
Proof.
  intros Hf Hw Hs. unfold extend_heap.
  assert ((words mod 2 =? 0) = true) as -> by (now apply Z.eqb_eq). cbn [negb].
  unfold mem_sbrk at 1.
  eapply run_bind.
  { assert ((mem_brk st + wmul words WSIZE <=? mem_max_addr st) = false) as ->
      by (apply Z.leb_gt; lia). reflexivity. }
  cbv beta. rewrite Hf, to_int_m1. reflexivity.
Qed.

Lemma extend_heap_ok st l t words :
  heap_inv st l t ->
  words mod 2 = 0 -> 4 <= words -> 4 * words < INT_MAX1 ->
  mem_brk st + 4 * words <= mem_max_addr st ->
  exists bp' st' l1' sz' t',
    extend_heap words st = Ok (bp', st') /\
    heap_hole st' l1' bp' sz' [] t' /\
    no_adj l1' /\ last_alloc l1' /\
    coalesce_table (extended st (4 * words)) l (mem_brk st) (4 * words) [] t
                   l1' bp' sz' [] t' /\
    same_heap (extended st (4 * words)) st' /\
    coalesce_frame (extended st (4 * words)) st' l [] l1' [] bp' sz'.
Proof.
  intros (H & A) Hw W1 W2 W3.
  pose proof (hg_range _ _ _ _ H) as (R1 & R2 & R3).
  pose proof (hg_first _ _ _ _ H) as R4.
  pose proof (hg_bounds _ _ _ _ H) as Hb. pose proof Hb as (Hb1 & Hb2).
  pose proof (hg_brk_mod8 _ _ _ _ H) as B8.
  destruct (hg_sink _ _ _ _ H) as (K1 & K2 & K3 & K4 & K5 & K6 & K7).
  set (size := 4 * words) in *.
  assert (S8 : size mod 8 = 0) by (unfold size; zmod).
  assert (Hx : heap_hole (extended st size) l (mem_brk st) size [] t).
  { unfold heap_hole. rewrite app_nil_r. apply heap_extend; auto. lia. }
  destruct (coalesce_ok _ _ _ _ _ _ Hx A I)
    as (bp' & st' & l1' & sz' & l2' & t' & E' & H' & A1' & A2' & LA & HA & Tb & Sh & Fr).
  assert (El2 : l2' = []).
  { unfold coalesce_table in Tb. simpl next_alloc in Tb.
    destruct (alloc_of (prev_blk (extended st size) l)); tauto. }
  subst l2'.
  exists bp', st', l1', sz', t'. splits; auto.
  unfold extend_heap.
  assert ((words mod 2 =? 0) = true) as -> by (now apply Z.eqb_eq). cbn [negb].
  unfold WSIZE. rewrite wmul_small by (unfold WORD_MOD, INT_MAX1 in *; lia).
  replace (words * 4) with size by (unfold size; lia).
  unfold mem_sbrk at 1.
  eapply run_bind.
  { assert ((mem_brk st + size <=? mem_max_addr st) = true) as ->
      by (apply Z.leb_le; lia). reflexivity. }
  cbv beta.
  rewrite to_int_not_m1 by (unfold WORD_MOD in *; lia).
  set (b := mem_brk st) in *.
  assert (Hb' : bounds (set_brk st (b + size))).
  { unfold bounds. unstate. unfold WORD_MOD in *. lia. }
  rewrite HDRP_eq by lia.
  change (PACK size 0) with (tag size false). change (PACK 0 1) with (tag 0 true).
  step ltac:(apply PUT_ok; side).
  step ltac:(apply FTRP_tag with (sz := size) (a := false);
             [exact Hb'|rupd; side ..]).
  step ltac:(apply PUT_ok; side).
  step ltac:(apply NEXT_BLKP_tag with (sz := size) (a := false);
             [exact Hb'|rupd; side ..]).
  rewrite HDRP_eq by (unfold WORD_MOD in *; lia).
  step ltac:(apply PUT_ok; side).
  exact E'.
Qed.

(** ** Allocated blocks and their payloads *)

Lemma alloc_blks_app l1 l2 : alloc_blks (l1 ++ l2) = alloc_blks l1 ++ alloc_blks l2.
Proof. apply filter_app. Qed.

Lemma alloc_blks_in l x : In x (alloc_blks l) <-> In x l /\ alloc_of x = true.
Proof. apply filter_In. Qed.

Lemma payload_apart b l e x y a :
  chain b l e -> In x l -> In y l -> x <> y -> in_payload x a ->
  a < bp_of y - 4 \/ bp_of y + sz_of y - 4 <= a.
Proof.
  intros C Hx Hy Hne Ha. unfold in_payload in Ha.
  destruct (chain_disjoint _ _ _ _ _ C Hx Hy) as [E0|[D|D]]; [congruence| |]; lia.
Qed.

(** What the table of [coalesce] implies for the blocks that stay. *)
Lemma coalesce_table_lists st l1 bp sz l2 fl t l1' bp' sz' l2' t' :
  heap_gen st (l1 ++ (bp, sz, false) :: l2) fl t ->
  coalesce_table st l1 bp sz l2 t l1' bp' sz' l2' t' ->
  incl l1' l1 /\ incl l2' l2 /\
  alloc_blks l1' = alloc_blks l1 /\ alloc_blks l2' = alloc_blks l2 /\
  bp' <= bp /\ bp + sz <= bp' + sz' /\
  (l1' = l1 \/ l1 = l1' ++ [(bp', bp - bp', false)]) /\
  (l2' = l2 \/ l2 = (bp + sz, bp' + sz' - (bp + sz), false) :: l2').
Proof.
  intros H Tb. pose proof (heap_gen_facts _ _ _ _ _ _ _ H) as F.
  destruct F as [Pe (Ph & Pf) (Ps1 & Ps2) Plo Pcases (S1 & S2) (B1 & B2)
                   Hhdr Hftr Hnext (N1 & N2 & N3) Ncases C1 C2 Hnotin].
  unfold coalesce_table in Tb.
  assert (L1 : alloc_of (prev_blk st l1) = false ->
               incl (removelast l1) l1 /\ alloc_blks (removelast l1) = alloc_blks l1 /\
               l1 = removelast l1 ++ [(bp_of (prev_blk st l1), bp - bp_of (prev_blk st l1), false)]).
  { intros Pa. destruct Pcases as [(_ & E0)|(l1p & El1 & _)].
    - rewrite E0 in Pa. discriminate.
    - remember (prev_blk st l1) as P eqn:EP. clear EP.
      destruct P as ((pp, ps), pa). unfold bp_of, sz_of, alloc_of in *.
      simpl in Pe, Pa |- *. subst pa. subst l1. rewrite removelast_last. splits.
      + apply incl_appl, incl_refl.
      + rewrite alloc_blks_app. unfold alloc_blks at 3. simpl.
        now rewrite app_nil_r.
      + do 4 f_equal. lia. }
  assert (L2 : next_alloc l2 = false ->
               incl (tl l2) l2 /\ alloc_blks (tl l2) = alloc_blks l2 /\
               l2 = (bp + sz, next_sz l2, false) :: tl l2).
  { intros Na. destruct Ncases as [(-> & _)|(l2p & El2 & _)]; [discriminate|].
    rewrite Na in El2. remember (next_sz l2) as ns eqn:En. clear En.
    subst l2. simpl tl. splits.
    - apply incl_tl, incl_refl.
    - unfold alloc_blks. simpl. reflexivity.
    - reflexivity. }
  destruct (alloc_of (prev_blk st l1)) eqn:Pa; destruct (next_alloc l2) eqn:Na.
  - destruct Tb as (-> & -> & -> & -> & _). splits; auto using incl_refl; lia.
  - destruct Tb as (-> & -> & -> & -> & _). destruct (L2 eq_refl) as (I2 & A2 & E2).
    splits; auto using incl_refl; try lia. right.
    replace (bp + (sz + next_sz l2) - (bp + sz)) with (next_sz l2) by lia. exact E2.
  - destruct Tb as (-> & -> & -> & -> & _). destruct (L1 eq_refl) as (I1 & A1 & E1).
    splits; auto using incl_refl; lia.
  - destruct Tb as (-> & -> & -> & -> & _). destruct (L1 eq_refl) as (I1 & A1 & E1).
    destruct (L2 eq_refl) as (I2 & A2 & E2).
    splits; auto; try lia. right.
    replace (bp_of (prev_blk st l1) + (sz_of (prev_blk st l1) + sz + next_sz l2) - (bp + sz))
      with (next_sz l2) by lia. exact E2.
Qed.

Lemma no_adj_split l1 x l2 :
  no_adj (l1 ++ x :: l2) ->
  no_adj l1 /\ no_adj l2 /\ (alloc_of x = false -> last_alloc l1 /\ hd_alloc l2).
Proof.
  intros H. pose proof (no_adj_app _ _ H) as (H1 & H2). simpl in H2.
  destruct H2 as (H2 & H3). splits; auto.
  intros Hx. split; auto.
  change (l1 ++ x :: l2) with (l1 ++ [x] ++ l2) in H. rewrite app_assoc in H.
  apply no_adj_app in H as (H & _). eapply no_adj_snoc; eauto.
Qed.

(** ** [mm_free] *)

(** The freed block ends up inside a free block of the index. *)
Lemma mm_free_full st l t bp sz :
  heap_inv st l t -> In (bp, sz, true) l ->
  exists st' l' t',
    mm_free bp st = Ok (tt, st') /\
    heap_inv st' l' t' /\
    Permutation (alloc_blks l) ((bp, sz, true) :: alloc_blks l') /\
    same_heap st st' /\
    payload_frame l' (mem st) (mem st') (fun _ => False) /\
    exists bp' sz',
      In (bp', sz', false) l' /\ In bp' (elems t') /\
      bp' <= bp /\ bp + sz <= bp' + sz'.
Proof.
  intros (H & A) Hin.
  destruct (in_split _ _ Hin) as (l1 & l2 & El). subst l.
  destruct (no_adj_split _ _ _ A) as (A1 & A2 & _).
  pose proof (hg_bounds _ _ _ _ H) as Hb. pose proof Hb as (Hb1 & Hb2).
  pose proof (hg_range _ _ _ _ H) as (R1 & R2 & R3).
  pose proof (hg_first _ _ _ _ H) as R4.
  destruct (hg_block _ _ _ _ H _ Hin) as (B1 & B2 & B3 & B4 & B5 & (B6 & B7)).
  unfold bp_of, sz_of, alloc_of in B1, B2, B3, B4, B5, B6, B7.
  simpl in B1, B2, B3, B4, B5, B6, B7.
  pose proof (hg_chain _ _ _ _ H) as C.
  change (prologue st :: l1 ++ (bp, sz, true) :: l2)
    with ((prologue st :: l1) ++ (bp, sz, true) :: l2) in C.
  destruct (chain_mid _ _ _ _ _ C) as (C1 & C2 & _).
  unfold bp_of, sz_of in C1, C2. simpl in C1, C2.
  (* the block is marked free *)
  set (tg := tag sz false).
  set (m1 := upd (upd (mem st) (bp - 4) tg) (bp + sz - 8) tg).
  assert (H1 : heap_hole (set_mem st m1) l1 bp sz l2 t).
  { unfold heap_hole. pose proof H as Hg. rewrite free_bps_mid_alloc in Hg.
    change (l1 ++ (bp, sz, false) :: l2) with (l1 ++ [(bp, sz, false)] ++ l2).
    apply (relayout st l1 [(bp, sz, true)] _ l2 _ t bp (bp + sz));
      [exact Hg|exact C1|..].
    - simpl. unfold bp_of, sz_of. simpl. splits; auto; lia.
    - simpl. unfold bp_of, sz_of. simpl. splits; auto; lia.
    - constructor; [|constructor]. unfold sz_of; simpl. lia.
    - constructor; [|constructor]. unfold blk_ok, bp_of, sz_of, alloc_of, m1. simpl.
      split; rupd; reflexivity.
    - intros a Ha. unfold m1. rupd. reflexivity.
    - intros q Hq [Hq'|[]]. unfold bp_of in Hq'; simpl in Hq'. subst q.
      apply free_bps_in in Hq as (k & Hk).
      assert (Hk' : In (bp, k, false) (l1 ++ (bp, sz, true) :: l2)).
      { apply in_app_or in Hk as [Hk|Hk]; apply in_or_app; simpl; auto. }
      pose proof (chain_same_bp _ _ _ _ _ (hg_user_chain _ _ _ _ H) Hk' Hin eq_refl).
      discriminate. }
  destruct (coalesce_ok _ _ _ _ _ _ H1 A1 A2)
    as (bp' & s2 & l1' & sz' & l2' & t2 & E2 & H2 & A1' & A2' & LA & HA & Tb & Sh & Fr).
  destruct (coalesce_table_lists _ _ _ _ _ _ _ _ _ _ _ _ H1 Tb)
    as (I1 & I2 & AB1 & AB2 & Lo & Hi & Sh1 & Sh2).
  pose proof (heap_hole_facts _ _ _ _ _ _ H2) as F2.
  destruct (heap_insert _ _ _ _ bp' sz' H2) as (m3 & E3 & G3 & LF3).
  { apply in_or_app. simpl. auto. }
  { apply (hf_notin _ _ _ _ _ F2). }
  set (l' := l1' ++ (bp', sz', false) :: l2') in *.
  exists (set_tree_root (set_mem s2 m3) (root_of (ins t2 bp' sz'))), l', (ins t2 bp' sz').
  destruct Sh as (Sh1' & Sh2' & Sh3' & Sh4' & Sh5'). unstate_in Sh1'. unstate_in Sh2'.
  unstate_in Sh3'. unstate_in Sh4'. unstate_in Sh5'.
  splits.
  - unfold mm_free. rewrite HDRP_eq by lia.
    step ltac:(apply (GET_SIZE_tag st (bp - 4) sz true); side).
    change (PACK sz 0) with tg.
    step ltac:(apply PUT_ok; side).
    step ltac:(apply FTRP_tag with (sz := sz) (a := false);
               [exact Hb|rupd; side ..]).
    step ltac:(apply PUT_ok; side).
    step ltac:(exact E2).
    step ltac:(reflexivity).
    step ltac:(exact E3).
    reflexivity.
  - split.
    + eapply heap_gen_perm; [exact G3|]. unfold l'. symmetry. apply free_bps_mid_free.
    + unfold l'. apply no_adj_join; auto.
  - unfold l'. rewrite !alloc_blks_app. unfold alloc_blks at 2 4. simpl.
    fold (alloc_blks l2) (alloc_blks l2'). rewrite AB1, AB2.
    symmetry. apply Permutation_middle.
  - unfold same_heap. unstate. auto.
  - intros x a Hx Hxa Hpa _. unstate.
    assert (Cl' : chain (heap_listp s2 + 8) l' (mem_brk s2)).
    { apply (hg_user_chain _ _ _ _ H2). }
    assert (Hx' : In x (l1' ++ l2')).
    { unfold l' in Hx. apply in_app_or in Hx as [Hx|[Hx|Hx]]; apply in_or_app; auto.
      subst x. discriminate. }
    assert (Hxl : In x (l1 ++ (bp, sz, true) :: l2)).
    { apply in_app_or in Hx' as [Hx'|Hx']; apply in_or_app; [left|right; right]; auto. }
    assert (Hnb : x <> (bp, sz, true)).
    { intros ->. pose proof (chain_NoDup _ _ _ (hg_user_chain _ _ _ _ H)) as N.
      rewrite map_app in N. simpl in N.
      apply in_app_or in Hx' as [Hx'|Hx'].
      - apply (NoDup_app_disj _ _ bp N); [|simpl; auto].
        apply in_map_iff. exists (bp, sz, true). auto.
      - apply NoDup_app_r in N. apply NoDup_cons_iff in N as (N & _). apply N.
        apply in_map_iff. exists (bp, sz, true). auto. }
    assert (Far : forall y, In y l' -> y <> x ->
                            a < bp_of y - 4 \/ bp_of y + sz_of y - 4 <= a).
    { intros y Hy Hne. apply (payload_apart _ _ _ x y a Cl'); auto. }
    assert (Hm1 : m1 a = mem st a).
    { destruct (payload_apart _ _ _ x (bp, sz, true) a (hg_user_chain _ _ _ _ H) Hxl Hin Hnb Hpa)
        as [D|D]; unfold bp_of, sz_of in D; simpl in D; unfold m1; rupd; reflexivity. }
    assert (Hm : In (bp', sz', false) l') by (apply in_or_app; simpl; auto).
    assert (Hmf : a < bp' - 4 \/ bp' + sz' - 4 <= a).
    { destruct (Far _ Hm) as [D'|D']; [intros E0; rewrite <- E0 in Hxa; discriminate| |];
        unfold bp_of, sz_of in D'; simpl in D'; lia. }
    destruct (hf_sz _ _ _ _ _ F2) as (Z16 & _).
    rewrite LF3, Fr; [exact Hm1|lia|lia| | |].
    + intros y Hy Hf.
      assert (Hy' : In y l').
      { unfold l'. apply in_app_or in Hy as [Hy|Hy]; apply in_or_app; simpl; auto. }
      destruct (hole_other _ _ _ _ _ _ _ _ H2 Hy) as (Y16 & _).
      destruct (Far _ Hy') as [D'|D']; [intros E0; rewrite E0 in Hf; congruence| |]; lia.
    + intros _ _. lia.
    + intros q Hq _.
      assert (exists k, In (q, k, false) l') as (k & Hk).
      { destruct Hq as [<-|Hq]; [exists sz'; apply in_or_app; simpl; auto|].
        apply free_bps_in in Hq as (k & Hk). exists k.
        unfold l'. apply in_app_or in Hk as [Hk|Hk]; apply in_or_app; simpl; auto. }
      destruct (hg_block _ _ _ _ G3 _ Hk) as (_ & _ & Y16 & _).
      destruct (Far _ Hk) as [D'|D']; [intros E0; rewrite <- E0 in Hxa; discriminate| |];
        unfold bp_of, sz_of in D', Y16; simpl in D', Y16; lia.
  - exists bp', sz'. splits; [unfold l'; apply in_or_app; simpl; auto| |exact Lo|exact Hi].
    eapply Permutation_in; [symmetry; apply elems_ins|]. left. reflexivity.
Qed.

Lemma mm_free_ok st l t bp sz :
  heap_inv st l t -> In (bp, sz, true) l ->
  exists st' l' t',
    mm_free bp st = Ok (tt, st') /\
    heap_inv st' l' t' /\
    Permutation (alloc_blks l) ((bp, sz, true) :: alloc_blks l') /\
    same_heap st st' /\
    payload_frame l' (mem st) (mem st') (fun _ => False).
Proof.
  intros H Hin.
  destruct (mm_free_full st l t bp sz H Hin) as (st' & l' & t' & E & H' & P & S & F & _).
  exists st', l', t'. auto.
Qed.

(** ** Request sizes *)

Lemma adjust_mod8 size : adjust size mod 8 = 0.
Proof.
  unfold adjust, DSIZE, OVERHEAD. destruct (size <=? 8); [reflexivity|].
  unfold wmul. rewrite wrap_mod8. rewrite Z.mul_comm. apply Z_mod_mult.
Qed.

Lemma adjust_range size :
  0 < size <= MAX_REQUEST ->
  16 <= adjust size < INT_MAX1 /\ size + 8 <= adjust size <= size + 15.
Proof.
  unfold MAX_REQUEST, INT_MAX1. intros Hs.
  unfold adjust, DSIZE, OVERHEAD. destruct (Z.leb_spec size 8); [lia|].
  rewrite wadd_small by (unfold WORD_MOD; lia).
  rewrite wmul_small by (unfold WORD_MOD; zmod).
  zmod.
Qed.

Lemma adjust_to_int size : 0 < size <= MAX_REQUEST -> to_int (adjust size) = adjust size.
Proof. intros Hs. apply to_int_small. pose proof (adjust_range size Hs). lia. Qed.

(** ** What [fit] finds *)

Lemma fit_tall (P : Z -> Z -> Prop) t s :
  tall P t -> fit t s <> NULL ->
  exists k, P (fit t s) k /\ s <= k /\ In (fit t s) (elems t).
Proof.
  induction t as [|l IHl p k r IHr]; simpl; intros Ht Hf; [congruence|].
  destruct Ht as (Hp & Hl & Hr).
  destruct (Z.geb_spec k s).
  - exists k. splits; auto; try lia. apply in_or_app. simpl. auto.
  - destruct (IHr Hr Hf) as (k' & H1 & H2 & H3). exists k'. splits; auto.
    apply in_or_app. simpl. auto.
Qed.

Lemma fit_none t s :
  bst t -> tall (fun p _ => p <> NULL) t -> fit t s = NULL -> tall (fun _ k => k < s) t.
Proof.
  induction t as [|l IHl p k r IHr]; simpl; intros Hb Hn Hf; auto.
  destruct Hb as (Hl & Hr & Bl & Br). destruct Hn as (Hp & Nl & Nr).
  destruct (Z.geb_spec k s); [congruence|].
  splits; auto.
  eapply tall_impl; [|exact Hl]. simpl. intros; lia.
Qed.

(** ** Payload words lie apart from tags and link words *)

Lemma payload_tags b l e x a :
  chain b l e -> In x l -> in_payload x a ->
  forall y, In y l ->
    a <> bp_of y - 4 /\ a <> bp_of y + sz_of y - 8 /\ a < e - 8 /\
    (alloc_of x = true -> alloc_of y = false -> 16 <= sz_of y ->
     a <> bp_of y /\ a <> bp_of y + 4).
Proof.
  intros C Hx Ha y Hy. pose proof Ha as Ha'. unfold in_payload in Ha'.
  destruct (chain_in _ _ _ _ C Hx) as (X1 & X2 & X3 & X4 & X5).
  destruct (chain_in _ _ _ _ C Hy) as (Y1 & Y2 & Y3 & Y4 & Y5).
  destruct (chain_disjoint _ _ _ _ _ C Hx Hy) as [E0|[D|D]].
  - subst y. splits; try lia. intros; congruence.
  - splits; try lia.
  - splits; try lia.
Qed.

Lemma no_adj_place l1 mid l2 bp csize rem asize :
  no_adj l1 -> no_adj l2 -> last_alloc l1 -> hd_alloc l2 ->
  mid = [(bp, csize, true)] \/
  mid = [(bp, asize, true); (bp + asize, rem, false)] \/
  mid = [(bp, rem, false); (bp + rem, asize, true)] ->
  no_adj (l1 ++ mid ++ l2).
Proof.
  intros A1 A2 L H Hm. destruct Hm as [Hm|[Hm|Hm]]; subst mid; simpl;
    apply no_adj_join; simpl; auto; try discriminate;
    try (split; [discriminate|split; auto; discriminate]);
    try (intros _; split; auto; reflexivity).
Qed.

Lemma place_table_mid st l1 bp csize l2 t asize p mid t' :
  place_table st l1 bp csize l2 t asize p mid t' ->
  16 <= asize <= csize ->
  exists sz, In (p, sz, true) mid /\ asize <= sz /\ alloc_blks mid = [(p, sz, true)] /\
    bp <= p /\ p + sz <= bp + csize /\
    (mid = [(bp, csize, true)] \/
     mid = [(bp, asize, true); (bp + asize, csize - asize, false)] \/
     mid = [(bp, csize - asize, false); (bp + (csize - asize), asize, true)]) /\
    (csize - asize < 48 -> sz = csize /\ p = bp).
Proof.
  unfold place_table. intros Tb Hs.
  destruct (Z.ltb_spec (csize - asize) 48).
  - destruct Tb as (-> & -> & _). exists csize. simpl. splits; auto; lia.
  - destruct (next_sz l2 >? sz_of (prev_blk st l1)).
    + destruct Tb as (-> & -> & _). exists asize. simpl. splits; auto; lia.
    + destruct Tb as (-> & -> & _). exists asize. simpl. splits; auto; lia.
Qed.

(** ** [mm_malloc], when the index holds a fitting block *)

(** The block that [place] hands out is less than a minimum remainder
    larger than what was asked for. *)
Lemma place_table_size st l1 bp csize l2 t asize p mid t' sz :
  place_table st l1 bp csize l2 t asize p mid t' -> In (p, sz, true) mid ->
  sz < asize + 48.
Proof.
  unfold place_table. intros Tb Hin.
  destruct (Z.ltb_spec (csize - asize) 48) as [Hr|Hr].
  - destruct Tb as (-> & -> & _). destruct Hin as [Hin|[]]. inversion Hin. lia.
  - destruct (_ >? _); destruct Tb as (-> & -> & _);
      destruct Hin as [Hin|[Hin|[]]]; inversion Hin; lia.
Qed.

Lemma malloc_fit_full st l t asize :
  heap_inv st l t -> 16 <= asize -> asize mod 8 = 0 -> fit t asize <> NULL ->
  exists p st' l' t' sz,
    (root <- get_root ;; root' <- mm_remove root (fit t asize) ;;
     put_root root' ;;; place (fit t asize) asize) st = Ok (p, st') /\
    heap_inv st' l' t' /\ In (p, sz, true) l' /\ asize <= sz /\
    Permutation (alloc_blks l') ((p, sz, true) :: alloc_blks l) /\
    same_heap st st' /\
    payload_frame l' (mem st) (mem st') (fun _ => False) /\
    sz < asize + 48.
Proof.
  intros (H & A) Ha16 Ha8 Hfit.
  destruct (fit_tall _ _ _ (hg_nodes _ _ _ _ H) Hfit) as (k & Hk & Hak & Hel).
  set (bp := fit t asize) in *.
  destruct (in_split _ _ Hk) as (l1 & l2 & El). subst l.
  destruct (no_adj_split _ _ _ A) as (A1 & A2 & A3). destruct (A3 eq_refl) as (LA & HA).
  destruct (heap_remove _ _ _ _ bp H Hel) as (m1 & t1 & E1 & G1 & P1 & F1).
  set (st1 := set_tree_root (set_mem st m1) (root_of t1)) in *.
  assert (H1 : heap_hole st1 l1 bp k l2 t1).
  { unfold heap_hole. eapply heap_gen_perm; [exact G1|].
    eapply Permutation_cons_inv with (a := bp).
    rewrite <- P1. apply free_bps_mid_free. }
  destruct (place_ok _ _ _ _ _ _ asize H1) as (p & st' & mid & t' & E2 & G2 & Tb & Sh & Fr);
    [lia|exact Ha8|].
  destruct (place_table_mid _ _ _ _ _ _ _ _ _ _ Tb) as (sz & Hin & Hsz & Hab & Hlo & Hhi & Hmid & _);
    [lia|].
  set (l' := l1 ++ mid ++ l2) in *.
  destruct Sh as (S1 & S2 & S3 & S4 & S5).
  unfold st1 in S1, S2, S3, S4, S5. unstate_in S1. unstate_in S2. unstate_in S3.
  unstate_in S4. unstate_in S5.
  exists p, st', l', t', sz. splits.
  - step ltac:(reflexivity). rewrite (hg_root _ _ _ _ H).
    rewrite <- (hg_root _ _ _ _ H). step ltac:(exact E1).
    step ltac:(reflexivity). exact E2.
  - split; auto. unfold l'. eapply no_adj_place; eauto.
  - unfold l'. apply in_or_app. right. apply in_or_app. left. exact Hin.
  - exact Hsz.
  - unfold l'. rewrite !alloc_blks_app, Hab. unfold alloc_blks at 4. simpl.
    fold (alloc_blks l2). symmetry. apply Permutation_middle.
  - unfold same_heap. auto.
  - intros x a Hx Hxa Hpa _.
    pose proof (hg_user_chain _ _ _ _ G2) as C'. fold l' in C'.
    pose proof (payload_tags _ _ _ _ _ C' Hx Hpa) as PT.
    rewrite Fr.
    + unfold st1. unstate. apply F1. intros q Hq Hne.
      apply free_bps_in in Hq as (kq & Hq).
      assert (Hq' : In (q, kq, false) l').
      { unfold l'. apply in_app_or in Hq as [Hq|[Hq|Hq]].
        - apply in_or_app. auto.
        - inversion Hq. congruence.
        - apply in_or_app. right. apply in_or_app. auto. }
      destruct (hg_block _ _ _ _ G2 _ Hq') as (_ & _ & Q16 & _).
      destruct (PT _ Hq') as (_ & _ & _ & PQ). apply PQ; auto.
    + intros y Hy.
      assert (Hy' : In y l').
      { unfold l'. apply in_or_app. right. apply in_or_app. auto. }
      destruct (PT _ Hy') as (Q1 & Q2 & _). auto.
    + intros y Hy Hf. destruct (hg_block _ _ _ _ G2 _ Hy) as (_ & _ & Q16 & _).
      destruct (PT _ Hy) as (_ & _ & _ & PQ). apply PQ; auto.
  - apply (place_table_size _ _ _ _ _ _ _ _ _ _ _ Tb Hin).
Qed.

Lemma malloc_fit st l t asize :
  heap_inv st l t -> 16 <= asize -> asize mod 8 = 0 -> fit t asize <> NULL ->
  exists p st' l' t' sz,
    (root <- get_root ;; root' <- mm_remove root (fit t asize) ;;
     put_root root' ;;; place (fit t asize) asize) st = Ok (p, st') /\
    heap_inv st' l' t' /\ In (p, sz, true) l' /\ asize <= sz /\
    Permutation (alloc_blks l') ((p, sz, true) :: alloc_blks l) /\
    same_heap st st' /\
    payload_frame l' (mem st) (mem st') (fun _ => False).
Proof.
  intros H H16 H8 Hf.
  destruct (malloc_fit_full st l t asize H H16 H8 Hf)
    as (p & st' & l' & t' & sz & E & H' & Hin & Hsz & P & S & F & _).
  exists p, st', l', t', sz. auto 10.
Qed.

(** ** [mm_malloc], when the heap has to grow *)

Lemma MAX_chunk asize :
  16 <= asize < INT_MAX1 -> asize mod 8 = 0 ->
  let ext := MAX asize CHUNKSIZE in
  asize <= ext /\ 4096 <= ext < INT_MAX1 /\ ext mod 8 = 0 /\
  (ext / WSIZE) mod 2 = 0 /\ 4 * (ext / WSIZE) = ext.
Proof.
  intros Ha Ha8. unfold MAX, WSIZE. change CHUNKSIZE with 4096.
  unfold INT_MAX1 in *.
  destruct (Z.gtb_spec asize 4096); cbv zeta; splits; try lia; try zmod; reflexivity.
Qed.

Lemma malloc_extend_fail st l t asize :
  heap_inv st l t -> 16 <= asize < INT_MAX1 -> asize mod 8 = 0 ->
  mem_max_addr st < mem_brk st + MAX asize CHUNKSIZE ->
  (bp <- extend_heap (MAX asize CHUNKSIZE / WSIZE) ;;
   if bp =? NULL then ret NULL else place bp asize) st = Ok (NULL, st).
Proof.
  intros (H & A) Ha Ha8 Hmax.
  destruct (MAX_chunk asize Ha Ha8) as (E1 & E2 & E3 & E4 & E5).
  destruct (hg_sink _ _ _ _ H) as (K1 & K2 & K3 & K4 & K5 & K6 & K7).
  step ltac:(apply extend_heap_fail; auto;
             rewrite wmul_small by (unfold WORD_MOD, WSIZE, INT_MAX1 in *; lia);
             unfold WSIZE in *; lia).
  reflexivity.
Qed.

Lemma malloc_extend_full st l t asize :
  heap_inv st l t -> 16 <= asize < INT_MAX1 -> asize mod 8 = 0 ->
  mem_brk st + MAX asize CHUNKSIZE <= mem_max_addr st ->
  exists p st' l' t' sz,
    (bp <- extend_heap (MAX asize CHUNKSIZE / WSIZE) ;;
     if bp =? NULL then ret NULL else place bp asize) st = Ok (p, st') /\
    heap_inv st' l' t' /\ In (p, sz, true) l' /\ asize <= sz /\
    Permutation (alloc_blks l') ((p, sz, true) :: alloc_blks l) /\
    grown st st' /\ mem_brk st < mem_brk st' /\
    payload_frame l' (mem st) (mem st') (fun a => a = mem_brk st - 4) /\
    sz < asize + 48 /\
    mem_brk st' = mem_brk st + MAX asize CHUNKSIZE.
Proof.
  intros (H & A) Ha Ha8 Hmax.
  destruct (MAX_chunk asize Ha Ha8) as (E1 & E2 & E3 & E4 & E5).
  set (ext := MAX asize CHUNKSIZE) in *. set (words := ext / WSIZE) in *.
  destruct (extend_heap_ok st l t words (conj H A)) as
    (bp' & st1 & l1' & sz' & t1 & X1 & H1 & A1 & LA & Tb & Sh1 & Fc); try lia.
  rewrite E5 in Tb, Sh1, Fc.
  assert (He : heap_gen (extended st ext) (l ++ [(mem_brk st, ext, false)]) (free_bps l) t).
  { apply heap_extend; auto. lia. }
  destruct (coalesce_table_lists _ _ _ _ _ _ _ _ _ _ _ _ He Tb)
    as (I1 & _ & AB1 & _ & Lo & Hi & _).
  pose proof (heap_hole_facts _ _ _ _ _ _ H1) as F1.
  destruct (hf_next_cases _ _ _ _ _ F1) as [(_ & Hend)|(? & ? & _)]; [|discriminate].
  destruct (hf_bp _ _ _ _ _ F1) as (Hb8 & _).
  pose proof (hf_prev_lo _ _ _ _ _ F1) as Hlo1.
  pose proof (hf_prev_end _ _ _ _ _ F1) as Hpe.
  destruct (hf_prev_sz _ _ _ _ _ F1) as (Hps & _).
  destruct Sh1 as (S1 & S2 & S3 & S4 & S5).
  unfold extended in S1, S2, S3, S4, S5. unstate_in S1. unstate_in S2. unstate_in S3.
  unstate_in S4. unstate_in S5.
  pose proof (hg_first _ _ _ _ H) as Hf.
  destruct (hg_sink _ _ _ _ H) as (K1 & K2 & K3 & K4 & K5 & K6 & K7).
  destruct (place_ok _ _ _ _ _ _ asize H1) as (p & st' & mid & t' & E2' & G2 & Tp & Sh & Fr);
    [lia|exact Ha8|].
  destruct (place_table_mid _ _ _ _ _ _ _ _ _ _ Tp) as (sz & Hin & Hsz & Hab & Hlo & Hhi & Hmid & _);
    [lia|].
  set (l' := l1' ++ mid ++ []) in *.
  destruct Sh as (T1 & T2 & T3 & T4 & T5).
  exists p, st', l', t', sz. splits.
  - step ltac:(exact X1).
    assert ((bp' =? NULL) = false) as ->; [apply Z.eqb_neq; unfold NULL; lia|].
    exact E2'.
  - split; auto. unfold l'. eapply no_adj_place; eauto; simpl; auto.
  - unfold l'. apply in_or_app. right. apply in_or_app. left. exact Hin.
  - exact Hsz.
  - unfold l'. rewrite !alloc_blks_app, Hab, AB1. unfold alloc_blks at 2. simpl.
    change ((p, sz, true) :: alloc_blks l) with ([(p, sz, true)] ++ alloc_blks l).
    apply Permutation_app_comm.
  - unfold grown. rewrite T1, T2, T3, T4, T5, S1, S2, S3, S4, S5. splits; auto. lia.
  - rewrite T2, S2. lia.
  - intros x a Hx Hxa Hpa Hex.
    pose proof (hg_user_chain _ _ _ _ G2) as C'. fold l' in C'.
    pose proof (payload_tags _ _ _ _ _ C' Hx Hpa) as PT.
    assert (Hfirst : exists y, In y l' /\ bp_of y = bp').
    { destruct Hmid as [Hm|[Hm|Hm]]; eexists; (split;
        [unfold l'; apply in_or_app; right; rewrite Hm; simpl; left; reflexivity
        |reflexivity]). }
    assert (Hlt : a < mem_brk st' - 8).
    { destruct Hfirst as (y & Hy & _). apply (PT _ Hy). }
    rewrite T2, S2 in Hlt.
    rewrite Fr, Fc.
    + unfold extended. rupd. reflexivity.
    + destruct Hfirst as (y & Hy & <-). apply (PT _ Hy).
    + rewrite Hend, S2. lia.
    + intros y Hy Hf'. rewrite app_nil_r in Hy.
      assert (Hy' : In y l') by (unfold l'; apply in_or_app; auto).
      destruct (hg_block _ _ _ _ G2 _ Hy') as (_ & _ & Q16 & _).
      destruct (PT _ Hy') as (_ & _ & _ & PQ). apply PQ; auto.
    + simpl. discriminate.
    + intros y Hy.
      assert (Hy' : In y l').
      { unfold l'. apply in_or_app. right. apply in_or_app. auto. }
      destruct (PT _ Hy') as (Q1 & Q2 & _). auto.
    + intros y Hy Hf'. destruct (hg_block _ _ _ _ G2 _ Hy) as (_ & _ & Q16 & _).
      destruct (PT _ Hy) as (_ & _ & _ & PQ). apply PQ; auto.
  - apply (place_table_size _ _ _ _ _ _ _ _ _ _ _ Tp Hin).
  - rewrite T2, S2. reflexivity.
Qed.

Lemma malloc_extend st l t asize :
  heap_inv st l t -> 16 <= asize < INT_MAX1 -> asize mod 8 = 0 ->
  mem_brk st + MAX asize CHUNKSIZE <= mem_max_addr st ->
  exists p st' l' t' sz,
    (bp <- extend_heap (MAX asize CHUNKSIZE / WSIZE) ;;
     if bp =? NULL then ret NULL else place bp asize) st = Ok (p, st') /\
    heap_inv st' l' t' /\ In (p, sz, true) l' /\ asize <= sz /\
    Permutation (alloc_blks l') ((p, sz, true) :: alloc_blks l) /\
    grown st st' /\ mem_brk st < mem_brk st' /\
    payload_frame l' (mem st) (mem st') (fun a => a = mem_brk st - 4).
Proof.
  intros H Ha H8 Hm.
  destruct (malloc_extend_full st l t asize H Ha H8 Hm)
    as (p & st' & l' & t' & sz & E & H' & Hin & Hsz & P & G & Hb & F & _).
  exists p, st', l', t', sz. auto 10.
Qed.

(** ** [mm_malloc] *)

Lemma mm_malloc_full st l t size :
  heap_inv st l t -> 0 < size <= MAX_REQUEST ->
  (fit t (adjust size) = NULL /\
   mem_max_addr st < mem_brk st + MAX (adjust size) CHUNKSIZE /\
   mm_malloc size st = Ok (NULL, st)) \/
  (exists p st' l' t' sz,
      mm_malloc size st = Ok (p, st') /\ p <> NULL /\
      heap_inv st' l' t' /\ In (p, sz, true) l' /\ size + 8 <= sz /\
      Permutation (alloc_blks l') ((p, sz, true) :: alloc_blks l) /\
      grown st st' /\
      payload_frame l' (mem st) (mem st')
                    (fun a => mem_brk st < mem_brk st' /\ a = mem_brk st - 4) /\
      adjust size <= sz /\ sz < adjust size + 48 /\
      (fit t (adjust size) <> NULL -> mem_brk st' = mem_brk st) /\
      (fit t (adjust size) = NULL ->
       mem_brk st' = mem_brk st + MAX (adjust size) CHUNKSIZE)).
Proof.
  intros H Hs. pose proof H as (Hg & A).
  destruct (adjust_range size Hs) as (R1 & R2). pose proof (adjust_mod8 size) as R8.
  assert (Hfit : (root <- get_root ;; mm_fitter root (to_int (adjust size))) st
                 = Ok (fit t (adjust size), st)).
  { step ltac:(reflexivity). rewrite (hg_root _ _ _ _ Hg), adjust_to_int by exact Hs.
    apply mm_fitter_ok.
    - apply (hg_bounds _ _ _ _ Hg).
    - apply (hg_trep _ _ _ _ Hg).
    - apply (hg_tree_nodes _ _ _ _ Hg).
    - apply (hg_fuel _ _ _ _ Hg). }
  assert (Hrun : forall r,
             (if negb (fit t (adjust size) =? NULL)
              then (root <- get_root ;; root' <- mm_remove root (fit t (adjust size)) ;;
                    put_root root' ;;; place (fit t (adjust size)) (adjust size)) st
              else (bp <- extend_heap (MAX (adjust size) CHUNKSIZE / WSIZE) ;;
                    if bp =? NULL then ret NULL else place bp (adjust size)) st) = r ->
             mm_malloc size st = r).
  { intros r Hr. unfold mm_malloc.
    assert ((size <=? 0) = false) as -> by (apply Z.leb_gt; lia).
    cbv zeta. unfold bind at 1. unfold get_root at 1.
    unfold bind in Hfit. unfold get_root in Hfit. unfold bind at 1. rewrite Hfit.
    destruct (negb (fit t (adjust size) =? NULL)); exact Hr. }
  assert (Hnz : forall p st' l' t' sz,
             heap_inv st' l' t' -> In (p, sz, true) l' -> p <> NULL).
  { intros p st' l' t' sz (Hg' & _) Hin.
    destruct (hg_block _ _ _ _ Hg' _ Hin) as (B1 & _).
    pose proof (hg_first _ _ _ _ Hg'). destruct (hg_sink _ _ _ _ Hg') as (K1 & _).
    unfold bp_of in B1; simpl in B1. unfold NULL. lia. }
  destruct (fit t (adjust size) =? NULL) eqn:Hn.
  - apply Z.eqb_eq in Hn. simpl negb in Hrun. cbv iota in Hrun.
    destruct (Z.lt_ge_cases (mem_max_addr st) (mem_brk st + MAX (adjust size) CHUNKSIZE))
      as [Hmax|Hmax].
    + left. splits; auto. apply Hrun.
      eapply malloc_extend_fail; eauto.
    + right.
      destruct (malloc_extend_full st l t (adjust size) H R1 R8 Hmax)
        as (p & st' & l' & t' & sz & E & H' & Hin & Hsz & P & G & Hb & F & U1 & U2).
      exists p, st', l', t', sz.
      split; [apply Hrun; exact E|]. split; [eapply Hnz; eauto|].
      splits; auto; try lia; try congruence.
      intros x a Hx Hxa Hpa Hex. apply (F x a); auto.
  - apply Z.eqb_neq in Hn. simpl negb in Hrun. cbv iota in Hrun. right.
    destruct (malloc_fit_full st l t (adjust size) H) as
      (p & st' & l' & t' & sz & E & H' & Hin & Hsz & P & G & F & U1); auto; try lia.
    exists p, st', l', t', sz.
    split; [apply Hrun; exact E|]. split; [eapply Hnz; eauto|].
    destruct G as (G1 & G2 & G3 & G4 & G5).
    splits; auto; try lia; try congruence.
    + unfold grown. splits; auto. lia.
    + intros x a Hx Hxa Hpa Hex. apply (F x a); auto.
Qed.

Lemma mm_malloc_ok st l t size :
  heap_inv st l t -> 0 < size <= MAX_REQUEST ->
  (fit t (adjust size) = NULL /\
   mem_max_addr st < mem_brk st + MAX (adjust size) CHUNKSIZE /\
   mm_malloc size st = Ok (NULL, st)) \/
  (exists p st' l' t' sz,
      mm_malloc size st = Ok (p, st') /\ p <> NULL /\
      heap_inv st' l' t' /\ In (p, sz, true) l' /\ size + 8 <= sz /\
      Permutation (alloc_blks l') ((p, sz, true) :: alloc_blks l) /\
      grown st st' /\
      payload_frame l' (mem st) (mem st')
                    (fun a => mem_brk st < mem_brk st' /\ a = mem_brk st - 4)).
Proof.
  intros H Hs.
  destruct (mm_malloc_full st l t size H Hs) as
    [Hf|(p & st' & l' & t' & sz & E & Hnz & H' & Hin & Hsz & P & G & F & _)];
    [left; exact Hf|right].
  exists p, st', l', t', sz. auto 10.
Qed.

(** ** [mm_init] *)

Lemma init_sentinels st :
  fresh st -> mem_brk st + 16 <= mem_max_addr st ->
  mm_init st = init_tail (sentinels st) /\ heap_inv (sentinels st) [] E.
Proof.
  intros ((K1 & K2 & K3 & K4 & K5 & K6 & K7) & Hb) Hmax.
  assert (Hb8 : mem_brk st mod 8 = 0) by (rewrite Hb; exact K2).
  remember (mem_brk st) as b eqn:Eb.
  split.
  - unfold mm_init. step ltac:(reflexivity).
    unfold mem_sbrk at 1. unfold bind at 1. unstate. rewrite <- Eb.
    assert ((b + 4 * WSIZE <=? mem_max_addr st) = true) as ->.
    { apply Z.leb_le. unfold WSIZE. lia. }
    step ltac:(reflexivity).
    assert ((b =? NULL) = false) as -> by (apply Z.eqb_neq; unfold NULL; lia).
    step ltac:(reflexivity). unstate.
    unfold WSIZE, DSIZE, OVERHEAD.
    rewrite !wadd_small by (unfold WORD_MOD in *; lia).
    step ltac:(apply PUT_ok; side).
    step ltac:(apply PUT_ok; side).
    step ltac:(apply PUT_ok; side).
    step ltac:(apply PUT_ok; side).
    step ltac:(reflexivity).
    unstate. unfold sentinels. rewrite <- Eb.
    replace (b + 4 + 8) with (b + 12) by lia. reflexivity.
  - split; [|exact I]. unfold sentinels. rewrite <- Eb. constructor; unstate.
    + unfold sink_ok. unstate. splits; auto; lia.
    + lia.
    + zmod.
    + simpl. unfold bp_of, sz_of, prologue. unstate. simpl. splits; auto; lia.
    + constructor; [|constructor]. unfold blk_ok, prologue, bp_of, sz_of, alloc_of.
      unstate. simpl fst. simpl snd. split; rupd; reflexivity.
    + rupd. reflexivity.
    + constructor.
    + reflexivity.
    + exact I.
    + exact I.
    + exact I.
    + constructor.
    + constructor.
Qed.

Lemma mm_init_fail st :
  fresh st -> mem_brk st + 16 <= mem_max_addr st ->
  mem_max_addr st < mem_brk st + 16 + CHUNKSIZE ->
  mm_init st = Ok (-1, sentinels st).
Proof.
  intros F H1 H2. destruct (init_sentinels st F H1) as (-> & (Hg & _)).
  destruct (hg_sink _ _ _ _ Hg) as (K1 & K2 & K3 & K4 & K5 & K6 & K7).
  unfold init_tail.
  step ltac:(apply extend_heap_fail;
             [exact K7|reflexivity
             |change (wmul (CHUNKSIZE / WSIZE) WSIZE) with CHUNKSIZE;
              unfold sentinels; unstate; lia]).
  reflexivity.
Qed.

Lemma mm_init_full st :
  fresh st -> mem_brk st + 16 + CHUNKSIZE <= mem_max_addr st ->
  exists st',
    mm_init st = Ok (0, st') /\
    heap_inv st' [(mem_brk st + 16, CHUNKSIZE, false)]
             (T E (mem_brk st + 16) CHUNKSIZE E) /\
    mem_start_brk st' = mem_start_brk st /\
    mem_brk st' = mem_brk st + 16 + CHUNKSIZE /\
    mem_max_addr st' = mem_max_addr st /\
    sbrk_fail st' = sbrk_fail st /\
    heap_listp st' = mem_brk st + 8.
Proof.
  intros F H1. change CHUNKSIZE with 4096 in *.
  destruct (init_sentinels st F) as (-> & H0); [lia|].
  destruct (extend_heap_ok _ _ _ (CHUNKSIZE / WSIZE) H0)
    as (bp' & st1 & l1' & sz' & t1 & X1 & G1 & A1 & LA & Tb & Sh1 & Fc);
    try (change (CHUNKSIZE / WSIZE) with 1024; unfold INT_MAX1; lia).
  { reflexivity. }
  { change (CHUNKSIZE / WSIZE) with 1024. unfold sentinels. unstate. lia. }
  change (4 * (CHUNKSIZE / WSIZE)) with 4096 in *.
  unfold coalesce_table in Tb. simpl in Tb.
  destruct Tb as (-> & -> & -> & _ & ->).
  change (mem_brk (extended (sentinels st) 4096)) with (mem_brk st + 16 + 4096) in *.
  change (mem_brk (sentinels st)) with (mem_brk st + 16) in *.
  destruct (heap_insert _ _ _ _ (mem_brk st + 16) 4096 G1) as (m2 & E2 & G2 & _).
  { simpl. auto. }
  { simpl. auto. }
  destruct Sh1 as (S1 & S2 & S3 & S4 & S5).
  unfold extended, sentinels in S1, S2, S3, S4, S5. unstate_in S1. unstate_in S2.
  unstate_in S3. unstate_in S4. unstate_in S5.
  eexists. split; [|split].
  - unfold init_tail. step ltac:(exact X1).
    assert ((mem_brk st + 16 =? NULL) = false) as ->.
    { apply Z.eqb_neq. destruct F as ((K1 & K2 & K3 & _) & _). unfold NULL. lia. }
    step ltac:(reflexivity). step ltac:(exact E2). step ltac:(reflexivity).
    reflexivity.
  - split; [exact G2|]. simpl. auto.
  - unstate. auto.
Qed.

Lemma mm_init_ok st :
  fresh st -> mem_brk st + 16 + CHUNKSIZE <= mem_max_addr st ->
  exists st',
    mm_init st = Ok (0, st') /\
    heap_inv st' [(mem_brk st + 16, CHUNKSIZE, false)]
             (T E (mem_brk st + 16) CHUNKSIZE E).
Proof.
  intros F H1. destruct (mm_init_full st F H1) as (st' & E & H & _).
  exists st'. auto.
Qed.

(** ** Writes into allocated payloads *)

(** The invariant does not depend on the contents of allocated payloads. *)
Lemma heap_gen_payload st l fl t m' :
  heap_gen st l fl t ->
  (forall q, In q fl -> exists k, In (q, k, false) l) ->
  (forall a, (forall x, In x l -> alloc_of x = true -> ~ in_payload x a) ->
             m' a = mem st a) ->
  heap_gen (set_mem st m') l fl t.
Proof.
  intros H Hfl F.
  pose proof (hg_user_chain _ _ _ _ H) as C. pose proof (hg_first _ _ _ _ H) as Hf.
  assert (Tag : forall y a, In y l ->
              a = bp_of y - 4 \/ a = bp_of y + sz_of y - 8 \/
              (alloc_of y = false /\ (a = bp_of y \/ a = bp_of y + 4)) ->
              m' a = mem st a).
  { intros y a Hy Ha. apply F. intros x Hx Hxa Hp.
    destruct (hg_block _ _ _ _ H _ Hy) as (_ & _ & Y16 & _).
    destruct (payload_tags _ _ _ _ _ C Hx Hp y Hy) as (P1 & P2 & _ & P3).
    destruct Ha as [->|[->|(Hya & Ha)]]; try congruence.
    specialize (P3 Hxa Hya Y16). destruct Ha; lia. }
  constructor; try solve [apply H].
  - unstate. rewrite Forall_forall. intros y [<-|Hy].
    + pose proof (hg_tags _ _ _ _ H) as Ht. apply Forall_inv in Ht.
      unfold blk_ok in *. unfold prologue, bp_of, sz_of, alloc_of in *. simpl in *.
      rewrite !F; auto.
      * intros x Hx _ Hp. destruct (hg_block _ _ _ _ H _ Hx) as (X1 & _).
        unfold in_payload in Hp. lia.
      * intros x Hx _ Hp. destruct (hg_block _ _ _ _ H _ Hx) as (X1 & _).
        unfold in_payload in Hp. lia.
    + destruct (hg_block _ _ _ _ H _ Hy) as (_ & _ & _ & _ & _ & (T1 & T2)).
      unfold blk_ok. rewrite !(Tag y); auto.
  - unstate. rewrite F; [apply (hg_epi _ _ _ _ H)|].
    intros x Hx _ Hp. destruct (hg_block _ _ _ _ H _ Hx) as (_ & X2 & _).
    unfold in_payload in Hp. lia.
  - unstate. eapply trep_agree; [apply (hg_trep _ _ _ _ H)|].
    intros q Hq. destruct (hg_elem _ _ _ _ H q Hq) as (k & Hk).
    unfold agree3. splits; apply (Tag _ _ Hk); unfold bp_of, sz_of, alloc_of; simpl; auto.
Qed.

Lemma heap_inv_payload st l t m' :
  heap_inv st l t ->
  (forall a, (forall x, In x l -> alloc_of x = true -> ~ in_payload x a) ->
             m' a = mem st a) ->
  heap_inv (set_mem st m') l t.
Proof.
  intros (H & A) F. split; auto. apply heap_gen_payload; auto.
  intros q Hq. apply free_bps_in in Hq. exact Hq.
Qed.

(** ** Bytes of a word *)

Lemma testbit_255 n : 0 <= n -> Z.testbit 255 n = (n <? 8).
Proof.
  intros Hn. change 255 with (Z.ones 8). destruct (Z.ltb_spec n 8).
  - apply Z.ones_spec_low. lia.
  - apply Z.ones_spec_high. lia.
Qed.

Lemma byte_of_range w i : 0 <= byte_of w i < 256.
Proof.
  unfold byte_of. change 255 with (Z.ones 8). rewrite Z.land_ones by lia.
  apply Z.mod_pos_bound. reflexivity.
Qed.

Lemma testbit_byte b n : 0 <= b < 256 -> 8 <= n -> Z.testbit b n = false.
Proof.
  intros Hb Hn. rewrite <- (Z.mod_small b (2 ^ 8)) by (change (2 ^ 8) with 256; lia).
  apply Z.mod_pow2_bits_high. lia.
Qed.

Lemma byte_of_set_same w i b :
  0 <= i -> 0 <= b < 256 -> byte_of (set_byte_of w i b) i = b.
Proof.
  intros Hi Hb. unfold byte_of, set_byte_of. apply Z.bits_inj'. intros n Hn.
  rewrite Z.land_spec, Z.shiftr_spec, Z.lor_spec, Z.ldiff_spec, !Z.shiftl_spec by lia.
  replace (n + 8 * i - 8 * i) with n by lia.
  rewrite testbit_255 by lia. destruct (Z.ltb_spec n 8).
  - simpl. rewrite andb_false_r, andb_true_r. reflexivity.
  - rewrite andb_false_r. symmetry. apply testbit_byte; auto.
Qed.

Lemma byte_of_set_other w i j b :
  0 <= i -> 0 <= j -> i <> j -> 0 <= b < 256 ->
  byte_of (set_byte_of w i b) j = byte_of w j.
Proof.
  intros Hi Hj Hne Hb. unfold byte_of, set_byte_of. apply Z.bits_inj'. intros n Hn.
  rewrite !Z.land_spec, !Z.shiftr_spec, Z.lor_spec, Z.ldiff_spec by lia.
  rewrite testbit_255 by lia. destruct (Z.ltb_spec n 8); [|now rewrite !andb_false_r].
  rewrite !andb_true_r.
  destruct (Z.lt_ge_cases (n + 8 * j) (8 * i)).
  - rewrite (Z.shiftl_spec_low 255), (Z.shiftl_spec_low b) by lia.
    simpl. rewrite andb_true_r, orb_false_r. reflexivity.
  - rewrite !Z.shiftl_spec by lia.
    rewrite testbit_255 by lia.
    assert ((n + 8 * j - 8 * i <? 8) = false) as -> by (apply Z.ltb_ge; lia).
    rewrite (testbit_byte b) by (auto; lia).
    simpl. rewrite andb_true_r, orb_false_r. reflexivity.
Qed.

(** ** [memcpy] between two disjoint stretches of words *)

Lemma load_byte_ok st a :
  mem_start_brk st mod 4 = 0 -> mem_brk st mod 4 = 0 ->
  mem_start_brk st <= a < mem_brk st ->
  load_byte a st = Ok (byte_at (mem st) a, st).
Proof.
  intros H1 H2 Ha. unfold load_byte.
  step ltac:(apply GET_ok; unfold in_heap; splits; zmod).
  reflexivity.
Qed.

Lemma store_byte_ok st a b :
  mem_start_brk st mod 4 = 0 -> mem_brk st mod 4 = 0 ->
  mem_start_brk st <= a < mem_brk st ->
  store_byte a b st
  = Ok (tt, set_mem st (upd (mem st) (a - a mod 4)
                            (set_byte_of (mem st (a - a mod 4)) (a mod 4) b))).
Proof.
  intros H1 H2 Ha. unfold store_byte.
  step ltac:(apply GET_ok; unfold in_heap; splits; zmod).
  apply PUT_ok. unfold in_heap; splits; zmod.
Qed.

Lemma byte_at_store m a b c :
  0 <= b < 256 ->
  byte_at (upd m (a - a mod 4) (set_byte_of (m (a - a mod 4)) (a mod 4) b)) c
  = if c =? a then b else byte_at m c.
Proof.
  intros Hb. unfold byte_at.
  destruct (Z.eqb_spec c a) as [->|Hne].
  - rewrite upd_same. apply byte_of_set_same; auto. zmod.
  - destruct (Z.eq_dec (c - c mod 4) (a - a mod 4)) as [Ew|Ew].
    + rewrite Ew, upd_same. apply byte_of_set_other; auto; zmod.
    + rewrite upd_other by exact Ew. reflexivity.
Qed.

Lemma memcpy_bytes_ok n : forall st dst src dlo dhi,
  mem_start_brk st mod 4 = 0 -> mem_brk st mod 4 = 0 -> mem_brk st < WORD_MOD ->
  0 <= mem_start_brk st ->
  dlo mod 4 = 0 -> dhi mod 4 = 0 ->
  mem_start_brk st <= dlo -> dhi <= mem_brk st ->
  dlo <= dst -> dst + Z.of_nat n <= dhi ->
  mem_start_brk st <= src -> src + Z.of_nat n <= mem_brk st ->
  src + Z.of_nat n <= dlo \/ dhi <= src ->
  exists m',
    memcpy_bytes n dst src st = Ok (tt, set_mem st m') /\
    (forall a, a < dlo \/ dhi <= a -> m' a = mem st a) /\
    (forall c, c < dst \/ dst + Z.of_nat n <= c -> byte_at m' c = byte_at (mem st) c) /\
    (forall i, 0 <= i < Z.of_nat n -> byte_at m' (dst + i) = byte_at (mem st) (src + i)).
Proof.
  induction n as [|n IH]; intros st dst src dlo dhi A1 A2 A3 A4 D1 D2 D3 D4 D5 D6 S1 S2 Dj.
  - exists (mem st). simpl. splits; auto. intros; lia.
  - rewrite Nat2Z.inj_succ in *.
    pose proof (byte_of_range (mem st (src - src mod 4)) (src mod 4)) as Hb.
    fold (byte_at (mem st) src) in Hb.
    set (b := byte_at (mem st) src) in *.
    set (m1 := upd (mem st) (dst - dst mod 4)
                   (set_byte_of (mem st (dst - dst mod 4)) (dst mod 4) b)).
    destruct (IH (set_mem st m1) (dst + 1) (src + 1) dlo dhi) as (m' & E & F1 & F2 & F3);
      unstate; auto; try lia.
    assert (Hsrc : forall c, src <= c < src + Z.succ (Z.of_nat n) ->
                             byte_at m1 c = byte_at (mem st) c).
    { intros c Hc. unfold byte_at, m1. rewrite upd_other; [reflexivity|]. zmod. }
    exists m'. splits.
    + cbn [memcpy_bytes].
      step ltac:(apply load_byte_ok; auto; lia).
      step ltac:(apply store_byte_ok; auto; lia).
      rewrite !wadd_small by lia. exact E.
    + intros a Ha. rewrite F1 by exact Ha. unfold m1. unstate.
      rewrite upd_other; [reflexivity|]. zmod.
    + intros c Hc. rewrite F2 by lia. unstate. unfold m1.
      rewrite byte_at_store by exact Hb.
      destruct (Z.eqb_spec c dst); [lia|reflexivity].
    + intros i Hi. destruct (Z.eq_dec i 0) as [->|Hi0].
      * rewrite Z.add_0_r. rewrite F2 by lia. unstate. unfold m1.
        rewrite byte_at_store by exact Hb. rewrite Z.eqb_refl. rewrite Z.add_0_r.
        reflexivity.
      * replace (dst + i) with (dst + 1 + (i - 1)) by lia.
        rewrite F3 by lia. unstate. replace (src + 1 + (i - 1)) with (src + i) by lia.
        apply Hsrc. lia.
Qed.

Lemma memcpy_ok st dst src n dlo dhi :
  mem_start_brk st mod 4 = 0 -> mem_brk st mod 4 = 0 -> mem_brk st < WORD_MOD ->
  0 <= mem_start_brk st -> 0 <= n ->
  dlo mod 4 = 0 -> dhi mod 4 = 0 ->
  mem_start_brk st <= dlo -> dhi <= mem_brk st ->
  dlo <= dst -> dst + n <= dhi ->
  mem_start_brk st <= src -> src + n <= mem_brk st ->
  src + n <= dlo \/ dhi <= src ->
  exists m',
    memcpy dst src n st = Ok (tt, set_mem st m') /\
    (forall a, a < dlo \/ dhi <= a -> m' a = mem st a) /\
    (forall c, c < dst \/ dst + n <= c -> byte_at m' c = byte_at (mem st) c) /\
    (forall i, 0 <= i < n -> byte_at m' (dst + i) = byte_at (mem st) (src + i)).
Proof.
  intros. unfold memcpy.
  destruct (memcpy_bytes_ok (Z.to_nat n) st dst src dlo dhi) as (m' & E & F1 & F2 & F3);
    rewrite ?Z2Nat.id by lia; auto.
  exists m'. rewrite Z2Nat.id in * by lia. auto.
Qed.

(** ** [mm_realloc] *)

Lemma NoDup_map_filter {A B} (f : A -> B) (p : A -> bool) l :
  NoDup (map f l) -> NoDup (map f (filter p l)).
Proof.
  induction l as [|x l IH]; simpl; intros N; [constructor|].
  apply NoDup_cons_iff in N as (N1 & N2). destruct (p x); simpl; auto.
  constructor; auto. intros Hin. apply N1.
  apply in_map_iff in Hin as (y & <- & Hy). apply filter_In in Hy as (Hy & _).
  apply in_map. exact Hy.
Qed.

Lemma alloc_blks_NoDup b l e : chain b l e -> NoDup (map bp_of (alloc_blks l)).
Proof. intros C. apply NoDup_map_filter. eapply chain_NoDup; eauto. Qed.

(** A block that [mm_malloc] has just handed out is none of the blocks
    that were allocated before. *)
Lemma alloc_new_distinct b l' e l p sz x :
  chain b l' e -> Permutation (alloc_blks l') ((p, sz, true) :: alloc_blks l) ->
  In x (alloc_blks l) -> bp_of x <> p.
Proof.
  intros C P Hx Heq. pose proof (alloc_blks_NoDup _ _ _ C) as N.
  apply (Permutation_map bp_of) in P. apply (Permutation_NoDup P) in N.
  simpl in N. apply NoDup_cons_iff in N as (N & _). apply N.
  unfold bp_of at 1. simpl. rewrite <- Heq. apply in_map. exact Hx.
Qed.

Lemma word_in_payload x c :
  bp_of x mod 4 = 0 -> sz_of x mod 4 = 0 ->
  bp_of x <= c < bp_of x + sz_of x - 8 -> in_payload x (c - c mod 4).
Proof. intros H1 H2 Hc. unfold in_payload. zmod. Qed.

Lemma mm_realloc_ok st l t ptr psz size :
  heap_inv st l t -> In (ptr, psz, true) l -> 0 < size <= MAX_REQUEST ->
  (mm_malloc size st = Ok (NULL, st) /\ mm_realloc ptr size st = Exit 1 st) \/
  (exists newp st1 st' l' t' sz,
      mm_malloc size st = Ok (newp, st1) /\ newp <> NULL /\
      mm_realloc ptr size st = Ok (newp, st') /\
      heap_inv st' l' t' /\ In (newp, sz, true) l' /\ size + 8 <= sz /\
      Permutation ((ptr, psz, true) :: alloc_blks l') ((newp, sz, true) :: alloc_blks l) /\
      grown st st' /\
      (forall i, 0 <= i < Z.min size psz ->
                 byte_at (mem st') (newp + i) = byte_at (mem st1) (ptr + i)) /\
      (forall i, Z.min size psz <= i < sz - 8 ->
                 byte_at (mem st') (newp + i) = byte_at (mem st1) (newp + i)) /\
      (forall i, 0 <= i < Z.min size (psz - 8) ->
                 byte_at (mem st') (newp + i) = byte_at (mem st) (ptr + i)) /\
      (forall x a, In x l' -> alloc_of x = true -> bp_of x <> newp ->
                   in_payload x a -> mem st' a = mem st a) /\
      (forall x, In x (alloc_blks l) -> bp_of x <> newp)).
Proof.
  intros H Hptr Hs.
  destruct (mm_malloc_ok st l t size H Hs) as
    [(_ & _ & E)|(newp & st1 & l1 & t1 & sz & E1 & Hnz & H1 & Hin1 & Hsz & P1 & G1 & F1)].
  { left. split; auto. unfold mm_realloc, bind. rewrite E. reflexivity. }
  right. pose proof H as (Hg & _). pose proof H1 as (Hg1 & _).
  pose proof (hg_user_chain _ _ _ _ Hg1) as C1.
  pose proof (hg_user_chain _ _ _ _ Hg) as C0.
  assert (Hptr1 : In (ptr, psz, true) l1).
  { apply (alloc_blks_in l1). eapply Permutation_in; [symmetry; exact P1|].
    right. apply alloc_blks_in. auto. }
  assert (Hne : ptr <> newp).
  { apply (alloc_new_distinct _ _ _ _ _ _ (ptr, psz, true) C1 P1).
    apply alloc_blks_in. auto. }
  destruct (hg_block _ _ _ _ Hg1 _ Hptr1) as (B1 & B2 & B3 & B4 & B5 & (B6 & B7)).
  destruct (hg_block _ _ _ _ Hg1 _ Hin1) as (N1 & N2 & N3 & N4 & N5 & _).
  destruct (hg_block _ _ _ _ Hg _ Hptr) as (_ & O2 & _).
  unfold bp_of, sz_of, alloc_of in B1, B2, B3, B4, B5, B6, B7, N1, N2, N3, N4, N5, O2.
  simpl in B1, B2, B3, B4, B5, B6, B7, N1, N2, N3, N4, N5, O2.
  pose proof (hg_range _ _ _ _ Hg1) as (R1 & R2 & R3).
  pose proof (hg_first _ _ _ _ Hg1) as R4.
  pose proof (hg_brk_mod8 _ _ _ _ Hg1) as R5.
  destruct (hg_sink _ _ _ _ Hg1) as (K1 & K2 & _).
  pose proof (hg_bounds _ _ _ _ Hg1) as Hb.
  set (n := Z.min size psz).
  (* the copy *)
  destruct (memcpy_ok st1 newp ptr n newp (newp + sz - 8)) as (m2 & E2 & M1 & M2 & M3);
    try (unfold n; lia); try zmod.
  { destruct (chain_disjoint _ _ _ _ _ C1 Hptr1 Hin1) as [E0|[D|D]];
      [inversion E0; congruence| |];
      unfold bp_of, sz_of in D; simpl in D; unfold n; lia. }
  assert (H2 : heap_inv (set_mem st1 m2) l1 t1).
  { apply heap_inv_payload; auto. intros a Ha. apply M1.
    specialize (Ha _ Hin1 eq_refl). unfold in_payload, bp_of, sz_of in Ha. simpl in Ha. lia. }
  (* the old block is freed *)
  destruct (mm_free_ok _ _ _ ptr psz H2 Hptr1) as (st' & l' & t' & E3 & H' & P3 & Sh & F3).
  pose proof H' as (Hg' & _).
  assert (Hin' : In (newp, sz, true) l').
  { apply (alloc_blks_in l'). pose proof (Permutation_in (newp, sz, true) P3) as Hi.
    destruct Hi as [Hi|Hi]; auto; [apply alloc_blks_in; auto|congruence]. }
  assert (Hold : forall x, In x l' -> alloc_of x = true -> bp_of x <> newp ->
                           In x l1 /\ In x l /\ x <> (newp, sz, true)).
  { intros x Hx Hxa Hxn.
    assert (Hx1 : In x (alloc_blks l1)).
    { eapply Permutation_in; [symmetry; exact P3|]. right. apply alloc_blks_in. auto. }
    pose proof (Permutation_in x P1 Hx1) as [Hi|Hi].
    - subst x. unfold bp_of in Hxn. simpl in Hxn. congruence.
    - apply alloc_blks_in in Hx1 as (Hx1 & _). apply alloc_blks_in in Hi as (Hi & _).
      splits; auto. intros ->. unfold bp_of in Hxn. simpl in Hxn. congruence. }
  assert (Hnew : forall i, 0 <= i < sz - 8 ->
                           byte_at (mem st') (newp + i) = byte_at m2 (newp + i)).
  { intros i Hi. unfold byte_at. f_equal.
    apply (F3 (newp, sz, true)); auto.
    apply word_in_payload; unfold bp_of, sz_of; simpl; zmod. }
  destruct Sh as (S1 & S2 & S3 & S4 & S5). unstate_in S1. unstate_in S2. unstate_in S3.
  unstate_in S4. unstate_in S5.
  destruct G1 as (G11 & G12 & G13 & G14 & G15).
  exists newp, st1, st', l', t', sz. splits; auto.
  - unfold mm_realloc. step ltac:(exact E1).
    assert ((newp =? NULL) = false) as -> by (now apply Z.eqb_neq).
    rewrite HDRP_eq by lia.
    step ltac:(apply (GET_SIZE_tag st1 (ptr - 4) psz true); side).
    assert ((if size <? psz then size else psz) = n) as ->.
    { unfold n. destruct (Z.ltb_spec size psz); lia. }
    step ltac:(exact E2). step ltac:(exact E3). reflexivity.
  - symmetry. etransitivity; [symmetry; exact P1|]. exact P3.
  - unfold grown. rewrite S1, S2, S3, S4, S5. splits; auto.
  - intros i Hi. rewrite Hnew by (unfold n in Hi; lia). apply M3. exact Hi.
  - intros i Hi. rewrite Hnew by lia. apply M2. fold n in Hi. lia.
  - intros i Hi. rewrite Hnew by lia. rewrite M3 by (unfold n; lia).
    unfold byte_at. f_equal.
    apply (F1 (ptr, psz, true)); auto.
    + apply word_in_payload; unfold bp_of, sz_of; simpl; zmod.
    + intros (_ & Hex). zmod.
  - intros x a Hx Hxa Hxn Hpa. destruct (Hold x Hx Hxa Hxn) as (Hx1 & Hx0 & Hxne).
    rewrite (F3 x a) by auto. unstate.
    rewrite M1.
    + apply (F1 x a); auto. intros (_ & Hex).
      destruct (hg_block _ _ _ _ Hg _ Hx0) as (_ & X2 & _).
      unfold in_payload in Hpa. lia.
    + destruct (payload_apart _ _ _ x (newp, sz, true) a C1 Hx1 Hin1 Hxne Hpa) as [D|D];
        unfold bp_of, sz_of in D; simpl in D; lia.
  - intros x Hx. exact (alloc_new_distinct _ _ _ _ _ _ x C1 P1 Hx).
Qed.

(** ** Reachable states *)

Lemma mm_init_fault st :
  fresh st -> mem_max_addr st < mem_brk st + 16 -> mm_init st = Fault.
Proof.
  intros ((K1 & K2 & K3 & K4 & K5 & K6 & K7) & Hb) Hmax.
  unfold mm_init. step ltac:(reflexivity).
  unfold mem_sbrk at 1. unfold bind at 1. unstate.
  assert ((mem_brk st + 4 * WSIZE <=? mem_max_addr st) = false) as ->.
  { apply Z.leb_gt. unfold WSIZE. lia. }
  unstate. rewrite K7.
  step ltac:(reflexivity). change (WORD_MOD - 1 =? NULL) with false. cbv iota.
  step ltac:(reflexivity). unstate.
  unfold bind at 1. unfold PUT at 1. unfold valid. unstate.
  change ((WORD_MOD - 1) mod 4 =? 0) with false. reflexivity.
Qed.

Lemma remove_ptr_in p q n live :
  In (q, n) (remove_ptr p live) <-> In (q, n) live /\ q <> p.
Proof.
  unfold remove_ptr. rewrite filter_In. simpl.
  rewrite negb_true_iff, Z.eqb_neq. tauto.
Qed.

Lemma live_ok_remove live l l' p :
  live_ok live l ->
  (forall x, In x (alloc_blks l) -> bp_of x <> p -> In x (alloc_blks l')) ->
  live_ok (remove_ptr p live) l'.
Proof.
  intros (N & L) Hl. split.
  - unfold remove_ptr. apply NoDup_map_filter. exact N.
  - intros q n Hq. apply remove_ptr_in in Hq as (Hq & Hne).
    destruct (L q n Hq) as (sq & Hs & Hn). exists sq. split; auto.
    apply (alloc_blks_in l'). apply Hl; [apply alloc_blks_in; auto|].
    unfold bp_of. simpl. exact Hne.
Qed.

Lemma live_ok_add live l l' p sz n :
  live_ok live l ->
  (forall q m sq, In (q, m) live -> In (q, sq, true) l ->
                  In (q, sq, true) l' /\ q <> p) ->
  In (p, sz, true) l' -> 0 < n -> n + 8 <= sz ->
  live_ok ((p, n) :: live) l'.
Proof.
  intros (N & L) Hl Hp Hn Hs. split.
  - simpl. constructor; auto. intros Hin. apply in_map_iff in Hin as ((q & m) & Hq & Hin).
    simpl in Hq. subst q. destruct (L p m Hin) as (sq & Hsq & _).
    destruct (Hl p m sq Hin Hsq) as (_ & Hne). congruence.
  - intros q m [Hq|Hq].
    + inversion Hq; subst. exists sz. auto.
    + destruct (L q m Hq) as (sq & Hsq & Hm). exists sq. split; auto.
      apply (Hl q m sq Hq Hsq).
Qed.

Lemma reachable_with_mono (ok ok' : Z -> Prop) live st :
  (forall size, ok size -> ok' size) ->
  reachable_with ok live st -> reachable_with ok' live st.
Proof.
  intros Hok R. induction R.
  - eapply reach_init; eauto.
  - eapply reach_malloc; eauto.
  - eapply reach_free; eauto.
  - eapply reach_realloc; eauto.
  - eapply reach_store; eauto.
Qed.

Lemma supported_any size : supported size -> any_size size.
Proof. unfold supported, any_size, MAX_REQUEST, INT_MAX1, WORD_MOD. lia. Qed.

Lemma reachable_inv live st :
  reachable live st -> exists l t, heap_inv st l t /\ live_ok live l.
Proof.
  intros R. unfold reachable, supported in R.
  induction R as [s0 st F E
                 |live st size p st' R IH Hs E
                 |live st p n st' R IH Hin E
                 |live st p n size q st' R IH Hin Hs E
                 |live st p n a v R IH Hin Ha Ha4].
  - destruct (Z.le_gt_cases (mem_brk s0 + 16 + CHUNKSIZE) (mem_max_addr s0)) as [Hm|Hm].
    + destruct (mm_init_ok s0 F Hm) as (st1 & E1 & H1). rewrite E1 in E.
      inversion E; subst st1. do 2 eexists. split; [exact H1|].
      split; [constructor|intros ? ? []].
    + destruct (Z.le_gt_cases (mem_brk s0 + 16) (mem_max_addr s0)) as [Hm'|Hm'].
      * rewrite mm_init_fail in E by (auto; lia). discriminate.
      * rewrite mm_init_fault in E by (auto; lia). discriminate.
  - destruct IH as (l & t & H & L).
    destruct (mm_malloc_ok st l t size H Hs) as
      [(_ & _ & E1)|(p1 & st1 & l1 & t1 & sz & E1 & Hnz & H1 & Hin1 & Hsz & P1 & G1 & F1)];
      rewrite E1 in E; inversion E; subst.
    + simpl. exists l, t. auto.
    + assert ((p =? NULL) = false) as -> by (now apply Z.eqb_neq).
      exists l1, t1. split; auto.
      apply (live_ok_add live l l1 p sz size L); auto; try lia.
      intros q m sq Hq Hsq.
      assert (Hx : In (q, sq, true) (alloc_blks l)) by (apply alloc_blks_in; auto).
      split.
      * apply (alloc_blks_in l1). eapply Permutation_in; [symmetry; exact P1|].
        right. exact Hx.
      * destruct H1 as (Hg1 & _).
        apply (alloc_new_distinct _ _ _ _ _ _ (q, sq, true)
                 (hg_user_chain _ _ _ _ Hg1) P1 Hx).
  - destruct IH as (l & t & H & L). pose proof L as (_ & L2).
    destruct (L2 p n Hin) as (sz & Hsz & _).
    destruct (mm_free_ok st l t p sz H Hsz) as (st1 & l1 & t1 & E1 & H1 & P1 & _).
    rewrite E1 in E. inversion E; subst st1.
    exists l1, t1. split; auto.
    apply (live_ok_remove live l l1 p L).
    intros x Hx Hne. pose proof (Permutation_in x P1 Hx) as [Hi|Hi]; auto.
    subst x. unfold bp_of in Hne. simpl in Hne. congruence.
  - destruct IH as (l & t & H & L). pose proof L as (_ & L2).
    destruct (L2 p n Hin) as (psz & Hpsz & _).
    destruct (mm_realloc_ok st l t p psz size H Hpsz Hs) as
      [(_ & E1)|(q1 & st1 & st2 & l2 & t2 & sz & _ & Hnz & E1 & H2 & Hin2 & Hsz & P2 & _ & _ & _ & _ & _ & Hnew)];
      rewrite E1 in E; [discriminate|]. inversion E; subst.
    exists l2, t2. split; auto.
    assert (L' : live_ok (remove_ptr p live) l).
    { apply (live_ok_remove live l l p L). auto. }
    apply (live_ok_add _ l l2 q sz size L'); auto; try lia.
    intros r m sr Hr Hsr. apply remove_ptr_in in Hr as (Hr & Hne).
    assert (Hx : In (r, sr, true) (alloc_blks l)) by (apply alloc_blks_in; auto).
    split; [|apply (Hnew _ Hx)].
    assert (Hx' : In (r, sr, true) ((q, sz, true) :: alloc_blks l)) by (right; exact Hx).
    apply (Permutation_in _ (Permutation_sym P2)) in Hx'. destruct Hx' as [Hx'|Hx'].
    + inversion Hx'. congruence.
    + apply alloc_blks_in in Hx'. tauto.
  - destruct IH as (l & t & H & L). exists l, t. split; auto.
    apply heap_inv_payload; auto. intros a' Ha'.
    rewrite upd_other; [reflexivity|]. intros ->.
    destruct L as (_ & L2). destruct (L2 p n Hin) as (sz & Hsz & Hn & Hn8).
    apply (Ha' _ Hsz eq_refl). unfold in_payload, bp_of, sz_of. simpl. lia.
Qed.

(** ** Alignment of what [place] returns *)

Ltac binv H :=
  let v := fresh "v" in let s := fresh "s" in let Hv := fresh "Hv" in
  apply bind_inv in H; destruct H as (v & s & Hv & H).

Tactic Notation "binv_as" hyp(H) ident(v) ident(s) ident(Hv) :=
  apply bind_inv in H; destruct H as (v & s & Hv & H).

Lemma ret_inv {A} (a b : A) st st' : ret a st = Ok (b, st') -> b = a /\ st' = st.
Proof. unfold ret. intros [= <- <-]. auto. Qed.

Lemma NEXT_BLKP_mod8 bp st v st' : NEXT_BLKP bp st = Ok (v, st') -> v mod 8 = bp mod 8.
Proof.
  unfold NEXT_BLKP, GET_SIZE. intros H. binv_as H x s1 Hx. binv_as Hx y s2 Hy.
  apply ret_inv in Hx as (-> & _). apply ret_inv in H as (-> & _).
  unfold wadd. rewrite wrap_mod8.
  rewrite Z.add_mod, land_MASK7_mod8, Z.add_0_r, Z.mod_mod by lia. reflexivity.
Qed.

Lemma place_mod8 bp asize st p st' :
  place bp asize st = Ok (p, st') -> p mod 8 = bp mod 8.
Proof.
  unfold place. intros H. binv_as H csize s0 Hc.
  destruct (wsub csize asize >=? 6 * OVERHEAD).
  - binv_as H nb s1 H1. binv_as H ns s2 H2. binv_as H pb s3 H3. binv_as H ps s4 H4.
    destruct (ns >? ps).
    + do 10 binv H. apply ret_inv in H as (-> & _). reflexivity.
    + do 3 binv H. binv_as H blah s8 Hn. pose proof (NEXT_BLKP_mod8 _ _ _ _ Hn) as Hm.
      do 6 binv H. apply ret_inv in H as (-> & _). exact Hm.
  - do 3 binv H. apply ret_inv in H as (-> & _). reflexivity.
Qed.

(** ** Heap extension for an arbitrary size *)

Lemma extend_any st l t ext bp st1 :
  heap_inv st l t -> 4096 <= ext < WORD_MOD -> ext mod 8 = 0 ->
  extend_heap (ext / WSIZE) st = Ok (bp, st1) ->
  bp = NULL \/ bp mod 8 = 0.
Proof.
  intros H He He8 E. pose proof H as (Hg & A).
  destruct (hg_sink _ _ _ _ Hg) as (K1 & K2 & K3 & K4 & K5 & K6 & K7).
  pose proof (hg_range _ _ _ _ Hg) as (R1 & R2 & R3).
  assert (Hw : 4 * (ext / WSIZE) = ext) by (unfold WSIZE; zmod).
  assert (Hw2 : (ext / WSIZE) mod 2 = 0) by (unfold WSIZE; zmod).
  destruct (Z.le_gt_cases (mem_brk st + ext) (mem_max_addr st)) as [Hm|Hm].
  - destruct (extend_heap_ok st l t (ext / WSIZE) H) as
      (bp' & st' & l1' & sz' & t' & X1 & H1 & _); auto; try lia.
    rewrite X1 in E. inversion E; subst. right.
    pose proof (heap_hole_facts _ _ _ _ _ _ H1) as F1.
    apply (hf_bp _ _ _ _ _ F1).
  - rewrite extend_heap_fail in E; auto.
    + inversion E. auto.
    + rewrite wmul_small by (unfold WSIZE in *; lia). unfold WSIZE in *. lia.
Qed.

Lemma extend_refused st l t ext :
  heap_inv st l t -> 4096 <= ext < WORD_MOD -> ext mod 8 = 0 ->
  mem_max_addr st < mem_brk st + ext ->
  extend_heap (ext / WSIZE) st = Ok (NULL, st).
Proof.
  intros (Hg & _) He He8 Hm.
  destruct (hg_sink _ _ _ _ Hg) as (K1 & K2 & K3 & K4 & K5 & K6 & K7).
  assert (Hw : 4 * (ext / WSIZE) = ext) by (unfold WSIZE; zmod).
  apply extend_heap_fail; auto.
  - unfold WSIZE; zmod.
  - rewrite wmul_small by (unfold WSIZE in *; lia). unfold WSIZE in *. lia.
Qed.

Lemma adjust_any size : 0 <= adjust size < WORD_MOD.
Proof.
  unfold adjust. destruct (size <=? DSIZE); [unfold DSIZE, OVERHEAD, WORD_MOD; lia|].
  unfold wmul. apply wrap_range.
Qed.

Lemma MAX_any size :
  4096 <= MAX (adjust size) CHUNKSIZE < WORD_MOD /\ MAX (adjust size) CHUNKSIZE mod 8 = 0.
Proof.
  pose proof (adjust_any size) as Hr. pose proof (adjust_mod8 size) as Hr8.
  unfold MAX. change CHUNKSIZE with 4096. unfold WORD_MOD in *.
  destruct (Z.gtb_spec (adjust size) 4096); split; auto; lia.
Qed.

Lemma malloc_aligned st l t size p st' :
  heap_inv st l t -> mm_malloc size st = Ok (p, st') -> p <> NULL -> p mod 8 = 0.
Proof.
  intros H E Hp. pose proof H as (Hg & A). unfold mm_malloc in E.
  destruct (size <=? 0); [apply ret_inv in E as (-> & _); congruence|].
  cbv zeta in E. binv_as E root s0 Hr. apply ret_inv in Hr as (-> & ->).
  binv_as E bp s1 Hfit.
  rewrite (hg_root _ _ _ _ Hg) in Hfit.
  rewrite (mm_fitter_ok st (hg_bounds _ _ _ _ Hg) t _ (hg_trep _ _ _ _ Hg)
             (hg_tree_nodes _ _ _ _ Hg) (hg_fuel _ _ _ _ Hg)) in Hfit.
  inversion Hfit; subst bp s1. clear Hfit.
  set (asize := adjust size) in *.
  destruct (Z.eqb_spec (fit t (to_int asize)) NULL) as [Hn|Hn]; simpl negb in E; cbv iota in E.
  - binv_as E nbp s2 Hext.
    destruct (MAX_any size) as (Hr & Hr8). fold asize in Hr, Hr8.
    destruct (extend_any st l t (MAX asize CHUNKSIZE) nbp s2 H Hr Hr8 Hext) as [->| Ha].
    + simpl in E. apply ret_inv in E as (-> & _). congruence.
    + destruct (nbp =? NULL); [apply ret_inv in E as (-> & _); congruence|].
      rewrite (place_mod8 _ _ _ _ _ E). exact Ha.
  - destruct (fit_tall _ _ _ (hg_nodes _ _ _ _ Hg) Hn) as (k & Hk & _).
    destruct (hg_block _ _ _ _ Hg _ Hk) as (_ & _ & _ & _ & B5 & _).
    do 3 binv E. rewrite (place_mod8 _ _ _ _ _ E). exact B5.
Qed.

(** ** Trees in memory, on their own *)

Lemma NoDup_range_length (l : list Z) lo hi :
  NoDup l -> (forall x, In x l -> lo <= x < hi) ->
  (length l <= Z.to_nat (hi - lo))%nat.
Proof.
  intros N Hr.
  apply Nat.le_trans
    with (length (map (fun i => lo + Z.of_nat i) (seq 0 (Z.to_nat (hi - lo))))).
  - apply NoDup_incl_length; auto.
    intros x Hx. apply in_map_iff. exists (Z.to_nat (x - lo)).
    specialize (Hr x Hx). split; [lia|]. apply in_seq. lia.
  - rewrite length_map, length_seq. lia.
Qed.

Lemma tree_fuel st t :
  tall (fun p _ => node_ok st p) t -> NoDup (elems t) ->
  (height t < heap_fuel st)%nat.
Proof.
  intros Hn N. pose proof (height_le_length t) as Hh.
  assert (Hl : (length (elems t) <= Z.to_nat (mem_brk st - mem_start_brk st))%nat).
  { apply NoDup_range_length; auto. intros x Hx.
    apply (proj1 (tall_elems (node_ok st) t) Hn) in Hx. unfold node_ok in Hx. lia. }
  unfold heap_fuel. lia.
Qed.

Lemma trep_keys m t : trep m t -> tall (fun p k => key m p = k) t.
Proof.
  induction t as [|l IHl p k r IHr]; simpl; auto.
  intros (_ & Hk & _ & _ & Tl & Tr). auto.
Qed.

Lemma fit_null_iff t s :
  bst t -> tall (fun p _ => p <> NULL) t ->
  (fit t s = NULL <-> tall (fun _ k => k < s) t).
Proof.
  intros Hb Hn. split; [now apply fit_none|].
  clear Hb. induction t as [|l IHl p k r IHr]; simpl; auto.
  intros (Hk & Hl & Hr). destruct Hn as (_ & _ & Nr).
  destruct (Z.geb_spec k s); [lia|]. auto.
Qed.

Lemma trep_nonnull m t : trep m t -> tall (fun p _ => p <> NULL) t.
Proof.
  induction t as [|l IHl p k r IHr]; simpl; auto.
  intros (Hp & _ & _ & _ & Tl & Tr). auto.
Qed.

Lemma GETSIZE_key st p :
  bounds st -> node_ok st p -> GETSIZE p st = Ok (key (mem st) p, st).
Proof. intros Hb Hn. apply GETSIZE_ok; auto. Qed.

(** ** Sequences of index operations *)




(** ** The parent of a node *)

Lemma parent_null_iff m t bp :
  trep m t -> bst t -> NoDup (elems t) -> In bp (elems t) ->
  (parent t bp (key m bp) = NULL <-> bp = root_of t).
Proof.
  intros Ht Ho N Hin. split.
  - intros Hp. destruct (Z.eq_dec (root_of t) bp) as [|Hne]; auto.
    exfalso. eapply parent_nonnull; eauto. apply trep_ctx; auto.
  - intros ->. destruct t as [|l p k r]; simpl; auto. now rewrite Z.eqb_refl.
Qed.

Lemma null_access st :
  8 <= mem_start_brk st ->
  mm_children NULL st = Fault /\ mm_replace NULL st = Fault.
Proof.
  intros Hs.
  assert (V0 : valid st 0 = false).
  { unfold valid. assert ((mem_start_brk st <=? 0) = false) as -> by (apply Z.leb_gt; lia).
    now rewrite andb_false_r. }
  assert (V4 : valid st 4 = false).
  { unfold valid. assert ((mem_start_brk st <=? 4) = false) as -> by (apply Z.leb_gt; lia).
    now rewrite andb_false_r. }
  splits.
  - unfold mm_children, bind, LEFT, GET. unfold NULL. now rewrite V0.
  - unfold mm_replace, heap_fuel. cbn [mm_replace_fuel].
    unfold bind, RIGHT, GET. change (wadd NULL WSIZE) with 4. now rewrite V4.
Qed.

(** ** Walking the heap by its boundary tags *)

Lemma chain_head b l e :
  chain b l e -> b = e \/ exists x, In x l /\ bp_of x = b.
Proof.
  destruct l as [|x l]; simpl; auto. intros (H & _). right. exists x. auto.
Qed.

Lemma heap_block_listed st l fl t bp :
  heap_gen st l fl t -> heap_block st bp ->
  bp = mem_brk st \/ exists x, In x l /\ bp_of x = bp.
Proof.
  intros H W. pose proof (hg_range _ _ _ _ H) as (R1 & R2 & R3).
  pose proof (hg_first _ _ _ _ H) as R4. destruct (hg_sink _ _ _ _ H) as (K1 & _).
  induction W as [|bp W IH Hnz].
  - pose proof (hg_tags _ _ _ _ H) as Ht. apply Forall_inv in Ht. destruct Ht as (Ht & _).
    unfold prologue, bp_of, sz_of, alloc_of in Ht. cbn [fst snd] in Ht.
    unfold hdr_size. rewrite Ht, tag_size by (unfold WORD_MOD; lia || reflexivity).
    apply chain_head. apply (hg_user_chain _ _ _ _ H).
  - destruct IH as [->|(x & Hx & <-)].
    + exfalso. apply Hnz. unfold hdr_size. rewrite (hg_epi _ _ _ _ H).
      apply tag_size; [unfold WORD_MOD; lia|reflexivity].
    + destruct (hg_block _ _ _ _ H _ Hx) as (X1 & X2 & X3 & X4 & X5 & (T1 & _)).
      unfold hdr_size. rewrite T1, tag_size by (auto; lia).
      destruct (in_split _ _ Hx) as (l1 & l2 & ->).
      pose proof (hg_user_chain _ _ _ _ H) as C. apply chain_mid in C as (_ & C & _).
      destruct (chain_head _ _ _ C) as [E0|(y & Hy & Ey)]; auto.
      right. exists y. split; auto. apply in_or_app. simpl. auto.
Qed.

Lemma heap_inv_adjacent st l t : heap_inv st l t -> no_adjacent_free st.
Proof.
  intros (H & A) bp W Hnz Hfree.
  pose proof (hg_range _ _ _ _ H) as (R1 & R2 & R3).
  pose proof (hg_first _ _ _ _ H) as R4. destruct (hg_sink _ _ _ _ H) as (K1 & _).
  destruct (heap_block_listed _ _ _ _ _ H W) as [->|(x & Hx & <-)].
  - exfalso. apply Hnz. unfold hdr_size. rewrite (hg_epi _ _ _ _ H).
    apply tag_size; [unfold WORD_MOD; lia|reflexivity].
  - destruct (hg_block _ _ _ _ H _ Hx) as (X1 & X2 & X3 & X4 & X5 & (T1 & _)).
    destruct x as ((bp, sz), a). unfold bp_of, sz_of, alloc_of in *. simpl in *.
    unfold hdr_alloc in Hfree. rewrite T1, tag_alloc in Hfree by exact X4.
    destruct a; [discriminate|].
    destruct (in_split _ _ Hx) as (l1 & l2 & ->).
    destruct (no_adj_split _ _ _ A) as (_ & _ & A3). destruct (A3 eq_refl) as (LA & HA).
    pose proof (heap_gen_facts _ _ _ _ _ _ _ H) as F.
    assert (Pa : alloc_of (prev_blk st l1) = true).
    { destruct (hf_prev_cases _ _ _ _ _ F) as [(_ & ->)|(l1' & El & _)]; [reflexivity|].
      unfold last_alloc in LA. rewrite El, rev_app_distr in LA. exact LA. }
    assert (Na : next_alloc l2 = true).
    { destruct l2; simpl in *; auto. }
    split.
    + unfold prev_ftr_alloc. destruct (hf_prev_ok _ _ _ _ _ F) as (_ & Pf).
      rewrite (hf_prev_end _ _ _ _ _ F) in Pf. rewrite Pf, Pa.
      apply tag_alloc. apply (hf_prev_sz _ _ _ _ _ F).
    + unfold hdr_alloc, hdr_size. rewrite T1, tag_size by (auto; lia).
      replace (bp + sz - 4) with (bp + sz - 4) by lia.
      rewrite (hf_next _ _ _ _ _ F), Na. apply tag_alloc. apply (hf_next_sz _ _ _ _ _ F).
Qed.

(** ** C3 *)

(** C3: on a tree that satisfies the size ordering, [mm_fitter root size]
    returns the node that the right-going descent [fit] finds; it returns
    null exactly when every node of the tree is smaller than [size], and a
    node it returns belongs to the tree and has a size of at least [size]. *)
Theorem C3_fitter_finds_adequate_node st t size :
  bounds st -> tree_ok st t ->
  mm_fitter (root_of t) size st = Ok (fit t size, st) /\
  (fit t size = NULL <-> tall (fun _ k => k < size) t) /\
  (fit t size <> NULL ->
   In (fit t size) (elems t) /\
   exists k, GETSIZE (fit t size) st = Ok (k, st) /\ size <= k).
Proof.
  intros Hb (Ht & Hn & Ho & Hs). splits.
  - apply mm_fitter_ok; auto. apply tree_fuel; auto. apply sep_NoDup; auto.
  - apply fit_null_iff; auto. apply (trep_nonnull _ _ Ht).
  - intros Hf.
    destruct (fit_tall _ _ _ (trep_keys _ _ Ht) Hf) as (k & Hk & Hsz & Hin).
    split; auto. exists k. split; auto. rewrite <- Hk. apply GETSIZE_key; auto.
    apply (proj1 (tall_elems (node_ok st) t) Hn). exact Hin.
Qed.

(** ** C4 *)


(** ** C10 *)

(** C10: for a node [bp] of an ordered tree, [mm_remove] and [mm_parent]
    return a value without touching the null pointer: [mm_parent] finds the
    parent of [bp], null exactly when [bp] is the root; a node with two
    children has a non-empty left subtree, in which [mm_replace] finds the
    in-order predecessor; on the null pointer [mm_children] and
    [mm_replace] would fault. *)
Theorem C10_remove_is_safe st t bp :
  bounds st -> 8 <= mem_start_brk st -> tree_ok st t -> In bp (elems t) ->
  let kb := key (mem st) bp in
  (exists m', mm_remove (root_of t) bp st = Ok (root_of (delete t bp kb), set_mem st m') /\
              trep m' (delete t bp kb)) /\
  mm_parent (root_of t) bp st = Ok (parent t bp kb, st) /\
  (parent t bp kb = NULL <-> bp = root_of t) /\
  (exists c, mm_children bp st = Ok (c, st)) /\
  (forall lb rb, sub t bp kb = T lb bp kb rb -> lb <> E -> rb <> E ->
     root_of lb <> NULL /\
     mm_replace (root_of lb) st = Ok (fst (rightmost lb), st) /\
     In (fst (rightmost lb)) (elems lb)) /\
  mm_children NULL st = Fault /\ mm_replace NULL st = Fault.
Proof.
  intros Hb Hs (Ht & Hn & Ho & Hsep) Hin kb.
  pose proof (sep_NoDup _ Hsep) as N.
  pose proof (tree_fuel st t Hn N) as Hf.
  destruct (null_access st Hs) as (F1 & F2).
  splits; auto.
  - destruct (mm_remove_ok st Hb t bp Ht Hn Ho Hsep Hin Hf) as (m' & E1 & T1 & _).
    exists m'. auto.
  - apply mm_parent_ok; auto.
  - apply parent_null_iff; auto.
  - eexists. apply mm_children_ok; auto.
    apply (proj1 (tall_elems (node_ok st) t) Hn). exact Hin.
  - intros lb rb Es Hl Hr.
    pose proof (sub_trep (mem st) t bp kb Ht) as Ts.
    pose proof (sub_tall (mem st) (fun p _ => node_ok st p) t bp kb Hn) as Ns.
    pose proof (height_sub t bp kb) as Hh.
    rewrite Es in Ts, Ns, Hh. simpl in Ts, Ns, Hh.
    destruct Ts as (_ & _ & _ & _ & Tl & _). destruct Ns as (_ & Nl & _).
    splits.
    + apply (trep_root_nonnull _ _ Tl Hl).
    + apply mm_replace_ok; auto. lia.
    + apply rightmost_in; auto.
Qed.

(** ** C5 *)

(** C5: for a free block [bp] of size [sz] that is not in the index, in a
    heap whose other blocks have no two free neighbours, [coalesce bp]
    follows the table of four cases on the allocation flags of the two
    physical neighbours; the block it returns is free with header and
    footer both carrying the summed size, is not in the index, and both its
    neighbours are allocated. *)
Theorem C5_coalesce_table st l1 bp sz l2 t :
  heap_hole st l1 bp sz l2 t -> no_adj l1 -> no_adj l2 ->
  exists bp' st' l1' sz' l2' t',
    coalesce bp st = Ok (bp', st') /\
    coalesce_table st l1 bp sz l2 t l1' bp' sz' l2' t' /\
    heap_hole st' l1' bp' sz' l2' t' /\
    mem st' (bp' - 4) = tag sz' false /\
    mem st' (bp' + sz' - 8) = tag sz' false /\
    ~ In bp' (elems t') /\
    last_alloc l1' /\ hd_alloc l2' /\
    no_adj (l1' ++ (bp', sz', false) :: l2').
Proof.
  intros H A1 A2.
  destruct (coalesce_ok _ _ _ _ _ _ H A1 A2)
    as (bp' & st' & l1' & sz' & l2' & t' & E & H' & A1' & A2' & LA & HA & Tb & _).
  pose proof (heap_hole_facts _ _ _ _ _ _ H') as F.
  exists bp', st', l1', sz', l2', t'. splits; auto.
  - apply (hf_hdr _ _ _ _ _ F).
  - apply (hf_ftr _ _ _ _ _ F).
  - intros Hin. apply (hf_notin _ _ _ _ _ F).
    eapply Permutation_in; [apply (hg_perm _ _ _ _ H')|exact Hin].
  - apply no_adj_join; auto.
Qed.

(** ** C6 *)

(** C6: for a free block [bp] of size [csize] that is not in the index and
    an adjusted size [asize <= csize], [place bp asize] allocates the whole
    block and returns [bp] when [csize - asize < 48]; otherwise it splits:
    when the following neighbour is strictly larger than the preceding one
    the allocation takes the front, the remainder of [csize - asize] bytes
    behind it is inserted into the index and [bp] is returned; in all other
    cases the remainder takes the front and is inserted, and the pointer to
    the allocation at the tail is returned. *)
Theorem C6_place_table st l1 bp csize l2 t asize :
  heap_hole st l1 bp csize l2 t -> 16 <= asize <= csize -> asize mod 8 = 0 ->
  exists p st' mid t',
    place bp asize st = Ok (p, st') /\
    heap_gen st' (l1 ++ mid ++ l2) (free_bps (l1 ++ mid ++ l2)) t' /\
    (if csize - asize <? 48 then
       p = bp /\ mid = [(bp, csize, true)] /\ t' = t
     else if next_sz l2 >? sz_of (prev_blk st l1) then
       p = bp /\ mid = [(bp, asize, true); (bp + asize, csize - asize, false)] /\
       t' = ins t (bp + asize) (csize - asize)
     else
       p = bp + (csize - asize) /\
       mid = [(bp, csize - asize, false); (bp + (csize - asize), asize, true)] /\
       t' = ins t bp (csize - asize)).
Proof.
  intros H Hs H8.
  destruct (place_ok _ _ _ _ _ _ asize H Hs H8) as (p & st' & mid & t' & E & G & Tb & _).
  exists p, st', mid, t'. splits; auto.
Qed.

(** ** C7 *)

(** C7: no free block between the sentinels has a free neighbour, in
    every state reached from [mm_init] by requests of at most
    [MAX_REQUEST] bytes, frees and reallocations of live pointers and
    stores into live allocations.  A larger request, whose adjusted size
    wraps around in [mm_malloc], breaks the property: see the run that ends
    in [wrapped]. *)
Theorem C7_no_adjacent_free live st :
  reachable live st -> no_adjacent_free st.
Proof.
  intros R. destruct (reachable_inv _ _ R) as (l & t & H & _).
  eapply heap_inv_adjacent; eauto.
Qed.

(** ** C8 *)

(** C8: in a state reached with requests of at most [MAX_REQUEST] bytes,
    a non-null pointer returned by [mm_malloc size], for any [size > 0],
    is a multiple of 8; the adjusted size is 16 for [size <= 8], otherwise
    [size + 8] rounded up to a multiple of 8, and requests of at most
    [MAX_REQUEST] bytes always return.  A larger request, whose adjusted
    size wraps around to 0 in [mm_malloc], leaves a state in which the
    property fails: see the run that ends in [zero3]. *)
Theorem C8_malloc_aligned live st size :
  reachable live st -> 0 < size ->
  (forall p st', mm_malloc size st = Ok (p, st') -> p <> NULL -> p mod 8 = 0) /\
  (size <= MAX_REQUEST -> exists p st', mm_malloc size st = Ok (p, st')) /\
  (size <= 8 -> adjust size = 16) /\
  (8 < size <= MAX_REQUEST -> adjust size = 8 * ((size + 8 + 7) / 8)) /\
  adjust size mod 8 = 0.
Proof.
  intros R Hs. destruct (reachable_inv _ _ R) as (l & t & H & _). splits.
  - intros p st' E Hp. eapply malloc_aligned; eauto.
  - intros Hm. destruct (mm_malloc_ok st l t size H) as
      [(_ & _ & E)|(p & st' & _ & _ & _ & E & _)]; [lia| |]; eauto.
  - intros H8. unfold adjust, DSIZE, OVERHEAD.
    destruct (Z.leb_spec size 8); [reflexivity|lia].
  - unfold MAX_REQUEST, INT_MAX1. intros H8. unfold adjust, DSIZE, OVERHEAD.
    destruct (Z.leb_spec size 8); [lia|].
    rewrite wadd_small by (unfold WORD_MOD; lia).
    rewrite wmul_small by (unfold WORD_MOD; zmod).
    f_equal. f_equal. lia.
  - apply adjust_mod8.
Qed.

(** ** C9 *)

(** C9, as amended: a successful [mm_malloc size] with
    [0 < size <= MAX_REQUEST] in a reachable state changes no byte of
    [[p, p + size)], except, when the call has extended the heap, the four
    bytes at the former end of the heap minus 4, where the header of the
    old epilogue was. *)
Theorem C9_malloc_frame live st size p st' :
  reachable live st -> 0 < size <= MAX_REQUEST ->
  mm_malloc size st = Ok (p, st') -> p <> NULL ->
  forall a, p <= a < p + size ->
            mem_brk st' = mem_brk st \/ a - a mod 4 <> mem_brk st - 4 ->
            byte_at (mem st') a = byte_at (mem st) a.
Proof.
  intros R Hs E Hp a Ha Hex. destruct (reachable_inv _ _ R) as (l & t & H & _).
  destruct (mm_malloc_ok st l t size H Hs) as
    [(_ & _ & E1)|(p1 & st1 & l1 & t1 & sz & E1 & _ & H1 & Hin & Hsz & _ & _ & F)];
    rewrite E1 in E; inversion E; subst; [congruence|].
  destruct H1 as (Hg1 & _).
  destruct (hg_block _ _ _ _ Hg1 _ Hin) as (_ & _ & B3 & B4 & B5 & _).
  unfold bp_of, sz_of in B3, B4, B5. simpl in B3, B4, B5.
  unfold byte_at. f_equal. apply (F (p, sz, true)); auto.
  - apply word_in_payload; unfold bp_of, sz_of; simpl; zmod.
  - intros (Hb & Hw). lia.
Qed.

(** ** C1 *)

(** C1, as amended: when no indexed block fits a request and the sink
    refuses the extension, [mm_malloc] returns null and leaves the state as
    it was, and [mm_realloc] ends the process with [exit(1)], the state as
    it was; when the sink grants the first 16 bytes of [mm_init] but
    refuses the first chunk, [mm_init] returns -1, the index stays empty
    and only the four words of the padding, the prologue and the epilogue
    have been written. *)
Theorem C1_sink_failure live st size ptr s0 :
  reachable live st -> 0 < size < WORD_MOD ->
  mm_fitter (tree_root st) (to_int (adjust size)) st = Ok (NULL, st) ->
  mem_max_addr st < mem_brk st + MAX (adjust size) CHUNKSIZE ->
  fresh s0 -> mem_brk s0 + 16 <= mem_max_addr s0 ->
  mem_max_addr s0 < mem_brk s0 + 16 + CHUNKSIZE ->
  mm_malloc size st = Ok (NULL, st) /\
  mm_realloc ptr size st = Exit 1 st /\
  exists st',
    mm_init s0 = Ok (-1, st') /\ tree_root st' = NULL /\
    forall a, a < mem_brk s0 \/ mem_brk s0 + 16 <= a -> mem st' a = mem s0 a.
Proof.
  intros R Hs Er Hmax F H1 H2.
  destruct (reachable_inv _ _ R) as (l & t & H & _).
  assert (E2 : mm_malloc size st = Ok (NULL, st)).
  { unfold mm_malloc. assert ((size <=? 0) = false) as -> by (apply Z.leb_gt; lia).
    cbv zeta. step ltac:(reflexivity).
    step ltac:(exact Er).
    simpl negb. cbv iota.
    destruct (MAX_any size) as (Hr & Hr8).
    step ltac:(apply (extend_refused st l t _ H Hr Hr8 Hmax)).
    reflexivity. }
  split; auto. split.
  - unfold mm_realloc, bind. rewrite E2. reflexivity.
  - exists (sentinels s0). splits.
    + apply mm_init_fail; auto.
    + reflexivity.
    + intros a Ha. unfold sentinels. rupd. reflexivity.
Qed.

(** ** C2 *)

(** C2, as amended: for a live pointer [ptr] and [0 < size <= MAX_REQUEST],
    [mm_realloc ptr size] either ends the process with [exit(1)], when the
    inner [mm_malloc] returns null, or returns the pointer [newp] that
    [mm_malloc size] returned, after copying [min size psz] bytes from
    [ptr], [psz] being the size of the old block with its two tags, so
    that the first [min size (psz - 8)] bytes of the new block are those of
    the old payload, the bytes of the new block beyond the copy are as
    [mm_malloc] left them, and the old block is no longer allocated. *)
Theorem C2_realloc_copies_block_size live st ptr n size :
  reachable live st -> In (ptr, n) live -> 0 < size <= MAX_REQUEST ->
  (mm_malloc size st = Ok (NULL, st) /\ mm_realloc ptr size st = Exit 1 st) \/
  (exists newp st1 st' l' t' sz,
      mm_malloc size st = Ok (newp, st1) /\ newp <> NULL /\
      mm_realloc ptr size st = Ok (newp, st') /\
      heap_inv st' l' t' /\ In (newp, sz, true) l' /\ size + 8 <= sz /\
      (forall s, ~ In (ptr, s, true) l') /\
      n + 8 <= hdr_size st ptr /\
      (forall i, 0 <= i < Z.min size (hdr_size st ptr) ->
                 byte_at (mem st') (newp + i) = byte_at (mem st1) (ptr + i)) /\
      (forall i, Z.min size (hdr_size st ptr) <= i < sz - 8 ->
                 byte_at (mem st') (newp + i) = byte_at (mem st1) (newp + i)) /\
      (forall i, 0 <= i < Z.min size (hdr_size st ptr - 8) ->
                 byte_at (mem st') (newp + i) = byte_at (mem st) (ptr + i))).
Proof.
  intros R Hin Hs. destruct (reachable_inv _ _ R) as (l & t & H & (_ & L)).
  destruct (L ptr n Hin) as (psz & Hpsz & Hn & Hn8).
  pose proof H as (Hg & _).
  destruct (hg_block _ _ _ _ Hg _ Hpsz) as (B1 & B2 & B3 & B4 & B5 & (B6 & _)).
  unfold bp_of, sz_of, alloc_of in B1, B2, B3, B4, B5, B6. cbn [fst snd] in B1, B2, B3, B4, B5, B6.
  pose proof (hg_range _ _ _ _ Hg) as (R1 & R2 & R3).
  pose proof (hg_first _ _ _ _ Hg) as R4. destruct (hg_sink _ _ _ _ Hg) as (K1 & _).
  assert (Hh : hdr_size st ptr = psz).
  { unfold hdr_size. rewrite B6. apply tag_size; auto. lia. }
  destruct (mm_realloc_ok st l t ptr psz size H Hpsz Hs) as
    [(E1 & E2)|(newp & st1 & st' & l' & t' & sz & E1 & Hnz & E2 & H' & Hin' & Hsz & P & _ &
                C1 & C2 & C3 & _ & Hnew)]; [left; auto|right].
  exists newp, st1, st', l', t', sz. rewrite Hh. splits; auto; try lia.
  intros s Hs'.
  pose proof (alloc_blks_NoDup _ _ _ (hg_user_chain _ _ _ _ Hg)) as N.
  assert (N2 : NoDup (map bp_of ((newp, sz, true) :: alloc_blks l))).
  { simpl. constructor; auto. intros Hi. apply in_map_iff in Hi as (x & Hx & Hi).
    apply (Hnew x Hi). exact Hx. }
  apply (Permutation_NoDup (Permutation_map bp_of (Permutation_sym P))) in N2.
  simpl in N2. apply NoDup_cons_iff in N2 as (N2 & _). apply N2.
  apply in_map_iff. exists (ptr, s, true). split; auto. apply alloc_blks_in. auto.
Qed.

(** ** What a silent run of the checker has seen *)

Lemma flag_char_tag (a : bool) : flag_char (if a then 1 else 0) = flag_of a.
Proof. destruct a; reflexivity. Qed.

Lemma GET_SIZE_raw st p :
  in_heap st p -> GET_SIZE p st = Ok (Z.land (mem st p) MASK7, st).
Proof. intros H. unfold GET_SIZE. step ltac:(apply GET_ok; exact H). reflexivity. Qed.

Lemma GET_ALLOC_raw st p :
  in_heap st p -> GET_ALLOC p st = Ok (Z.land (mem st p) 1, st).
Proof. intros H. unfold GET_ALLOC. step ltac:(apply GET_ok; exact H). reflexivity. Qed.

Section Checker.

Variable st : state.

Hypothesis Hb : bounds st.

Hypothesis Hbrk : mem_brk st < WORD_MOD.

(** The reads of [printblock] and [checkblock] on a block with a good
    header, whatever its footer holds. *)
Lemma printblock_block bp sz a :
  in_heap st (bp - 4) -> mem st (bp - 4) = tag sz a -> 8 <= sz -> sz mod 8 = 0 ->
  bp + sz <= mem_brk st ->
  printblock bp st =
  Ok ([Block_line bp (to_int sz) (flag_of a)
                  (to_int (Z.land (mem st (bp + sz - 8)) MASK7))
                  (flag_char (Z.land (mem st (bp + sz - 8)) 1))], st).
Proof.
  intros Hh Hm Hs H8 He. pose proof Hb as (B1 & B2). pose proof Hh as (Hh0 & Hh1 & Hh2).
  assert (Hf : in_heap st (bp + sz - 8)).
  { unfold in_heap. splits; [zmod|lia|lia]. }
  unfold printblock. rewrite HDRP_eq by lia.
  step ltac:(apply (GET_SIZE_tag st (bp - 4) sz a); side).
  step ltac:(apply (GET_ALLOC_tag st (bp - 4) sz a); side).
  step ltac:(apply (FTRP_tag st Hb bp sz a); side).
  step ltac:(apply GET_SIZE_raw; exact Hf).
  step ltac:(apply (FTRP_tag st Hb bp sz a); side).
  step ltac:(apply GET_ALLOC_raw; exact Hf).
  assert ((sz =? 0) = false) as -> by (apply Z.eqb_neq; lia).
  rewrite flag_char_tag. reflexivity.
Qed.

Lemma checkblock_block bp sz a :
  in_heap st (bp - 4) -> mem st (bp - 4) = tag sz a -> 8 <= sz -> sz mod 8 = 0 ->
  bp + sz <= mem_brk st ->
  checkblock bp st =
  Ok ((if negb (bp mod 8 =? 0) then [Not_aligned bp] else []) ++
      (if negb (mem st (bp - 4) =? mem st (bp + sz - 8)) then [Tag_mismatch] else []),
      st).
Proof.
  intros Hh Hm Hs H8 He. pose proof Hb as (B1 & B2). pose proof Hh as (Hh0 & Hh1 & Hh2).
  assert (Hf : in_heap st (bp + sz - 8)).
  { unfold in_heap. splits; [zmod|lia|lia]. }
  unfold checkblock. rewrite HDRP_eq by lia.
  step ltac:(apply GET_ok; exact Hh).
  step ltac:(apply (FTRP_tag st Hb bp sz a); side).
  step ltac:(apply GET_ok; exact Hf).
  reflexivity.
Qed.

(** The loop follows the headers from block to block and stops at the
    first header of size 0. *)
Lemma checkheap_loop_chain verbose e :
  e <= mem_brk st -> Z.land (mem st (e - 4)) MASK7 = 0 ->
  forall l b fuel,
    chain b l e -> mem_start_brk st + 4 <= b -> b mod 4 = 0 ->
    (forall x, In x l -> mem st (bp_of x - 4) = tag (sz_of x) (alloc_of x)) ->
    (length l < fuel)%nat ->
    checkheap_loop fuel verbose b st =
    Ok ((e, flat_map (block_lines (mem st) verbose) l), st).
Proof.
  intros He Hz. pose proof Hb as (B1 & B2).
  induction l as [|x l IH]; intros b fuel C Hlo H4 Hh Hf.
  - simpl in C. subst b. destruct fuel as [|fuel]; [simpl in Hf; lia|].
    cbn [checkheap_loop]. rewrite HDRP_eq by lia.
    step ltac:(apply GET_SIZE_raw; unfold in_heap; splits; [zmod|lia|lia]).
    rewrite Hz. reflexivity.
  - destruct fuel as [|fuel]; [simpl in Hf; lia|].
    destruct x as ((bp & sz) & a). simpl in C. unfold bp_of, sz_of in C. simpl in C.
    destruct C as (-> & Hs & H8 & C).
    pose proof (chain_le _ _ _ C) as Hle.
    pose proof (Hh _ (or_introl eq_refl)) as Hm.
    unfold bp_of, sz_of, alloc_of in Hm. simpl in Hm.
    assert (Hin : in_heap st (b - 4)).
    { unfold in_heap. splits; [zmod|lia|lia]. }
    cbn [checkheap_loop]. rewrite HDRP_eq by lia.
    step ltac:(apply (GET_SIZE_tag st (b - 4) sz a); side).
    assert ((sz >? 0) = true) as -> by (apply Z.gtb_lt; lia).
    cbn [flat_map]. unfold block_lines at 1. unfold bp_of, sz_of, alloc_of. cbn [fst snd].
    destruct (negb (verbose =? 0)) eqn:Ev.
    + step ltac:(apply (printblock_block b sz a); side).
      step ltac:(apply (checkblock_block b sz a); side).
      step ltac:(apply (NEXT_BLKP_tag st Hb b sz a); side).
      step ltac:(apply (IH (b + sz) fuel); [exact C|lia|zmod|
                        intros y Hy; apply Hh; right; exact Hy|simpl in Hf; lia]).
      cbn [fst snd]. unfold ret. rewrite <- !app_assoc. reflexivity.
    + step ltac:(reflexivity).
      step ltac:(apply (checkblock_block b sz a); side).
      step ltac:(apply (NEXT_BLKP_tag st Hb b sz a); side).
      step ltac:(apply (IH (b + sz) fuel); [exact C|lia|zmod|
                        intros y Hy; apply Hh; right; exact Hy|simpl in Hf; lia]).
      cbn [fst snd]. unfold ret. rewrite <- !app_assoc. reflexivity.
Qed.

End Checker.

Lemma flat_map_nil {A B} (f : A -> list B) (l : list A) :
  (forall x, In x l -> f x = []) -> flat_map f l = [].
Proof.
  induction l as [|x l IH]; simpl; intros H; [reflexivity|].
  rewrite (H x) by auto. rewrite IH; auto.
Qed.

Lemma flat_map_single {A B} (f : A -> list B) (g : A -> B) (l : list A) :
  (forall x, In x l -> f x = [g x]) -> flat_map f l = map g l.
Proof.
  induction l as [|x l IH]; simpl; intros H; [reflexivity|].
  rewrite (H x) by auto. rewrite IH; auto.
Qed.

(** The whole checker on a heap whose headers are in order: nothing is said
    about the footers of the blocks after the prologue. *)
Lemma checkheap_walk st l verbose :
  bounds st -> mem_brk st < WORD_MOD ->
  mem_start_brk st + 8 <= heap_listp st -> heap_listp st mod 8 = 0 ->
  chain (heap_listp st) (prologue st :: l) (mem_brk st) ->
  (forall x, In x (prologue st :: l) ->
             mem st (bp_of x - 4) = tag (sz_of x) (alloc_of x)) ->
  mem st (heap_listp st) = tag 8 true ->
  mem st (mem_brk st - 4) = tag 0 true ->
  mm_checkheap verbose st =
  Ok ((if negb (verbose =? 0) then [Heap_line (heap_listp st)] else []) ++
      flat_map (block_lines (mem st) verbose) (prologue st :: l) ++
      (if negb (verbose =? 0) then [EOL_line (mem_brk st)] else []), st).
Proof.
  intros Hb Hbrk Hfirst Hal C Hh Hpf Hepi. pose proof Hb as (B1 & B2).
  pose proof (chain_le _ _ _ C) as Hle.
  pose proof (chain_mod8 _ _ _ C Hal) as He8.
  pose proof (chain_length _ _ _ C) as Hlen.
  pose proof (Hh _ (or_introl eq_refl)) as Hph.
  unfold prologue, bp_of, sz_of, alloc_of in Hph. cbn [fst snd] in Hph.
  assert (Hp8 : heap_listp st + 8 <= mem_brk st).
  { simpl in C. unfold sz_of in C. simpl in C. destruct C as (_ & _ & _ & C).
    apply chain_le in C. exact C. }
  assert (Hin : in_heap st (heap_listp st - 4)).
  { unfold in_heap. splits; [zmod|lia|lia]. }
  unfold mm_checkheap.
  step ltac:(reflexivity).
  rewrite HDRP_eq by lia.
  step ltac:(apply (GET_SIZE_tag st (heap_listp st - 4) 8 true); side).
  change (negb (8 =? DSIZE)) with false. cbv iota.
  step ltac:(eapply run_bind;
             [apply (GET_ALLOC_tag st (heap_listp st - 4) 8 true); side|reflexivity]).
  change (1 =? 0) with false. cbv iota.
  step ltac:(apply (checkblock_block st Hb Hbrk (heap_listp st) 8 true); side).
  assert ((heap_listp st mod 8 =? 0) = true) as -> by (apply Z.eqb_eq; exact Hal).
  replace (heap_listp st + 8 - 8) with (heap_listp st) by lia.
  rewrite Hph, Hpf, Z.eqb_refl. cbn [negb app].
  step ltac:(apply (checkheap_loop_chain st Hb Hbrk verbose (mem_brk st));
             [lia|rewrite Hepi; reflexivity|exact C|lia|zmod|exact Hh|]).
  { unfold heap_fuel. simpl length in *. lia. }
  cbn [fst snd].
  assert (Hie : in_heap st (mem_brk st - 4)).
  { unfold in_heap. splits; [zmod|lia|lia]. }
  destruct (negb (verbose =? 0)) eqn:Ev.
  - eapply run_bind.
    + unfold printblock. rewrite HDRP_eq by lia.
      step ltac:(apply (GET_SIZE_tag st (mem_brk st - 4) 0 true); side).
      step ltac:(apply (GET_ALLOC_tag st (mem_brk st - 4) 0 true); side).
      step ltac:(apply (FTRP_tag st Hb (mem_brk st) 0 true); side).
      step ltac:(apply GET_SIZE_raw; unfold in_heap; splits; [zmod|lia|lia]).
      step ltac:(apply (FTRP_tag st Hb (mem_brk st) 0 true); side).
      step ltac:(apply GET_ALLOC_raw; unfold in_heap; splits; [zmod|lia|lia]).
      reflexivity.
    + cbv beta. rewrite HDRP_eq by lia.
      step ltac:(apply (GET_SIZE_tag st (mem_brk st - 4) 0 true); side).
      change (negb (0 =? 0)) with false. cbv iota.
      step ltac:(eapply run_bind;
                 [apply (GET_ALLOC_tag st (mem_brk st - 4) 0 true); side|reflexivity]).
      change (1 =? 0) with false. cbv iota. unfold ret.
      rewrite app_nil_r. reflexivity.
  - step ltac:(reflexivity). rewrite HDRP_eq by lia.
    step ltac:(apply (GET_SIZE_tag st (mem_brk st - 4) 0 true); side).
    change (negb (0 =? 0)) with false. cbv iota.
    step ltac:(eapply run_bind;
               [apply (GET_ALLOC_tag st (mem_brk st - 4) 0 true); side|reflexivity]).
    change (1 =? 0) with false. cbv iota. unfold ret.
    rewrite !app_nil_r. reflexivity.
Qed.

(** The checker looks at the boundary tags only: on a heap whose tags are
    in order it finds nothing to complain about, whatever the index and
    the other words hold; when [verbose] is set it lists the blocks. *)
Lemma checkheap_tags st l fl t m' r verbose :
  heap_gen st l fl t ->
  Forall (blk_ok m') (prologue st :: l) -> m' (mem_brk st - 4) = tag 0 true ->
  let st' := set_tree_root (set_mem st m') r in
  mm_checkheap verbose st' =
  Ok ((if negb (verbose =? 0) then listing st' l else []), st').
Proof.
  intros H Tg Hepi st'. pose proof (hg_bounds _ _ _ _ H) as Hb.
  pose proof (hg_range _ _ _ _ H) as (R1 & R2 & R3).
  pose proof (hg_chain _ _ _ _ H) as C.
  rewrite Forall_forall in Tg.
  pose proof (Tg _ (or_introl eq_refl)) as (Tp1 & Tp2).
  unfold prologue, bp_of, sz_of, alloc_of in Tp2. cbn [fst snd] in Tp2.
  replace (heap_listp st + 8 - 8) with (heap_listp st) in Tp2 by lia.
  rewrite (checkheap_walk st' l verbose Hb R2 (hg_first _ _ _ _ H) (hg_align _ _ _ _ H) C);
    [|intros x Hx; apply (Tg x Hx)|exact Tp2|exact Hepi].
  assert (Hx : forall x, In x (prologue st :: l) ->
                 block_lines m' verbose x =
                 if negb (verbose =? 0) then [block_line x] else []).
  { intros x Hx. destruct (Tg x Hx) as (T1 & T2).
    destruct (chain_in _ _ _ _ C Hx) as (X1 & X2 & X3 & X4 & X5).
    specialize (X5 (hg_align _ _ _ _ H)).
    pose proof (hg_first _ _ _ _ H). destruct Hb as (B1 & B2).
    unfold block_lines. rewrite T1, T2, Z.eqb_refl.
    assert ((bp_of x mod 8 =? 0) = true) as -> by (apply Z.eqb_eq; exact X5).
    cbn [negb]. rewrite !app_nil_r.
    rewrite tag_size, tag_alloc, flag_char_tag by (auto; lia).
    rewrite to_int_small by lia. reflexivity. }
  f_equal. f_equal. change (mem st') with m'. change (prologue st') with (prologue st).
  destruct (negb (verbose =? 0)) eqn:Ev.
  - rewrite (flat_map_single _ block_line) by exact Hx. reflexivity.
  - rewrite flat_map_nil by exact Hx. reflexivity.
Qed.

Lemma checkheap_heap st l fl t verbose :
  heap_gen st l fl t ->
  mm_checkheap verbose st =
  Ok ((if negb (verbose =? 0) then listing st l else []), st).
Proof.
  intros H.
  apply (checkheap_tags st l fl t (mem st) (tree_root st) verbose H (hg_tags _ _ _ _ H)
                        (hg_epi _ _ _ _ H)).
Qed.

(** ** What the checker's silence means *)

Lemma quiet_app o1 o2 : quiet (o1 ++ o2) <-> quiet o1 /\ quiet o2.
Proof.
  unfold quiet. split.
  - intros H. split; intros x Hx; apply H; apply in_or_app; auto.
  - intros (H1 & H2) x Hx. apply in_app_or in Hx as [Hx|Hx]; auto.
Qed.

Lemma GET_inv p st v st' : GET p st = Ok (v, st') -> st' = st /\ v = mem st p.
Proof. unfold GET. destruct (valid st p); [|discriminate]. intros [= <- <-]. auto. Qed.

Lemma GET_SIZE_inv p st v st' :
  GET_SIZE p st = Ok (v, st') -> st' = st /\ v = Z.land (mem st p) MASK7.
Proof.
  unfold GET_SIZE. intros H. binv_as H w s Hw. apply GET_inv in Hw as (-> & ->).
  apply ret_inv in H as (-> & ->). auto.
Qed.

Lemma GET_ALLOC_inv p st v st' :
  GET_ALLOC p st = Ok (v, st') -> st' = st /\ v = Z.land (mem st p) 1.
Proof.
  unfold GET_ALLOC. intros H. binv_as H w s Hw. apply GET_inv in Hw as (-> & ->).
  apply ret_inv in H as (-> & ->). auto.
Qed.

Lemma NEXT_BLKP_inv bp st v st' :
  NEXT_BLKP bp st = Ok (v, st') -> st' = st /\ v = next_blkp st bp.
Proof.
  unfold NEXT_BLKP. intros H. binv_as H w s Hw. apply GET_SIZE_inv in Hw as (-> & ->).
  apply ret_inv in H as (-> & ->). auto.
Qed.

Lemma FTRP_inv bp st v st' :
  FTRP bp st = Ok (v, st') -> st' = st /\ v = wsub (next_blkp st bp) DSIZE.
Proof.
  unfold FTRP. intros H. binv_as H w s Hw. apply GET_SIZE_inv in Hw as (-> & ->).
  apply ret_inv in H as (-> & ->). auto.
Qed.

Lemma printblock_inv bp st out st' :
  printblock bp st = Ok (out, st') -> st' = st /\ quiet out.
Proof.
  unfold printblock. intros H.
  binv_as H hs s1 H1. apply GET_SIZE_inv in H1 as (-> & ->).
  binv_as H ha s2 H2. apply GET_ALLOC_inv in H2 as (-> & ->).
  binv_as H f s3 H3. apply FTRP_inv in H3 as (-> & ->).
  binv_as H fs s4 H4. apply GET_SIZE_inv in H4 as (-> & ->).
  binv_as H f' s5 H5. apply FTRP_inv in H5 as (-> & ->).
  binv_as H fa s6 H6. apply GET_ALLOC_inv in H6 as (-> & ->).
  destruct (_ =? 0); apply ret_inv in H as (-> & ->); split; auto;
    intros x [<-|[]]; reflexivity.
Qed.

Lemma checkblock_inv bp st out st' :
  checkblock bp st = Ok (out, st') ->
  st' = st /\ (quiet out -> block_clean st bp).
Proof.
  unfold checkblock. intros H.
  binv_as H h s1 H1. apply GET_inv in H1 as (-> & ->).
  binv_as H f s2 H2. apply FTRP_inv in H2 as (-> & ->).
  binv_as H v s3 H3. apply GET_inv in H3 as (-> & ->).
  apply ret_inv in H as (-> & ->). split; auto.
  intros Q. apply quiet_app in Q as (Q1 & Q2). unfold block_clean. split.
  - destruct (bp mod 8 =? 0) eqn:E0; [apply Z.eqb_eq; exact E0|].
    specialize (Q1 _ (or_introl eq_refl)). discriminate.
  - destruct (_ =? _) eqn:E0 in Q2; [apply Z.eqb_eq; exact E0|].
    specialize (Q2 _ (or_introl eq_refl)). discriminate.
Qed.

Lemma checkheap_loop_inv fuel verbose :
  forall bp st e out st',
    checkheap_loop fuel verbose bp st = Ok ((e, out), st') ->
    st' = st /\
    (quiet out ->
     exists n : nat,
       e = Nat.iter n (next_blkp st) bp /\
       (forall k, (k < n)%nat ->
                  Z.land (mem st (HDRP (Nat.iter k (next_blkp st) bp))) MASK7 <> 0 /\
                  block_clean st (Nat.iter k (next_blkp st) bp)) /\
       Z.land (mem st (HDRP e)) MASK7 = 0).
Proof.
  induction fuel as [|fuel IH]; intros bp st e out st' H; [discriminate|].
  cbn [checkheap_loop] in H.
  binv_as H s s1 H1. apply GET_SIZE_inv in H1 as (-> & ->).
  destruct (_ >? 0) eqn:Es.
  - binv_as H o1 s2 H2.
    assert (Ho1 : s2 = st /\ quiet o1).
    { destruct (negb (verbose =? 0)).
      - apply printblock_inv in H2. exact H2.
      - apply ret_inv in H2 as (-> & ->). split; auto. intros ? []. }
    destruct Ho1 as (-> & Q1).
    binv_as H o2 s3 H3. apply checkblock_inv in H3 as (-> & Hc).
    binv_as H nb s4 H4. apply NEXT_BLKP_inv in H4 as (-> & ->).
    binv_as H r s5 H5. destruct r as (e' & out').
    apply IH in H5 as (-> & Hr).
    apply ret_inv in H as (H & ->). inversion H; subst e out. clear H.
    split; auto. intros Q. apply quiet_app in Q as (_ & Q).
    apply quiet_app in Q as (Q2 & Q3).
    destruct (Hr Q3) as (n & He & Hk & Hz).
    exists (S n). splits.
    + rewrite Nat.iter_succ_r. exact He.
    + intros [|k] Hlt.
      * simpl. split; [|apply Hc; exact Q2].
        apply Z.gtb_lt in Es. lia.
      * rewrite Nat.iter_succ_r. apply Hk. lia.
    + exact Hz.
  - apply ret_inv in H as (H & ->). inversion H; subst e out. clear H.
    split; auto. intros _. exists O. splits; [reflexivity|intros k Hk; lia|].
    rewrite Z.gtb_ltb, Z.ltb_ge in Es.
    pose proof (land_MASK7 (mem st (HDRP bp))) as Hl.
    pose proof (wrap_range (mem st (HDRP bp))) as Hw. unfold WORD_MOD in Hw.
    rewrite Hl in *. zmod.
Qed.

(** ** A footer that was overwritten *)

Lemma checkheap_footer st l fl t x v :
  heap_gen st l fl t -> In x l -> v <> tag (sz_of x) (alloc_of x) ->
  mm_checkheap 0 (set_mem st (upd (mem st) (bp_of x + sz_of x - 8) v)) =
  Ok ([Tag_mismatch], set_mem st (upd (mem st) (bp_of x + sz_of x - 8) v)).
Proof.
  intros H Hx Hv. pose proof (hg_bounds _ _ _ _ H) as Hb.
  pose proof (hg_range _ _ _ _ H) as (R1 & R2 & R3).
  pose proof (hg_chain _ _ _ _ H) as C.
  pose proof (hg_first _ _ _ _ H) as Hfirst.
  pose proof (hg_tags _ _ _ _ H) as Tg. rewrite Forall_forall in Tg.
  pose proof (Tg _ (or_introl eq_refl)) as (Tp1 & Tp2).
  unfold prologue, bp_of, sz_of, alloc_of in Tp2. cbn [fst snd] in Tp2.
  replace (heap_listp st + 8 - 8) with (heap_listp st) in Tp2 by lia.
  destruct (hg_block _ _ _ _ H x Hx) as (X1 & X2 & X3 & X4 & X5 & _).
  set (f := bp_of x + sz_of x - 8) in *.
  set (st' := set_mem st (upd (mem st) f v)).
  assert (Hhdr : forall y, In y (prologue st :: l) -> bp_of y - 4 <> f).
  { intros y Hy. destruct (chain_in _ _ _ _ C Hy) as (Y1 & Y2 & Y3 & _).
    destruct (chain_disjoint _ _ _ _ _ C (or_intror Hx) Hy) as [<-|[D|D]];
      unfold f; lia. }
  assert (Hftr : forall y, In y (prologue st :: l) -> y <> x ->
                           bp_of y + sz_of y - 8 <> f).
  { intros y Hy Hne. destruct (chain_in _ _ _ _ C Hy) as (Y1 & Y2 & Y3 & _).
    destruct (chain_disjoint _ _ _ _ _ C (or_intror Hx) Hy) as [E0|[D|D]];
      [congruence|unfold f; lia|unfold f; lia]. }
  assert (Hclean : forall y, In y (prologue st :: l) -> y <> x ->
                             block_lines (mem st') 0 y = []).
  { intros y Hy Hne. destruct (Tg y Hy) as (T1 & T2).
    destruct (chain_in _ _ _ _ C Hy) as (_ & _ & _ & _ & Y5).
    specialize (Y5 (hg_align _ _ _ _ H)).
    unfold block_lines, st'. cbn [mem set_mem].
    rewrite !upd_other by (auto using Hhdr, Hftr).
    rewrite T1, T2, !Z.eqb_refl.
    assert ((bp_of y mod 8 =? 0) = true) as -> by (apply Z.eqb_eq; exact Y5).
    reflexivity. }
  assert (Hbad : block_lines (mem st') 0 x = [Tag_mismatch]).
  { destruct (Tg x (or_intror Hx)) as (T1 & T2).
    unfold block_lines, st'. cbn [mem set_mem]. fold f.
    rewrite upd_same, upd_other by (apply Hhdr; right; exact Hx).
    assert ((bp_of x mod 8 =? 0) = true) as -> by (apply Z.eqb_eq; exact X5).
    rewrite T1.
    assert ((tag (sz_of x) (alloc_of x) =? v) = false) as ->
        by (apply Z.eqb_neq; congruence).
    reflexivity. }
  assert (Hpx : prologue st <> x).
  { intros <-. unfold prologue, bp_of in X1. simpl in X1. lia. }
  rewrite (checkheap_walk st' l 0); unstate; auto.
  - cbn [negb Z.eqb app]. rewrite app_nil_r. f_equal. f_equal.
    change (prologue st') with (prologue st).
    pose proof (chain_NoDup _ _ _ (hg_user_chain _ _ _ _ H)) as N.
    apply NoDup_map_inv in N.
    destruct (in_split _ _ Hx) as (l1 & l2 & ->).
    apply NoDup_remove_2 in N.
    cbn [flat_map]. rewrite flat_map_app. cbn [flat_map].
    rewrite (Hclean (prologue st)) by (simpl; auto).
    rewrite Hbad.
    rewrite !flat_map_nil; [reflexivity| |].
    + intros y Hy. apply Hclean; [right; apply in_or_app; simpl; auto|].
      intros ->. apply N. apply in_or_app. auto.
    + intros y Hy. apply Hclean; [right; apply in_or_app; auto|].
      intros ->. apply N. apply in_or_app. auto.
  - exact (hg_align _ _ _ _ H).
  - intros y Hy. change (prologue st') with (prologue st) in Hy.
    unfold st'. unstate.
    rewrite upd_other by (apply Hhdr; exact Hy). apply (Tg y Hy).
  - unfold st'. unstate. rewrite upd_other; [exact Tp2|]. unfold f. lia.
  - unfold st'. unstate. rewrite upd_other; [exact (hg_epi _ _ _ _ H)|]. unfold f. lia.
Qed.

(** ** The live allocations are the allocated blocks *)

Lemma remove_ptr_perm p n live :
  NoDup (map fst live) -> In (p, n) live ->
  Permutation (map fst live) (p :: map fst (remove_ptr p live)).
Proof.
  induction live as [|(q, m) live IH]; simpl; intros N Hin; [contradiction|].
  apply NoDup_cons_iff in N as (N1 & N2).
  destruct Hin as [Hin|Hin].
  - inversion Hin; subst q m. rewrite Z.eqb_refl. simpl.
    apply perm_skip. unfold remove_ptr.
    assert (Hf : filter (fun e : Z * Z => negb (fst e =? p)) live = live).
    { clear IH N2. induction live as [|(q, m) live IH]; simpl; [reflexivity|].
      assert ((q =? p) = false) as ->.
      { apply Z.eqb_neq. intros ->. apply N1. simpl. auto. }
      simpl. f_equal. apply IH. intros Hq. apply N1. simpl. auto. }
    rewrite Hf. reflexivity.
  - assert ((q =? p) = false) as ->.
    { apply Z.eqb_neq. intros ->. apply N1. apply in_map_iff. exists (p, n). auto. }
    simpl. rewrite (IH N2 Hin). apply perm_swap.
Qed.

Lemma reachable_run live st :
  reachable live st -> exists l t, run_inv live st l t.
Proof.
  intros R. unfold reachable, supported in R.
  induction R as [s0 st F E0
                 |live st size p st' R IH Hs E0
                 |live st p n st' R IH Hin E0
                 |live st p n size q st' R IH Hin Hs E0
                 |live st p n a v R IH Hin Ha Ha4].
  - destruct (Z.le_gt_cases (mem_brk s0 + 16 + CHUNKSIZE) (mem_max_addr s0)) as [Hm|Hm].
    + destruct (mm_init_full s0 F Hm) as (st1 & E1 & H1 & S1 & S2 & S3 & S4 & S5).
      rewrite E1 in E0. inversion E0; subst st1. do 2 eexists. split; [exact H1|].
      destruct F as (_ & Fb).
      splits; [split; [constructor|intros ? ? []]|simpl; constructor|lia|lia].
    + destruct (Z.le_gt_cases (mem_brk s0 + 16) (mem_max_addr s0)) as [Hm'|Hm'].
      * rewrite mm_init_fail in E0 by (auto; lia). discriminate.
      * rewrite mm_init_fault in E0 by (auto; lia). discriminate.
  - destruct IH as (l & t & H & L & P & Hh & Hc).
    destruct (mm_malloc_ok st l t size H Hs) as
      [(_ & _ & E1)|(p1 & st1 & l1 & t1 & sz & E1 & Hnz & H1 & Hin1 & Hsz & P1 & G1 & F1)];
      rewrite E1 in E0; inversion E0; subst.
    + simpl. exists l, t. unfold run_inv. auto.
    + assert ((p =? NULL) = false) as -> by (now apply Z.eqb_neq).
      destruct G1 as (G1 & G2 & G3 & G4 & G5).
      exists l1, t1. unfold run_inv. splits; auto; try lia.
      * apply (live_ok_add live l l1 p sz size L); auto; try lia.
        intros q m sq Hq Hsq.
        assert (Hx : In (q, sq, true) (alloc_blks l)) by (apply alloc_blks_in; auto).
        split.
        -- apply (alloc_blks_in l1). eapply Permutation_in; [symmetry; exact P1|].
           right. exact Hx.
        -- destruct H1 as (Hg1 & _).
           apply (alloc_new_distinct _ _ _ _ _ _ (q, sq, true)
                    (hg_user_chain _ _ _ _ Hg1) P1 Hx).
      * apply (Permutation_map bp_of) in P1. rewrite P1. simpl.
        apply perm_skip. exact P.
  - destruct IH as (l & t & H & L & P & Hh & Hc). pose proof L as (N & L2).
    destruct (L2 p n Hin) as (sz & Hsz & _).
    destruct (mm_free_ok st l t p sz H Hsz) as (st1 & l1 & t1 & E1 & H1 & P1 & S1 & _).
    rewrite E1 in E0. inversion E0; subst st1.
    destruct S1 as (S1 & S2 & S3 & S4 & S5).
    exists l1, t1. unfold run_inv. splits; auto; try lia.
    + apply (live_ok_remove live l l1 p L).
      intros x Hx Hne. pose proof (Permutation_in x P1 Hx) as [Hi|Hi]; auto.
      subst x. unfold bp_of in Hne. simpl in Hne. congruence.
    + apply (Permutation_map bp_of) in P1. simpl in P1. unfold bp_of at 2 in P1.
      simpl in P1. rewrite (remove_ptr_perm p n live N Hin), P1 in P.
      apply Permutation_cons_inv in P. exact P.
  - destruct IH as (l & t & H & L & P & Hh & Hc). pose proof L as (N & L2).
    destruct (L2 p n Hin) as (psz & Hpsz & _).
    destruct (mm_realloc_ok st l t p psz size H Hpsz Hs) as
      [(_ & E1)|(q1 & st1 & st2 & l2 & t2 & sz & _ & Hnz & E1 & H2 & Hin2 & Hsz & P2 & G2
                 & _ & _ & _ & _ & Hnew)];
      rewrite E1 in E0; [discriminate|]. inversion E0; subst.
    destruct G2 as (G1 & G2 & G3 & G4 & G5).
    exists l2, t2. unfold run_inv. splits; auto; try lia.
    + assert (L' : live_ok (remove_ptr p live) l).
      { apply (live_ok_remove live l l p L). auto. }
      apply (live_ok_add _ l l2 q sz size L'); auto; try lia.
      intros r m sr Hr Hsr. apply remove_ptr_in in Hr as (Hr & Hne).
      assert (Hx : In (r, sr, true) (alloc_blks l)) by (apply alloc_blks_in; auto).
      split; [|apply (Hnew _ Hx)].
      assert (Hx' : In (r, sr, true) ((q, sz, true) :: alloc_blks l)) by (right; exact Hx).
      apply (Permutation_in _ (Permutation_sym P2)) in Hx'. destruct Hx' as [Hx'|Hx'].
      * inversion Hx'. congruence.
      * apply alloc_blks_in in Hx'. tauto.
    + apply (Permutation_map bp_of) in P2. simpl in P2. unfold bp_of at 1 3 in P2.
      simpl in P2. simpl.
      apply Permutation_cons_inv with (a := p).
      rewrite P2. rewrite <- P. rewrite (remove_ptr_perm p n live N Hin).
      apply perm_swap.
  - destruct IH as (l & t & H & L & P & Hh & Hc). exists l, t.
    unfold run_inv. splits; auto.
    apply heap_inv_payload; auto. intros a' Ha'.
    rewrite upd_other; [reflexivity|]. intros ->.
    destruct L as (_ & L2). destruct (L2 p n Hin) as (sz & Hsz & Hn & Hn8).
    apply (Ha' _ Hsz eq_refl). unfold in_payload, bp_of, sz_of. simpl. lia.
Qed.

(** ** The blocks of the walk and the nodes of the index, in memory *)

Lemma block_header st l fl t x :
  heap_gen st l fl t -> In x l ->
  hdr_size st (bp_of x) = sz_of x /\
  hdr_alloc st (bp_of x) = (if alloc_of x then 1 else 0) /\
  16 <= sz_of x.
Proof.
  intros H Hx. pose proof (hg_range _ _ _ _ H) as (R1 & R2 & R3).
  pose proof (hg_first _ _ _ _ H) as R4. destruct (hg_sink _ _ _ _ H) as (K1 & _).
  destruct (hg_block _ _ _ _ H _ Hx) as (X1 & X2 & X3 & X4 & X5 & (T1 & _)).
  unfold hdr_size, hdr_alloc. rewrite T1, tag_size, tag_alloc by (auto; lia). auto.
Qed.

Lemma prologue_header st l fl t :
  heap_gen st l fl t -> hdr_size st (heap_listp st) = 8.
Proof.
  intros H. pose proof (hg_tags _ _ _ _ H) as Ht. apply Forall_inv in Ht.
  destruct Ht as (Ht & _).
  unfold prologue, bp_of, sz_of, alloc_of in Ht. cbn [fst snd] in Ht.
  unfold hdr_size. rewrite Ht. apply tag_size; [unfold WORD_MOD; lia|reflexivity].
Qed.

Lemma epilogue_header st l fl t :
  heap_gen st l fl t -> hdr_size st (mem_brk st) = 0.
Proof.
  intros H. unfold hdr_size. rewrite (hg_epi _ _ _ _ H).
  apply tag_size; [unfold WORD_MOD; lia|reflexivity].
Qed.

Lemma heap_block_prefix st l fl t :
  heap_gen st l fl t ->
  forall l1 b, incl l1 l -> chain (heap_listp st + 8) l1 b -> heap_block st b.
Proof.
  intros H l1. induction l1 as [|y l1 IH] using rev_ind; intros b Hi C.
  - simpl in C. subst b.
    pose proof (hb_first st) as W. rewrite (prologue_header _ _ _ _ H) in W. exact W.
  - apply chain_app in C as (mid & C1 & C2). simpl in C2.
    destruct C2 as (Ey & _ & _ & <-).
    assert (Hy : In y l) by (apply Hi, in_or_app; simpl; auto).
    destruct (block_header _ _ _ _ _ H Hy) as (Hs & _ & H16).
    rewrite <- Ey, <- Hs. apply hb_next.
    + rewrite Ey. apply IH; auto. intros z Hz. apply Hi, in_or_app. auto.
    + lia.
Qed.

Lemma heap_block_in st l fl t x :
  heap_gen st l fl t -> In x l -> heap_block st (bp_of x).
Proof.
  intros H Hx. destruct (in_split _ _ Hx) as (l1 & l2 & El).
  pose proof (hg_user_chain _ _ _ _ H) as C. rewrite El in C.
  apply chain_mid in C as (C & _).
  apply (heap_block_prefix _ _ _ _ H l1); auto.
  rewrite El. apply incl_appl, incl_refl.
Qed.

Lemma free_block_iff st l fl t bp :
  heap_gen st l fl t -> (free_block st bp <-> exists sz, In (bp, sz, false) l).
Proof.
  intros H. split.
  - intros (W & Hnz & Hf).
    destruct (heap_block_listed _ _ _ _ _ H W) as [->|(x & Hx & <-)].
    + rewrite (epilogue_header _ _ _ _ H) in Hnz. congruence.
    + destruct (block_header _ _ _ _ _ H Hx) as (_ & Ha & _). rewrite Ha in Hf.
      destruct x as ((b, sz), a). unfold bp_of, alloc_of in *. simpl in *.
      destruct a; [discriminate|]. eauto.
  - intros (sz & Hx).
    destruct (block_header _ _ _ _ _ H Hx) as (Hs & Ha & H16).
    unfold bp_of, sz_of, alloc_of in *. simpl in *.
    split; [apply (heap_block_in _ _ _ _ _ H Hx)|]. split; [lia|exact Ha].
Qed.

(** *** Nodes of a tree in memory *)

Lemma root_in t : t <> E -> In (root_of t) (elems t).
Proof. destruct t; [congruence|]. intros _. simpl. apply in_or_app. simpl. auto. Qed.

Lemma root_null_E m t : trep m t -> root_of t = NULL -> t = E.
Proof.
  destruct t; auto. simpl. intros (Hp & _) Hr. congruence.
Qed.

Lemma trep_child m t p :
  trep m t -> In p (elems t) ->
  (m p <> NULL -> In (m p) (elems t)) /\
  (m (p + 4) <> NULL -> In (m (p + 4)) (elems t)).
Proof.
  induction t as [|l IHl p0 k r IHr]; simpl; [tauto|].
  intros (Hp & Hk & Hl & Hr & Tl & Tr) Hin.
  apply in_app_or in Hin as [Hin|[Hin|Hin]].
  - destruct (IHl Tl Hin) as (A & B).
    split; intros Hn; apply in_or_app; left; auto.
  - subst p0. split; intros Hn; apply in_or_app.
    + left. rewrite Hl in *. apply root_in. intros ->. simpl in Hn. congruence.
    + right. right. rewrite Hr in *. apply root_in. intros ->. simpl in Hn. congruence.
  - destruct (IHr Tr Hin) as (A & B).
    split; intros Hn; apply in_or_app; right; right; auto.
Qed.

Lemma linked_in m t p : trep m t -> linked m (root_of t) p -> In p (elems t).
Proof.
  intros Ht L. induction L as [Hr|p L IH Hn|p L IH Hn].
  - apply root_in. intros ->. simpl in Hr. congruence.
  - apply (trep_child m t p Ht IH); auto.
  - apply (trep_child m t p Ht IH); auto.
Qed.

Lemma in_linked m root t :
  trep m t -> forall p, In p (elems t) -> linked m root (root_of t) -> linked m root p.
Proof.
  induction t as [|l IHl p0 k r IHr]; simpl; [tauto|].
  intros (Hp & Hk & Hl & Hr & Tl & Tr) p Hin L.
  apply in_app_or in Hin as [Hin|[Hin|Hin]].
  - apply IHl; auto. rewrite <- Hl. apply linked_left; auto.
    rewrite Hl. apply (trep_root_nonnull _ _ Tl). intros ->. contradiction.
  - subst p0. exact L.
  - apply IHr; auto. rewrite <- Hr. apply linked_right; auto.
    rewrite Hr. apply (trep_root_nonnull _ _ Tr). intros ->. contradiction.
Qed.

Lemma linked_elems m t p :
  trep m t -> (linked m (root_of t) p <-> In p (elems t)).
Proof.
  intros Ht. split; [apply linked_in; auto|].
  intros Hin. apply (in_linked m _ t Ht p Hin). apply linked_root.
  apply (trep_root_nonnull _ _ Ht). intros ->. contradiction.
Qed.

Lemma tall_conj (P Q : Z -> Z -> Prop) t :
  tall P t -> tall Q t -> tall (fun p k => P p k /\ Q p k) t.
Proof. induction t; simpl; intuition. Qed.

(** The index is searched completely: [fit] finds a block whenever the
    heap has a free block that is large enough. *)
Lemma fit_has_fit st l t s :
  heap_inv st l t -> (fit t s <> NULL <-> has_fit st s).
Proof.
  intros (H & A). split.
  - intros Hf. destruct (fit_tall _ _ _ (hg_nodes _ _ _ _ H) Hf) as (k & Hk & Hs & _).
    exists (fit t s). split.
    + apply (free_block_iff _ _ _ _ _ H). eauto.
    + destruct (block_header _ _ _ _ _ H Hk) as (Es & _).
      unfold bp_of, sz_of in Es. simpl in Es. rewrite Es. exact Hs.
  - intros (bp & Hfb & Hs) Hn.
    apply (free_block_iff _ _ _ _ _ H) in Hfb as (sz & Hx).
    destruct (block_header _ _ _ _ _ H Hx) as (Es & _).
    unfold bp_of, sz_of in Es. simpl in Es. rewrite Es in Hs.
    assert (Hin : In bp (elems t)).
    { eapply Permutation_in; [symmetry; apply (hg_perm _ _ _ _ H)|].
      apply free_bps_in. eauto. }
    apply fit_none in Hn;
      [|apply (hg_bst _ _ _ _ H)|apply (trep_nonnull _ _ (hg_trep _ _ _ _ H))].
    destruct (tall_in _ _ _ (tall_conj _ _ _ (hg_nodes _ _ _ _ H) Hn) Hin) as (k & Hk & Hlt).
    pose proof (chain_same_bp _ _ _ _ _ (hg_user_chain _ _ _ _ H) Hk Hx eq_refl) as E0.
    inversion E0. lia.
Qed.

(** *** Bytes of live allocations *)

Lemma payload_bytes l' m m' ex x a :
  payload_frame l' m m' ex -> In x l' -> alloc_of x = true ->
  bp_of x mod 4 = 0 -> sz_of x mod 4 = 0 ->
  bp_of x <= a < bp_of x + sz_of x - 8 -> ~ ex (a - a mod 4) ->
  byte_at m' a = byte_at m a.
Proof.
  intros F Hx Ha H4 Hs Hr Hex. unfold byte_at. f_equal.
  apply (F x); auto. apply word_in_payload; auto.
Qed.

Lemma live_block live l p n :
  live_ok live l -> In (p, n) live ->
  exists sz, In (p, sz, true) l /\ 0 < n /\ n + 8 <= sz.
Proof. intros (_ & L) Hin. apply L. exact Hin. Qed.

Lemma live_apart st l fl t live p n q m :
  heap_gen st l fl t -> live_ok live l -> In (p, n) live -> In (q, m) live -> p <> q ->
  p + n + 8 <= q \/ q + m + 8 <= p.
Proof.
  intros H L Hp Hq Hne.
  destruct (live_block _ _ _ _ L Hp) as (sp & Bp & _ & Hsp).
  destruct (live_block _ _ _ _ L Hq) as (sq & Bq & _ & Hsq).
  destruct (chain_disjoint _ _ _ _ _ (hg_user_chain _ _ _ _ H) Bp Bq) as [E0|[D|D]];
    unfold bp_of, sz_of in *; simpl in *; [inversion E0; congruence|lia|lia].
Qed.

Lemma used_block_iff st l fl t bp :
  heap_gen st l fl t -> (used_block st bp <-> exists sz, In (bp, sz, true) l).
Proof.
  intros H. split.
  - intros (W & Hnz & Hf).
    destruct (heap_block_listed _ _ _ _ _ H W) as [->|(x & Hx & <-)].
    + rewrite (epilogue_header _ _ _ _ H) in Hnz. congruence.
    + destruct (block_header _ _ _ _ _ H Hx) as (_ & Ha & _). rewrite Ha in Hf.
      destruct x as ((b, sz), a). unfold bp_of, alloc_of in *. simpl in *.
      destruct a; [|discriminate]. eauto.
  - intros (sz & Hx).
    destruct (block_header _ _ _ _ _ H Hx) as (Hs & Ha & H16).
    unfold bp_of, sz_of, alloc_of in *. simpl in *.
    split; [apply (heap_block_in _ _ _ _ _ H Hx)|]. split; [lia|exact Ha].
Qed.

(** ** The heap checker *)

(** X1: on every reachable state the checker, run without [verbose],
    returns, prints nothing and leaves the state as it was: the prologue
    and the epilogue are in place, every block is doubleword aligned and
    its header equals its footer. *)
Theorem X1_checkheap_silent live st :
  reachable live st -> mm_checkheap 0 st = Ok ([], st).
Proof.
  intros R. destruct (reachable_run _ _ R) as (l & t & (H & _) & _).
  apply (checkheap_heap st l _ t 0 H).
Qed.

(** X2: with [verbose] set, the checker on a reachable state prints the
    heading, one line for the prologue and for each block in address
    order, header and footer fields equal, and the end-of-list line at the
    end of the heap, and no complaint.  The blocks listed lie one behind
    the other from the prologue to the end of the heap, have at least 16
    bytes each, and every live allocation is listed as an allocated block
    with room for the size asked for and the two tags. *)
Theorem X2_checkheap_listing live st verbose :
  reachable live st -> verbose <> 0 ->
  exists l,
    mm_checkheap verbose st = Ok (listing st l, st) /\
    chain (heap_listp st + 8) l (mem_brk st) /\
    Forall (fun x => 16 <= sz_of x) l /\
    forall p n, In (p, n) live -> exists sz, In (p, sz, true) l /\ n + 8 <= sz.
Proof.
  intros R Hv. destruct (reachable_run _ _ R) as (l & t & (H & _) & L & _).
  exists l. splits.
  - rewrite (checkheap_heap st l _ t verbose H).
    assert ((verbose =? 0) = false) as -> by (apply Z.eqb_neq; exact Hv). reflexivity.
  - apply (hg_user_chain _ _ _ _ H).
  - apply (hg_min _ _ _ _ H).
  - intros p n Hin. destruct (live_block _ _ _ _ L Hin) as (sz & Hb & _ & Hs). eauto.
Qed.

(** X3: the checker only reads: whenever it returns, the state is the one
    it was called in.  When none of the lines it printed is a complaint,
    the prologue header holds size 8 and is marked allocated, every block
    met by following the header sizes from the prologue is doubleword
    aligned and its header word equals its footer word, and the walk ends
    at a header of size 0 that is marked allocated. *)
Theorem X3_checkheap_sound verbose st out st' :
  mm_checkheap verbose st = Ok (out, st') ->
  st' = st /\ (quiet out -> checked_clean st).
Proof.
  unfold mm_checkheap. intros H.
  binv_as H h s1 H1. unfold get_heap_listp in H1. inversion H1; subst h s1. clear H1.
  binv_as H s s2 H2. apply GET_SIZE_inv in H2 as (-> & ->).
  binv_as H bad s3 H3.
  assert (Hbad : s3 = st /\
                 (bad = false ->
                  Z.land (mem st (HDRP (heap_listp st))) MASK7 = DSIZE /\
                  Z.land (mem st (HDRP (heap_listp st))) 1 <> 0)).
  { destruct (_ =? DSIZE) eqn:E0 in H3; cbn [negb] in H3.
    - binv_as H3 a s4 H4. apply GET_ALLOC_inv in H4 as (-> & ->).
      apply ret_inv in H3 as (-> & ->). split; auto. intros Hf.
      apply Z.eqb_eq in E0. apply Z.eqb_neq in Hf. auto.
    - apply ret_inv in H3 as (-> & ->). split; auto. discriminate. }
  destruct Hbad as (-> & Hbad).
  binv_as H o2 s4 H4. apply checkblock_inv in H4 as (-> & _).
  binv_as H r s5 H5. destruct r as (e & outl).
  apply checkheap_loop_inv in H5 as (-> & Hl). cbn [fst snd] in H.
  binv_as H o3 s6 H6.
  assert (Ho3 : s6 = st /\ quiet o3).
  { destruct (negb (verbose =? 0)).
    - apply printblock_inv in H6. exact H6.
    - apply ret_inv in H6 as (-> & ->). split; auto. intros ? []. }
  destruct Ho3 as (-> & _).
  binv_as H s' s7 H7. apply GET_SIZE_inv in H7 as (-> & ->).
  binv_as H bad' s8 H8.
  assert (Hbad' : s8 = st /\
                  (bad' = false -> Z.land (mem st (HDRP e)) 1 <> 0)).
  { destruct (_ =? 0) eqn:E0 in H8; cbn [negb] in H8.
    - binv_as H8 a s9 H9. apply GET_ALLOC_inv in H9 as (-> & ->).
      apply ret_inv in H8 as (-> & ->). split; auto. intros Hf.
      apply Z.eqb_neq in Hf. auto.
    - apply ret_inv in H8 as (-> & ->). split; auto. discriminate. }
  destruct Hbad' as (-> & Hbad').
  apply ret_inv in H as (-> & ->). split; auto.
  intros Q. apply quiet_app in Q as (_ & Q). apply quiet_app in Q as (Q1 & Q).
  apply quiet_app in Q as (_ & Q). apply quiet_app in Q as (Q2 & Q).
  apply quiet_app in Q as (_ & Q3).
  assert (Eb : bad = false).
  { destruct bad; auto. specialize (Q1 _ (or_introl eq_refl)). discriminate. }
  assert (Eb' : bad' = false).
  { destruct bad'; auto. specialize (Q3 _ (or_introl eq_refl)). discriminate. }
  destruct (Hbad Eb) as (P1 & P2). destruct (Hl Q2) as (n & He & Hk & Hz).
  unfold checked_clean. splits; auto.
  exists n. unfold walk. rewrite <- He. splits; auto.
Qed.

(** X4: a store of a different word over the footer of a live
    allocation, the word right behind the bytes that belong to it, is
    found by the checker: it prints that the header does not match the
    footer, once, and nothing else. *)
Theorem X4_checkheap_finds_overrun live st p n v :
  reachable live st -> In (p, n) live -> v <> mem st (p - 4) ->
  let a := p + hdr_size st p - 8 in
  mm_checkheap 0 (store st a v) = Ok ([Tag_mismatch], store st a v).
Proof.
  intros R Hin Hv a. destruct (reachable_run _ _ R) as (l & t & (H & _) & L & _).
  destruct (live_block _ _ _ _ L Hin) as (sz & Hb & _).
  destruct (block_header _ _ _ _ _ H Hb) as (Hs & _).
  destruct (hg_block _ _ _ _ H _ Hb) as (_ & _ & _ & _ & _ & (T1 & _)).
  unfold bp_of, sz_of, alloc_of in Hs, T1. simpl in Hs, T1.
  unfold a, store. rewrite Hs.
  apply (checkheap_footer st l _ t (p, sz, true) v H Hb).
  unfold sz_of, alloc_of. simpl. congruence.
Qed.

(** ** [mm_init] *)

(** X5: on a fresh sink with room for the four sentinel words and one
    chunk, [mm_init] returns 0.  The heap then starts 8 bytes into the
    sink's region and ends 16 + CHUNKSIZE bytes into it; it holds the
    prologue (header and footer of size 8, allocated), one free block of
    CHUNKSIZE bytes with matching tags and the epilogue header; the index
    is that one block, its two link words null. *)
Theorem X5_init_layout s0 :
  fresh s0 -> mem_brk s0 + 16 + CHUNKSIZE <= mem_max_addr s0 ->
  let b := mem_brk s0 in
  exists st,
    mm_init s0 = Ok (0, st) /\
    mem_start_brk st = b /\ mem_brk st = b + 16 + CHUNKSIZE /\
    mem_max_addr st = mem_max_addr s0 /\
    heap_listp st = b + 8 /\ tree_root st = b + 16 /\
    mem st (b + 4) = PACK OVERHEAD 1 /\ mem st (b + 8) = PACK OVERHEAD 1 /\
    mem st (b + 12) = PACK CHUNKSIZE 0 /\
    mem st (b + 16) = NULL /\ mem st (b + 20) = NULL /\
    mem st (b + 8 + CHUNKSIZE) = PACK CHUNKSIZE 0 /\
    mem st (b + 12 + CHUNKSIZE) = PACK 0 1 /\
    heap_inv st [(b + 16, CHUNKSIZE, false)] (T E (b + 16) CHUNKSIZE E).
Proof.
  intros F Hm b.
  destruct (mm_init_full s0 F Hm) as (st & E0 & H & S1 & S2 & S3 & S4 & S5).
  destruct F as (_ & Fb). fold b in S2, S5, H. exists st.
  pose proof H as (Hg & _).
  pose proof (hg_tags _ _ _ _ Hg) as Tg. rewrite Forall_forall in Tg.
  destruct (Tg _ (or_introl eq_refl)) as (P1 & P2).
  destruct (Tg _ (or_intror (or_introl eq_refl))) as (B1 & B2).
  pose proof (hg_epi _ _ _ _ Hg) as Ep.
  pose proof (hg_root _ _ _ _ Hg) as Hr.
  destruct (hg_trep _ _ _ _ Hg) as (_ & _ & L1 & L2 & _).
  unfold prologue, bp_of, sz_of, alloc_of in P1, P2, B1, B2. cbn [fst snd] in P1, P2, B1, B2.
  rewrite S5 in P1, P2. rewrite S2 in Ep. simpl in Hr, L1, L2.
  change CHUNKSIZE with 4096 in *.
  replace (b + 8 - 4) with (b + 4) in P1 by lia.
  replace (b + 8 + 8 - 8) with (b + 8) in P2 by lia.
  replace (b + 16 - 4) with (b + 12) in B1 by lia.
  replace (b + 16 + 4096 - 8) with (b + 8 + 4096) in B2 by lia.
  replace (b + 16 + 4096 - 4) with (b + 12 + 4096) in Ep by lia.
  replace (b + 16 + 4) with (b + 20) in L2 by lia.
  splits; auto. lia.
Qed.

(** X6: [mm_init] compares the answer of the sink with null, while the
    sink signals its refusal with the pointer of value -1, the value that
    [extend_heap] tests for.  When the sink refuses the first 16 bytes,
    [mm_init] does not return -1: it goes on and stores through that
    pointer, an access that is neither aligned nor inside the heap. *)
Theorem X6_init_sink_refuses st :
  sbrk_fail st = WORD_MOD - 1 -> mem_max_addr st < mem_brk st + 16 ->
  mm_init st = Fault.
Proof.
  intros K7 Hmax.
  unfold mm_init. step ltac:(reflexivity).
  unfold mem_sbrk at 1. unfold bind at 1. unstate.
  assert ((mem_brk st + 4 * WSIZE <=? mem_max_addr st) = false) as ->.
  { apply Z.leb_gt. unfold WSIZE. lia. }
  unstate. rewrite K7.
  step ltac:(reflexivity). change (WORD_MOD - 1 =? NULL) with false. cbv iota.
  step ltac:(reflexivity). unstate.
  unfold bind at 1. unfold PUT at 1. unfold valid. unstate.
  change ((WORD_MOD - 1) mod 4 =? 0) with false. reflexivity.
Qed.

(** ** [mm_malloc] *)

(** X7: a block that [mm_malloc] hands out in a reachable state lies
    inside the heap, behind the prologue and before the epilogue, and
    shares no byte with a live allocation; the call changes no byte of a
    live allocation, and the heap only grows, within the sink's limit. *)
Theorem X7_malloc_fresh_block live st size p st' :
  reachable live st -> 0 < size <= MAX_REQUEST ->
  mm_malloc size st = Ok (p, st') -> p <> NULL ->
  heap_listp st' + 8 <= p /\ p + size <= mem_brk st' - 8 /\
  (forall q n, In (q, n) live -> q + n <= p \/ p + size <= q) /\
  (forall q n a, In (q, n) live -> q <= a < q + n ->
                 byte_at (mem st') a = byte_at (mem st) a) /\
  mem_brk st <= mem_brk st' <= mem_max_addr st.
Proof.
  intros R Hs E0 Hp. destruct (reachable_run _ _ R) as (l & t & H & L & _).
  destruct (mm_malloc_ok st l t size H Hs) as
    [(_ & _ & E1)|(p1 & st1 & l1 & t1 & sz & E1 & _ & H1 & Hin & Hsz & P1 & G & F)];
    rewrite E1 in E0; inversion E0; subst; [congruence|].
  pose proof H as (Hg & _). pose proof H1 as (Hg1 & _).
  pose proof (hg_user_chain _ _ _ _ Hg1) as C1.
  destruct (hg_block _ _ _ _ Hg1 _ Hin) as (B1 & B2 & _).
  unfold bp_of, sz_of in B1, B2. simpl in B1, B2.
  destruct G as (G1 & G2 & G3 & G4 & G5).
  destruct (hg_sink _ _ _ _ Hg1) as (_ & _ & _ & K4 & _).
  assert (Hold : forall q n, In (q, n) live ->
             exists sq, In (q, sq, true) l /\ In (q, sq, true) l1 /\ n + 8 <= sq /\ q <> p).
  { intros q n Hq. destruct (live_block _ _ _ _ L Hq) as (sq & Bq & _ & Hn).
    assert (Hx : In (q, sq, true) (alloc_blks l)) by (apply alloc_blks_in; auto).
    exists sq. splits; auto.
    - apply (alloc_blks_in l1). eapply Permutation_in; [symmetry; exact P1|].
      right. exact Hx.
    - apply (alloc_new_distinct _ _ _ _ _ _ (q, sq, true) C1 P1 Hx). }
  splits; try lia.
  - intros q n Hq. destruct (Hold q n Hq) as (sq & _ & Bq & Hn & Hne).
    destruct (chain_disjoint _ _ _ _ _ C1 Bq Hin) as [E2|[D|D]];
      unfold bp_of, sz_of in *; simpl in *; [inversion E2; congruence|lia|lia].
  - intros q n a Hq Ha. destruct (Hold q n Hq) as (sq & Bq0 & Bq & Hn & Hne).
    destruct (hg_block _ _ _ _ Hg _ Bq0) as (_ & O2 & _ & O4 & O5 & _).
    unfold bp_of, sz_of in O2, O4, O5. simpl in O2, O4, O5.
    apply (payload_bytes l1 _ _ _ (q, sq, true) a F); auto;
      unfold bp_of, sz_of; simpl; zmod.
Qed.

(** X8: for a request of [0 < size <= MAX_REQUEST] bytes in a reachable
    state, the block that [mm_malloc] hands out is marked allocated in its
    header, its footer equals its header, and its size is at least the
    adjusted size of the request and less than 48 bytes more: a block that
    would leave a remainder of 48 bytes or more is split. *)
Theorem X8_malloc_block_size live st size p st' :
  reachable live st -> 0 < size <= MAX_REQUEST ->
  mm_malloc size st = Ok (p, st') -> p <> NULL ->
  hdr_alloc st' p = 1 /\
  adjust size <= hdr_size st' p < adjust size + 48 /\
  size + 8 <= hdr_size st' p /\
  mem st' (p + hdr_size st' p - 8) = mem st' (p - 4).
Proof.
  intros R Hs E0 Hp. destruct (reachable_run _ _ R) as (l & t & H & L & _).
  destruct (mm_malloc_full st l t size H Hs) as
    [(_ & _ & E1)|(p1 & st1 & l1 & t1 & sz & E1 & _ & H1 & Hin & Hsz & _ & _ & _
                   & U1 & U2 & _)];
    rewrite E1 in E0; inversion E0; subst; [congruence|].
  destruct H1 as (Hg1 & _).
  destruct (block_header _ _ _ _ _ Hg1 Hin) as (Es & Ea & _).
  destruct (hg_block _ _ _ _ Hg1 _ Hin) as (_ & _ & _ & _ & _ & (T1 & T2)).
  unfold bp_of, sz_of, alloc_of in Es, Ea, T1, T2. simpl in Es, Ea, T1, T2.
  rewrite Es. splits; auto; try lia; congruence.
Qed.

(** X9: for a request of [0 < size <= MAX_REQUEST] bytes in a reachable
    state, [mm_malloc] asks the sink for memory only when no free block of
    the heap has the adjusted size: if one has, the request is served
    from the heap as it is; if none has, the heap grows by the larger of
    the adjusted size and CHUNKSIZE, and when the sink has no room for
    that much the call returns null and changes nothing. *)
Theorem X9_malloc_growth live st size p st' :
  reachable live st -> 0 < size <= MAX_REQUEST ->
  mm_malloc size st = Ok (p, st') ->
  let asize := adjust size in
  (has_fit st asize -> p <> NULL /\ mem_brk st' = mem_brk st) /\
  (~ has_fit st asize -> mem_brk st + MAX asize CHUNKSIZE <= mem_max_addr st ->
   p <> NULL /\ mem_brk st' = mem_brk st + MAX asize CHUNKSIZE) /\
  (~ has_fit st asize -> mem_max_addr st < mem_brk st + MAX asize CHUNKSIZE ->
   p = NULL /\ st' = st).
Proof.
  intros R Hs E0 asize. subst asize.
  destruct (reachable_run _ _ R) as (l & t & H & L & _).
  pose proof (fit_has_fit st l t (adjust size) H) as Hfit.
  destruct (mm_malloc_full st l t size H Hs) as
    [(Hn & Hmax & E1)|(p1 & st1 & l1 & t1 & sz & E1 & Hnz & H1 & Hin & Hsz & _ & G & _
                       & _ & _ & U3 & U4)];
    rewrite E1 in E0; inversion E0; subst.
  - splits.
    + intros Hf. apply Hfit in Hf. contradiction.
    + intros _ Hm. lia.
    + auto.
  - destruct H1 as (Hg1 & _). destruct (hg_sink _ _ _ _ Hg1) as (_ & _ & _ & K4 & _).
    destruct G as (_ & _ & G3 & _).
    splits.
    + intros Hf. apply Hfit in Hf. auto.
    + intros Hf _. split; auto. apply U4.
      destruct (Z.eq_dec (fit t (adjust size)) NULL); auto. exfalso. apply Hf, Hfit. auto.
    + intros Hf Hm. exfalso.
      assert (Hn : fit t (adjust size) = NULL).
      { destruct (Z.eq_dec (fit t (adjust size)) NULL); auto. exfalso. apply Hf, Hfit. auto. }
      specialize (U4 Hn). lia.
Qed.

(** ** [mm_free] *)

(** X10: [mm_free] of a live pointer returns; the end of the heap stays
    where it was; the bytes of the freed block now lie inside a free block
    of the heap that is a node of the index; and no byte of another live
    allocation has changed. *)
Theorem X10_free_frame live st p n :
  reachable live st -> In (p, n) live ->
  exists st',
    mm_free p st = Ok (tt, st') /\
    mem_brk st' = mem_brk st /\
    (exists bp, free_block st' bp /\ linked (mem st') (tree_root st') bp /\
                bp <= p /\ p + hdr_size st p <= bp + hdr_size st' bp) /\
    (forall q m a, In (q, m) live -> q <> p -> q <= a < q + m ->
                   byte_at (mem st') a = byte_at (mem st) a).
Proof.
  intros R Hin. destruct (reachable_run _ _ R) as (l & t & H & L & _).
  destruct (live_block _ _ _ _ L Hin) as (sz & Hb & _).
  destruct (mm_free_full st l t p sz H Hb)
    as (st' & l' & t' & E0 & H' & P & S & F & bp' & sz' & Hx & Ht & Lo & Hi).
  pose proof H as (Hg & _). pose proof H' as (Hg' & _).
  destruct S as (S1 & S2 & _).
  exists st'. splits; auto.
  - exists bp'. splits; auto.
    + apply (free_block_iff _ _ _ _ _ Hg'). eauto.
    + rewrite (hg_root _ _ _ _ Hg'). apply linked_elems; auto. apply (hg_trep _ _ _ _ Hg').
    + destruct (block_header _ _ _ _ _ Hg Hb) as (Es & _).
      destruct (block_header _ _ _ _ _ Hg' Hx) as (Es' & _).
      unfold bp_of, sz_of in Es, Es'. simpl in Es, Es'. lia.
  - intros q m a Hq Hne Ha.
    destruct (live_block _ _ _ _ L Hq) as (sq & Bq & _ & Hm).
    assert (Bq' : In (q, sq, true) l').
    { assert (Hx0 : In (q, sq, true) (alloc_blks l)) by (apply alloc_blks_in; auto).
      apply (Permutation_in _ P) in Hx0 as [Hx0|Hx0].
      - inversion Hx0. congruence.
      - apply alloc_blks_in in Hx0. tauto. }
    destruct (hg_block _ _ _ _ Hg _ Bq) as (_ & _ & _ & O4 & O5 & _).
    unfold bp_of, sz_of in O4, O5. simpl in O4, O5.
    apply (payload_bytes l' _ _ _ (q, sq, true) a F); auto;
      unfold bp_of, sz_of; simpl; zmod.
Qed.

(** X11: what [mm_free] gives back can be had again: after a live
    allocation of [n] bytes has been freed, any request of at most [n]
    bytes is served without the heap growing. *)
Theorem X11_free_then_malloc live st p n st1 m :
  reachable live st -> In (p, n) live -> mm_free p st = Ok (tt, st1) ->
  0 < m <= n ->
  exists q st2,
    mm_malloc m st1 = Ok (q, st2) /\ q <> NULL /\ mem_brk st2 = mem_brk st.
Proof.
  intros R Hin E0 Hm. destruct (reachable_run _ _ R) as (l & t & H & L & _).
  destruct (live_block _ _ _ _ L Hin) as (sz & Hb & Hn & Hn8).
  destruct (mm_free_full st l t p sz H Hb)
    as (st' & l' & t' & E1 & H' & P & S & F & bp' & sz' & Hx & Ht & Lo & Hi).
  rewrite E1 in E0. inversion E0; subst st'. clear E0.
  pose proof H as (Hg & _). pose proof H' as (Hg' & _).
  destruct (hg_block _ _ _ _ Hg _ Hb) as (B1 & B2 & B3 & B4 & _).
  destruct (hg_block _ _ _ _ Hg' _ Hx) as (_ & _ & _ & B4' & _).
  unfold bp_of, sz_of in B1, B2, B3, B4, B4'. simpl in B1, B2, B3, B4, B4'.
  pose proof (hg_range _ _ _ _ Hg) as (R1 & R2 & R3).
  pose proof (hg_first _ _ _ _ Hg) as R4.
  assert (Hs : 0 < m <= MAX_REQUEST) by (unfold MAX_REQUEST; lia).
  destruct (adjust_range m Hs) as (A1 & A2). pose proof (adjust_mod8 m) as A8.
  assert (Hfit : has_fit st1 (adjust m)).
  { exists bp'. split; [apply (free_block_iff _ _ _ _ _ Hg'); eauto|].
    destruct (block_header _ _ _ _ _ Hg' Hx) as (Es' & _).
    unfold bp_of, sz_of in Es'. simpl in Es'. rewrite Es'. zmod. }
  apply (fit_has_fit st1 l' t' (adjust m) H') in Hfit.
  destruct S as (_ & S2 & _).
  destruct (mm_malloc_full st1 l' t' m H' Hs) as
    [(Hnull & _)|(q & st2 & l2 & t2 & sz2 & E2 & Hnz & _ & _ & _ & _ & _ & _ & _ & _ & U3 & _)];
    [contradiction|].
  exists q, st2. splits; auto. rewrite (U3 Hfit). exact S2.
Qed.

(** ** [mm_realloc] *)

(** X13: a successful [mm_realloc] of a live pointer always moves the
    block: the pointer it returns differs from the old one, the new block
    shares no byte with another live allocation, and no byte of another
    live allocation has changed. *)
Theorem X13_realloc_moves live st p n size q st' :
  reachable live st -> In (p, n) live -> 0 < size <= MAX_REQUEST ->
  mm_realloc p size st = Ok (q, st') ->
  q <> p /\
  (forall r m, In (r, m) live -> r <> p -> r + m <= q \/ q + size <= r) /\
  (forall r m a, In (r, m) live -> r <> p -> r <= a < r + m ->
                 byte_at (mem st') a = byte_at (mem st) a).
Proof.
  intros R Hin Hs E0. destruct (reachable_run _ _ R) as (l & t & H & L & _).
  destruct (live_block _ _ _ _ L Hin) as (psz & Hb & _).
  destruct (mm_realloc_ok st l t p psz size H Hb Hs) as
    [(_ & E1)|(q1 & st1 & st2 & l2 & t2 & sz & _ & Hnz & E1 & H2 & Hin2 & Hsz & P2 & G2
               & _ & _ & _ & Fr & Hnew)];
    rewrite E1 in E0; [discriminate|]. inversion E0; subst q1 st2. clear E0.
  pose proof H as (Hg & _). pose proof H2 as (Hg2 & _).
  assert (Hold : forall r m, In (r, m) live -> r <> p ->
             exists sr, In (r, sr, true) l /\ In (r, sr, true) l2 /\ m + 8 <= sr /\ r <> q).
  { intros r m Hr Hne. destruct (live_block _ _ _ _ L Hr) as (sr & Br & _ & Hm).
    assert (Hx : In (r, sr, true) (alloc_blks l)) by (apply alloc_blks_in; auto).
    exists sr. splits; auto; [|apply (Hnew _ Hx)].
    assert (Hx' : In (r, sr, true) ((q, sz, true) :: alloc_blks l)) by (right; exact Hx).
    apply (Permutation_in _ (Permutation_sym P2)) in Hx'. destruct Hx' as [Hx'|Hx'].
    - inversion Hx'. congruence.
    - apply alloc_blks_in in Hx'. tauto. }
  splits.
  - intros ->. apply (Hnew (p, psz, true)); [apply alloc_blks_in; auto|reflexivity].
  - intros r m Hr Hne. destruct (Hold r m Hr Hne) as (sr & _ & Br & Hm & Hrq).
    destruct (chain_disjoint _ _ _ _ _ (hg_user_chain _ _ _ _ Hg2) Br Hin2) as [E2|[D|D]];
      unfold bp_of, sz_of in *; simpl in *; [inversion E2; congruence|lia|lia].
  - intros r m a Hr Hne Ha. destruct (Hold r m Hr Hne) as (sr & Br0 & Br & Hm & Hrq).
    destruct (hg_block _ _ _ _ Hg _ Br0) as (_ & _ & _ & O4 & O5 & _).
    unfold bp_of, sz_of in O4, O5. simpl in O4, O5.
    unfold byte_at. f_equal. apply (Fr (r, sr, true)); auto.
    apply word_in_payload; unfold bp_of, sz_of; simpl; zmod.
Qed.

(** ** The index and the heap *)

(** X14: in every reachable state the index holds the free blocks of the
    heap and nothing else: a block pointer is reached from the root of the
    index through the link words exactly when it is a free block met on
    the walk from the prologue to the epilogue. *)
Theorem X14_index_is_free_blocks live st bp :
  reachable live st ->
  (linked (mem st) (tree_root st) bp <-> free_block st bp).
Proof.
  intros R. destruct (reachable_run _ _ R) as (l & t & (H & _) & _).
  rewrite (hg_root _ _ _ _ H), (linked_elems _ _ _ (hg_trep _ _ _ _ H)).
  rewrite (free_block_iff _ _ _ _ _ H), <- free_bps_in.
  pose proof (hg_perm _ _ _ _ H) as P.
  split; intros Hin; [|symmetry in P]; apply (Permutation_in _ P Hin).
Qed.

Lemma alloc_blks_nil l : alloc_blks l = [] -> forall x, In x l -> alloc_of x = false.
Proof.
  intros Hn x Hx. destruct (alloc_of x) eqn:Ea; auto.
  assert (Hi : In x (alloc_blks l)) by (apply alloc_blks_in; auto).
  rewrite Hn in Hi. contradiction.
Qed.

Lemma elems_nil t : elems t = [] -> t = E.
Proof.
  destruct t; auto. simpl. intros Hn. apply app_eq_nil in Hn as (_ & Hn). discriminate.
Qed.

(** X15: coalescing is complete: once every allocation has been freed,
    the heap between the sentinels is one free block, from 16 bytes into
    the sink's region to the end of the heap, and the index is that one
    block, without children. *)
Theorem X15_all_freed_one_block st :
  reachable [] st ->
  let b := mem_start_brk st + 16 in
  let sz := mem_brk st - b in
  tree_root st = b /\ mem st b = NULL /\ mem st (b + 4) = NULL /\
  mem st (b - 4) = PACK sz 0 /\ mem st (mem_brk st - 8) = PACK sz 0 /\
  heap_inv st [(b, sz, false)] (T E b sz E).
Proof.
  intros R b sz. destruct (reachable_run _ _ R) as (l & t & H & L & P & Hh & Hc).
  pose proof H as (Hg & A).
  simpl in P. apply Permutation_nil in P. apply map_eq_nil in P.
  pose proof (alloc_blks_nil l P) as Hfree.
  pose proof (hg_user_chain _ _ _ _ Hg) as C.
  assert (El : l = [(b, sz, false)]).
  { destruct l as [|x [|y l]].
    - simpl in C. change CHUNKSIZE with 4096 in Hc. lia.
    - simpl in C. destruct C as (C1 & _ & _ & C2).
      destruct x as ((xb, xs), xa). unfold bp_of, sz_of in C1, C2. simpl in C1, C2.
      pose proof (Hfree _ (or_introl eq_refl)) as Ha. unfold alloc_of in Ha. simpl in Ha.
      subst xa. unfold b, sz. do 3 f_equal; lia.
    - exfalso. simpl in A. destruct A as (A1 & _).
      pose proof (Hfree x (or_introl eq_refl)) as Hx.
      pose proof (Hfree y (or_intror (or_introl eq_refl))) as Hy.
      specialize (A1 Hx). congruence. }
  subst l.
  pose proof (hg_perm _ _ _ _ Hg) as Pt. simpl in Pt. unfold bp_of in Pt. simpl in Pt.
  apply Permutation_sym, Permutation_length_1_inv in Pt.
  assert (Et : t = T E b sz E).
  { destruct t as [|tl p k tr]; [discriminate|]. simpl in Pt.
    destruct (elems tl) eqn:El0.
    - simpl in Pt. inversion Pt. subst p.
      apply elems_nil in El0. apply elems_nil in H2. subst tl tr.
      destruct (hg_nodes _ _ _ _ Hg) as ([Hk|[]] & _). inversion Hk. reflexivity.
    - simpl in Pt. inversion Pt. destruct l; discriminate. }
  subst t.
  pose proof (hg_tags _ _ _ _ Hg) as Tg. rewrite Forall_forall in Tg.
  destruct (Tg _ (or_intror (or_introl eq_refl))) as (B1 & B2).
  unfold bp_of, sz_of, alloc_of in B1, B2. cbn [fst snd] in B1, B2.
  destruct (hg_trep _ _ _ _ Hg) as (_ & _ & L1 & L2 & _).
  pose proof (hg_root _ _ _ _ Hg) as Hr. simpl in Hr, L1, L2.
  replace (b + sz - 8) with (mem_brk st - 8) in B2 by (unfold sz; lia).
  splits; auto.
Qed.

(** ** The index on its own *)

Lemma sub_ins t bp kb :
  ~ In bp (elems t) -> sub (ins t bp kb) bp kb = T E bp kb E.
Proof.
  induction t as [|l IHl p k r IHr]; simpl; intros Hn.
  - now rewrite Z.eqb_refl.
  - assert (Hp : (bp =? p) = false).
    { apply Z.eqb_neq. intros ->. apply Hn, in_or_app. simpl. auto. }
    destruct (kb <=? k) eqn:Ek; simpl; rewrite Hp, Ek.
    + apply IHl. intros Hi. apply Hn, in_or_app. auto.
    + apply IHr. intros Hi. apply Hn, in_or_app. simpl. auto.
Qed.

Lemma graft_ins t bp kb :
  ~ In bp (elems t) -> graft (ins t bp kb) bp kb E = t.
Proof.
  induction t as [|l IHl p k r IHr]; simpl; intros Hn.
  - now rewrite Z.eqb_refl.
  - assert (Hp : (bp =? p) = false).
    { apply Z.eqb_neq. intros ->. apply Hn, in_or_app. simpl. auto. }
    destruct (kb <=? k) eqn:Ek; simpl; rewrite Hp, Ek; f_equal.
    + apply IHl. intros Hi. apply Hn, in_or_app. auto.
    + apply IHr. intros Hi. apply Hn, in_or_app. simpl. auto.
Qed.

Lemma delete_ins t bp kb : ~ In bp (elems t) -> delete (ins t bp kb) bp kb = t.
Proof.
  intros Hn. unfold delete. rewrite sub_ins by exact Hn. simpl.
  apply graft_ins. exact Hn.
Qed.

Lemma trep_ins_leaf m t bp kb :
  trep m (ins t bp kb) -> m bp = NULL /\ m (bp + 4) = NULL.
Proof.
  induction t as [|l IHl p k r IHr]; simpl.
  - intros (_ & _ & H1 & H2 & _). auto.
  - destruct (kb <=? k); simpl; intros (_ & _ & _ & _ & Tl & Tr); auto.
Qed.

Lemma trep_links m m' t q :
  trep m t -> trep m' t -> In q (elems t) -> m q = m' q /\ m (q + 4) = m' (q + 4).
Proof.
  induction t as [|l IHl p k r IHr]; simpl; [tauto|].
  intros (_ & _ & H1 & H2 & Tl & Tr) (_ & _ & H1' & H2' & Tl' & Tr') Hin.
  apply in_app_or in Hin as [Hin|[<-|Hin]]; auto. split; congruence.
Qed.

Lemma far_not_in bp l : (forall q, In q l -> far bp q) -> ~ In bp l.
Proof. intros Hf Hin. specialize (Hf bp Hin). unfold far in Hf. lia. Qed.

(** X16: inserting a block into the index and removing it again gives
    the index back as it was: [mm_remove] returns the old root, the memory
    holds the old tree, and no word of memory differs from before except
    the two link words of the block itself, which are null. *)
Theorem X16_insert_then_remove st t bp :
  bounds st -> tree_ok st t -> node_ok st bp -> bp <> NULL ->
  (forall q, In q (elems t) -> far bp q) ->
  exists r1 st1 st2,
    mm_insert (root_of t) bp st = Ok (r1, st1) /\
    mm_remove r1 bp st1 = Ok (root_of t, st2) /\
    tree_ok st2 t /\
    mem st2 bp = NULL /\ mem st2 (bp + 4) = NULL /\
    forall a, a <> bp -> a <> bp + 4 -> mem st2 a = mem st a.
Proof.
  intros Hb (Ht & Hn & Ho & Hs) Nbp Hnz Hfar.
  pose proof (far_not_in _ _ Hfar) as Hnin.
  assert (Hs' : sep (bp :: elems t)) by (apply sep_cons_intro; auto).
  destruct (mm_insert_ok st Hb t bp Ht Hn Nbp Hnz Hs'
              (tree_fuel st t Hn (sep_NoDup _ Hs))) as (m1 & E1 & T1 & F1).
  set (k := key (mem st) bp) in *. set (t1 := ins t bp k) in *.
  assert (P1 : Permutation (elems t1) (bp :: elems t)) by apply elems_ins.
  assert (Hn1 : tall (fun p _ => node_ok (set_mem st m1) p) t1).
  { apply tall_ins; auto. }
  assert (Hs1 : sep (elems t1)).
  { eapply sep_perm; [|exact Hs']. symmetry. exact P1. }
  assert (Hk : key m1 bp = k).
  { unfold key, k. rewrite F1; auto. intros q [<-|Hq]; [lia|].
    specialize (Hfar q Hq). unfold far in Hfar. lia. }
  assert (Hin1 : In bp (elems t1)).
  { eapply Permutation_in; [symmetry; exact P1|]. left. reflexivity. }
  destruct (mm_remove_ok (set_mem st m1) Hb t1 bp T1 Hn1 (bst_ins _ _ _ Ho) Hs1 Hin1
              (tree_fuel _ t1 Hn1 (sep_NoDup _ Hs1))) as (m2 & E2 & T2 & F2).
  cbn [mem set_mem] in E2, T2, F2. rewrite Hk in E2, T2.
  unfold t1 in E2 at 2. unfold t1 in T2. rewrite delete_ins in E2, T2 by exact Hnin.
  destruct (trep_ins_leaf _ _ _ _ T1) as (L1 & L2).
  assert (Hbp : forall a, a = bp \/ a = bp + 4 ->
                 forall q, In q (elems t1) -> q <> bp -> a <> q /\ a <> q + 4).
  { intros a Ha q Hq Hne. apply (Permutation_in _ P1) in Hq as [Hq|Hq]; [congruence|].
    specialize (Hfar q Hq). unfold far in Hfar. lia. }
  exists (root_of t1), (set_mem st m1), (set_mem st m2). splits.
  - exact E1.
  - exact E2.
  - unfold tree_ok. splits; auto.
  - cbn [mem set_mem]. rewrite F2 by (apply Hbp; auto). exact L1.
  - cbn [mem set_mem]. rewrite F2 by (apply Hbp; auto). exact L2.
  - intros a Ha1 Ha2. cbn [mem set_mem].
    destruct (in_dec Z.eq_dec a (elems t)) as [Hi|Hi];
      [apply (trep_links m2 (mem st) t a T2 Ht Hi)|].
    destruct (in_dec Z.eq_dec (a - 4) (elems t)) as [Hi4|Hi4].
    { destruct (trep_links m2 (mem st) t (a - 4) T2 Ht Hi4) as (_ & Hl).
      replace (a - 4 + 4) with a in Hl by lia. exact Hl. }
    rewrite F2, F1; auto.
    + intros q [<-|Hq]; [lia|]. split; [congruence|].
      intros ->. apply Hi4. replace (q + 4 - 4) with q by lia. exact Hq.
    + intros q Hq Hne. apply (Permutation_in _ P1) in Hq as [Hq|Hq]; [congruence|].
      split; [congruence|].
      intros ->. apply Hi4. replace (q + 4 - 4) with q by lia. exact Hq.
Qed.

Lemma rightmost_tall (P : Z -> Z -> Prop) t :
  tall P t -> t <> E -> P (fst (rightmost t)) (snd (rightmost t)).
Proof.
  induction t as [|l IHl p k r IHr]; [congruence|]. simpl.
  intros (H0 & _ & Hr) _. destruct r; [exact H0|]. apply IHr; [exact Hr|discriminate].
Qed.

Lemma rightmost_max t :
  bst t -> t <> E -> tall (fun _ k => k <= snd (rightmost t)) t.
Proof.
  induction t as [|l IHl p k r IHr]; [congruence|].
  intros (Ol & Or & Bl & Br) _. cbn [rightmost].
  destruct r as [|rl rp rk rr].
  - simpl. splits; auto. lia.
  - assert (Hne : T rl rp rk rr <> E) by discriminate.
    pose proof (rightmost_tall _ _ Or Hne) as Hk. cbv beta in Hk.
    specialize (IHr Br Hne). remember (T rl rp rk rr) as r' eqn:Er.
    cbn [tall]. split; [|split].
    + lia.
    + eapply tall_impl; [|exact Ol]. cbv beta. intros. lia.
    + exact IHr.
Qed.

Lemma rightmost_link m t :
  trep m t -> t <> E -> m (fst (rightmost t) + 4) = NULL.
Proof.
  induction t as [|l IHl p k r IHr]; [congruence|]. simpl.
  intros (_ & _ & _ & H2 & _ & Tr) _.
  destruct r; [exact H2|]. apply IHr; [exact Tr|discriminate].
Qed.

(** X17: [mm_replace] returns the node of the tree with the largest
    size: it is a node of the tree, it has no right child, and no node of
    the tree has a larger size. *)
Theorem X17_replace_finds_largest st t :
  bounds st -> tree_ok st t -> t <> E ->
  exists p,
    mm_replace (root_of t) st = Ok (p, st) /\ In p (elems t) /\
    mem st (p + 4) = NULL /\
    forall q, In q (elems t) -> key (mem st) q <= key (mem st) p.
Proof.
  intros Hb (Ht & Hn & Ho & Hs) Hne.
  exists (fst (rightmost t)). splits.
  - apply mm_replace_ok; auto. apply tree_fuel; auto. apply sep_NoDup; auto.
  - apply rightmost_in; auto.
  - apply rightmost_link; auto.
  - intros q Hq. rewrite (rightmost_key _ _ Ht Hne).
    destruct (tall_in _ _ _ (tall_conj _ _ _ (trep_keys _ _ Ht) (rightmost_max _ Ho Hne)) Hq)
      as (k & Hk & Hle). lia.
Qed.

(** X18: the index operations change the set of nodes by the one block
    they are given, and write nothing but link words: after [mm_insert]
    the nodes reached from the new root are the block and the nodes of
    before; after [mm_remove] of a node they are the nodes of before
    without that node; in both cases only the memory has changed, and only
    in the two link words of the block and of the nodes of before. *)
Theorem X18_index_membership st t bp :
  bounds st -> tree_ok st t ->
  (node_ok st bp -> bp <> NULL -> (forall q, In q (elems t) -> far bp q) ->
   exists r m',
     mm_insert (root_of t) bp st = Ok (r, set_mem st m') /\
     (forall q, linked m' r q <-> q = bp \/ linked (mem st) (root_of t) q) /\
     (forall a, a <> bp -> a <> bp + 4 ->
                (forall q, linked (mem st) (root_of t) q -> a <> q /\ a <> q + 4) ->
                m' a = mem st a)) /\
  (In bp (elems t) ->
   exists r m',
     mm_remove (root_of t) bp st = Ok (r, set_mem st m') /\
     (forall q, linked m' r q <-> q <> bp /\ linked (mem st) (root_of t) q) /\
     (forall a, (forall q, linked (mem st) (root_of t) q -> a <> q /\ a <> q + 4) ->
                m' a = mem st a)).
Proof.
  intros Hb (Ht & Hn & Ho & Hs). pose proof (sep_NoDup _ Hs) as N. split.
  - intros Nbp Hnz Hfar.
    assert (Hs' : sep (bp :: elems t)) by (apply sep_cons_intro; auto).
    destruct (mm_insert_ok st Hb t bp Ht Hn Nbp Hnz Hs' (tree_fuel st t Hn N))
      as (m1 & E1 & T1 & F1).
    do 2 eexists. split; [exact E1|]. split.
    + intros q. rewrite (linked_elems _ _ _ T1), (linked_elems _ _ _ Ht).
      pose proof (elems_ins t bp (key (mem st) bp)) as P. split.
      * intros Hq. apply (Permutation_in _ P) in Hq as [Hq|Hq]; auto.
      * intros Hq. apply (Permutation_in _ (Permutation_sym P)).
        destruct Hq as [->|Hq]; simpl; auto.
    + intros a Ha1 Ha2 Ha. apply F1. intros q [<-|Hq]; [auto|].
      apply Ha. apply linked_elems; auto.
  - intros Hin.
    destruct (mm_remove_ok st Hb t bp Ht Hn Ho Hs Hin (tree_fuel st t Hn N))
      as (m1 & E1 & T1 & F1).
    do 2 eexists. split; [exact E1|]. split.
    + intros q. rewrite (linked_elems _ _ _ T1), (linked_elems _ _ _ Ht).
      pose proof (delete_perm (mem st) t bp Ht Ho N Hin) as P.
      pose proof (Permutation_NoDup P N) as N'. apply NoDup_cons_iff in N' as (N1 & _).
      split.
      * intros Hq. split; [intros ->; auto|].
        apply (Permutation_in _ (Permutation_sym P)). right. exact Hq.
      * intros (Hne & Hq). apply (Permutation_in _ P) in Hq as [Hq|Hq]; [congruence|auto].
    + intros a Ha. apply F1. intros q Hq _. apply Ha. apply linked_elems; auto.
Qed.

(** ** [extend_heap] *)

Lemma extend_heap_odd words st :
  words mod 2 <> 0 -> 0 <= words -> words + 1 < WORD_MOD ->
  extend_heap words st = extend_heap (words + 1) st.
Proof.
  intros Ho H0 Hw. unfold extend_heap.
  assert ((words mod 2 =? 0) = false) as -> by (apply Z.eqb_neq; exact Ho).
  assert (((words + 1) mod 2 =? 0) = true) as -> by (apply Z.eqb_eq; zmod).
  cbn [negb]. rewrite wadd_small by lia. reflexivity.
Qed.

(** X19: in a reachable state and for [4 <= words] with
    [4 * (words + 1) < 2^31], [extend_heap] asks the sink for an even
    number of words, one more than [words] when [words] is odd.  When the
    sink refuses, it
    returns null and changes nothing.  Otherwise the heap ends that many
    bytes later, with the epilogue header as its last word, and the block
    returned is free, doubleword aligned, with matching tags; it is the
    last block of the heap, has at least the bytes asked for, follows an
    allocated block, and is not in the index. *)
Theorem X19_extend_heap live st words :
  reachable live st -> 4 <= words -> 4 * (words + 1) < INT_MAX1 ->
  let size := 4 * (words + words mod 2) in
  (mem_max_addr st < mem_brk st + size -> extend_heap words st = Ok (NULL, st)) /\
  (mem_brk st + size <= mem_max_addr st ->
   exists bp st',
     extend_heap words st = Ok (bp, st') /\
     mem_brk st' = mem_brk st + size /\
     bp mod 8 = 0 /\ hdr_alloc st' bp = 0 /\ size <= hdr_size st' bp /\
     bp + hdr_size st' bp = mem_brk st' /\
     mem st' (mem_brk st' - 8) = mem st' (bp - 4) /\
     mem st' (mem_brk st' - 4) = PACK 0 1 /\
     prev_ftr_alloc st' bp = 1 /\
     ~ linked (mem st') (tree_root st') bp).
Proof.
  intros R Hw Hmax size. destruct (reachable_run _ _ R) as (l & t & H & _).
  pose proof H as (Hg & A).
  destruct (hg_sink _ _ _ _ Hg) as (K1 & K2 & K3 & K4 & K5 & K6 & K7).
  set (w := words + words mod 2) in *.
  assert (Hw2 : w mod 2 = 0) by (unfold w; zmod).
  assert (Hww : words <= w <= words + 1) by (unfold w; zmod).
  assert (Ew : extend_heap words st = extend_heap w st).
  { destruct (Z.eq_dec (words mod 2) 0) as [E0|E0].
    - unfold w. rewrite E0, Z.add_0_r. reflexivity.
    - rewrite extend_heap_odd by (unfold WORD_MOD, INT_MAX1 in *; auto; lia).
      f_equal. unfold w. zmod. }
  rewrite Ew. unfold INT_MAX1 in Hmax. split.
  - intros Hm. apply extend_heap_fail; auto.
    rewrite wmul_small by (unfold WORD_MOD, WSIZE; lia). unfold WSIZE, size in *. lia.
  - intros Hm.
    destruct (extend_heap_ok st l t w H Hw2) as
      (bp' & st1 & l1' & sz' & t1 & X1 & H1 & A1 & LA & Tb & Sh1 & Fc);
      try (unfold INT_MAX1, size in *; lia).
    fold size in Tb, Sh1, Fc.
    assert (He : heap_gen (extended st size) (l ++ [(mem_brk st, size, false)])
                          (free_bps l) t).
    { apply heap_extend; auto; unfold size; try lia. zmod. }
    destruct (coalesce_table_lists _ _ _ _ _ _ _ _ _ _ _ _ He Tb)
      as (_ & _ & _ & _ & Lo & Hi & _).
    pose proof (heap_hole_facts _ _ _ _ _ _ H1) as F1.
    destruct (hf_next_cases _ _ _ _ _ F1) as [(_ & Hend)|(? & ? & _)]; [|discriminate].
    destruct (hf_bp _ _ _ _ _ F1) as (Hb8 & _).
    destruct (hf_sz _ _ _ _ _ F1) as (Hs16 & Hs8).
    pose proof (hg_range _ _ _ _ H1) as (R1 & R2 & R3).
    pose proof (hf_prev_lo _ _ _ _ _ F1) as Hlo.
    destruct (hf_prev_sz _ _ _ _ _ F1) as (Hps & Hps8).
    pose proof (hf_prev_end _ _ _ _ _ F1) as Hpe.
    pose proof (hg_first _ _ _ _ H1) as Hf1.
    destruct Sh1 as (S1 & S2 & S3 & S4 & S5).
    unfold extended in S1, S2, S3, S4, S5. unstate_in S1. unstate_in S2. unstate_in S3.
    unstate_in S4. unstate_in S5.
    assert (Esz : hdr_size st1 bp' = sz').
    { unfold hdr_size. rewrite (hf_hdr _ _ _ _ _ F1). apply tag_size; auto. lia. }
    exists bp', st1. rewrite Esz. splits; auto; try lia.
    + unfold hdr_alloc. rewrite (hf_hdr _ _ _ _ _ F1). apply tag_alloc; auto.
    + rewrite <- Hend. replace (bp' + sz' - 8) with (bp' + sz' - 8) by lia.
      rewrite (hf_ftr _ _ _ _ _ F1), (hf_hdr _ _ _ _ _ F1). reflexivity.
    + apply (hg_epi _ _ _ _ H1).
    + assert (Pa : alloc_of (prev_blk st1 l1') = true).
      { destruct (hf_prev_cases _ _ _ _ _ F1) as [(_ & ->)|(l1p & El & _)]; [reflexivity|].
        unfold last_alloc in LA. rewrite El, rev_app_distr in LA. exact LA. }
      unfold prev_ftr_alloc. destruct (hf_prev_ok _ _ _ _ _ F1) as (_ & Pf).
      rewrite Hpe in Pf. rewrite Pf, Pa. apply tag_alloc. exact Hps8.
    + rewrite (hg_root _ _ _ _ H1), (linked_elems _ _ _ (hg_trep _ _ _ _ H1)).
      intros Hin. apply (hf_notin _ _ _ _ _ F1).
      eapply Permutation_in; [apply (hg_perm _ _ _ _ H1)|exact Hin].
Qed.

(** ** Pointers the allocator was not given *)

Lemma null_header_fault st :
  mem_brk st < WORD_MOD -> GET (wsub NULL WSIZE) st = Fault.
Proof.
  intros Hb. unfold GET, valid. change (wsub NULL WSIZE) with 4294967292.
  assert ((4294967292 + 4 <=? mem_brk st) = false) as ->
      by (apply Z.leb_gt; unfold WORD_MOD in Hb; lia).
  rewrite andb_false_r. reflexivity.
Qed.

(** X20: the null pointer is not a pointer the allocator can free: in a
    reachable state [mm_free] of it reads the word before address 0,
    outside the heap, and [mm_realloc] of it to [0 <= size <= MAX_REQUEST]
    bytes does the same once the new block is allocated, or exits when
    [mm_malloc] returns null; it never returns the new block. *)
Theorem X20_null_pointer live st size :
  reachable live st -> 0 <= size <= MAX_REQUEST ->
  mm_free NULL st = Fault /\
  (mm_realloc NULL size st = Fault \/ mm_realloc NULL size st = Exit 1 st).
Proof.
  intros R Hs. destruct (reachable_run _ _ R) as (l & t & H & _).
  pose proof H as (Hg & _).
  pose proof (hg_range _ _ _ _ Hg) as (_ & R2 & _). split.
  - unfold mm_free, GET_SIZE, HDRP, bind. rewrite null_header_fault by exact R2.
    reflexivity.
  - destruct (Z.eq_dec size 0) as [->|Hnz]; [right; reflexivity|].
    destruct (mm_malloc_ok st l t size H) as
      [(_ & _ & E1)|(p & st1 & l1 & t1 & sz & E1 & Hp & (Hg1 & _) & _)]; [lia| |].
    + right. unfold mm_realloc, bind. rewrite E1. reflexivity.
    + left. pose proof (hg_range _ _ _ _ Hg1) as (_ & R2' & _).
      unfold mm_realloc. unfold bind at 1. rewrite E1.
      assert ((p =? NULL) = false) as -> by (apply Z.eqb_neq; exact Hp).
      unfold GET_SIZE, HDRP, bind. rewrite null_header_fault by exact R2'.
      reflexivity.
Qed.

Lemma mm_parent_missing st bp :
  bounds st -> mem_brk st < WORD_MOD -> node_ok st bp -> bp <> NULL ->
  forall t fuel,
    trep (mem st) t -> tall (fun p _ => node_ok st p) t -> ~ In bp (elems t) ->
    (height t < fuel)%nat ->
    mm_parent_fuel fuel (root_of t) bp st = Fault.
Proof.
  intros Hb Hbrk Nbp Hnz.
  induction t as [|l IHl p k r IHr]; intros fuel Ht Hn Hnin Hf.
  - destruct fuel as [|fuel]; [simpl in Hf; lia|]. cbn [mm_parent_fuel root_of].
    assert ((bp =? NULL) = false) as -> by (apply Z.eqb_neq; exact Hnz).
    step ltac:(apply GETSIZE_ok; auto).
    unfold GETSIZE, bind. rewrite null_header_fault by exact Hbrk. reflexivity.
  - destruct fuel as [|fuel]; [simpl in Hf; lia|]. cbn [mm_parent_fuel root_of].
    simpl in Ht, Hn, Hnin, Hf.
    destruct Ht as (Hp & Hk & Hl & Hr & Tl & Tr). destruct Hn as (Np & Nl & Nr).
    assert (Hne : bp <> p) by (intros ->; apply Hnin, in_or_app; simpl; auto).
    assert (Hnl : ~ In bp (elems l)) by (intros Hi; apply Hnin, in_or_app; auto).
    assert (Hnr : ~ In bp (elems r)) by (intros Hi; apply Hnin, in_or_app; simpl; auto).
    assert (Rl : root_of l <> bp).
    { intros Hi. destruct l; [simpl in Hi; congruence|].
      apply Hnl. rewrite <- Hi. apply root_in. discriminate. }
    assert (Rr : root_of r <> bp).
    { intros Hi. destruct r; [simpl in Hi; congruence|].
      apply Hnr. rewrite <- Hi. apply root_in. discriminate. }
    assert ((bp =? p) = false) as -> by (apply Z.eqb_neq; exact Hne).
    step ltac:(apply GETSIZE_ok; auto).
    step ltac:(apply GETSIZE_ok; auto).
    destruct (_ <=? _).
    + step ltac:(apply LEFT_ok; auto). rewrite Hl.
      assert ((root_of l =? bp) = false) as -> by (apply Z.eqb_neq; exact Rl).
      step ltac:(apply LEFT_ok; auto). rewrite Hl. apply IHl; auto. lia.
    + step ltac:(apply RIGHT_ok; auto). rewrite Hr.
      assert ((root_of r =? bp) = false) as -> by (apply Z.eqb_neq; exact Rr).
      step ltac:(apply RIGHT_ok; auto). rewrite Hr. apply IHr; auto. lia.
Qed.

(** X21: the index has no answer for a block that is not in it: for a
    block pointer that is no node of the tree, the descent of [mm_parent]
    runs off the tree and reads the header of the null pointer, and so
    does [mm_remove], which asks for the parent in each of its cases. *)
Theorem X21_remove_missing st t bp :
  bounds st -> mem_brk st < WORD_MOD -> tree_ok st t ->
  node_ok st bp -> bp <> NULL -> ~ In bp (elems t) ->
  mm_parent (root_of t) bp st = Fault /\ mm_remove (root_of t) bp st = Fault.
Proof.
  intros Hb Hbrk (Ht & Hn & Ho & Hs) Nbp Hnz Hnin.
  assert (Hp : mm_parent (root_of t) bp st = Fault).
  { unfold mm_parent. apply mm_parent_missing; auto.
    apply tree_fuel; auto. apply sep_NoDup; auto. }
  split; [exact Hp|].
  unfold mm_remove, heap_fuel. cbn [mm_remove_fuel].
  step ltac:(apply mm_children_ok; auto).
  destruct (_ =? 0).
  - unfold bind. rewrite Hp. reflexivity.
  - step ltac:(apply mm_children_ok; auto).
    destruct (_ =? 1); unfold bind at 1; rewrite Hp; reflexivity.
Qed.

(** X22: the checker does not look at the index: when a link word of a
    free block of a reachable state is overwritten, or the root of the
    index is, it still prints nothing. *)
Theorem X22_checkheap_ignores_index live st bp a v r :
  reachable live st -> free_block st bp -> a = bp \/ a = bp + 4 ->
  mm_checkheap 0 (set_tree_root (store st a v) r) =
  Ok ([], set_tree_root (store st a v) r).
Proof.
  intros R Hfb Ha. destruct (reachable_run _ _ R) as (l & t & (H & _) & _).
  apply (free_block_iff _ _ _ _ _ H) in Hfb as (sz & Hx).
  destruct (hg_tags_frame _ _ _ _ H (upd (mem st) a v)) as (Tg & Hepi).
  { intros a' Ha'. apply upd_other. intros ->.
    destruct (Ha' _ Hx eq_refl) as (A1 & A2). unfold bp_of in A1, A2. simpl in A1, A2.
    destruct Ha; congruence. }
  apply (checkheap_tags st l _ t (upd (mem st) a v) r 0 H Tg Hepi).
Qed.

(** ** The search on the heap *)

(** X23: on a reachable state [mm_fitter], started at the root of the
    index, returns without changing the state; it returns null exactly
    when no free block of the heap has [asize] bytes, and what it returns
    otherwise is a free block of the heap of at least [asize] bytes. *)
Theorem X23_fitter_on_heap live st asize :
  reachable live st ->
  exists bp,
    mm_fitter (tree_root st) asize st = Ok (bp, st) /\
    (bp = NULL <-> ~ has_fit st asize) /\
    (bp <> NULL -> free_block st bp /\ asize <= hdr_size st bp).
Proof.
  intros R. destruct (reachable_run _ _ R) as (l & t & H & _).
  pose proof H as (Hg & _). pose proof (fit_has_fit st l t asize H) as Hfit.
  exists (fit t asize). splits.
  - rewrite (hg_root _ _ _ _ Hg). apply mm_fitter_ok.
    + apply (hg_bounds _ _ _ _ Hg).
    + apply (hg_trep _ _ _ _ Hg).
    + apply (hg_tree_nodes _ _ _ _ Hg).
    + apply (hg_fuel _ _ _ _ Hg).
  - split.
    + intros Hn Hf. apply Hfit in Hf. contradiction.
    + intros Hn. destruct (Z.eq_dec (fit t asize) NULL); auto.
      exfalso. apply Hn, Hfit. auto.
  - intros Hn. destruct (fit_tall _ _ _ (hg_nodes _ _ _ _ Hg) Hn) as (k & Hk & Hs & _).
    destruct (block_header _ _ _ _ _ Hg Hk) as (Es & _).
    unfold bp_of, sz_of in Es. simpl in Es. rewrite Es. split; auto.
    apply (free_block_iff _ _ _ _ _ Hg). eauto.
Qed.

(** X24: the allocator loses no block: in every reachable state the
    allocated blocks between the sentinels are the live allocations, the
    blocks handed out by [mm_malloc] or [mm_realloc] and not freed since. *)
Theorem X24_used_blocks_are_live live st bp :
  reachable live st -> (used_block st bp <-> exists n, In (bp, n) live).
Proof.
  intros R. destruct (reachable_run _ _ R) as (l & t & (H & _) & L & P & _).
  rewrite (used_block_iff _ _ _ _ _ H). split.
  - intros (sz & Hx).
    assert (Hi : In bp (map bp_of (alloc_blks l))).
    { apply in_map_iff. exists (bp, sz, true). split; auto. apply alloc_blks_in. auto. }
    apply (Permutation_in _ (Permutation_sym P)) in Hi.
    apply in_map_iff in Hi as ((q & n) & Hq & Hi). simpl in Hq. subst q. eauto.
  - intros (n & Hin). destruct (live_block _ _ _ _ L Hin) as (sz & Hx & _). eauto.
Qed.

(** ** The live allocations *)

(** X25: in every reachable state the live pointers are pairwise
    different, every live allocation is a doubleword aligned block
    between the sentinels that is marked allocated, whose footer equals
    its header and whose size leaves room for the bytes asked for and the
    two tags, and the blocks of two live allocations share no byte. *)
Theorem X25_live_allocations live st :
  reachable live st ->
  NoDup (map fst live) /\
  (forall p n, In (p, n) live ->
     p mod 8 = 0 /\ hdr_alloc st p = 1 /\ 0 < n /\ n + 8 <= hdr_size st p /\
     heap_listp st + 8 <= p /\ p + hdr_size st p <= mem_brk st /\
     mem st (p + hdr_size st p - 8) = mem st (p - 4)) /\
  (forall p n q m, In (p, n) live -> In (q, m) live -> p <> q ->
     p + hdr_size st p <= q \/ q + hdr_size st q <= p).
Proof.
  intros R. destruct (reachable_run _ _ R) as (l & t & (H & _) & L & _).
  pose proof L as (N & _). splits; auto.
  - intros p n Hin. destruct (live_block _ _ _ _ L Hin) as (sz & Hb & Hn & Hs).
    destruct (block_header _ _ _ _ _ H Hb) as (Es & Ea & _).
    destruct (hg_block _ _ _ _ H _ Hb) as (B1 & B2 & _ & _ & B5 & (T1 & T2)).
    unfold bp_of, sz_of, alloc_of in *. simpl in *.
    rewrite Es. splits; auto. congruence.
  - intros p n q m Hp Hq Hne.
    destruct (live_block _ _ _ _ L Hp) as (sp & Bp & _).
    destruct (live_block _ _ _ _ L Hq) as (sq & Bq & _).
    destruct (block_header _ _ _ _ _ H Bp) as (Ep & _).
    destruct (block_header _ _ _ _ _ H Bq) as (Eq & _).
    unfold bp_of, sz_of in Ep, Eq. simpl in Ep, Eq. rewrite Ep, Eq.
    destruct (chain_disjoint _ _ _ _ _ (hg_user_chain _ _ _ _ H) Bp Bq) as [E0|[D|D]];
      unfold bp_of, sz_of in *; simpl in *; [inversion E0; congruence|lia|lia].
Qed.

(** * Concrete runs *)

Ltac crunch :=
  vm_compute; repeat split; try reflexivity; try discriminate;
  try (intro; discriminate).

Lemma fresh_sink0 : fresh sink0.
Proof. crunch. Defined.

Lemma reach_heap0 : reachable [] heap0.
Proof.
  apply (reach_init supported sink0 heap0 fresh_sink0). vm_compute. reflexivity.
Defined.

Lemma bounds_heap0 : bounds heap0.
Proof. crunch. Defined.

Lemma tree_ok_heap0 : tree_ok heap0 tree0.
Proof.
  unfold tree_ok. split; [crunch|]. split; [crunch|]. split; [crunch|].
  split; [repeat constructor; simpl; tauto|].
  intros p q [<-|[]] [<-|[]] Hne; congruence.
Defined.

(** *** A longer run *)

Lemma play_reachable cs :
  forall live st live' st',
    reachable live st -> play cs (live, st) = Some (live', st') ->
    reachable live' st'.
Proof.
  induction cs as [|c cs IH]; intros live st live' st' R P; simpl in P.
  - inversion P; subst. exact R.
  - destruct (play1 c (live, st)) as [[live1 st1]|] eqn:P1; [|discriminate].
    apply (IH live1 st1 live' st'); [|exact P].
    destruct c as [size|p]; simpl in P1.
    + destruct ((0 <? size) && (size <=? MAX_REQUEST)) eqn:Hs; [|discriminate].
      apply andb_true_iff in Hs as (H1 & H2).
      apply Z.ltb_lt in H1. apply Z.leb_le in H2.
      destruct (mm_malloc size st) as [[q st2]| | |] eqn:E0; try discriminate.
      inversion P1; subst.
      apply (reach_malloc supported live st size q st1 R); [split; assumption|exact E0].
    + destruct (find (fun e => fst e =? p) live) as [[q n]|] eqn:F; [|discriminate].
      apply find_some in F as (Hin & Hq). simpl in Hq. apply Z.eqb_eq in Hq. subst q.
      destruct (mm_free p st) as [[u st2]| | |] eqn:E0; try discriminate.
      inversion P1; subst. destruct u.
      apply (reach_free supported live st p n st1 R Hin E0).
Qed.

Lemma played_reachable cs live st :
  play cs ([], heap0) = Some (live, st) -> reachable live st.
Proof. intros P. exact (play_reachable cs [] heap0 live st reach_heap0 P). Qed.

Lemma reach_busy : reachable busy_live busy.
Proof. apply (played_reachable busy_calls). vm_compute. reflexivity. Qed.

Lemma reach_spine : reachable spine_live spine.
Proof. apply (played_reachable (busy_calls ++ [Malloc 8])). vm_compute. reflexivity. Qed.

Lemma reach_drained : reachable [] drained.
Proof.
  apply (played_reachable
           [Malloc 8; Malloc 120; Malloc 8; Free 65552; Free 69632; Free 69616]).
  vm_compute. reflexivity.
Qed.

(** Membership in a list of constants. *)
Ltac pick := simpl; repeat (first [left; reflexivity | right]).

(** A list of distinct constants has no duplicates. *)
Ltac distinct := repeat constructor; simpl; intuition discriminate.

(** Distinct constants of a list are a minimum block apart. *)
Ltac apart :=
  let p := fresh "p" in
  let q := fresh "q" in
  let Hp := fresh "Hp" in
  let Hq := fresh "Hq" in
  let Hne := fresh "Hne" in
  intros p q Hp Hq Hne; simpl in Hp, Hq; unfold far;
  repeat (destruct Hp as [<-|Hp]; [|]); try contradiction;
  repeat (destruct Hq as [<-|Hq]; [|]); try contradiction;
  first [lia | congruence].

Ltac tree_ok_run :=
  unfold tree_ok; split; [crunch|]; split; [crunch|]; split; [crunch|];
  split; [distinct|apart].

Lemma bounds_busy : bounds busy.
Proof. crunch. Qed.

Lemma tree_ok_busy : tree_ok busy busy_tree.
Proof. tree_ok_run. Qed.

Lemma bounds_spine : bounds spine.
Proof. crunch. Qed.

Lemma tree_ok_spine : tree_ok spine spine_tree.
Proof. tree_ok_run. Qed.

Lemma bounds_gap : bounds gap.
Proof. crunch. Qed.

Lemma tree_ok_gap : tree_ok gap busy_tree.
Proof. tree_ok_run. Qed.

Lemma heap_hole_gap : heap_hole gap gap_before 69488 16 gap_after busy_tree.
Proof.
  unfold heap_hole. constructor.
  - crunch.
  - crunch.
  - crunch.
  - crunch.
  - repeat (constructor; [crunch|]). constructor.
  - crunch.
  - repeat (constructor; [crunch|]). constructor.
  - crunch.
  - crunch.
  - crunch.
  - simpl. repeat split; pick.
  - apply NoDup_Permutation; [distinct|distinct|].
    intros x. simpl. intuition.
  - distinct.
Qed.

Lemma no_adj_gap_before : no_adj gap_before.
Proof. simpl. intuition discriminate. Qed.

Lemma no_adj_gap_after : no_adj gap_after.
Proof. simpl. intuition discriminate. Qed.

(** On the index of [spine], with root 69552 of 64 bytes: a request of
    100 bytes is found one step to the right, at 69312; one of 200 bytes
    two steps to the right, at 65680; one of 5000 bytes falls off the end
    of the right spine. *)
Lemma C3_witness :
  (mm_fitter (root_of spine_tree) 100 spine = Ok (fit spine_tree 100, spine) /\
   (fit spine_tree 100 = NULL <-> tall (fun _ k => k < 100) spine_tree) /\
   (fit spine_tree 100 <> NULL ->
    In (fit spine_tree 100) (elems spine_tree) /\
    exists k, GETSIZE (fit spine_tree 100) spine = Ok (k, spine) /\ 100 <= k)) /\
  (mm_fitter (root_of spine_tree) 200 spine = Ok (fit spine_tree 200, spine) /\
   (fit spine_tree 200 = NULL <-> tall (fun _ k => k < 200) spine_tree) /\
   (fit spine_tree 200 <> NULL ->
    In (fit spine_tree 200) (elems spine_tree) /\
    exists k, GETSIZE (fit spine_tree 200) spine = Ok (k, spine) /\ 200 <= k)) /\
  (mm_fitter (root_of spine_tree) 5000 spine = Ok (fit spine_tree 5000, spine) /\
   (fit spine_tree 5000 = NULL <-> tall (fun _ k => k < 5000) spine_tree) /\
   (fit spine_tree 5000 <> NULL ->
    In (fit spine_tree 5000) (elems spine_tree) /\
    exists k, GETSIZE (fit spine_tree 5000) spine = Ok (k, spine) /\ 5000 <= k)) /\
  root_of spine_tree = tree_root spine /\
  fit spine_tree 100 = 69312 /\ fit spine_tree 200 = 65680 /\
  fit spine_tree 5000 = NULL.
Proof.
  split; [exact (C3_fitter_finds_adequate_node spine spine_tree 100
                   bounds_spine tree_ok_spine)|].
  split; [exact (C3_fitter_finds_adequate_node spine spine_tree 200
                   bounds_spine tree_ok_spine)|].
  split; [exact (C3_fitter_finds_adequate_node spine spine_tree 5000
                   bounds_spine tree_ok_spine)|].
  crunch.
Defined.

Lemma start_busy : 8 <= mem_start_brk busy.
Proof. crunch. Qed.

Lemma in_busy_tree : In 69552 (elems busy_tree).
Proof. pick. Qed.

(** On the index of [busy] the node 69552 is the left child of the root
    and has two children; its in-order predecessor 69440 is the right
    child of its left child 69504. *)
Lemma C10_witness :
  (let kb := key (mem busy) 69552 in
   (exists m',
       mm_remove (root_of busy_tree) 69552 busy
       = Ok (root_of (delete busy_tree 69552 kb), set_mem busy m') /\
       trep m' (delete busy_tree 69552 kb)) /\
   mm_parent (root_of busy_tree) 69552 busy = Ok (parent busy_tree 69552 kb, busy) /\
   (parent busy_tree 69552 kb = NULL <-> 69552 = root_of busy_tree) /\
   (exists c, mm_children 69552 busy = Ok (c, busy)) /\
   (forall lb rb, sub busy_tree 69552 kb = T lb 69552 kb rb -> lb <> E -> rb <> E ->
      root_of lb <> NULL /\
      mm_replace (root_of lb) busy = Ok (fst (rightmost lb), busy) /\
      In (fst (rightmost lb)) (elems lb)) /\
   mm_children NULL busy = Fault /\ mm_replace NULL busy = Fault) /\
  root_of busy_tree = tree_root busy /\
  parent busy_tree 69552 (key (mem busy) 69552) = 65680 /\
  sub busy_tree 69552 (key (mem busy) 69552)
  = T (T E 69504 32 (T E 69440 48 E)) 69552 64 (T E 69312 112 E) /\
  mm_replace 69504 busy = Ok (69440, busy) /\
  delete busy_tree 69552 (key (mem busy) 69552)
  = T (T (T E 69504 32 E) 69440 48 (T E 69312 112 E)) 65680 3616 E.
Proof.
  split; [exact (C10_remove_is_safe busy busy_tree 69552 bounds_busy start_busy
                   tree_ok_busy in_busy_tree)|].
  crunch.
Defined.


Lemma heap_hole0 : heap_hole hole0 [] 65552 4096 [] E.
Proof.
  destruct (init_sentinels sink0 fresh_sink0) as (_ & (Hg & _)); [crunch|].
  apply (heap_extend _ _ _ _ 4096 Hg); crunch.
Defined.

(** The block at 69488 of [gap] has a free block on either side: both
    leave the index and the three blocks become one of 48 + 16 + 32 bytes
    at 69440. *)
Lemma C5_witness :
  (exists bp' st' l1' sz' l2' t',
      coalesce 69488 gap = Ok (bp', st') /\
      coalesce_table gap gap_before 69488 16 gap_after busy_tree l1' bp' sz' l2' t' /\
      heap_hole st' l1' bp' sz' l2' t' /\
      mem st' (bp' - 4) = tag sz' false /\
      mem st' (bp' + sz' - 8) = tag sz' false /\
      ~ In bp' (elems t') /\
      last_alloc l1' /\ hd_alloc l2' /\
      no_adj (l1' ++ (bp', sz', false) :: l2')) /\
  out_value (coalesce 69488 gap) 0 = 69440 /\
  mem (out_state (coalesce 69488 gap)) (69440 - 4) = tag (48 + 16 + 32) false /\
  mem (out_state (coalesce 69488 gap)) (69440 + 96 - 8) = tag (48 + 16 + 32) false.
Proof.
  split; [exact (C5_coalesce_table gap gap_before 69488 16 gap_after busy_tree
                   heap_hole_gap no_adj_gap_before no_adj_gap_after)|].
  crunch.
Defined.

Lemma C6_witness :
  exists p st' mid t',
    place 65552 16 hole0 = Ok (p, st') /\
    heap_gen st' ([] ++ mid ++ []) (free_bps ([] ++ mid ++ [])) t' /\
    p = 65552 + (4096 - 16) /\
    mid = [(65552, 4096 - 16, false); (65552 + (4096 - 16), 16, true)] /\
    t' = ins E 65552 (4096 - 16).
Proof.
  apply (C6_place_table hole0 [] 65552 4096 [] E 16 heap_hole0); [lia|reflexivity].
Defined.

Lemma C7_witness : no_adjacent_free spine.
Proof. exact (C7_no_adjacent_free spine_live spine reach_spine). Defined.

Lemma C8_witness :
  mm_malloc 100 spine = Ok (69312, out_state (mm_malloc 100 spine)) /\ 69312 mod 8 = 0.
Proof.
  assert (E0 : mm_malloc 100 spine = Ok (69312, out_state (mm_malloc 100 spine)))
    by (vm_compute; reflexivity).
  split; [exact E0|].
  assert (Hs : 0 < 100) by lia.
  apply (proj1 (C8_malloc_aligned spine_live spine 100 reach_spine Hs) 69312 _ E0).
  discriminate.
Defined.

Lemma C9_witness :
  mm_malloc 64 heap0 = Ok (69576, out_state (mm_malloc 64 heap0)) /\
  byte_at (mem (out_state (mm_malloc 64 heap0))) 69580 = byte_at (mem heap0) 69580.
Proof.
  assert (E : mm_malloc 64 heap0 = Ok (69576, out_state (mm_malloc 64 heap0)))
    by (vm_compute; reflexivity).
  split; [exact E|].
  apply (C9_malloc_frame [] heap0 64 69576 _ reach_heap0); [crunch|exact E|discriminate|lia|].
  left. vm_compute. reflexivity.
Defined.

(** ** C1: a sink that is used up *)

Lemma fresh_sink_one_chunk : fresh sink_one_chunk.
Proof. crunch. Defined.

Lemma fresh_sink_no_chunk : fresh sink_no_chunk.
Proof. crunch. Defined.

Lemma reach_full1 : reachable [(69632, 8)] full1.
Proof.
  apply (reach_malloc supported [] full0 8 69632 full1).
  - apply (reach_init supported sink_one_chunk full0 fresh_sink_one_chunk). vm_compute. reflexivity.
  - crunch.
  - vm_compute. reflexivity.
Defined.

(** C1 fails as stated: with the sink used up, [mm_malloc 5000] returns
    null but [mm_realloc] of a live pointer returns nothing, it ends the
    process; and [mm_init] on a sink without room for the first chunk
    returns -1 after it has written the prologue header. *)
Lemma C1_counterexample :
  reachable [(69632, 8)] full1 /\
  mm_malloc 5000 full1 = Ok (NULL, full1) /\
  (forall st', mm_realloc 69632 5000 full1 <> Ok (NULL, st')) /\
  out_value (mm_init sink_no_chunk) 0 = -1 /\
  mem (out_state (mm_init sink_no_chunk)) 65540 <> mem sink_no_chunk 65540.
Proof.
  split; [exact reach_full1|]. split; [vm_compute; reflexivity|]. split.
  - intros st' H. vm_compute in H. discriminate.
  - split; [vm_compute; reflexivity|]. vm_compute. discriminate.
Qed.

Lemma C1_witness :
  mm_malloc 5000 full1 = Ok (NULL, full1) /\
  mm_realloc 69632 5000 full1 = Exit 1 full1 /\
  exists st',
    mm_init sink_no_chunk = Ok (-1, st') /\ tree_root st' = NULL /\
    forall a, a < mem_brk sink_no_chunk \/ mem_brk sink_no_chunk + 16 <= a ->
              mem st' a = mem sink_no_chunk a.
Proof.
  apply (C1_sink_failure [(69632, 8)] full1 5000 69632 sink_no_chunk reach_full1).
  - crunch.
  - vm_compute. reflexivity.
  - crunch.
  - exact fresh_sink_no_chunk.
  - crunch.
  - crunch.
Defined.

(** ** C2: the copy runs over the old block's tags *)

Lemma reach_heap1 : reachable [(69632, 8)] heap1.
Proof.
  apply (reach_malloc supported [] heap0 8 69632 heap1 reach_heap0).
  - crunch.
  - vm_compute. reflexivity.
Defined.

(** C2 fails as stated: reallocating the 8-byte allocation at 69632 to 16
    bytes copies 16 bytes, the size of the old block, not the 8 bytes of
    its payload: the third word of the new block receives the old block's
    footer, which the reallocation of the claim leaves alone. *)
Lemma C2_counterexample :
  reachable [(69632, 8)] heap1 /\
  mm_realloc 69632 16 heap1 <> realloc_as_claimed 69632 16 heap1.
Proof.
  split; [exact reach_heap1|]. intros H.
  assert (H' : mem (out_state (mm_realloc 69632 16 heap1)) 65560
               = mem (out_state (realloc_as_claimed 69632 16 heap1)) 65560)
    by (rewrite H; reflexivity).
  vm_compute in H'. discriminate.
Qed.

Lemma C2_witness :
  (mm_malloc 16 heap1 = Ok (NULL, heap1) /\ mm_realloc 69632 16 heap1 = Exit 1 heap1) \/
  (exists newp st1 st' l' t' sz,
      mm_malloc 16 heap1 = Ok (newp, st1) /\ newp <> NULL /\
      mm_realloc 69632 16 heap1 = Ok (newp, st') /\
      heap_inv st' l' t' /\ In (newp, sz, true) l' /\ 16 + 8 <= sz /\
      (forall s, ~ In (69632, s, true) l') /\
      8 + 8 <= hdr_size heap1 69632 /\
      (forall i, 0 <= i < Z.min 16 (hdr_size heap1 69632) ->
                 byte_at (mem st') (newp + i) = byte_at (mem st1) (69632 + i)) /\
      (forall i, Z.min 16 (hdr_size heap1 69632) <= i < sz - 8 ->
                 byte_at (mem st') (newp + i) = byte_at (mem st1) (newp + i)) /\
      (forall i, 0 <= i < Z.min 16 (hdr_size heap1 69632 - 8) ->
                 byte_at (mem st') (newp + i) = byte_at (mem heap1) (69632 + i))).
Proof.
  apply (C2_realloc_copies_block_size [(69632, 8)] heap1 69632 8 16 reach_heap1).
  - simpl. auto.
  - crunch.
Defined.

(** ** C7: a request that wraps around *)

Lemma reach_any_heap1 : reachable_with any_size [(69632, 8)] heap1.
Proof. exact (reachable_with_mono _ _ _ _ supported_any reach_heap1). Defined.

Lemma reach_wrap2 : reachable_with any_size [(65552, 4294967295); (69632, 8)] wrap2.
Proof.
  apply (reach_malloc any_size [(69632, 8)] heap1 4294967295 65552 wrap2 reach_any_heap1).
  - crunch.
  - vm_compute. reflexivity.
Defined.

Lemma reach_wrapped : reachable_with any_size [(65560, 4064); (69632, 8)] wrapped.
Proof.
  apply (reach_free any_size [(65560, 4064); (65552, 4294967295); (69632, 8)]
                    wrap3 65552 4294967295 wrapped).
  - apply (reach_malloc any_size [(65552, 4294967295); (69632, 8)] wrap2 4064 65560 wrap3
             reach_wrap2).
    + crunch.
    + vm_compute. reflexivity.
  - simpl. auto.
  - vm_compute. reflexivity.
Defined.

(** C7 fails as stated: after [mm_init], [mm_malloc 8],
    [p = mm_malloc 4294967295], [mm_malloc 4064] and [mm_free p], the free
    block at [p = 65552] is followed by a header whose allocation flag
    is 0. *)
Lemma C7_counterexample :
  reachable_with any_size [(65560, 4064); (69632, 8)] wrapped /\
  ~ no_adjacent_free wrapped.
Proof.
  split; [exact reach_wrapped|]. intros H.
  assert (W : heap_block wrapped 65552).
  { replace 65552 with (heap_listp wrapped + hdr_size wrapped (heap_listp wrapped))
      by (vm_compute; reflexivity).
    apply hb_first. }
  destruct (H 65552 W) as (_ & Hn).
  - vm_compute. discriminate.
  - vm_compute. reflexivity.
  - vm_compute in Hn. discriminate.
Qed.

(** ** C8: a block that is handed out and stays in the index *)

Lemma reach_zero3 : reachable_with any_size [(65552, 4294967281); (69632, 8)] zero3.
Proof.
  assert (R2 : reachable_with any_size [(65552, 4294967281); (69632, 8)] zero2).
  { apply (reach_malloc any_size [(69632, 8)] heap1 4294967281 65552 zero2 reach_any_heap1).
    - crunch.
    - vm_compute. reflexivity. }
  unfold zero3, store.
  apply (reach_store any_size _ _ 65552 4294967281); [|simpl; auto|lia|reflexivity].
  apply (reach_store any_size _ _ 65552 4294967281); [|simpl; auto|lia|reflexivity].
  apply (reach_store any_size _ _ 65552 4294967281); [|simpl; auto|lia|reflexivity].
  apply (reach_store any_size _ _ 65552 4294967281); [|simpl; auto|lia|reflexivity].
  exact R2.
Defined.

(** C8 fails as stated: after [mm_init], [mm_malloc 8],
    [p = mm_malloc 4294967281] and four stores of the client into the
    allocation at [p], [mm_malloc 4080] follows the right link that the
    client has written and returns 65564, which is not a multiple of 8. *)
Lemma C8_counterexample :
  reachable_with any_size [(65552, 4294967281); (69632, 8)] zero3 /\
  mm_malloc 4080 zero3 = Ok (65564, out_state (mm_malloc 4080 zero3)) /\
  65564 <> NULL /\ 65564 mod 8 <> 0.
Proof.
  split; [exact reach_zero3|]. split; [vm_compute; reflexivity|].
  split; [discriminate|]. vm_compute. discriminate.
Qed.

(** ** C9: growing the heap behind a free block *)

Lemma reach_grow3 : reachable [(65624, 4000); (65552, 8)] grow3.
Proof.
  apply (reach_free supported [(65624, 4000); (65552, 8); (69632, 8)] grow2 69632 8 grow3).
  - apply (reach_malloc supported [(65552, 8); (69632, 8)] grow1 4000 65624 grow2).
    + apply (reach_malloc supported [(69632, 8)] heap1 8 65552 grow1 reach_heap1).
      * crunch.
      * vm_compute. reflexivity.
    + crunch.
    + vm_compute. reflexivity.
  - simpl. auto.
  - vm_compute. reflexivity.
Defined.

(** C9 fails as stated: in the state reached by [mm_init], three
    allocations and one free, [mm_malloc 5000] extends the heap, merges the
    new block with the free block at the end and returns that block; the
    word at 69644 of the returned payload, where the epilogue was, has been
    rewritten.  And a request of 4294967295 bytes, adjusted to 8 bytes,
    gets a block whose footer is the first word of the payload. *)
Lemma C9_counterexample :
  reachable [(65624, 4000); (65552, 8)] grow3 /\
  mm_malloc 5000 grow3 = Ok (69632, out_state (mm_malloc 5000 grow3)) /\
  ~ payload_untouched grow3 (out_state (mm_malloc 5000 grow3)) 69632 5000 /\
  mm_malloc 4294967295 heap1 = Ok (65552, wrap2) /\
  ~ payload_untouched heap1 wrap2 65552 4294967295.
Proof.
  split; [exact reach_grow3|]. split; [vm_compute; reflexivity|]. split.
  - intros H.
    assert (Hr : 69632 <= 69644 < 69632 + 5000) by lia.
    specialize (H 69644 Hr). vm_compute in H. discriminate.
  - split; [vm_compute; reflexivity|]. intros H.
    assert (Hr : 65552 <= 65552 < 65552 + 4294967295) by lia.
    specialize (H 65552 Hr). vm_compute in H. discriminate.
Qed.

(** ** Further runs *)

Lemma X1_witness : mm_checkheap 0 heap1 = Ok ([], heap1).
Proof. exact (X1_checkheap_silent [(69632, 8)] heap1 reach_heap1). Defined.

Lemma X2_witness :
  exists l,
    mm_checkheap 1 heap1 = Ok (listing heap1 l, heap1) /\
    chain (heap_listp heap1 + 8) l (mem_brk heap1) /\
    Forall (fun x => 16 <= sz_of x) l /\
    forall p n, In (p, n) [(69632, 8)] -> exists sz, In (p, sz, true) l /\ n + 8 <= sz.
Proof.
  apply (X2_checkheap_listing [(69632, 8)] heap1 1 reach_heap1). discriminate.
Defined.

Lemma X3_witness : heap0 = heap0 /\ (quiet [] -> checked_clean heap0).
Proof.
  apply (X3_checkheap_sound 0 heap0 [] heap0). vm_compute. reflexivity.
Defined.

Lemma X4_witness :
  mm_checkheap 0 (store heap1 (69632 + hdr_size heap1 69632 - 8) 0)
  = Ok ([Tag_mismatch], store heap1 (69632 + hdr_size heap1 69632 - 8) 0).
Proof.
  apply (X4_checkheap_finds_overrun [(69632, 8)] heap1 69632 8 0 reach_heap1).
  - simpl. auto.
  - vm_compute. discriminate.
Defined.

Lemma X5_witness :
  exists st, mm_init sink0 = Ok (0, st) /\ mem_brk st = 65536 + 16 + CHUNKSIZE /\
             tree_root st = 65536 + 16.
Proof.
  assert (Hm : mem_brk sink0 + 16 + CHUNKSIZE <= mem_max_addr sink0)
    by (vm_compute; discriminate).
  destruct (X5_init_layout sink0 fresh_sink0 Hm)
    as (st & E0 & _ & Hb & _ & _ & Hr & _).
  exists st. auto.
Defined.

Lemma X6_witness : mm_init sink_tiny = Fault.
Proof. apply X6_init_sink_refuses; [reflexivity|vm_compute; reflexivity]. Defined.

Lemma malloc64_heap1 :
  mm_malloc 64 heap1 = Ok (65552, out_state (mm_malloc 64 heap1)).
Proof. vm_compute. reflexivity. Qed.

Lemma supported_64 : 0 < 64 <= MAX_REQUEST.
Proof. unfold MAX_REQUEST, INT_MAX1. lia. Qed.

Lemma X7_witness :
  heap_listp (out_state (mm_malloc 64 heap1)) + 8 <= 65552 /\
  65552 + 64 <= mem_brk (out_state (mm_malloc 64 heap1)) - 8 /\
  (forall q n, In (q, n) [(69632, 8)] -> q + n <= 65552 \/ 65552 + 64 <= q) /\
  (forall q n a, In (q, n) [(69632, 8)] -> q <= a < q + n ->
                 byte_at (mem (out_state (mm_malloc 64 heap1))) a = byte_at (mem heap1) a) /\
  mem_brk heap1 <= mem_brk (out_state (mm_malloc 64 heap1)) <= mem_max_addr heap1.
Proof.
  apply (X7_malloc_fresh_block [(69632, 8)] heap1 64 65552 _ reach_heap1 supported_64
                               malloc64_heap1).
  discriminate.
Defined.

Lemma supported_100 : 0 < 100 <= MAX_REQUEST.
Proof. unfold MAX_REQUEST, INT_MAX1. lia. Qed.

Lemma supported_5000 : 0 < 5000 <= MAX_REQUEST.
Proof. unfold MAX_REQUEST, INT_MAX1. lia. Qed.

Lemma malloc100_spine :
  mm_malloc 100 spine = Ok (69312, out_state (mm_malloc 100 spine)).
Proof. vm_compute. reflexivity. Qed.

Lemma malloc5000_spine :
  mm_malloc 5000 spine = Ok (69648, out_state (mm_malloc 5000 spine)).
Proof. vm_compute. reflexivity. Qed.

Lemma nonnull_69312 : 69312 <> NULL.
Proof. discriminate. Qed.

(** On [spine] a request of 100 bytes gets the free block of 112 bytes at
    69312, which is not split. *)
Lemma X8_witness :
  hdr_alloc (out_state (mm_malloc 100 spine)) 69312 = 1 /\
  adjust 100 <= hdr_size (out_state (mm_malloc 100 spine)) 69312 < adjust 100 + 48 /\
  100 + 8 <= hdr_size (out_state (mm_malloc 100 spine)) 69312 /\
  mem (out_state (mm_malloc 100 spine))
      (69312 + hdr_size (out_state (mm_malloc 100 spine)) 69312 - 8)
  = mem (out_state (mm_malloc 100 spine)) (69312 - 4).
Proof.
  exact (X8_malloc_block_size spine_live spine 100 69312 _ reach_spine supported_100
                              malloc100_spine nonnull_69312).
Defined.

(** On [spine] a request of 100 bytes is served from the heap as it is;
    one of 5000 bytes, which no free block can hold, makes the heap grow
    by 5008 bytes. *)
Lemma X9_witness :
  (let asize := adjust 100 in
   (has_fit spine asize ->
    69312 <> NULL /\ mem_brk (out_state (mm_malloc 100 spine)) = mem_brk spine) /\
   (~ has_fit spine asize -> mem_brk spine + MAX asize CHUNKSIZE <= mem_max_addr spine ->
    69312 <> NULL /\
    mem_brk (out_state (mm_malloc 100 spine)) = mem_brk spine + MAX asize CHUNKSIZE) /\
   (~ has_fit spine asize -> mem_max_addr spine < mem_brk spine + MAX asize CHUNKSIZE ->
    69312 = NULL /\ out_state (mm_malloc 100 spine) = spine)) /\
  (let asize := adjust 5000 in
   (has_fit spine asize ->
    69648 <> NULL /\ mem_brk (out_state (mm_malloc 5000 spine)) = mem_brk spine) /\
   (~ has_fit spine asize -> mem_brk spine + MAX asize CHUNKSIZE <= mem_max_addr spine ->
    69648 <> NULL /\
    mem_brk (out_state (mm_malloc 5000 spine)) = mem_brk spine + MAX asize CHUNKSIZE) /\
   (~ has_fit spine asize -> mem_max_addr spine < mem_brk spine + MAX asize CHUNKSIZE ->
    69648 = NULL /\ out_state (mm_malloc 5000 spine) = spine)) /\
  mem_brk (out_state (mm_malloc 100 spine)) = mem_brk spine /\
  mem_brk (out_state (mm_malloc 5000 spine)) = mem_brk spine + 5008.
Proof.
  split; [exact (X9_malloc_growth spine_live spine 100 69312 _ reach_spine supported_100
                   malloc100_spine)|].
  split; [exact (X9_malloc_growth spine_live spine 5000 69648 _ reach_spine supported_5000
                   malloc5000_spine)|].
  crunch.
Defined.

Lemma in_live1 : In (69632, 8) [(69632, 8)].
Proof. simpl. auto. Qed.

Lemma X10_witness :
  exists st',
    mm_free 69632 heap1 = Ok (tt, st') /\
    mem_brk st' = mem_brk heap1 /\
    (exists bp, free_block st' bp /\ linked (mem st') (tree_root st') bp /\
                bp <= 69632 /\ 69632 + hdr_size heap1 69632 <= bp + hdr_size st' bp) /\
    (forall q m a, In (q, m) [(69632, 8)] -> q <> 69632 -> q <= a < q + m ->
                   byte_at (mem st') a = byte_at (mem heap1) a).
Proof. exact (X10_free_frame [(69632, 8)] heap1 69632 8 reach_heap1 in_live1). Defined.

Lemma X11_witness :
  exists q st2,
    mm_malloc 5 (out_state (mm_free 69632 heap1)) = Ok (q, st2) /\ q <> NULL /\
    mem_brk st2 = mem_brk heap1.
Proof.
  apply (X11_free_then_malloc [(69632, 8)] heap1 69632 8 _ 5 reach_heap1 in_live1).
  - vm_compute. reflexivity.
  - lia.
Defined.

Lemma realloc16_heap1 :
  mm_realloc 69632 16 heap1
  = Ok (out_value (mm_realloc 69632 16 heap1) 0, out_state (mm_realloc 69632 16 heap1)).
Proof. vm_compute. reflexivity. Qed.

Lemma X13_witness :
  out_value (mm_realloc 69632 16 heap1) 0 <> 69632.
Proof.
  assert (Hs : 0 < 16 <= MAX_REQUEST) by (unfold MAX_REQUEST, INT_MAX1; lia).
  apply (X13_realloc_moves [(69632, 8)] heap1 69632 8 16 _ _ reach_heap1 in_live1 Hs
                           realloc16_heap1).
Defined.

Lemma X14_witness :
  linked (mem heap0) (tree_root heap0) 65552 <-> free_block heap0 65552.
Proof. exact (X14_index_is_free_blocks [] heap0 65552 reach_heap0). Defined.

(** After three allocations and the three frees, which merge the blocks
    forwards, not at all, and on both sides, the first chunk is one free
    block again. *)
Lemma X15_witness :
  let b := mem_start_brk drained + 16 in
  let sz := mem_brk drained - b in
  tree_root drained = b /\ mem drained b = NULL /\ mem drained (b + 4) = NULL /\
  mem drained (b - 4) = PACK sz 0 /\ mem drained (mem_brk drained - 8) = PACK sz 0 /\
  heap_inv drained [(b, sz, false)] (T E b sz E).
Proof. exact (X15_all_freed_one_block drained reach_drained). Defined.

Lemma node_65600 : node_ok heap0 65600.
Proof. unfold node_ok. vm_compute. repeat split; discriminate. Qed.

Lemma far_65600 : forall q, In q (elems tree0) -> far 65600 q.
Proof. intros q [<-|[]]. unfold far. lia. Qed.

Lemma X16_witness :
  exists r1 st1 st2,
    mm_insert (root_of tree0) 65600 heap0 = Ok (r1, st1) /\
    mm_remove r1 65600 st1 = Ok (root_of tree0, st2) /\
    tree_ok st2 tree0 /\
    mem st2 65600 = NULL /\ mem st2 (65600 + 4) = NULL /\
    forall a, a <> 65600 -> a <> 65600 + 4 -> mem st2 a = mem heap0 a.
Proof.
  apply (X16_insert_then_remove heap0 tree0 65600 bounds_heap0 tree_ok_heap0 node_65600).
  - discriminate.
  - exact far_65600.
Defined.

Lemma spine_tree_nonempty : spine_tree <> E.
Proof. discriminate. Qed.

(** On the index of [spine] the largest block, 65680, is two steps to the
    right of the root. *)
Lemma X17_witness :
  (exists p,
      mm_replace (root_of spine_tree) spine = Ok (p, spine) /\ In p (elems spine_tree) /\
      mem spine (p + 4) = NULL /\
      forall q, In q (elems spine_tree) -> key (mem spine) q <= key (mem spine) p) /\
  mm_replace (root_of spine_tree) spine = Ok (65680, spine) /\
  root_of spine_tree = 69552 /\ mem spine (69552 + 4) = 69312 /\
  mem spine (69312 + 4) = 65680.
Proof.
  split; [exact (X17_replace_finds_largest spine spine_tree bounds_spine tree_ok_spine
                   spine_tree_nonempty)|].
  crunch.
Defined.

Lemma node_gap : node_ok gap 69488.
Proof. crunch. Qed.

Lemma far_gap : forall q, In q (elems busy_tree) -> far 69488 q.
Proof.
  intros q Hq. simpl in Hq. unfold far.
  repeat (destruct Hq as [<-|Hq]; [lia|]). contradiction.
Qed.

Lemma nonnull_gap : 69488 <> NULL.
Proof. discriminate. Qed.

(** The free block at 69488 of [gap], which is not in the index, is
    inserted below three nodes; the node 69552 of [busy], which has a
    parent and two children, is removed. *)
Lemma X18_witness :
  (exists r m',
      mm_insert (root_of busy_tree) 69488 gap = Ok (r, set_mem gap m') /\
      (forall q, linked m' r q <-> q = 69488 \/ linked (mem gap) (root_of busy_tree) q) /\
      (forall a, a <> 69488 -> a <> 69488 + 4 ->
                 (forall q, linked (mem gap) (root_of busy_tree) q -> a <> q /\ a <> q + 4) ->
                 m' a = mem gap a)) /\
  (exists r m',
      mm_remove (root_of busy_tree) 69552 busy = Ok (r, set_mem busy m') /\
      (forall q, linked m' r q <-> q <> 69552 /\ linked (mem busy) (root_of busy_tree) q) /\
      (forall a, (forall q, linked (mem busy) (root_of busy_tree) q -> a <> q /\ a <> q + 4) ->
                 m' a = mem busy a)).
Proof.
  split.
  - exact (proj1 (X18_index_membership gap busy_tree 69488 bounds_gap tree_ok_gap)
                 node_gap nonnull_gap far_gap).
  - exact (proj2 (X18_index_membership busy busy_tree 69552 bounds_busy tree_ok_busy)
                 in_busy_tree).
Defined.

Lemma words_5 : 4 <= 5.
Proof. lia. Qed.

Lemma words_5_max : 4 * (5 + 1) < INT_MAX1.
Proof. unfold INT_MAX1. lia. Qed.

(** On [spine], whose last block is allocated, five words are rounded up
    to six, and the new block of 24 bytes starts where the epilogue was. *)
Lemma X19_witness :
  (let size := 4 * (5 + 5 mod 2) in
   (mem_max_addr spine < mem_brk spine + size -> extend_heap 5 spine = Ok (NULL, spine)) /\
   (mem_brk spine + size <= mem_max_addr spine ->
    exists bp st',
      extend_heap 5 spine = Ok (bp, st') /\
      mem_brk st' = mem_brk spine + size /\
      bp mod 8 = 0 /\ hdr_alloc st' bp = 0 /\ size <= hdr_size st' bp /\
      bp + hdr_size st' bp = mem_brk st' /\
      mem st' (mem_brk st' - 8) = mem st' (bp - 4) /\
      mem st' (mem_brk st' - 4) = PACK 0 1 /\
      prev_ftr_alloc st' bp = 1 /\
      ~ linked (mem st') (tree_root st') bp)) /\
  out_value (extend_heap 5 spine) 0 = mem_brk spine /\
  mem_brk (out_state (extend_heap 5 spine)) = mem_brk spine + 24.
Proof.
  split; [exact (X19_extend_heap spine_live spine 5 reach_spine words_5 words_5_max)|].
  crunch.
Defined.

Lemma supported_0_100 : 0 <= 100 <= MAX_REQUEST.
Proof. unfold MAX_REQUEST, INT_MAX1. lia. Qed.

Lemma X20_witness :
  (mm_free NULL spine = Fault /\
   (mm_realloc NULL 100 spine = Fault \/ mm_realloc NULL 100 spine = Exit 1 spine)) /\
  mm_realloc NULL 100 spine = Fault.
Proof.
  split; [exact (X20_null_pointer spine_live spine 100 reach_spine supported_0_100)|].
  crunch.
Defined.

Lemma X21_witness :
  mm_parent (root_of tree0) 65600 heap0 = Fault /\
  mm_remove (root_of tree0) 65600 heap0 = Fault.
Proof.
  apply (X21_remove_missing heap0 tree0 65600 bounds_heap0).
  - vm_compute. reflexivity.
  - exact tree_ok_heap0.
  - exact node_65600.
  - discriminate.
  - intros [Hq|[]]. discriminate.
Defined.

Lemma heap_inv_heap0 : heap_inv heap0 [(65552, 4096, false)] tree0.
Proof.
  assert (Hm : mem_brk sink0 + 16 + CHUNKSIZE <= mem_max_addr sink0)
    by (vm_compute; discriminate).
  destruct (mm_init_ok sink0 fresh_sink0 Hm) as (st & E0 & H).
  assert (Es : st = heap0) by (unfold heap0; rewrite E0; reflexivity).
  rewrite <- Es. exact H.
Qed.

Lemma free_block_heap0 : free_block heap0 65552.
Proof.
  destruct heap_inv_heap0 as (H & _). apply (free_block_iff _ _ _ _ _ H).
  exists 4096. simpl. auto.
Qed.

Lemma X22_witness :
  mm_checkheap 0 (set_tree_root (store heap0 65552 12345) 0)
  = Ok ([], set_tree_root (store heap0 65552 12345) 0).
Proof.
  apply (X22_checkheap_ignores_index [] heap0 65552 65552 12345 0 reach_heap0
                                     free_block_heap0).
  left. reflexivity.
Defined.

(** On [spine] a request of 100 adjusted bytes is found one step to the
    right of the root, one of 3000 at the end of the right spine, and one
    of 5000 is not found. *)
Lemma X23_witness :
  (exists bp,
      mm_fitter (tree_root spine) 100 spine = Ok (bp, spine) /\
      (bp = NULL <-> ~ has_fit spine 100) /\
      (bp <> NULL -> free_block spine bp /\ 100 <= hdr_size spine bp)) /\
  (exists bp,
      mm_fitter (tree_root spine) 3000 spine = Ok (bp, spine) /\
      (bp = NULL <-> ~ has_fit spine 3000) /\
      (bp <> NULL -> free_block spine bp /\ 3000 <= hdr_size spine bp)) /\
  (exists bp,
      mm_fitter (tree_root spine) 5000 spine = Ok (bp, spine) /\
      (bp = NULL <-> ~ has_fit spine 5000) /\
      (bp <> NULL -> free_block spine bp /\ 5000 <= hdr_size spine bp)) /\
  mm_fitter (tree_root spine) 100 spine = Ok (69312, spine) /\
  mm_fitter (tree_root spine) 3000 spine = Ok (65680, spine) /\
  mm_fitter (tree_root spine) 5000 spine = Ok (NULL, spine).
Proof.
  split; [exact (X23_fitter_on_heap spine_live spine 100 reach_spine)|].
  split; [exact (X23_fitter_on_heap spine_live spine 3000 reach_spine)|].
  split; [exact (X23_fitter_on_heap spine_live spine 5000 reach_spine)|].
  crunch.
Defined.

Lemma X24_witness :
  used_block heap1 69632 <-> exists n, In (69632, n) [(69632, 8)].
Proof. exact (X24_used_blocks_are_live [(69632, 8)] heap1 69632 reach_heap1). Defined.

Lemma X25_witness :
  hdr_alloc heap1 69632 = 1 /\ 8 + 8 <= hdr_size heap1 69632.
Proof.
  destruct (X25_live_allocations [(69632, 8)] heap1 reach_heap1) as (_ & Hl & _).
  destruct (Hl 69632 8 in_live1) as (_ & Ha & _ & Hs & _). auto.
Defined.
